(** * Goal Ball server: a shallow embedding of the authoritative simulation

    The server part of [src/public/client.js] (the constants, the entity
    factory, [update], [broadcastState] and the connection handlers) is
    embedded here as Rocq functions.

    - JavaScript numbers are IEEE 754 binary64 values: coordinates and input
      directions are primitive floats, so every definition below evaluates to
      the very number the server would compute, NaN included.
    - [score] only ever holds 0, 1, 2, ...; it is kept as an integer and the
      one place where binary64 addition stops being exact (2^53) is written
      out in [JS.incr].
    - The two [Map]s iterate in insertion order and are always keyed by the
      [id] field of the stored object, so a map is the list of its objects in
      insertion order.
    - [Math.random], [uuidv4] and the number that a string, or the elements
      of an array, spell belong to the runtime: they are fields of a
      [Runtime] record, the k-th call of [Math.random] or [uuidv4] returning
      the k-th draw.
    - The socket [ws] stored with a player only decides who receives a
      message; the handlers are functions from an event and a state to the
      next state and the outputs ([ws.send], [console.error]), and
      [broadcastState] is the payload it serialises. *)

From Stdlib Require Import ZArith List String Bool Lia PeanoNat.
From Stdlib Require Import Floats.
Import ListNotations.

Set Implicit Arguments.

(** ** JavaScript numbers *)

Module JS.

Local Open Scope float_scope.

(** [x === -0] told apart from [+0], as [Math.max] and [Math.min] do. *)
Definition is_neg_zero (a : float) : bool := is_zero a && get_sign a.

(** [Math.max(a, b)]: NaN if either is NaN, and [+0] is larger than [-0]. *)
Definition Math_max (a b : float) : float :=
  if is_nan a || is_nan b then nan
  else if a <? b then b
  else if b <? a then a
  else if is_neg_zero a then b else a.

(** [Math.min(a, b)]: NaN if either is NaN, and [-0] is smaller than [+0]. *)
Definition Math_min (a b : float) : float :=
  if is_nan a || is_nan b then nan
  else if a <? b then a
  else if b <? a then b
  else if is_neg_zero a then a else b.

Definition Math_abs (a : float) : float := abs a.
Definition Math_sqrt (a : float) : float := sqrt a.

(** [a !== b] on two numbers. *)
Definition strict_neq (a b : float) : bool := negb (a =? b).

(** Truthiness of a number: everything but [0], [-0] and NaN. *)
Definition truthy_num (a : float) : bool := negb (is_zero a) && negb (is_nan a).

(** [a || b] on numbers. *)
Definition or_num (a b : float) : float := if truthy_num a then a else b.

(** [x ** 2]; the server squares the constants 8 and 10 only, where the
    power is exact. *)
Definition sqr (a : float) : float := a * a.

(** [n + 1] on a number that holds a non-negative integer: exact below
    2^53, where binary64 addition of 1 rounds back to the same value. *)
Definition incr (n : Z) : Z := if (n <? 2 ^ 53)%Z then (n + 1)%Z else n.

(** Truthiness of a value that is [null] or a string. *)
Definition truthy (o : option string) : bool :=
  match o with
  | Some s => negb (String.eqb s EmptyString)
  | None => false
  end.

(** Parsed JSON values, with [undefined] for what a property read of a
    missing field yields. *)
#[local] Unset Elimination Schemes.
Inductive value : Type :=
| Undefined
| Null
| Boolean (b : bool)
| Number (f : float)
| Str (s : string)
| Array (l : list value)
| Object (fields : list (string * value)).
#[local] Set Elimination Schemes.

(** [v[k]] for a parsed JSON value: own properties of an object, and
    [undefined] on every other non-null value ([null] throws, see
    [onMessage]). The keys the server reads are never array indices. *)
Fixpoint get_field (k : string) (fields : list (string * value)) : value :=
  match fields with
  | [] => Undefined
  | (k', v) :: rest => if String.eqb k k' then v else get_field k rest
  end.

Definition get (v : value) (k : string) : value :=
  match v with
  | Object fields => get_field k fields
  | _ => Undefined
  end.

(** Whether the object has an own property [k]. *)
Fixpoint has_field (k : string) (fields : list (string * value)) : bool :=
  match fields with
  | [] => false
  | (k', _) :: rest => String.eqb k k' || has_field k rest
  end.

(** Whether converting a parsed JSON value to a primitive throws a
    TypeError. A parsed object inherits [valueOf], which returns the object
    itself, and [toString], which returns a string; an own property
    [toString] hides the inherited function and is never a function, so no
    method yields a primitive. An array is converted by [join], which
    converts every element but [null]. *)
Fixpoint unconvertible (v : value) : bool :=
  match v with
  | Object fields => has_field "toString" fields
  | Array l =>
      (fix any (l : list value) : bool :=
         match l with
         | [] => false
         | v :: rest => unconvertible v || any rest
         end) l
  | _ => false
  end.

End JS.

(** ** Configuration constants *)

Definition WORLD_WIDTH : float := 800.
Definition WORLD_HEIGHT : float := 600.
Definition PLAYER_SPEED : float := 3.
Definition BALL_RADIUS : float := 3.
Definition PLAYER_RADIUS : float := 5.
Definition BALL_COUNT : nat := 5.
Definition GOAL_WIDTH : float := 60.
Definition GOAL_DEPTH : float := 20.

Inductive Team : Type := TeamLeft | TeamRight.

Definition TEAMS : list Team := [TeamLeft; TeamRight].

Definition Team_eqb (a b : Team) : bool :=
  match a, b with
  | TeamLeft, TeamLeft | TeamRight, TeamRight => true
  | _, _ => false
  end.

(** ** The runtime *)

Record Runtime : Type := {
  (** the k-th result of [Math.random()] *)
  random : nat -> float;
  (** the k-th result of [uuidv4()] *)
  uuidv4 : nat -> string;
  (** [Number(s)] for a string *)
  StringToNumber : string -> float;
  (** [Number(v)] for an array whose conversion does not throw: the number
      its elements, joined by commas, spell *)
  ArrayToNumber : JS.value -> float
}.

(** ** Entities *)

Module Ball.
Record t : Type := {
  id : string;
  x : float;
  y : float;
  carriedBy : option string
}.

Definition set_pos (b : t) (nx ny : float) : t :=
  {| id := id b; x := nx; y := ny; carriedBy := carriedBy b |}.

Definition set_carriedBy (b : t) (c : option string) : t :=
  {| id := id b; x := x b; y := y b; carriedBy := c |}.
End Ball.

Module Player.
Record t : Type := {
  id : string;
  team : Team;
  x : float;
  y : float;
  dirX : float;
  dirY : float;
  score : Z;
  carryingBallId : option string
}.

Definition set_pos (p : t) (nx ny : float) : t :=
  {| id := id p; team := team p; x := nx; y := ny; dirX := dirX p;
     dirY := dirY p; score := score p; carryingBallId := carryingBallId p |}.

Definition set_dir (p : t) (dx dy : float) : t :=
  {| id := id p; team := team p; x := x p; y := y p; dirX := dx;
     dirY := dy; score := score p; carryingBallId := carryingBallId p |}.

Definition set_score (p : t) (s : Z) : t :=
  {| id := id p; team := team p; x := x p; y := y p; dirX := dirX p;
     dirY := dirY p; score := s; carryingBallId := carryingBallId p |}.

Definition set_carrying (p : t) (c : option string) : t :=
  {| id := id p; team := team p; x := x p; y := y p; dirX := dirX p;
     dirY := dirY p; score := score p; carryingBallId := c |}.
End Player.

(** ** Insertion-ordered maps keyed by the object's id *)

Section IdMap.
Variable A : Type.
Variable key : A -> string.

(** [m.get(k)] *)
Fixpoint map_get (k : string) (m : list A) : option A :=
  match m with
  | [] => None
  | a :: rest => if String.eqb (key a) k then Some a else map_get k rest
  end.

(** [m.delete(k)] *)
Fixpoint map_delete (k : string) (m : list A) : list A :=
  match m with
  | [] => []
  | a :: rest => if String.eqb (key a) k then rest else a :: map_delete k rest
  end.

(** [m.set(key v, v)]: an existing key keeps its place, a new one goes last. *)
Fixpoint map_set (v : A) (m : list A) : list A :=
  match m with
  | [] => [v]
  | a :: rest => if String.eqb (key a) (key v) then v :: rest else a :: map_set v rest
  end.

(** In-place mutation of the object stored under [k] (no-op if absent). *)
Fixpoint map_update (k : string) (f : A -> A) (m : list A) : list A :=
  match m with
  | [] => []
  | a :: rest => if String.eqb (key a) k then f a :: rest else a :: map_update k f rest
  end.
End IdMap.

(** In-place mutation of the i-th element of an array. *)
Fixpoint set_nth (A : Type) (i : nat) (f : A -> A) (l : list A) : list A :=
  match l, i with
  | [], _ => []
  | a :: rest, O => f a :: rest
  | a :: rest, S i' => a :: set_nth i' f rest
  end.

(** ** Game state *)

Record State : Type := {
  players : list Player.t;
  balls : list Ball.t;
  nextTeamIndex : Z;
  (** how many times [Math.random] and [uuidv4] have been called so far *)
  randoms_used : nat;
  uuids_used : nat
}.

(** ** Geometry and entity factory *)

Section Server.

Variable rt : Runtime.

Local Open Scope float_scope.

(** [randInField()], on the two draws it takes from [Math.random]. *)
Definition randInField (r1 r2 : float) : float * float :=
  (r1 * WORLD_WIDTH - WORLD_WIDTH / 2, r2 * WORLD_HEIGHT - WORLD_HEIGHT / 2).

(** [createBall()] when [nr] random numbers and [nu] uuids were drawn before. *)
Definition createBall (nr nu : nat) : Ball.t :=
  let pos := randInField (random rt nr) (random rt (S nr)) in
  {| Ball.id := uuidv4 rt nu;
     Ball.x := fst pos;
     Ball.y := snd pos;
     Ball.carriedBy := None |}.

Definition createPlayer (id : string) (team : Team) : Player.t :=
  let spawnX :=
    if Team_eqb team TeamLeft then - WORLD_WIDTH / 2 + 40 else WORLD_WIDTH / 2 - 40 in
  let spawnY := 0 in
  {| Player.id := id;
     Player.team := team;
     Player.x := spawnX;
     Player.y := spawnY;
     Player.dirX := 0;
     Player.dirY := 0;
     Player.score := 0%Z;
     Player.carryingBallId := None |}.

Definition isInGoal (team : Team) (x y : float) : bool :=
  if Team_eqb team TeamLeft then
    (x <? - WORLD_WIDTH / 2 + GOAL_DEPTH) && (JS.Math_abs y <? GOAL_WIDTH / 2)
  else
    (WORLD_WIDTH / 2 - GOAL_DEPTH <? x) && (JS.Math_abs y <? GOAL_WIDTH / 2).

Definition dist2 (x1 y1 x2 y2 : float) : float :=
  let dx := x1 - x2 in
  let dy := y1 - y2 in
  dx * dx + dy * dy.

(** ** [update]: the first loop (move, carried ball follows, scoring) *)

Definition clampX (v : float) : float :=
  JS.Math_max (- WORLD_WIDTH / 2 + PLAYER_RADIUS)
              (JS.Math_min (WORLD_WIDTH / 2 - PLAYER_RADIUS) v).

Definition clampY (v : float) : float :=
  JS.Math_max (- WORLD_HEIGHT / 2 + PLAYER_RADIUS)
              (JS.Math_min (WORLD_HEIGHT / 2 - PLAYER_RADIUS) v).

Definition move (p : Player.t) : Player.t :=
  if JS.strict_neq (Player.dirX p) 0 || JS.strict_neq (Player.dirY p) 0 then
    let mag := JS.Math_sqrt (Player.dirX p * Player.dirX p + Player.dirY p * Player.dirY p) in
    let nx := Player.dirX p / mag in
    let ny := Player.dirY p / mag in
    let x1 := Player.x p + nx * PLAYER_SPEED in
    let y1 := Player.y p + ny * PLAYER_SPEED in
    Player.set_pos p (clampX x1) (clampY y1)
  else p.

Definition follow (p : Player.t) (bs : list Ball.t) : list Ball.t :=
  match Player.carryingBallId p with
  | Some bid =>
      if JS.truthy (Some bid)
      then map_update Ball.id bid (fun ball => Ball.set_pos ball (Player.x p) (Player.y p)) bs
      else bs
  | None => bs
  end.

(** What the loops of [update] thread along: the balls map and the
    counters of the runtime draws. *)
Record Pool : Type := {
  pool_balls : list Ball.t;
  pool_randoms : nat;
  pool_uuids : nat
}.

Definition scoring (p : Player.t) (w : Pool) : Player.t * Pool :=
  if JS.truthy (Player.carryingBallId p)
     && isInGoal (Player.team p) (Player.x p) (Player.y p)
  then
    let p1 := Player.set_score p (JS.incr (Player.score p)) in
    let scoredBallId := Player.carryingBallId p1 in
    let p2 := Player.set_carrying p1 None in
    match scoredBallId with
    | Some bid =>
        match map_get Ball.id bid (pool_balls w) with
        | Some oldBall =>
            let bs := map_delete Ball.id bid (pool_balls w) in
            let newBall := createBall (pool_randoms w) (pool_uuids w) in
            (p2, {| pool_balls := map_set Ball.id newBall bs;
                    pool_randoms := S (S (pool_randoms w));
                    pool_uuids := S (pool_uuids w) |})
        | None => (p2, w)
        end
    | None => (p2, w)
    end
  else (p, w).

(** The body of the first loop for one player. *)
Definition step_player (p : Player.t) (w : Pool) : Player.t * Pool :=
  let p1 := move p in
  let w1 := {| pool_balls := follow p1 (pool_balls w);
               pool_randoms := pool_randoms w;
               pool_uuids := pool_uuids w |} in
  scoring p1 w1.

Fixpoint step_players (ps : list Player.t) (w : Pool) : list Player.t * Pool :=
  match ps with
  | [] => ([], w)
  | p :: rest =>
      let '(p', w1) := step_player p w in
      let '(rest', w2) := step_players rest w1 in
      (p' :: rest', w2)
  end.

(** ** [update]: the pickup loop *)

Definition pickupRange : float := JS.sqr (PLAYER_RADIUS + BALL_RADIUS).

(** The inner loop over [balls.values()] for a player that carries nothing:
    the id of the ball picked up, if any, and the balls afterwards. *)
Fixpoint pickup_scan (p : Player.t) (bs : list Ball.t) : option string * list Ball.t :=
  match bs with
  | [] => (None, [])
  | ball :: rest =>
      if JS.truthy (Ball.carriedBy ball) then
        let '(r, rest') := pickup_scan p rest in (r, ball :: rest')
      else
        let d2 := dist2 (Player.x p) (Player.y p) (Ball.x ball) (Ball.y ball) in
        if d2 <? pickupRange then
          (Some (Ball.id ball), Ball.set_carriedBy ball (Some (Player.id p)) :: rest)
        else
          let '(r, rest') := pickup_scan p rest in (r, ball :: rest')
  end.

Definition pickup_player (p : Player.t) (bs : list Ball.t) : Player.t * list Ball.t :=
  if JS.truthy (Player.carryingBallId p) then (p, bs)
  else
    match pickup_scan p bs with
    | (Some bid, bs') => (Player.set_carrying p (Some bid), bs')
    | (None, bs') => (p, bs')
    end.

Fixpoint pickup_players (ps : list Player.t) (bs : list Ball.t) : list Player.t * list Ball.t :=
  match ps with
  | [] => ([], bs)
  | p :: rest =>
      let '(p', bs1) := pickup_player p bs in
      let '(rest', bs2) := pickup_players rest bs1 in
      (p' :: rest', bs2)
  end.

(** ** [update]: the player-player collision loop *)

Definition collisionDist2 : float := JS.sqr (PLAYER_RADIUS * 2).

(** The literal [0.0001], i.e. the binary64 value nearest to it. *)
Definition tiny : float := 0x1.a36e2eb1c432dp-14.

(** A player lets go of the ball it carries, if any. *)
Definition drop (p : Player.t) (bs : list Ball.t) : Player.t * list Ball.t :=
  match Player.carryingBallId p with
  | Some bid =>
      if JS.truthy (Some bid) then
        (Player.set_carrying p None,
         map_update Ball.id bid (fun ball => Ball.set_carriedBy ball None) bs)
      else (p, bs)
  | None => (p, bs)
  end.

(** The body of the inner loop for [p1 = playersArray[i]] and
    [p2 = playersArray[j]]. *)
Definition collide (i j : nat) (w : list Player.t * list Ball.t)
  : list Player.t * list Ball.t :=
  let '(ps, bs) := w in
  match nth_error ps i, nth_error ps j with
  | Some p1, Some p2 =>
      let d2 := dist2 (Player.x p1) (Player.y p1) (Player.x p2) (Player.y p2) in
      if d2 <? collisionDist2 then
        let dx := Player.x p1 - Player.x p2 in
        let dy := Player.y p1 - Player.y p2 in
        let mag := JS.or_num (JS.Math_sqrt (dx * dx + dy * dy)) tiny in
        let overlap := JS.Math_sqrt (collisionDist2 - d2) / 2 in
        let nx := dx / mag in
        let ny := dy / mag in
        let p1a := Player.set_pos p1 (Player.x p1 + nx * overlap) (Player.y p1 + ny * overlap) in
        let p2a := Player.set_pos p2 (Player.x p2 - nx * overlap) (Player.y p2 - ny * overlap) in
        let '(p1b, bs1) := drop p1a bs in
        let '(p2b, bs2) := drop p2a bs1 in
        (set_nth j (fun _ => p2b) (set_nth i (fun _ => p1b) ps), bs2)
      else w
  | _, _ => w
  end.

(** [for (let j = i + 1; j < n; j++)] *)
Definition collide_from (n i : nat) (w : list Player.t * list Ball.t)
  : list Player.t * list Ball.t :=
  fold_left (fun acc j => collide i j acc) (seq (S i) (n - S i)) w.

(** [for (let i = 0; i < n; i++)] with [n = playersArray.length] *)
Definition collisions (w : list Player.t * list Ball.t) : list Player.t * list Ball.t :=
  let n := List.length (fst w) in
  fold_left (fun acc i => collide_from n i acc) (seq 0 n) w.

(** ** The snapshot *)

Record PlayerView : Type := {
  pv_id : string;
  pv_team : Team;
  pv_x : float;
  pv_y : float;
  pv_score : Z
}.

Record BallView : Type := {
  bv_id : string;
  bv_x : float;
  bv_y : float;
  bv_carriedBy : option string
}.

Record Payload : Type := {
  payload_players : list PlayerView;
  payload_balls : list BallView
}.

Definition view_player (p : Player.t) : PlayerView :=
  {| pv_id := Player.id p; pv_team := Player.team p; pv_x := Player.x p;
     pv_y := Player.y p; pv_score := Player.score p |}.

Definition view_ball (b : Ball.t) : BallView :=
  {| bv_id := Ball.id b; bv_x := Ball.x b; bv_y := Ball.y b;
     bv_carriedBy := Ball.carriedBy b |}.

(** The payload [broadcastState] serialises and sends to every open socket. *)
Definition broadcastState (s : State) : Payload :=
  {| payload_players := map view_player (players s);
     payload_balls := map view_ball (balls s) |}.

(** ** [update] *)

Definition update_state (s : State) : State :=
  let w0 := {| pool_balls := balls s;
               pool_randoms := randoms_used s;
               pool_uuids := uuids_used s |} in
  let '(ps1, w1) := step_players (players s) w0 in
  let '(ps2, bs2) := pickup_players ps1 (pool_balls w1) in
  let '(ps3, bs3) := collisions (ps2, bs2) in
  {| players := ps3;
     balls := bs3;
     nextTeamIndex := nextTeamIndex s;
     randoms_used := pool_randoms w1;
     uuids_used := pool_uuids w1 |}.

Definition update (s : State) : State * Payload :=
  let s' := update_state s in (s', broadcastState s').

(** ** Start-up and connection handlers *)

(** [for (let i = 0; i < BALL_COUNT; i++) balls.set(ball.id, createBall())] *)
Fixpoint init_balls (n : nat) (w : Pool) : Pool :=
  match n with
  | O => w
  | S n' =>
      let ball := createBall (pool_randoms w) (pool_uuids w) in
      init_balls n' {| pool_balls := map_set Ball.id ball (pool_balls w);
                       pool_randoms := S (S (pool_randoms w));
                       pool_uuids := S (pool_uuids w) |}
  end.

Definition initial_state : State :=
  let w := init_balls BALL_COUNT {| pool_balls := []; pool_randoms := 0; pool_uuids := 0 |} in
  {| players := [];
     balls := pool_balls w;
     nextTeamIndex := 0;
     randoms_used := pool_randoms w;
     uuids_used := pool_uuids w |}.

(** What the server emits. *)
Inductive Output : Type :=
| SendInit (id : string) (team : Team)
| SendState (payload : Payload)
| ConsoleError.

(** [wss.on('connection', ...)] up to the registration of the handlers. *)
Definition onConnection (s : State) : State * list Output :=
  let team := nth (Z.to_nat (nextTeamIndex s mod Z.of_nat (List.length TEAMS))) TEAMS TeamLeft in
  let id := uuidv4 rt (uuids_used s) in
  let player := createPlayer id team in
  ({| players := map_set Player.id player (players s);
      balls := balls s;
      nextTeamIndex := JS.incr (nextTeamIndex s);
      randoms_used := randoms_used s;
      uuids_used := S (uuids_used s) |},
   [SendInit id team]).

(** [Number(v)], as [Math.min] and [Math.max] apply it to an argument;
    [None] when the conversion throws. An object that converts does so to
    the string "[object Object]", which is not a number. *)
Definition ToNumber (v : JS.value) : option float :=
  match v with
  | JS.Undefined => Some nan
  | JS.Null => Some 0
  | JS.Boolean b => Some (if b then 1 else 0)
  | JS.Number f => Some f
  | JS.Str s => Some (StringToNumber rt s)
  | JS.Object _ => if JS.unconvertible v then None else Some nan
  | JS.Array _ => if JS.unconvertible v then None else Some (ArrayToNumber rt v)
  end.

Definition is_input (v : JS.value) : bool :=
  match v with
  | JS.Str s => String.eqb s "input"
  | _ => false
  end.

Definition with_players (s : State) (ps : list Player.t) : State :=
  {| players := ps; balls := balls s; nextTeamIndex := nextTeamIndex s;
     randoms_used := randoms_used s; uuids_used := uuids_used s |}.

(** [ws.on('message', ...)] of the connection that was given [id]; [data]
    is what [JSON.parse] makes of the frame, [None] when it throws. Whatever
    is thrown inside the [try] is caught and logged: the read of [type] on
    [null], and the conversion of [x] or [y] to a number, which happens
    before anything is stored. *)
Definition onMessage (id : string) (data : option JS.value) (s : State)
  : State * list Output :=
  match data with
  | None => (s, [ConsoleError])
  | Some JS.Null | Some JS.Undefined => (s, [ConsoleError])
  | Some msg =>
      if is_input (JS.get msg "type") then
        match map_get Player.id id (players s) with
        | Some _ =>
            match ToNumber (JS.get msg "x") with
            | None => (s, [ConsoleError])
            | Some nx =>
                let x := JS.Math_max (-1) (JS.Math_min 1 nx) in
                match ToNumber (JS.get msg "y") with
                | None => (s, [ConsoleError])
                | Some ny =>
                    let y := JS.Math_max (-1) (JS.Math_min 1 ny) in
                    (with_players s
                       (map_update Player.id id (fun player => Player.set_dir player x y)
                                   (players s)),
                     [])
                end
            end
        | None => (s, [])
        end
      else (s, [])
  end.

(** [ws.on('close', ...)] of the connection that was given [id]. *)
Definition onClose (id : string) (s : State) : State * list Output :=
  (with_players s (map_delete Player.id id (players s)), []).

(** ** Runs of the server *)

Inductive Event : Type :=
| Connection
| Message (id : string) (data : option JS.value)
| Close (id : string)
| Tick.

Definition handle (e : Event) (s : State) : State * list Output :=
  match e with
  | Connection => onConnection s
  | Message id data => onMessage id data s
  | Close id => onClose id s
  | Tick => let '(s', payload) := update s in (s', [SendState payload])
  end.

Fixpoint run_from (s : State) (evs : list Event) : State * list Output :=
  match evs with
  | [] => (s, [])
  | e :: rest =>
      let '(s1, out1) := handle e s in
      let '(s2, out2) := run_from s1 rest in
      (s2, out1 ++ out2)
  end.

Definition run (evs : list Event) : State * list Output := run_from initial_state evs.

Definition state_after (evs : list Event) : State := fst (run evs).

(** The snapshots a run broadcasts, tick for tick. *)
Fixpoint snapshots_of (out : list Output) : list Payload :=
  match out with
  | [] => []
  | SendState payload :: rest => payload :: snapshots_of rest
  | _ :: rest => snapshots_of rest
  end.

Definition snapshots (evs : list Event) : list Payload := snapshots_of (snd (run evs)).

End Server.

(** * Properties stated about the server *)

(** [uuidv4] never returns the same id twice. *)
Definition uuid_injective (rt : Runtime) : Prop :=
  forall i j : nat, uuidv4 rt i = uuidv4 rt j -> i = j.

(** Every id of [ids] is one of the first [n] uuids drawn. *)
Definition ids_drawn (rt : Runtime) (n : nat) (ids : list string) : Prop :=
  forall i, In i ids -> exists k, k < n /\ uuidv4 rt k = i.

(** The score stored for the player [id], if it is connected. *)
Definition score_of (id : string) (s : State) : option Z :=
  option_map Player.score (map_get Player.id id (players s)).

(** What a pool keeps through the loops of [update]: its size, distinct ids,
    and ids that were all drawn from [uuidv4]. *)
Definition pool_ok (rt : Runtime) (n : nat) (bs : list Ball.t) (nu : nat) : Prop :=
  List.length bs = n /\
  NoDup (map Ball.id bs) /\
  ids_drawn rt nu (map Ball.id bs).

(** What identifies a player and its score. *)
Definition ident (p : Player.t) : string * Team * Z :=
  (Player.id p, Player.team p, Player.score p).

(** [p'] is the player [p] one step later: same id and team, and a score
    that stayed or went through [score += 1]. *)
Definition advances (p p' : Player.t) : Prop :=
  Player.id p' = Player.id p /\
  Player.team p' = Player.team p /\
  (Player.score p' = Player.score p \/ Player.score p' = JS.incr (Player.score p)).

(** What the players map keeps along a run. *)
Definition players_ok (rt : Runtime) (ps : list Player.t) (nu : nat) : Prop :=
  NoDup (map Player.id ps) /\
  ids_drawn rt nu (map Player.id ps) /\
  Forall (fun p => (0 <= Player.score p)%Z) ps.

(** Two runtimes return the same numbers in the first [nr] calls of
    [Math.random] and the same ids in the first [nu] calls of [uuidv4]. *)
Definition draws_agree (rt1 rt2 : Runtime) (nr nu : nat) : Prop :=
  (forall k, k < nr -> random rt1 k = random rt2 k) /\
  (forall k, k < nu -> uuidv4 rt1 k = uuidv4 rt2 k).

(** Two runtimes convert the [x] and the [y] of a message alike. *)
Definition numbers_agree_on (rt1 rt2 : Runtime) (e : Event) : Prop :=
  match e with
  | Message _ (Some msg) =>
      ToNumber rt1 (JS.get msg "x") = ToNumber rt2 (JS.get msg "x") /\
      ToNumber rt1 (JS.get msg "y") = ToNumber rt2 (JS.get msg "y")
  | _ => True
  end.

(** The pickup test of [update]: squared distance strictly below the square
    of (player radius + ball radius). *)
Definition in_range (p : Player.t) (b : Ball.t) : bool :=
  PrimFloat.ltb (dist2 (Player.x p) (Player.y p) (Ball.x b) (Ball.y b)) pickupRange.

(** A ball the scan of [p] may take: not carried, and in range. *)
Definition eligible (p : Player.t) (b : Ball.t) : bool :=
  negb (JS.truthy (Ball.carriedBy b)) && in_range p b.

(** Ids are uuids, hence non-empty strings. *)
Definition nonempty (i : string) : Prop := i <> EmptyString.

(** In the pickup loop that makes [ps'] of the players [ps], the player at
    index [j] took the ball [bid]: it carries [bid] after the loop and did
    not before. *)
Definition took (ps ps' : list Player.t) (j : nat) (bid : string) : Prop :=
  exists q q',
    nth_error ps j = Some q /\ nth_error ps' j = Some q' /\
    Player.carryingBallId q <> Some bid /\ Player.carryingBallId q' = Some bid.

(** A player before the one at index [i] took the ball [bid]. *)
Definition taken_before (ps ps' : list Player.t) (i : nat) (bid : string) : Prop :=
  exists j, j < i /\ took ps ps' j bid.

(** ** Binary64 values as scaled integers

    The finite binary64 number of mantissa [m] and exponent [e] has the value
    [m * 2^e]; [pw e] is [2^e] scaled by [2^2200], an integer for every
    exponent that occurs. *)

Definition pw (e : Z) : Z := (2 ^ (e + 2200))%Z.

Definition fexp64 (e : Z) : Z := SpecFloat.fexp prec emax e.

(** The magnitude of [x] is at most that of the binary64 number [(mB, eB)]. *)
Definition mag_le (x : spec_float) (mB : positive) (eB : Z) : Prop :=
  match x with
  | S754_zero _ => True
  | S754_finite _ m e => (Z.pos m * pw e <= Z.pos mB * pw eB)%Z
  | _ => False
  end.

(** A result of [Math.random()]: a number in [0, 1). *)
Definition unit_draw (r : float) : bool :=
  (PrimFloat.leb 0 r && PrimFloat.ltb r 1)%float.

(** The field rectangle. *)
Definition in_field (x y : float) : bool :=
  (PrimFloat.leb (- WORLD_WIDTH / 2) x && PrimFloat.leb x (WORLD_WIDTH / 2)
   && PrimFloat.leb (- WORLD_HEIGHT / 2) y && PrimFloat.leb y (WORLD_HEIGHT / 2))%float.

(** The carry relation is a bijection between carrying players and carried
    balls: a carrying player's ball is in the pool and names that player as
    its carrier, a carried ball's carrier is a connected player that carries
    it, and no two players carry the same ball. *)
Definition carry_bijection (s : State) : Prop :=
  (forall p bid,
     In p (players s) -> Player.carryingBallId p = Some bid ->
     exists b, In b (balls s) /\ Ball.id b = bid /\ Ball.carriedBy b = Some (Player.id p)) /\
  (forall b pid,
     In b (balls s) -> Ball.carriedBy b = Some pid ->
     exists p, In p (players s) /\ Player.id p = pid /\
               Player.carryingBallId p = Some (Ball.id b)) /\
  (forall i j p q bid,
     nth_error (players s) i = Some p -> nth_error (players s) j = Some q ->
     Player.carryingBallId p = Some bid -> Player.carryingBallId q = Some bid ->
     i = j).

(** The field rectangle inset by the player radius. *)
Definition in_bounds (p : Player.t) : bool :=
  (PrimFloat.leb (- WORLD_WIDTH / 2 + PLAYER_RADIUS) (Player.x p)
   && PrimFloat.leb (Player.x p) (WORLD_WIDTH / 2 - PLAYER_RADIUS)
   && PrimFloat.leb (- WORLD_HEIGHT / 2 + PLAYER_RADIUS) (Player.y p)
   && PrimFloat.leb (Player.y p) (WORLD_HEIGHT / 2 - PLAYER_RADIUS))%float.

(** The player [p] carries the ball [bid], as the truthiness test of the
    collision loop sees it. *)
Definition holds (p : Player.t) (bid : string) : bool :=
  match Player.carryingBallId p with
  | Some k => JS.truthy (Some k) && String.eqb k bid
  | None => false
  end.

(** The squared distance of two players is exactly the square of twice the
    player radius. *)
Definition two_radii_apart (p q : Player.t) : bool :=
  PrimFloat.eqb (dist2 (Player.x p) (Player.y p) (Player.x q) (Player.y q)) collisionDist2.

(** ** A concrete runtime and concrete states

    [uuid_of] hands out "u", "uu", "uuu", ...; every draw pair of
    [Math.random] is (0.046875, 0.5), which puts a ball at (-362.5, 0), within
    pickup range of the spawn point (-360, 0) of the left team. The numbers
    that strings and arrays spell are not exercised below. *)

Open Scope string_scope.

Fixpoint uuid_of (k : nat) : string :=
  match k with
  | O => "u"
  | S k' => String.append "u" (uuid_of k')
  end.

Definition rt_demo : Runtime :=
  {| random := fun k => if Nat.even k then 0.046875%float else 0.5%float;
     uuidv4 := uuid_of;
     StringToNumber := fun _ => nan;
     ArrayToNumber := fun _ => nan |}.

(** The same runtime with other draws of [Math.random]. *)
Definition rt_other : Runtime :=
  {| random := fun _ => 0.5%float;
     uuidv4 := uuid_of;
     StringToNumber := fun _ => nan;
     ArrayToNumber := fun _ => nan |}.

(** A runtime that agrees with [rt_demo] on the first 10 draws of
    [Math.random] and on the first 6 uuids, and on nothing else. *)
Definition rt_late : Runtime :=
  {| random := fun k => if Nat.ltb k 10 then random rt_demo k else 0.75%float;
     uuidv4 := fun k => if Nat.ltb k 6 then uuid_of k else "late";
     StringToNumber := fun _ => 0%float;
     ArrayToNumber := fun _ => 0%float |}.

(** [rt_demo] with other draws of [Math.random] from the eleventh on: the
    next ball created lands at (-387.5, 0), within pickup range of a player
    that stands in the left goal at (-381, 0). *)
Definition rt_near : Runtime :=
  {| random := fun k => if Nat.ltb k 10 then random rt_demo k
                        else if Nat.even k then 0.015625%float else 0.5%float;
     uuidv4 := uuid_of;
     StringToNumber := fun _ => nan;
     ArrayToNumber := fun _ => nan |}.

(** The player the first connection creates. *)
Definition first_id : string := uuid_of BALL_COUNT.

Definition still_player (id : string) (team : Team) (x y : float) (c : option string)
  : Player.t :=
  {| Player.id := id; Player.team := team; Player.x := x; Player.y := y;
     Player.dirX := 0; Player.dirY := 0; Player.score := 0; Player.carryingBallId := c |}.

Definition ball_at (id : string) (x y : float) (c : option string) : Ball.t :=
  {| Ball.id := id; Ball.x := x; Ball.y := y; Ball.carriedBy := c |}.

Definition state_of (ps : list Player.t) (bs : list Ball.t) : State :=
  {| players := ps; balls := bs; nextTeamIndex := Z.of_nat (List.length ps);
     randoms_used := 0; uuids_used := 0 |}.

(** Two players 6 apart, each carrying a ball. *)
Definition player_a : Player.t := still_player "a" TeamLeft (-3) 0 (Some "k").
Definition player_b : Player.t := still_player "b" TeamRight 3 0 (Some "l").

Definition overlapping : State :=
  state_of [player_a; player_b]
           [ball_at "k" (-3) 0 (Some "a"); ball_at "l" 3 0 (Some "b")].

(** Whether the first two players of a state are exactly two radii apart. *)
Definition first_two_apart (s : State) : option bool :=
  match players s with
  | p :: q :: _ => Some (two_radii_apart p q)
  | _ => None
  end.

(** Two players on the same spot. *)
Definition coincident : State :=
  state_of [still_player "a" TeamLeft 7 7 None; still_player "b" TeamRight 7 7 None] [].

(** Two players 6 apart, the first one on the left bound of the inset field. *)
Definition at_left_edge : State :=
  state_of [still_player "a" TeamLeft (-395) 0 None; still_player "b" TeamRight (-389) 0 None] [].

(** A player in its own (left) goal that carries the only ball of the pool. *)
Definition scorer : Player.t := still_player "a" TeamLeft (-390) 0 (Some "u").

Definition scorer_pool : Pool :=
  {| pool_balls := [ball_at "u" (-390) 0 (Some "a")]; pool_randoms := 0; pool_uuids := 1 |}.

(** The input message that sends a player to the left. *)
Definition go_left : JS.value :=
  JS.Object [("type", JS.Str "input"); ("x", JS.Number (-1)%float); ("y", JS.Number 0%float)].

(** A run in which the first player picks a ball up and carries it to the
    edge of its goal; one more tick and it scores. *)
Definition run_to_goal : list Event :=
  [Connection; Tick; Message first_id (Some go_left); Tick; Tick; Tick; Tick; Tick; Tick].

(** The input message that sends a player to the right. *)
Definition go_right : JS.value :=
  JS.Object [("type", JS.Str "input"); ("x", JS.Number 1%float); ("y", JS.Number 0%float)].

(** The players of the second and of the third connection. *)
Definition second_id : string := uuid_of (S BALL_COUNT).
Definition third_id : string := uuid_of (S (S BALL_COUNT)).

(** The first two players walk towards each other from their spawn points,
    720 apart, 3 per tick each: in tick 119 they are 6 apart and collide. *)
Definition head_on_run : list Event :=
  [Connection; Connection;
   Message first_id (Some go_right); Message second_id (Some go_left)]
  ++ repeat Tick 119.

(** The state after three connections: the first and the third player
    are of the same team and stand on its spawn point, (-360, 0). *)
Definition team_mates : State := state_after rt_demo [Connection; Connection; Connection].

(** The first player walks to the left bound and stays there; the third
    player, of the same team, follows 20 ticks later and runs into it. *)
Definition crowded_edge_run : list Event :=
  [Connection; Connection; Connection; Message first_id (Some go_left)]
  ++ repeat Tick 20
  ++ [Message third_id (Some go_left)]
  ++ repeat Tick 10.

(** An input message without [x] and [y]. *)
Definition input_without_numbers : JS.value := JS.Object [("type"%string, JS.Str "input")].

Close Scope string_scope.

(** The ball [bid] names [dead] as its carrier, and no player carries it. *)
Definition orphaned (bid dead : string) (ps : list Player.t) (bs : list Ball.t) : Prop :=
  (exists b, map_get Ball.id bid bs = Some b /\ Ball.carriedBy b = Some dead) /\
  Forall (fun p => Player.carryingBallId p <> Some bid) ps.

(** ** The carry relation as two lookup tables *)

(** [f] with the entry of [k] set to [v]. *)
Definition upd (A : Type) (f : string -> A) (k : string) (v : A) : string -> A :=
  fun x => if String.eqb x k then v else f x.

(** [Some c] when the player [pid] is connected and its [carryingBallId] is [c]. *)
Definition carrying_of (ps : list Player.t) (pid : string) : option (option string) :=
  option_map Player.carryingBallId (map_get Player.id pid ps).

(** [Some c] when the ball [bid] is in the pool and its [carriedBy] is [c]. *)
Definition carrier_of (bs : list Ball.t) (bid : string) : option (option string) :=
  option_map Ball.carriedBy (map_get Ball.id bid bs).

(** Each table is the inverse of the other. *)
Definition consistent (f g : string -> option (option string)) : Prop :=
  forall a b, f a = Some (Some b) <-> g b = Some (Some a).

Definition ids_ok (ps : list Player.t) (bs : list Ball.t) : Prop :=
  NoDup (map Player.id ps) /\ NoDup (map Ball.id bs) /\
  Forall (fun p => nonempty (Player.id p)) ps /\
  Forall (fun b => nonempty (Ball.id b)) bs.

Definition carry_inv (ps : list Player.t) (bs : list Ball.t) : Prop :=
  ids_ok ps bs /\ consistent (carrying_of ps) (carrier_of bs).

(** [carry_inv] along a run, with all ids drawn from [uuidv4]. *)
Definition run_inv (rt : Runtime) (s : State) : Prop :=
  carry_inv (players s) (balls s) /\
  ids_drawn rt (uuids_used s) (map Ball.id (balls s)) /\
  ids_drawn rt (uuids_used s) (map Player.id (players s)).

(** No player that carries a ball disconnects during [evs], run from [s]. *)
Fixpoint no_carrier_leaves (rt : Runtime) (s : State) (evs : list Event) : Prop :=
  match evs with
  | [] => True
  | e :: rest =>
      match e with
      | Close id => carrying_of (players s) id = Some None \/
                    carrying_of (players s) id = None
      | _ => True
      end /\ no_carrier_leaves rt (fst (handle rt e s)) rest
  end.

(** ** Tactics *)

(** Case analysis on the string comparisons of the goal and the hypotheses. *)
Ltac eqb_cases :=
  repeat match goal with
  | H : context [String.eqb ?a ?b] |- _ => destruct (String.eqb_spec a b); subst
  | |- context [String.eqb ?a ?b] => destruct (String.eqb_spec a b); subst
  end.

(** Closes a goal [consistent _ _] between updated tables, once the
    instances of the hypothesis on the tables it needs are in the context. *)
Ltac table_cases :=
  unfold upd;
  repeat match goal with
  | |- context [String.eqb ?a ?b] => destruct (String.eqb_spec a b); subst
  end;
  split; intros ?;
  repeat match goal with
  | H : _ <-> _ |- _ => destruct H
  end;
  try congruence;
  repeat match goal with
  | H : ?P -> _, H' : ?P |- _ => specialize (H H')
  end;
  try congruence; try tauto.

(** Replaces the state a concrete run ends in by its value. *)
Ltac compute_states :=
  repeat match goal with
  | |- context [state_after ?rt ?evs] =>
      let v := eval vm_compute in (state_after rt evs) in
      change (state_after rt evs) with v
  end.


(** * The rest of the code: definitions

    What the properties proved beyond the claims are stated with, and the
    parts of [src/public/client.js] they reach outside the server: the key
    and touch input of the client, its rotation helper
    [interpolateRotation], and the container parser of the model loader,
    [GLTFLoader.parse]. *)

From Stdlib Require Import Nnat Permutation.

Unset Implicit Arguments.

Definition is_tick (e : Event) : bool :=
  match e with Tick => true | _ => false end.

Definition is_connection (e : Event) : bool :=
  match e with Connection => true | _ => false end.

(** How many ticks, and how many connections, a run holds. *)
Definition ticks (evs : list Event) : nat := List.length (filter is_tick evs).

Definition connections (evs : list Event) : nat := List.length (filter is_connection evs).

(** The team the n-th connection (counted from 0) is given. *)
Definition team_of_join (n : nat) : Team := if Nat.even n then TeamLeft else TeamRight.

(** What a tick never writes: who the player is and the direction it was
    last told to move in. *)
Definition roster (p : Player.t) : string * Team * float * float :=
  (Player.id p, Player.team p, Player.dirX p, Player.dirY p).

(** Everything the server stores for a player but its input direction. *)
Definition body (p : Player.t)
  : string * Team * float * float * Z * option string :=
  (Player.id p, Player.team p, Player.x p, Player.y p, Player.score p,
   Player.carryingBallId p).

(** [p'] is [p] after the collision loop pushed it: moved, and without a
    ball. *)
Definition pushed (p p' : Player.t) : Prop :=
  roster p' = roster p /\ Player.score p' = Player.score p /\
  JS.truthy (Player.carryingBallId p') = false.

(** The score a tick leaves a player with. *)
Definition score_after_tick (p : Player.t) : Z :=
  if JS.truthy (Player.carryingBallId p)
     && isInGoal (Player.team p) (Player.x (move p)) (Player.y (move p))
  then JS.incr (Player.score p) else Player.score p.

(** The id [id] was handed out and no stored player has it. *)
Definition gone (rt : Runtime) (id : string) (s : State) : Prop :=
  ~ In id (map Player.id (players s)) /\ exists k, k < uuids_used s /\ uuidv4 rt k = id.

(** Where a ball is, and which ball it is. *)
Definition place (b : Ball.t) : string * float * float := (Ball.id b, Ball.x b, Ball.y b).

(** The ball [bid] is in the pool, at [(x, y)]. *)
Definition ball_at_place (bid : string) (x y : float) (bs : list Ball.t) : Prop :=
  exists b, map_get Ball.id bid bs = Some b /\ Ball.x b = x /\ Ball.y b = y.

(** What the carry relation is in every state, disconnections included: a
    carrying player's ball is in the pool and names that player, no two
    players carry the same ball, and a ball names a stored player only if
    that player carries it (the carrier of a ball may be gone). *)
Definition carry_sound (s : State) : Prop :=
  (forall p bid,
     In p (players s) -> Player.carryingBallId p = Some bid ->
     exists b, In b (balls s) /\ Ball.id b = bid /\ Ball.carriedBy b = Some (Player.id p)) /\
  (forall i j p q bid,
     nth_error (players s) i = Some p -> nth_error (players s) j = Some q ->
     Player.carryingBallId p = Some bid -> Player.carryingBallId q = Some bid ->
     i = j) /\
  (forall b pid,
     In b (balls s) -> Ball.carriedBy b = Some pid ->
     (exists p, In p (players s) /\ Player.id p = pid /\
                Player.carryingBallId p = Some (Ball.id b)) \/
     ~ In pid (map Player.id (players s))).

(** The invariant of all runs: the carry relation is a bijection once the
    players that left, [gs], are counted in. *)
Definition ghosted (rt : Runtime) (s : State) : Prop :=
  exists gs, run_inv rt (with_players s (players s ++ gs)).

(** Where the ball [bid] is while the loops of a tick run, seen from the
    player [t] that carried it into the tick: with [t], as long as [t]
    carries it; and out of the pool for good, its id used up, once [t] has
    scored with it. *)
Definition tracked (rt : Runtime) (bid : string) (t : Player.t) (w : Pool) : Prop :=
  (Player.carryingBallId t = Some bid /\
   ball_at_place bid (Player.x t) (Player.y t) (pool_balls w)) \/
  (Player.carryingBallId t <> Some bid /\
   ~ In bid (map Ball.id (pool_balls w)) /\
   exists k, k < pool_uuids w /\ uuidv4 rt k = bid).

(** No two players overlap: every pair is at a squared distance that is not
    below the square of twice the player radius. *)
Definition clear_of_each_other (ps : list Player.t) : Prop :=
  forall i j p q,
    i < j -> nth_error ps i = Some p -> nth_error ps j = Some q ->
    PrimFloat.ltb (dist2 (Player.x p) (Player.y p) (Player.x q) (Player.y q)) collisionDist2
    = false.

(** A ball as start-up leaves it: without a carrier, inside the field. *)
Definition fresh_ball (b : Ball.t) : Prop :=
  Ball.carriedBy b = None /\ in_field (Ball.x b) (Ball.y b) = true.

(** * The client: keyboard and touch input

    The input part of the browser client of [src/public/client.js]:
    [keyState], [handleKey], [computeDirection], [sendDirection] and the
    touch buttons bound by [initInput]. The socket is the one bit the input
    code reads of it (open or not); what it sends is the list of frames
    handed to [socket.send]. *)

Module KeyState.
(** [keyState]: one flag per recognised key. *)
Record t : Type := {
  ArrowUp : bool;
  ArrowDown : bool;
  ArrowLeft : bool;
  ArrowRight : bool;
  w : bool;
  a : bool;
  s : bool;
  d : bool
}.
End KeyState.

Module Client.

Local Open Scope string_scope.

Definition keyState0 : KeyState.t :=
  {| KeyState.ArrowUp := false; KeyState.ArrowDown := false;
     KeyState.ArrowLeft := false; KeyState.ArrowRight := false;
     KeyState.w := false; KeyState.a := false; KeyState.s := false; KeyState.d := false |}.

(** [keyState.hasOwnProperty(key)] *)
Definition hasOwnProperty (key : string) : bool :=
  existsb (String.eqb key)
          ["ArrowUp"; "ArrowDown"; "ArrowLeft"; "ArrowRight"; "w"; "a"; "s"; "d"].

(** [keyState[key] = down] for a key the object has. *)
Definition set_key (ks : KeyState.t) (key : string) (down : bool) : KeyState.t :=
  let f (name : string) (old : bool) := if String.eqb key name then down else old in
  {| KeyState.ArrowUp := f "ArrowUp" (KeyState.ArrowUp ks);
     KeyState.ArrowDown := f "ArrowDown" (KeyState.ArrowDown ks);
     KeyState.ArrowLeft := f "ArrowLeft" (KeyState.ArrowLeft ks);
     KeyState.ArrowRight := f "ArrowRight" (KeyState.ArrowRight ks);
     KeyState.w := f "w" (KeyState.w ks);
     KeyState.a := f "a" (KeyState.a ks);
     KeyState.s := f "s" (KeyState.s ks);
     KeyState.d := f "d" (KeyState.d ks) |}.

(** What the input code keeps: the keys held, [currentDirection], and
    whether [socket] is set and open. *)
Record Input : Type := {
  keyState : KeyState.t;
  currentDirection : float * float;
  socket_open : bool
}.

(** What [JSON.parse] reads back from the [JSON.stringify] of a number: NaN
    and the infinities are written as [null], [-0] as [0], every other
    number so that it reads back as itself. *)
Definition wire (f : float) : JS.value :=
  if is_nan f || is_infinity f then JS.Null
  else if is_zero f then JS.Number 0%float
  else JS.Number f.

(** The frame [JSON.stringify({ type: 'input', x, y })], as the receiver
    parses it. *)
Definition input_frame (x y : float) : JS.value :=
  JS.Object [("type", JS.Str "input"); ("x", wire x); ("y", wire y)].

(** [sendDirection(x, y)]: the frames handed to [socket.send]. *)
Definition sendDirection (c : Input) (x y : float) : list JS.value :=
  if socket_open c then [input_frame x y] else [].

(** The direction [computeDirection] reads off [keyState]. *)
Definition direction (ks : KeyState.t) : float * float :=
  let dx := 0%float in
  let dy := 0%float in
  let dy := if KeyState.ArrowUp ks || KeyState.w ks then (dy - 1)%float else dy in
  let dy := if KeyState.ArrowDown ks || KeyState.s ks then (dy + 1)%float else dy in
  let dx := if KeyState.ArrowLeft ks || KeyState.a ks then (dx - 1)%float else dx in
  let dx := if KeyState.ArrowRight ks || KeyState.d ks then (dx + 1)%float else dx in
  (dx, dy).

(** [computeDirection()] *)
Definition computeDirection (c : Input) : Input * list JS.value :=
  let '(dx, dy) := direction (keyState c) in
  let c' := {| keyState := keyState c; currentDirection := (dx, dy);
               socket_open := socket_open c |} in
  (c', sendDirection c' dx dy).

(** [handleKey(key, down)] *)
Definition handleKey (key : string) (down : bool) (c : Input) : Input * list JS.value :=
  if hasOwnProperty key then
    computeDirection {| keyState := set_key (keyState c) key down;
                        currentDirection := currentDirection c;
                        socket_open := socket_open c |}
  else (c, []).

(** The four touch buttons, with the direction [initInput] binds to each. *)
Inductive Button : Type := upBtn | downBtn | leftBtn | rightBtn.

Definition button_direction (b : Button) : float * float :=
  match b with
  | upBtn => (0, -1)
  | downBtn => (0, 1)
  | leftBtn => (-1, 0)
  | rightBtn => (1, 0)
  end%float.

(** The DOM events [initInput] listens to. *)
Inductive InputEvent : Type :=
| keydown (key : string)
| keyup (key : string)
| touchstart (b : Button)
| touchend (b : Button).

Definition onInput (e : InputEvent) (c : Input) : Input * list JS.value :=
  match e with
  | keydown key => handleKey key true c
  | keyup key => handleKey key false c
  | touchstart b => (c, sendDirection c (fst (button_direction b)) (snd (button_direction b)))
  | touchend _ => (c, sendDirection c 0 0)
  end.

(** A sequence of input events: the state it leaves and the frames sent. *)
Fixpoint inputs (evs : list InputEvent) (c : Input) : Input * list JS.value :=
  match evs with
  | [] => (c, [])
  | e :: rest =>
      let '(c1, out1) := onInput e c in
      let '(c2, out2) := inputs rest c1 in
      (c2, (out1 ++ out2)%list)
  end.

End Client.

(** The server receives the frames [frames] on the connection of [id]. *)
Definition deliver (rt : Runtime) (id : string) (frames : list JS.value) (s : State) : State :=
  fold_left (fun acc frame => fst (onMessage rt id (Some frame) acc)) frames s.

(** One component of a direction: [-1], [0] or [1]. *)
Definition unit_step (neg pos : bool) : float :=
  match neg, pos with
  | true, false => (-1)%float
  | false, true => 1%float
  | _, _ => 0%float
  end.

(** The direction the server stores for [id], if the player is stored. *)
Definition direction_of (id : string) (s : State) : option (float * float) :=
  option_map (fun p => (Player.dirX p, Player.dirY p)) (map_get Player.id id (players s)).

Definition is_key_event (e : Client.InputEvent) : bool :=
  match e with
  | Client.keydown _ | Client.keyup _ => true
  | _ => false
  end.

(** A binary64 number that is neither NaN nor infinite. *)
Definition finite64 (c : float) : Prop :=
  match Prim2SF c with
  | S754_zero _ | S754_finite _ _ _ => True
  | _ => False
  end.

(** [b] is [a] with the other sign, or both are zeros. *)
Definition mirrored (a b : spec_float) : Prop :=
  b = SFopp a \/ exists s s', a = S754_zero s /\ b = S754_zero s'.

(** [Math.max(lo, Math.min(hi, v))] *)
Definition clamp (lo hi v : float) : float := JS.Math_max lo (JS.Math_min hi v).

(** [lo <= v <= hi] *)
Definition between (lo hi v : float) : bool := PrimFloat.leb lo v && PrimFloat.leb v hi.

(** * The model loader: reading a glTF container

    [GLTFLoader.parse] of [src/public/client.js], up to the point where it
    hands the JSON document and the binary chunk to a [GLTFParser]. The
    data is a string or the bytes of an [ArrayBuffer]; typed-array views
    read the platform's byte order, which is little-endian; a failed view is
    the [RangeError] the constructor throws. [JSON.parse] and
    [TextDecoder.decode] belong to the runtime. *)

Module GLTF.

Local Open Scope N_scope.

Record Decoder : Type := {
  (** [JSON.parse(s)], [None] when it throws *)
  JSON_parse : string -> option JS.value;
  (** [textDecoder.decode(bytes)] *)
  decode : list Byte.byte -> string
}.

(** What [parse] is given. *)
Inductive Data : Type :=
| Text (s : string)
| Buffer (bytes : list Byte.byte).

(** What [parse] throws. *)
Inductive Error : Type :=
| RangeError
| SyntaxError
| OnlyVersion2
| FailedToParse.

Inductive Result : Type :=
(** [new GLTFParser(json, path, this, binaryData)] *)
| Parser (json : JS.value) (binaryData : option (list Byte.byte))
| Throw (e : Error)
(** the chunk loop has not ended within the steps it was given *)
| Running.

Definition byteLength (data : list Byte.byte) : N := N.of_nat (List.length data).

(** [data.slice(b, e)] *)
Definition slice (data : list Byte.byte) (b e : N) : list Byte.byte :=
  firstn (N.to_nat (e - b)) (skipn (N.to_nat b) data).

(** [new Uint8Array(data, off, len)] *)
Definition Uint8Array (data : list Byte.byte) (off len : N) : option (list Byte.byte) :=
  if off + len <=? byteLength data then Some (slice data off (off + len)) else None.

Definition le32 (b0 b1 b2 b3 : Byte.byte) : N :=
  Strings.Byte.to_N b0
  + 256 * (Strings.Byte.to_N b1 + 256 * (Strings.Byte.to_N b2 + 256 * Strings.Byte.to_N b3)).

Fixpoint words (bs : list Byte.byte) : list N :=
  match bs with
  | b0 :: b1 :: b2 :: b3 :: rest => le32 b0 b1 b2 b3 :: words rest
  | _ => []
  end.

(** [new Uint32Array(data, off, n)] *)
Definition Uint32Array (data : list Byte.byte) (off n : N) : option (list N) :=
  if (off mod 4 =? 0) && (off + 4 * n <=? byteLength data)
  then Some (words (slice data off (off + 4 * n)))
  else None.

(** Truthiness of a parsed JSON value. *)
Definition truthy (v : JS.value) : bool :=
  match v with
  | JS.Undefined | JS.Null => false
  | JS.Boolean b => b
  | JS.Number f => JS.truthy_num f
  | JS.Str s => negb (String.eqb s EmptyString)
  | JS.Array _ | JS.Object _ => true
  end.

(** The end of [parse]: [if (!json) throw ...], then the parser. *)
Definition finish (json : JS.value) (binaryData : option (list Byte.byte)) : Result :=
  if truthy json then Parser json binaryData else Throw FailedToParse.

Definition JSON_CHUNK : N := 0x4E4F534A.
Definition BIN_CHUNK : N := 0x004E4942.

(** [while (chunkStart < length) { ... }], at most [steps] rounds of it. *)
Fixpoint chunks (D : Decoder) (steps : nat) (data : list Byte.byte) (length chunkStart : N)
  (json : JS.value) (binaryData : option (list Byte.byte)) : Result :=
  if chunkStart <? length then
    match steps with
    | O => Running
    | S steps' =>
        match Uint32Array data chunkStart 2 with
        | Some [chunkLength; chunkType] =>
            if chunkType =? JSON_CHUNK then
              match Uint8Array data (chunkStart + 8) chunkLength with
              | Some jsonData =>
                  match JSON_parse D (decode D jsonData) with
                  | Some v =>
                      chunks D steps' data length (chunkStart + (8 + chunkLength)) v binaryData
                  | None => Throw SyntaxError
                  end
              | None => Throw RangeError
              end
            else if chunkType =? BIN_CHUNK then
              chunks D steps' data length (chunkStart + (8 + chunkLength)) json
                     (Some (slice data (chunkStart + 8) (chunkStart + 8 + chunkLength)))
            else
              chunks D steps' data length (chunkStart + (8 + chunkLength)) json binaryData
        | _ => Throw RangeError
        end
    end
  else finish json binaryData.

(** [parse(data, path, onLoad, onError)], the chunk loop given [steps]
    rounds. *)
Definition parse_within (D : Decoder) (steps : nat) (data : Data) : Result :=
  match data with
  | Text s =>
      match JSON_parse D s with
      | Some v => finish v None
      | None => Throw SyntaxError
      end
  | Buffer bytes =>
      match Uint8Array bytes 0 4 with
      | None => Throw RangeError
      | Some first4 =>
          if String.eqb (decode D first4) "glTF" then
            match Uint32Array bytes 0 3 with
            | Some [_; version; length] =>
                if version <? 2 then Throw OnlyVersion2
                else chunks D steps bytes length 12 JS.Undefined None
            | _ => Throw RangeError
            end
          else
            match JSON_parse D (decode D bytes) with
            | Some v => finish v None
            | None => Throw SyntaxError
            end
      end
  end.

(** [parse]: a round of the loop reads a chunk header of 8 bytes that lies
    inside the buffer, so there are no more rounds than bytes. *)
Definition parse (D : Decoder) (data : Data) : Result :=
  parse_within D (match data with Text _ => 0 | Buffer bytes => List.length bytes end) data.

End GLTF.

(** ** The glTF binary container, as its format lays it out *)

Module GLB.

Local Open Scope N_scope.

(** The byte of a number below 256. *)
Definition byte_of (n : N) : Byte.byte :=
  match Strings.Byte.of_N n with
  | Some b => b
  | None => Byte.x00
  end.

(** A 32-bit word, least significant byte first. *)
Definition word (n : N) : list Byte.byte :=
  [byte_of (n mod 256); byte_of (n / 256 mod 256);
   byte_of (n / 65536 mod 256); byte_of (n / 16777216 mod 256)].

(** The bytes 'g', 'l', 'T', 'F'. *)
Definition magic : list Byte.byte := [Byte.x67; Byte.x6c; Byte.x54; Byte.x46].

(** A chunk: its length, its type, its payload. *)
Definition chunk (c : N * list Byte.byte) : list Byte.byte :=
  word (GLTF.byteLength (snd c)) ++ word (fst c) ++ snd c.

Definition body (cs : list (N * list Byte.byte)) : list Byte.byte := List.concat (map chunk cs).

(** A container: the magic, the version, the total length, the chunks. *)
Definition container (version : N) (cs : list (N * list Byte.byte)) : list Byte.byte :=
  magic ++ word version ++ word (12 + GLTF.byteLength (body cs)) ++ body cs.

(** A chunk list the format allows: 32-bit types, payloads padded to a
    multiple of 4 bytes. *)
Definition aligned (cs : list (N * list Byte.byte)) : Prop :=
  Forall (fun c => fst c < 2 ^ 32 /\ GLTF.byteLength (snd c) mod 4 = 0) cs.

(** What the chunks of a container amount to, read in order: each JSON
    chunk replaces the document, each BIN chunk the binary data, any other
    chunk is skipped; a JSON chunk that does not parse ends it. *)
Fixpoint read (D : GLTF.Decoder) (cs : list (N * list Byte.byte))
  (json : JS.value) (binaryData : option (list Byte.byte)) : GLTF.Result :=
  match cs with
  | [] => GLTF.finish json binaryData
  | (type, payload) :: rest =>
      if type =? GLTF.JSON_CHUNK then
        match GLTF.JSON_parse D (GLTF.decode D payload) with
        | Some v => read D rest v binaryData
        | None => GLTF.Throw GLTF.SyntaxError
        end
      else if type =? GLTF.BIN_CHUNK then read D rest json (Some payload)
      else read D rest json binaryData
  end.

(** The same reading, followed by [next] in place of the end of [parse]. *)
Fixpoint read_then (D : GLTF.Decoder) (cs : list (N * list Byte.byte))
  (next : JS.value -> option (list Byte.byte) -> GLTF.Result)
  (json : JS.value) (binaryData : option (list Byte.byte)) : GLTF.Result :=
  match cs with
  | [] => next json binaryData
  | (type, payload) :: rest =>
      if type =? GLTF.JSON_CHUNK then
        match GLTF.JSON_parse D (GLTF.decode D payload) with
        | Some v => read_then D rest next v binaryData
        | None => GLTF.Throw GLTF.SyntaxError
        end
      else if type =? GLTF.BIN_CHUNK then read_then D rest next json (Some payload)
      else read_then D rest next json binaryData
  end.

Definition is_json (c : N * list Byte.byte) : bool := fst c =? GLTF.JSON_CHUNK.

Definition is_bin (c : N * list Byte.byte) : bool := fst c =? GLTF.BIN_CHUNK.

(** The chunk types [parse] looks at. *)
Definition known (c : N * list Byte.byte) : bool := is_json c || is_bin c.

End GLB.

(** A decoder for examples: bytes are read as ASCII, and the one document
    that parses is the empty object followed by two spaces. *)
Definition ascii_decoder : GLTF.Decoder :=
  {| GLTF.JSON_parse := fun s => if String.eqb s "{}  " then Some (JS.Object []) else None;
     GLTF.decode := string_of_list_byte |}.

(** A container with an empty JSON object (padded with two spaces) and
    four bytes of binary data. *)
Definition small_glb : list Byte.byte :=
  GLB.container 2 [(GLTF.JSON_CHUNK, [Byte.x7b; Byte.x7d; Byte.x20; Byte.x20]);
                   (GLTF.BIN_CHUNK, [Byte.x01; Byte.x02; Byte.x03; Byte.x04])].

(** * Turning the bear models

    [interpolateRotation] of the client: the rotation of a player's model
    moves towards its target by the shortest way round, at no more than
    [ROTATION_SPEED] radians per second. The target is [null] or a
    number. *)

Module Rotation.

Local Open Scope float_scope.

Definition ROTATION_SPEED : float := 3.

(** [Math.PI] *)
Definition Math_PI : float := 0x1.921fb54442d18p+1.

(** [Math.sign(x)]: NaN for NaN, the zero itself for a zero, else 1 or -1. *)
Definition Math_sign (x : float) : float :=
  if is_nan x then nan
  else if is_zero x then x
  else if 0 <? x then 1 else -1.

(** The wrap-around of the difference (shortest path). *)
Definition shortest (difference : float) : float :=
  if Math_PI <? difference then difference - 2 * Math_PI
  else if difference <? - Math_PI then difference + 2 * Math_PI
  else difference.

Definition maxRotationThisFrame (deltaTime : float) : float := ROTATION_SPEED * deltaTime.

Definition actualRotation (current target deltaTime : float) : float :=
  let difference := shortest (target - current) in
  Math_sign difference
  * JS.Math_min (JS.Math_abs difference) (maxRotationThisFrame deltaTime).

(** [interpolateRotation(current, target, deltaTime)] *)
Definition interpolateRotation (current : float) (target : option float) (deltaTime : float)
  : float :=
  match target with
  | None => current
  | Some target => current + actualRotation current target deltaTime
  end.

End Rotation.

Definition one_or_minus_one (s : bool) : spec_float := S754_finite s 4503599627370496 (-52).

(** What the collision loop may make of a ball: the same ball at the same
    place, with the carrier it had or with none. *)
Definition released (b b' : Ball.t) : Prop :=
  place b' = place b /\
  (Ball.carriedBy b' = Ball.carriedBy b \/ Ball.carriedBy b' = None).

(** ** Concrete inputs for the properties of the whole code *)

Open Scope string_scope.

(** A run in which the first player joins, takes a ball, and leaves. *)
Definition join_and_leave : list Event := [Connection; Tick; Close first_id].

(** The first player once it has picked up the ball "u" and was told to go
    left, and the same player one tick later. *)
Definition carrier_before : Player.t :=
  Player.set_dir (Player.set_carrying (createPlayer first_id TeamLeft) (Some "u")) (-1) 0.

Definition carrier_after : Player.t := Player.set_pos carrier_before (-363) 0.

(** Two players 33 apart. *)
Definition far_pair : list Player.t :=
  [still_player "a" TeamLeft (-3) 0 None; still_player "b" TeamRight 30 0 None].

(** A client with no key held and an open socket. *)
Definition idle_client : Client.Input :=
  {| Client.keyState := Client.keyState0;
     Client.currentDirection := (0%float, 0%float);
     Client.socket_open := true |}.

(** Left arrow and w go down, an unbound key is hit, the left arrow goes up:
    w is still held. *)
Definition some_keys : list Client.InputEvent :=
  [Client.keydown "ArrowLeft"; Client.keydown "w"; Client.keydown "x";
   Client.keyup "ArrowLeft"].

(** A player that a collision pushed out of the inset field and that is told
    to go right. *)
Definition pushed_out : Player.t :=
  Player.set_dir (still_player "a" TeamLeft (-399) 0 None) 1 0.

(** An input message with [x] out of range and no [y]. *)
Definition input_half : JS.value :=
  JS.Object [("type", JS.Str "input"); ("x", JS.Number 5%float)].

(** An input message whose [x] is an array around an object with a
    property [toString]. *)
Definition input_unconvertible : JS.value :=
  JS.Object [("type", JS.Str "input");
             ("x", JS.Array [JS.Object [("toString", JS.Number 0%float)]]);
             ("y", JS.Number 1%float)].

Close Scope string_scope.

(** A JSON chunk that [ascii_decoder] parses, a BIN chunk, and a chunk of
    another type. *)
Definition json_chunk : N * list Byte.byte :=
  (GLTF.JSON_CHUNK, [Byte.x7b; Byte.x7d; Byte.x20; Byte.x20]).

Definition bin_chunk : N * list Byte.byte :=
  (GLTF.BIN_CHUNK, [Byte.x01; Byte.x02; Byte.x03; Byte.x04]).

Definition other_chunk : N * list Byte.byte :=
  (0x00545845%N, [Byte.xff; Byte.xff; Byte.xff; Byte.xff]).
Unset Implicit Arguments.

(** * Facts about the maps *)

Section IdMapFacts.
Variable A : Type.
Variable key : A -> string.

Lemma map_get_In (k : string) (m : list A) (a : A) :
  map_get key k m = Some a -> In a m /\ key a = k.
Proof.
  induction m as [|c m IH]; simpl; [discriminate|].
  destruct (String.eqb (key c) k) eqn:E.
  - intros [= <-]. apply String.eqb_eq in E. auto.
  - intros H. destruct (IH H). auto.
Qed.

Lemma map_get_None (k : string) (m : list A) :
  map_get key k m = None <-> ~ In k (map key m).
Proof.
  induction m as [|c m IH]; simpl.
  - tauto.
  - destruct (String.eqb (key c) k) eqn:E.
    + apply String.eqb_eq in E. split; [discriminate | tauto].
    + apply String.eqb_neq in E. tauto.
Qed.

Lemma map_update_keys (k : string) (f : A -> A) (m : list A) :
  (forall a, key (f a) = key a) ->
  map key (map_update key k f m) = map key m.
Proof.
  intros Hf. induction m as [|c m IH]; simpl; [reflexivity|].
  destruct (String.eqb (key c) k); simpl; congruence.
Qed.

Lemma map_update_length (k : string) (f : A -> A) (m : list A) :
  List.length (map_update key k f m) = List.length m.
Proof.
  induction m as [|c m IH]; simpl; [reflexivity|].
  destruct (String.eqb (key c) k); simpl; congruence.
Qed.

Lemma map_delete_length (k : string) (m : list A) (a : A) :
  map_get key k m = Some a ->
  S (List.length (map_delete key k m)) = List.length m.
Proof.
  induction m as [|c m IH]; simpl; [discriminate|].
  destruct (String.eqb (key c) k); simpl; auto.
Qed.

Lemma map_delete_keys_incl (k : string) (m : list A) :
  incl (map key (map_delete key k m)) (map key m).
Proof.
  induction m as [|c m IH]; simpl; [apply incl_refl|].
  destruct (String.eqb (key c) k).
  - apply incl_tl, incl_refl.
  - apply incl_cons; [left; reflexivity | apply incl_tl, IH].
Qed.

Lemma map_set_fresh (v : A) (m : list A) :
  ~ In (key v) (map key m) -> map_set key v m = m ++ [v].
Proof.
  induction m as [|c m IH]; simpl; [reflexivity|].
  intros H. destruct (String.eqb (key c) (key v)) eqn:E.
  - apply String.eqb_eq in E. tauto.
  - rewrite IH; tauto.
Qed.

Lemma map_delete_NoDup (k : string) (m : list A) :
  NoDup (map key m) -> NoDup (map key (map_delete key k m)).
Proof.
  induction m as [|c m IH]; simpl; [auto|].
  intros H. inversion H as [|? ? Hn Hd]; subst.
  destruct (String.eqb (key c) k); [assumption|].
  simpl. constructor; [|auto].
  intros Hin. apply Hn. eapply map_delete_keys_incl; eassumption.
Qed.

Lemma map_delete_not_In (k : string) (m : list A) :
  NoDup (map key m) -> ~ In k (map key (map_delete key k m)).
Proof.
  induction m as [|c m IH]; simpl; [tauto|].
  intros H. inversion H as [|? ? Hn Hd]; subst.
  destruct (String.eqb (key c) k) eqn:E.
  - apply String.eqb_eq in E. subst. assumption.
  - apply String.eqb_neq in E. simpl. intros [F|F]; [auto | exact (IH Hd F)].
Qed.

Lemma map_set_keys (v : A) (m : list A) :
  In (key v) (map key m) -> map key (map_set key v m) = map key m.
Proof.
  induction m as [|c m IH]; simpl; [tauto|].
  destruct (String.eqb (key c) (key v)) eqn:E.
  - apply String.eqb_eq in E. simpl. congruence.
  - apply String.eqb_neq in E. intros [F|F]; [congruence|]. simpl. rewrite IH; auto.
Qed.

End IdMapFacts.

(** * The ball pool *)

Section PoolFacts.
Variable rt : Runtime.
Hypothesis uuid_inj : uuid_injective rt.

Lemma ids_drawn_fresh (n : nat) (ids : list string) :
  ids_drawn rt n ids -> ~ In (uuidv4 rt n) ids.
Proof.
  intros H Hin. destruct (H _ Hin) as (k & Hk & E).
  apply uuid_inj in E. lia.
Qed.

Lemma ids_drawn_mono (n m : nat) (ids : list string) :
  n <= m -> ids_drawn rt n ids -> ids_drawn rt m ids.
Proof.
  intros Hnm H i Hi. destruct (H i Hi) as (k & Hk & E). exists k. split; [lia | exact E].
Qed.

Lemma ids_drawn_snoc (n : nat) (ids : list string) :
  ids_drawn rt n ids -> ids_drawn rt (S n) (ids ++ [uuidv4 rt n]).
Proof.
  intros H i Hin. apply in_app_or in Hin. destruct Hin as [Hin|[<-|[]]].
  - destruct (H i Hin) as (k & Hk & E). exists k. split; [lia | exact E].
  - exists n. split; [lia | reflexivity].
Qed.

(** Replacing a ball of the pool by a newly created one keeps the pool. *)
Lemma pool_ok_replace (n nr nu : nat) (bs : list Ball.t) (bid : string) (old : Ball.t) :
  pool_ok rt n bs nu ->
  map_get Ball.id bid bs = Some old ->
  pool_ok rt n (map_set Ball.id (createBall rt nr nu) (map_delete Ball.id bid bs)) (S nu).
Proof.
  intros (Hlen & Hnd & Hdr) Hget.
  assert (Hdr' : ids_drawn rt nu (map Ball.id (map_delete Ball.id bid bs))).
  { intros i Hi. apply Hdr. eapply map_delete_keys_incl; eassumption. }
  assert (Hfresh : ~ In (Ball.id (createBall rt nr nu))
                     (map Ball.id (map_delete Ball.id bid bs))).
  { simpl. apply ids_drawn_fresh. exact Hdr'. }
  rewrite (map_set_fresh _ _ _ _ Hfresh). split; [|split].
  - rewrite length_app. simpl. rewrite <- Hlen, <- (map_delete_length _ _ _ _ _ Hget). lia.
  - rewrite map_app. simpl.
    apply NoDup_app; [apply map_delete_NoDup; assumption | repeat constructor; simpl; tauto |].
    intros i Hi [<-|[]]. exact (Hfresh Hi).
  - rewrite map_app. simpl. apply ids_drawn_snoc. exact Hdr'.
Qed.

Lemma follow_ids (p : Player.t) (bs : list Ball.t) :
  map Ball.id (follow p bs) = map Ball.id bs.
Proof.
  unfold follow. destruct (Player.carryingBallId p) as [bid|]; [|reflexivity].
  destruct (JS.truthy (Some bid)); [|reflexivity].
  apply map_update_keys. reflexivity.
Qed.

Lemma pool_ok_same_ids (n nu : nat) (bs bs' : list Ball.t) :
  map Ball.id bs' = map Ball.id bs -> pool_ok rt n bs nu -> pool_ok rt n bs' nu.
Proof.
  intros E (Hlen & Hnd & Hdr). unfold pool_ok. rewrite E.
  repeat split; auto.
  rewrite <- Hlen, <- (length_map Ball.id bs'), E. apply length_map.
Qed.

Lemma pool_ok_mono (n nu nu' : nat) (bs : list Ball.t) :
  nu <= nu' -> pool_ok rt n bs nu -> pool_ok rt n bs nu'.
Proof.
  intros Hle (Hlen & Hnd & Hdr). repeat split; auto. eapply ids_drawn_mono; eassumption.
Qed.

Lemma scoring_pool_ok (n : nat) (p : Player.t) (w : Pool) :
  pool_ok rt n (pool_balls w) (pool_uuids w) ->
  pool_ok rt n (pool_balls (snd (scoring rt p w))) (pool_uuids (snd (scoring rt p w)))
  /\ pool_uuids w <= pool_uuids (snd (scoring rt p w)).
Proof.
  intros Hok. unfold scoring.
  destruct (JS.truthy (Player.carryingBallId p)
            && isInGoal (Player.team p) (Player.x p) (Player.y p)); [|auto].
  simpl. destruct (Player.carryingBallId p) as [bid|]; [|auto].
  destruct (map_get Ball.id bid (pool_balls w)) as [old|] eqn:Hget; [|auto].
  simpl. split; [|lia]. eapply pool_ok_replace; eassumption.
Qed.

Lemma step_player_pool_ok (n : nat) (p : Player.t) (w : Pool) :
  pool_ok rt n (pool_balls w) (pool_uuids w) ->
  pool_ok rt n (pool_balls (snd (step_player rt p w))) (pool_uuids (snd (step_player rt p w)))
  /\ pool_uuids w <= pool_uuids (snd (step_player rt p w)).
Proof.
  intros Hok. unfold step_player.
  apply (scoring_pool_ok n (move p)
           {| pool_balls := follow (move p) (pool_balls w);
              pool_randoms := pool_randoms w; pool_uuids := pool_uuids w |}).
  simpl. eapply pool_ok_same_ids; [apply follow_ids | exact Hok].
Qed.

Lemma step_players_pool_ok (n : nat) (ps : list Player.t) (w : Pool) :
  pool_ok rt n (pool_balls w) (pool_uuids w) ->
  pool_ok rt n (pool_balls (snd (step_players rt ps w))) (pool_uuids (snd (step_players rt ps w)))
  /\ pool_uuids w <= pool_uuids (snd (step_players rt ps w)).
Proof.
  revert w. induction ps as [|p ps IH]; intros w Hok; simpl; [auto|].
  destruct (step_player_pool_ok n p w Hok) as [H1 L1].
  destruct (step_player rt p w) as [p' w1]. simpl in *.
  destruct (IH w1 H1) as [H2 L2].
  destruct (step_players rt ps w1) as [ps' w2]. simpl in *.
  split; [assumption | lia].
Qed.

Lemma pickup_scan_ids (p : Player.t) (bs : list Ball.t) :
  map Ball.id (snd (pickup_scan p bs)) = map Ball.id bs.
Proof.
  induction bs as [|b bs IH]; simpl; [reflexivity|].
  destruct (JS.truthy (Ball.carriedBy b)).
  - destruct (pickup_scan p bs). simpl in *. congruence.
  - destruct (PrimFloat.ltb _ _); [reflexivity|].
    destruct (pickup_scan p bs). simpl in *. congruence.
Qed.

Lemma pickup_player_ids (p : Player.t) (bs : list Ball.t) :
  map Ball.id (snd (pickup_player p bs)) = map Ball.id bs.
Proof.
  unfold pickup_player. destruct (JS.truthy (Player.carryingBallId p)); [reflexivity|].
  pose proof (pickup_scan_ids p bs) as H.
  destruct (pickup_scan p bs) as [[bid|] bs']; exact H.
Qed.

Lemma pickup_players_ids (ps : list Player.t) (bs : list Ball.t) :
  map Ball.id (snd (pickup_players ps bs)) = map Ball.id bs.
Proof.
  revert bs. induction ps as [|p ps IH]; intros bs; simpl; [reflexivity|].
  pose proof (pickup_player_ids p bs) as H1.
  destruct (pickup_player p bs) as [p' bs1]. simpl in H1.
  pose proof (IH bs1) as H2.
  destruct (pickup_players ps bs1) as [ps' bs2]. simpl in *. congruence.
Qed.

Lemma drop_ids (p : Player.t) (bs : list Ball.t) :
  map Ball.id (snd (drop p bs)) = map Ball.id bs.
Proof.
  unfold drop. destruct (Player.carryingBallId p) as [bid|]; [|reflexivity].
  destruct (JS.truthy (Some bid)); [|reflexivity].
  simpl. apply map_update_keys. reflexivity.
Qed.

Lemma collide_ids (i j : nat) (w : list Player.t * list Ball.t) :
  map Ball.id (snd (collide i j w)) = map Ball.id (snd w).
Proof.
  unfold collide. destruct w as [ps bs].
  destruct (nth_error ps i) as [p1|]; [|reflexivity].
  destruct (nth_error ps j) as [p2|]; [|reflexivity].
  destruct (PrimFloat.ltb _ _); [|reflexivity].
  match goal with |- context [drop ?a bs] =>
    pose proof (drop_ids a bs) as H1; destruct (drop a bs) as [p1b bs1] end.
  match goal with |- context [drop ?a bs1] =>
    pose proof (drop_ids a bs1) as H2; destruct (drop a bs1) as [p2b bs2] end.
  simpl in *. congruence.
Qed.

Lemma fold_left_invariant (A B : Type) (P : A -> Prop) (f : A -> B -> A) (l : list B) (a : A) :
  (forall a b, P a -> P (f a b)) -> P a -> P (fold_left f l a).
Proof.
  intros Hf. revert a. induction l as [|b l IH]; simpl; auto.
Qed.

Lemma collisions_ids (w : list Player.t * list Ball.t) :
  map Ball.id (snd (collisions w)) = map Ball.id (snd w).
Proof.
  unfold collisions.
  apply (fold_left_invariant _ _ (fun a => map Ball.id (snd a) = map Ball.id (snd w))); [|reflexivity].
  intros a i Ha. unfold collide_from.
  apply (fold_left_invariant _ _ (fun a => map Ball.id (snd a) = map Ball.id (snd w))); [|exact Ha].
  intros a' j Ha'. rewrite collide_ids. exact Ha'.
Qed.

Lemma update_state_pool_ok (n : nat) (s : State) :
  pool_ok rt n (balls s) (uuids_used s) ->
  pool_ok rt n (balls (update_state rt s)) (uuids_used (update_state rt s))
  /\ uuids_used s <= uuids_used (update_state rt s).
Proof.
  intros Hok. unfold update_state.
  pose proof (step_players_pool_ok n (players s)
                {| pool_balls := balls s; pool_randoms := randoms_used s;
                   pool_uuids := uuids_used s |} Hok) as [H1 L1].
  destruct (step_players rt (players s) _) as [ps1 w1]. simpl in H1, L1.
  pose proof (pickup_players_ids ps1 (pool_balls w1)) as H2.
  destruct (pickup_players ps1 (pool_balls w1)) as [ps2 bs2]. simpl in H2.
  pose proof (collisions_ids (ps2, bs2)) as H3.
  destruct (collisions (ps2, bs2)) as [ps3 bs3]. simpl in *.
  split; [|exact L1].
  eapply pool_ok_same_ids; [|exact H1]. congruence.
Qed.

Lemma init_balls_pool_ok (k n : nat) (w : Pool) :
  pool_ok rt n (pool_balls w) (pool_uuids w) ->
  pool_ok rt (n + k) (pool_balls (init_balls rt k w)) (pool_uuids (init_balls rt k w)).
Proof.
  revert n w. induction k as [|k IH]; intros n w Hok; simpl.
  { rewrite Nat.add_0_r. exact Hok. }
  replace (n + S k) with (S n + k) by lia. apply IH. simpl.
  destruct Hok as (Hlen & Hnd & Hdr).
  assert (Hfresh : ~ In (Ball.id (createBall rt (pool_randoms w) (pool_uuids w)))
                     (map Ball.id (pool_balls w))).
  { simpl. apply ids_drawn_fresh. exact Hdr. }
  rewrite (map_set_fresh _ _ _ _ Hfresh). split; [|split].
  - rewrite length_app. simpl. lia.
  - rewrite map_app. simpl.
    apply NoDup_app; [assumption | repeat constructor; simpl; tauto |].
    intros i Hi [<-|[]]. exact (Hfresh Hi).
  - rewrite map_app. simpl. apply ids_drawn_snoc. exact Hdr.
Qed.

Lemma initial_state_pool_ok :
  pool_ok rt BALL_COUNT (balls (initial_state rt)) (uuids_used (initial_state rt)).
Proof.
  unfold initial_state. cbn [balls uuids_used].
  apply (init_balls_pool_ok BALL_COUNT 0).
  repeat split; [constructor | intros i []].
Qed.

Lemma handle_pool_ok (n : nat) (e : Event) (s : State) :
  pool_ok rt n (balls s) (uuids_used s) ->
  pool_ok rt n (balls (fst (handle rt e s))) (uuids_used (fst (handle rt e s))).
Proof.
  intros Hok. destruct e as [|id data|id|]; simpl.
  - eapply pool_ok_mono; [|exact Hok]. lia.
  - unfold onMessage. destruct data as [[| | | | | |]|]; simpl; try exact Hok;
      repeat match goal with
             | |- context [match ?x with _ => _ end] => destruct x
             end; exact Hok.
  - exact Hok.
  - apply update_state_pool_ok. exact Hok.
Qed.

Lemma run_from_pool_ok (n : nat) (evs : list Event) (s : State) :
  pool_ok rt n (balls s) (uuids_used s) ->
  pool_ok rt n (balls (fst (run_from rt s evs))) (uuids_used (fst (run_from rt s evs))).
Proof.
  revert s. induction evs as [|e evs IH]; intros s Hok; simpl; [exact Hok|].
  pose proof (handle_pool_ok n e s Hok) as H1.
  destruct (handle rt e s) as [s1 o1]. simpl in H1.
  pose proof (IH s1 H1) as H2.
  destruct (run_from rt s1 evs) as [s2 o2]. exact H2.
Qed.

End PoolFacts.

(** C7. With [uuidv4] never repeating an id, the pool holds [BALL_COUNT]
    balls after start-up and after every event of every run: connections,
    messages, disconnections and ticks, scoring ticks included. *)
Theorem ball_pool_size_constant (rt : Runtime) (evs : list Event) :
  uuid_injective rt ->
  List.length (balls (initial_state rt)) = BALL_COUNT /\
  List.length (balls (state_after rt evs)) = BALL_COUNT.
Proof.
  intros Hinj. split.
  - apply (initial_state_pool_ok rt Hinj).
  - unfold state_after, run.
    apply (run_from_pool_ok rt Hinj _ evs _ (initial_state_pool_ok rt Hinj)).
Qed.

(** * Identity and score of the players through a tick *)

Lemma map_set_nth_same (A B : Type) (f : A -> B) (i : nat) (q : A) (l : list A) :
  nth_error (map f l) i = Some (f q) ->
  map f (set_nth i (fun _ => q) l) = map f l.
Proof.
  revert i. induction l as [|a l IH]; intros [|i]; simpl; try discriminate.
  - intros [= ->]. reflexivity.
  - intros H. rewrite (IH i H). reflexivity.
Qed.

Lemma move_ident (p : Player.t) : ident (move p) = ident p.
Proof. unfold move. destruct (_ || _); reflexivity. Qed.

Lemma move_carrying (p : Player.t) :
  Player.carryingBallId (move p) = Player.carryingBallId p.
Proof. unfold move. destruct (_ || _); reflexivity. Qed.

Lemma scoring_advances (rt : Runtime) (p : Player.t) (w : Pool) :
  advances p (fst (scoring rt p w)).
Proof.
  unfold scoring, advances.
  destruct (JS.truthy (Player.carryingBallId p) && isInGoal _ _ _); [|simpl; auto].
  simpl. destruct (Player.carryingBallId p) as [bid|]; [|simpl; auto].
  destruct (map_get Ball.id bid (pool_balls w)); simpl; auto.
Qed.

Lemma step_player_advances (rt : Runtime) (p : Player.t) (w : Pool) :
  advances p (fst (step_player rt p w)).
Proof.
  unfold step_player.
  match goal with |- advances p (fst (scoring rt _ ?w1)) =>
    pose proof (scoring_advances rt (move p) w1) as H end.
  pose proof (move_ident p) as E. unfold ident in E. injection E as E1 E2 E3.
  unfold advances in *. rewrite E1, E2, E3 in H. exact H.
Qed.

Lemma step_players_advances (rt : Runtime) (ps : list Player.t) (w : Pool) :
  Forall2 advances ps (fst (step_players rt ps w)).
Proof.
  revert w. induction ps as [|p ps IH]; intros w; simpl; [constructor|].
  pose proof (step_player_advances rt p w) as H1.
  destruct (step_player rt p w) as [p' w1]. simpl in H1.
  pose proof (IH w1) as H2.
  destruct (step_players rt ps w1) as [ps' w2]. simpl in *.
  constructor; assumption.
Qed.

Lemma pickup_player_ident (p : Player.t) (bs : list Ball.t) :
  ident (fst (pickup_player p bs)) = ident p.
Proof.
  unfold pickup_player. destruct (JS.truthy (Player.carryingBallId p)); [reflexivity|].
  destruct (pickup_scan p bs) as [[bid|] bs']; reflexivity.
Qed.

Lemma pickup_players_ident (ps : list Player.t) (bs : list Ball.t) :
  map ident (fst (pickup_players ps bs)) = map ident ps.
Proof.
  revert bs. induction ps as [|p ps IH]; intros bs; simpl; [reflexivity|].
  pose proof (pickup_player_ident p bs) as H1.
  destruct (pickup_player p bs) as [p' bs1]. simpl in H1.
  pose proof (IH bs1) as H2.
  destruct (pickup_players ps bs1) as [ps' bs2]. simpl in *. congruence.
Qed.

Lemma drop_ident (p : Player.t) (bs : list Ball.t) :
  ident (fst (drop p bs)) = ident p.
Proof.
  unfold drop. destruct (Player.carryingBallId p) as [bid|]; [|reflexivity].
  destruct (JS.truthy (Some bid)); reflexivity.
Qed.

Lemma collide_ident (i j : nat) (w : list Player.t * list Ball.t) :
  map ident (fst (collide i j w)) = map ident (fst w).
Proof.
  unfold collide. destruct w as [ps bs].
  destruct (nth_error ps i) as [p1|] eqn:E1; [|reflexivity].
  destruct (nth_error ps j) as [p2|] eqn:E2; [|reflexivity].
  destruct (PrimFloat.ltb _ _); [|reflexivity].
  match goal with |- context [drop ?a bs] =>
    pose proof (drop_ident a bs) as H1; destruct (drop a bs) as [p1b bs1] end.
  match goal with |- context [drop ?a bs1] =>
    pose proof (drop_ident a bs1) as H2; destruct (drop a bs1) as [p2b bs2] end.
  simpl in *.
  assert (F1 : map ident (set_nth i (fun _ => p1b) ps) = map ident ps).
  { apply map_set_nth_same. rewrite nth_error_map, E1. simpl. f_equal. symmetry. exact H1. }
  rewrite map_set_nth_same; [exact F1|].
  rewrite F1, nth_error_map, E2. simpl. f_equal. symmetry. exact H2.
Qed.

Lemma collisions_ident (w : list Player.t * list Ball.t) :
  map ident (fst (collisions w)) = map ident (fst w).
Proof.
  unfold collisions.
  apply (fold_left_invariant _ _ (fun a => map ident (fst a) = map ident (fst w))); [|reflexivity].
  intros a i Ha. unfold collide_from.
  apply (fold_left_invariant _ _ (fun a => map ident (fst a) = map ident (fst w))); [|exact Ha].
  intros a' j Ha'. rewrite collide_ident. exact Ha'.
Qed.

Lemma Forall2_advances_ident (ps ps1 ps3 : list Player.t) :
  Forall2 advances ps ps1 -> map ident ps3 = map ident ps1 -> Forall2 advances ps ps3.
Proof.
  intros H. revert ps3. induction H as [|p p1 ps ps1 Hp Hps IH]; intros [|p3 ps3]; simpl;
    try discriminate; [constructor|].
  intros E. unfold ident at 1 3 in E. injection E as Ea Eb Ec E2.
  constructor; [|apply IH; exact E2].
  unfold advances in *. rewrite Ea, Eb, Ec. exact Hp.
Qed.

Lemma update_state_advances (rt : Runtime) (s : State) :
  Forall2 advances (players s) (players (update_state rt s)).
Proof.
  unfold update_state.
  pose proof (step_players_advances rt (players s)
                {| pool_balls := balls s; pool_randoms := randoms_used s;
                   pool_uuids := uuids_used s |}) as H1.
  destruct (step_players rt (players s) _) as [ps1 w1]. simpl in H1.
  pose proof (pickup_players_ident ps1 (pool_balls w1)) as H2.
  destruct (pickup_players ps1 (pool_balls w1)) as [ps2 bs2]. simpl in H2.
  pose proof (collisions_ident (ps2, bs2)) as H3.
  destruct (collisions (ps2, bs2)) as [ps3 bs3]. simpl in *.
  eapply Forall2_advances_ident; [exact H1 | congruence].
Qed.

Lemma Forall2_advances_ids (ps ps' : list Player.t) :
  Forall2 advances ps ps' -> map Player.id ps' = map Player.id ps.
Proof.
  induction 1 as [|p p' ps ps' (E & _) _ IH]; simpl; congruence.
Qed.

Lemma Forall2_advances_get (ps ps' : list Player.t) (k : string) (p : Player.t) :
  Forall2 advances ps ps' ->
  map_get Player.id k ps = Some p ->
  exists p', map_get Player.id k ps' = Some p' /\ advances p p'.
Proof.
  induction 1 as [|q q' ps ps' Hq _ IH]; simpl; [discriminate|].
  destruct Hq as (E & Hq). rewrite E.
  destruct (String.eqb (Player.id q) k).
  - intros [= <-]. exists q'. split; [reflexivity | split; assumption].
  - exact IH.
Qed.

Lemma incr_cases (z : Z) : JS.incr z = z \/ JS.incr z = (z + 1)%Z.
Proof. unfold JS.incr. destruct (z <? 2 ^ 53)%Z; auto. Qed.

(** * Scores along a run *)

Lemma run_from_app (rt : Runtime) (evs1 evs2 : list Event) (s : State) :
  run_from rt s (evs1 ++ evs2) =
  (fst (run_from rt (fst (run_from rt s evs1)) evs2),
   snd (run_from rt s evs1) ++ snd (run_from rt (fst (run_from rt s evs1)) evs2)).
Proof.
  revert s. induction evs1 as [|e evs1 IH]; intros s; simpl.
  - destruct (run_from rt s evs2); reflexivity.
  - destruct (handle rt e s) as [s1 o1]. rewrite IH.
    destruct (run_from rt s1 evs1) as [s2 o2]. simpl.
    destruct (run_from rt s2 evs2) as [s3 o3]. simpl.
    rewrite app_assoc. reflexivity.
Qed.

Lemma state_after_snoc (rt : Runtime) (evs : list Event) (e : Event) :
  state_after rt (evs ++ [e]) = fst (handle rt e (state_after rt evs)).
Proof.
  unfold state_after, run. rewrite run_from_app. simpl.
  destruct (handle rt e _) as [s1 o1]. reflexivity.
Qed.

Lemma map_get_app_l (A : Type) (key : A -> string) (k : string) (m m' : list A) (a : A) :
  map_get key k m = Some a -> map_get key k (m ++ m') = Some a.
Proof.
  induction m as [|c m IH]; simpl; [discriminate|].
  destruct (String.eqb (key c) k); auto.
Qed.

Lemma map_get_update (A : Type) (key : A -> string) (k k' : string) (f : A -> A) (m : list A) :
  (forall a, key (f a) = key a) ->
  map_get key k (map_update key k' f m) =
  if String.eqb k' k then option_map f (map_get key k m) else map_get key k m.
Proof.
  intros Hf. induction m as [|c m IH]; simpl.
  - destruct (String.eqb k' k); reflexivity.
  - destruct (String.eqb (key c) k') eqn:E1; simpl.
    + apply String.eqb_eq in E1. subst k'. rewrite Hf.
      destruct (String.eqb (key c) k); reflexivity.
    + destruct (String.eqb (key c) k) eqn:E2; [|exact IH].
      apply String.eqb_eq in E2. subst k. rewrite String.eqb_sym, E1. reflexivity.
Qed.

Lemma map_get_delete (A : Type) (key : A -> string) (k k' : string) (m : list A) :
  NoDup (map key m) ->
  map_get key k (map_delete key k' m) =
  if String.eqb k' k then None else map_get key k m.
Proof.
  intros Hnd. induction m as [|c m IH]; simpl.
  - destruct (String.eqb k' k); reflexivity.
  - inversion Hnd as [|? ? Hn Hd]; subst.
    destruct (String.eqb (key c) k') eqn:E1.
    + apply String.eqb_eq in E1. subst k'.
      destruct (String.eqb (key c) k) eqn:E2; [|reflexivity].
      apply String.eqb_eq in E2. subst k. apply map_get_None. exact Hn.
    + simpl. destruct (String.eqb (key c) k) eqn:E2; [|exact (IH Hd)].
      apply String.eqb_eq in E2. subst k. rewrite String.eqb_sym, E1. reflexivity.
Qed.

Lemma onMessage_shape (rt : Runtime) (id : string) (data : option JS.value) (s : State) :
  fst (onMessage rt id data s) = s \/
  exists x y p,
    map_get Player.id id (players s) = Some p /\
    fst (onMessage rt id data s) =
    with_players s (map_update Player.id id (fun player => Player.set_dir player x y) (players s)).
Proof.
  unfold onMessage.
  destruct data as [msg|]; [|left; reflexivity].
  destruct (is_input (JS.get msg "type")) eqn:Ei.
  - destruct (map_get Player.id id (players s)) as [p|] eqn:Eg.
    + destruct (ToNumber rt (JS.get msg "x")) as [nx|];
        [|destruct msg; left; reflexivity].
      destruct (ToNumber rt (JS.get msg "y")) as [ny|];
        [|destruct msg; left; reflexivity].
      destruct msg; try (left; reflexivity); right; do 3 eexists; split; reflexivity.
    + destruct msg; left; reflexivity.
  - destruct msg; left; reflexivity.
Qed.

Lemma Forall_map_update (A : Type) (key : A -> string) (P : A -> Prop) (k : string)
  (f : A -> A) (m : list A) :
  (forall a, P a -> P (f a)) -> Forall P m -> Forall P (map_update key k f m).
Proof.
  intros Hf. induction 1 as [|c m Hc Hm IH]; simpl; [constructor|].
  destruct (String.eqb (key c) k); constructor; auto.
Qed.

Lemma Forall_map_delete (A : Type) (key : A -> string) (P : A -> Prop) (k : string) (m : list A) :
  Forall P m -> Forall P (map_delete key k m).
Proof.
  induction 1 as [|c m Hc Hm IH]; simpl; [constructor|].
  destruct (String.eqb (key c) k); [assumption | constructor; assumption].
Qed.

Section ScoreFacts.
Variable rt : Runtime.
Hypothesis uuid_inj : uuid_injective rt.

Lemma advances_nonneg (ps ps' : list Player.t) :
  Forall2 advances ps ps' ->
  Forall (fun p => (0 <= Player.score p)%Z) ps ->
  Forall (fun p => (0 <= Player.score p)%Z) ps'.
Proof.
  induction 1 as [|p p' ps ps' (_ & _ & Hs) _ IH]; intros HF; [constructor|].
  inversion HF; subst. constructor; [|auto].
  destruct (incr_cases (Player.score p)); destruct Hs; lia.
Qed.

Lemma handle_players_ok (e : Event) (s : State) :
  players_ok rt (players s) (uuids_used s) ->
  pool_ok rt BALL_COUNT (balls s) (uuids_used s) ->
  players_ok rt (players (fst (handle rt e s))) (uuids_used (fst (handle rt e s))).
Proof.
  intros (Hnd & Hdr & Hsc) Hpool. destruct e as [|id data|id|]; simpl.
  - match goal with |- context [map_set Player.id ?v (players s)] =>
      assert (Hfresh : ~ In (Player.id v) (map Player.id (players s)))
        by (simpl; apply ids_drawn_fresh; assumption)
    end.
    rewrite (map_set_fresh _ _ _ _ Hfresh). split; [|split].
    + rewrite map_app. simpl.
      apply NoDup_app; [assumption | repeat constructor; simpl; tauto |].
      intros i Hi [<-|[]]. exact (Hfresh Hi).
    + rewrite map_app. simpl. apply ids_drawn_snoc. exact Hdr.
    + apply Forall_app. split; [exact Hsc|]. repeat constructor. simpl. lia.
  - destruct (onMessage_shape rt id data s) as [E|(x & y & p & _ & E)]; rewrite E.
    + repeat split; assumption.
    + simpl. split; [|split].
      * rewrite map_update_keys; [exact Hnd | reflexivity].
      * rewrite map_update_keys; [exact Hdr | reflexivity].
      * apply Forall_map_update; [intros a Ha; exact Ha | exact Hsc].
  - split; [|split].
    + apply map_delete_NoDup. exact Hnd.
    + intros i Hi. apply Hdr. eapply map_delete_keys_incl. exact Hi.
    + apply Forall_map_delete. exact Hsc.
  - pose proof (update_state_advances rt s) as Hadv.
    destruct (update_state_pool_ok rt uuid_inj _ s Hpool) as [_ Hle].
    split; [|split].
    + rewrite (Forall2_advances_ids _ _ Hadv). exact Hnd.
    + rewrite (Forall2_advances_ids _ _ Hadv). eapply ids_drawn_mono; eassumption.
    + eapply advances_nonneg; eassumption.
Qed.

Lemma run_from_players_ok (evs : list Event) (s : State) :
  players_ok rt (players s) (uuids_used s) ->
  pool_ok rt BALL_COUNT (balls s) (uuids_used s) ->
  players_ok rt (players (fst (run_from rt s evs))) (uuids_used (fst (run_from rt s evs))).
Proof.
  revert s. induction evs as [|e evs IH]; intros s Hp Hb; simpl; [exact Hp|].
  pose proof (handle_players_ok e s Hp Hb) as H1.
  pose proof (handle_pool_ok rt uuid_inj _ e s Hb) as H1'.
  destruct (handle rt e s) as [s1 o1]. simpl in H1, H1'.
  pose proof (IH s1 H1 H1') as H2.
  destruct (run_from rt s1 evs) as [s2 o2]. exact H2.
Qed.

Lemma state_after_players_ok (evs : list Event) :
  players_ok rt (players (state_after rt evs)) (uuids_used (state_after rt evs)).
Proof.
  unfold state_after, run. apply run_from_players_ok.
  - simpl. repeat split; [constructor | intros i [] | constructor].
  - apply initial_state_pool_ok. exact uuid_inj.
Qed.

Lemma handle_score (e : Event) (s : State) (id : string) (z z' : Z) :
  players_ok rt (players s) (uuids_used s) ->
  score_of id s = Some z ->
  score_of id (fst (handle rt e s)) = Some z' ->
  z' = z \/ (e = Tick /\ z' = JS.incr z).
Proof.
  intros (Hnd & Hdr & Hsc) Hz Hz'. unfold score_of in *.
  destruct (map_get Player.id id (players s)) as [p|] eqn:Hget; [|discriminate].
  simpl in Hz. injection Hz as <-.
  destruct e as [|id' data|id'|]; simpl in Hz'.
  - match type of Hz' with context [map_set Player.id ?v (players s)] =>
      assert (Hfresh : ~ In (Player.id v) (map Player.id (players s)))
        by (simpl; apply ids_drawn_fresh; assumption)
    end.
    rewrite (map_set_fresh _ _ _ _ Hfresh) in Hz'.
    rewrite (map_get_app_l _ _ _ _ _ _ Hget) in Hz'. simpl in Hz'. left. congruence.
  - left. destruct (onMessage_shape rt id' data s) as [E|(x & y & q & _ & E)]; rewrite E in Hz'.
    + rewrite Hget in Hz'. simpl in Hz'. congruence.
    + simpl in Hz'. rewrite map_get_update in Hz' by reflexivity.
      rewrite Hget in Hz'. destruct (String.eqb id' id); simpl in Hz'; congruence.
  - left. rewrite map_get_delete in Hz' by exact Hnd.
    destruct (String.eqb id' id); [discriminate|]. rewrite Hget in Hz'. simpl in Hz'. congruence.
  - destruct (Forall2_advances_get _ _ _ _ (update_state_advances rt s) Hget)
      as (p' & Hget' & _ & _ & Hs).
    rewrite Hget' in Hz'. simpl in Hz'. injection Hz' as <-.
    destruct Hs as [Hs|Hs]; [left | right]; auto.
Qed.

End ScoreFacts.

(** C10. A player is created with score 0; along any run (with [uuidv4]
    never repeating an id) the score stored for a connected player is a
    non-negative integer, an event other than a tick leaves it as it is, and
    a tick leaves it or adds one: it never decreases. *)
Theorem score_starts_at_zero_and_never_decreases
  (rt : Runtime) (evs : list Event) (e : Event) (id : string) (z : Z) :
  uuid_injective rt ->
  score_of id (state_after rt evs) = Some z ->
  (forall i t, Player.score (createPlayer i t) = 0%Z) /\
  (0 <= z)%Z /\
  (forall z', score_of id (state_after rt (evs ++ [e])) = Some z' ->
     (z <= z')%Z /\ (z' = z \/ (e = Tick /\ z' = (z + 1)%Z))).
Proof.
  intros Hinj Hz. pose proof (state_after_players_ok rt Hinj evs) as Hok.
  split; [reflexivity|]. split.
  - destruct Hok as (_ & _ & Hsc). unfold score_of in Hz.
    destruct (map_get Player.id id (players (state_after rt evs))) as [p|] eqn:Hget; [|discriminate].
    injection Hz as <-. apply map_get_In in Hget. destruct Hget as [Hin _].
    rewrite Forall_forall in Hsc. apply Hsc. exact Hin.
  - intros z' Hz'. rewrite state_after_snoc in Hz'.
    destruct (handle_score rt Hinj e _ id z z' Hok Hz Hz') as [->|[-> ->]].
    + split; [lia | left; reflexivity].
    + destruct (incr_cases z) as [E|E]; rewrite E; split; try lia; auto.
Qed.

(** * Runs depend on the runtime through the draws they make *)

Lemma scoring_counters (rt : Runtime) (p : Player.t) (w : Pool) :
  pool_randoms w <= pool_randoms (snd (scoring rt p w)) /\
  pool_uuids w <= pool_uuids (snd (scoring rt p w)).
Proof.
  unfold scoring. destruct (JS.truthy _ && isInGoal _ _ _); [|simpl; lia].
  cbn [Player.set_score Player.set_carrying Player.carryingBallId].
  destruct (Player.carryingBallId p) as [bid|]; [|simpl; lia].
  destruct (map_get Ball.id bid (pool_balls w)); simpl; lia.
Qed.

Lemma step_players_counters (rt : Runtime) (ps : list Player.t) (w : Pool) :
  pool_randoms w <= pool_randoms (snd (step_players rt ps w)) /\
  pool_uuids w <= pool_uuids (snd (step_players rt ps w)).
Proof.
  revert w. induction ps as [|p ps IH]; intros w; simpl; [lia|].
  unfold step_player.
  pose proof (scoring_counters rt (move p)
                {| pool_balls := follow (move p) (pool_balls w);
                   pool_randoms := pool_randoms w; pool_uuids := pool_uuids w |}) as H.
  destruct (scoring rt (move p) _) as [p' w1]. cbn [snd pool_randoms pool_uuids] in H.
  specialize (IH w1). destruct (step_players rt ps w1) as [ps' w2]. simpl in *. lia.
Qed.

Lemma init_balls_counters (rt : Runtime) (n : nat) (w : Pool) :
  pool_randoms w <= pool_randoms (init_balls rt n w) /\
  pool_uuids w <= pool_uuids (init_balls rt n w).
Proof.
  revert w. induction n as [|n IH]; intros w; simpl; [lia|].
  match goal with |- context [init_balls rt n ?w1] => specialize (IH w1) end.
  simpl in IH. lia.
Qed.

Lemma handle_counters (rt : Runtime) (e : Event) (s : State) :
  randoms_used s <= randoms_used (fst (handle rt e s)) /\
  uuids_used s <= uuids_used (fst (handle rt e s)).
Proof.
  destruct e as [|id data|id|]; cbn [handle].
  - simpl. lia.
  - destruct (onMessage_shape rt id data s) as [E|(x & y & p & _ & E)]; rewrite E; simpl; lia.
  - simpl. lia.
  - unfold update, update_state. cbn [fst].
    pose proof (step_players_counters rt (players s)
                  {| pool_balls := balls s; pool_randoms := randoms_used s;
                     pool_uuids := uuids_used s |}) as H.
    destruct (step_players rt (players s) _) as [ps1 w1].
    destruct (pickup_players ps1 (pool_balls w1)) as [ps2 bs2].
    destruct (collisions (ps2, bs2)) as [ps3 bs3]. simpl in *. exact H.
Qed.

Lemma run_from_counters (rt : Runtime) (evs : list Event) (s : State) :
  randoms_used s <= randoms_used (fst (run_from rt s evs)) /\
  uuids_used s <= uuids_used (fst (run_from rt s evs)).
Proof.
  revert s. induction evs as [|e evs IH]; intros s; simpl; [lia|].
  pose proof (handle_counters rt e s) as H.
  destruct (handle rt e s) as [s1 o1]. specialize (IH s1).
  destruct (run_from rt s1 evs) as [s2 o2]. simpl in *. lia.
Qed.

Section Agree.
Variables rt1 rt2 : Runtime.
Variables nr nu : nat.
Hypothesis agree : draws_agree rt1 rt2 nr nu.

Lemma createBall_agree (r u : nat) :
  S (S r) <= nr -> S u <= nu -> createBall rt1 r u = createBall rt2 r u.
Proof.
  intros Hr Hu. destruct agree as [Ar Au]. unfold createBall.
  rewrite (Ar r), (Ar (S r)), (Au u) by lia. reflexivity.
Qed.

Lemma scoring_agree (p : Player.t) (w : Pool) :
  pool_randoms (snd (scoring rt1 p w)) <= nr ->
  pool_uuids (snd (scoring rt1 p w)) <= nu ->
  scoring rt1 p w = scoring rt2 p w.
Proof.
  unfold scoring. destruct (JS.truthy _ && isInGoal _ _ _); [|reflexivity].
  cbn [Player.set_score Player.set_carrying Player.carryingBallId].
  destruct (Player.carryingBallId p) as [bid|]; [|reflexivity].
  destruct (map_get Ball.id bid (pool_balls w)); [|reflexivity].
  cbn [snd pool_randoms pool_uuids]. intros Hr Hu.
  rewrite createBall_agree by assumption. reflexivity.
Qed.

Lemma step_players_agree (ps : list Player.t) (w : Pool) :
  pool_randoms (snd (step_players rt1 ps w)) <= nr ->
  pool_uuids (snd (step_players rt1 ps w)) <= nu ->
  step_players rt1 ps w = step_players rt2 ps w.
Proof.
  revert w. induction ps as [|p ps IH]; intros w; simpl; [reflexivity|].
  unfold step_player.
  set (w0 := {| pool_balls := follow (move p) (pool_balls w);
                pool_randoms := pool_randoms w; pool_uuids := pool_uuids w |}).
  pose proof (scoring_agree (move p) w0) as H.
  destruct (scoring rt1 (move p) w0) as [p' w1]. cbn [snd] in H.
  pose proof (step_players_counters rt1 ps w1) as Hc. specialize (IH w1).
  destruct (step_players rt1 ps w1) as [ps' w2]. cbn [snd] in *.
  intros Hr Hu. rewrite <- H by lia. rewrite <- IH by assumption. reflexivity.
Qed.

Lemma update_agree (s : State) :
  randoms_used (update_state rt1 s) <= nr ->
  uuids_used (update_state rt1 s) <= nu ->
  update rt1 s = update rt2 s.
Proof.
  unfold update, update_state.
  set (w0 := {| pool_balls := balls s; pool_randoms := randoms_used s;
                pool_uuids := uuids_used s |}).
  pose proof (step_players_agree (players s) w0) as H.
  destruct (step_players rt1 (players s) w0) as [ps1 w1]. cbn [snd] in H.
  destruct (pickup_players ps1 (pool_balls w1)) as [ps2 bs2] eqn:E2.
  destruct (collisions (ps2, bs2)) as [ps3 bs3] eqn:E3.
  cbn [randoms_used uuids_used]. intros Hr Hu.
  rewrite <- H by assumption. rewrite E2, E3. reflexivity.
Qed.

Lemma init_balls_agree (n : nat) (w : Pool) :
  pool_randoms (init_balls rt1 n w) <= nr ->
  pool_uuids (init_balls rt1 n w) <= nu ->
  init_balls rt1 n w = init_balls rt2 n w.
Proof.
  revert w. induction n as [|n IH]; intros w; simpl; [reflexivity|].
  intros Hr Hu.
  match type of Hr with context [init_balls rt1 n ?w1] =>
    pose proof (init_balls_counters rt1 n w1) as Hc; cbn [pool_randoms pool_uuids] in Hc
  end.
  rewrite <- createBall_agree by lia. apply IH; assumption.
Qed.

Lemma initial_state_agree :
  randoms_used (initial_state rt1) <= nr -> uuids_used (initial_state rt1) <= nu ->
  initial_state rt1 = initial_state rt2.
Proof.
  unfold initial_state. cbn [randoms_used uuids_used]. intros Hr Hu.
  rewrite <- init_balls_agree by assumption. reflexivity.
Qed.

Lemma handle_agree (e : Event) (s : State) :
  randoms_used (fst (handle rt1 e s)) <= nr ->
  uuids_used (fst (handle rt1 e s)) <= nu ->
  numbers_agree_on rt1 rt2 e ->
  handle rt1 e s = handle rt2 e s.
Proof.
  destruct e as [|id data|id|]; cbn [handle].
  - cbn [onConnection fst uuids_used]. intros _ Hu _. destruct agree as [_ Au].
    unfold onConnection. rewrite (Au (uuids_used s)) by lia. reflexivity.
  - intros _ _ Hn. unfold onMessage. destruct data as [msg|]; [|reflexivity].
    destruct Hn as [Hx Hy]. rewrite Hx, Hy. reflexivity.
  - reflexivity.
  - intros Hr Hu _. rewrite <- update_agree; [reflexivity | exact Hr | exact Hu].
Qed.

Lemma run_from_agree (evs : list Event) (s : State) :
  randoms_used (fst (run_from rt1 s evs)) <= nr ->
  uuids_used (fst (run_from rt1 s evs)) <= nu ->
  Forall (numbers_agree_on rt1 rt2) evs ->
  run_from rt1 s evs = run_from rt2 s evs.
Proof.
  revert s. induction evs as [|e evs IH]; intros s Hr Hu Hn; simpl; [reflexivity|].
  inversion Hn as [|? ? He Hn']; subst. simpl in Hr, Hu.
  pose proof (handle_agree e s) as H.
  destruct (handle rt1 e s) as [s1 o1]. cbn [fst] in H.
  pose proof (run_from_counters rt1 evs s1) as Hc. specialize (IH s1).
  destruct (run_from rt1 s1 evs) as [s2 o2]. cbn [fst] in *.
  rewrite <- H by (try assumption; lia). rewrite <- IH by assumption. reflexivity.
Qed.

End Agree.

(** C9, amended. Two runs that receive the same events in the same order
    (connections, messages, disconnections and ticks) broadcast the same
    snapshots, tick for tick, and end in the same state, provided the calls
    of [Math.random] and [uuidv4] that the run makes return the same in
    both, and the [x] and [y] of its messages convert to the same numbers.
    What the runtime would return in any later call does not matter. *)
Theorem same_used_draws_same_snapshots (rt1 rt2 : Runtime) (evs : list Event) :
  draws_agree rt1 rt2 (randoms_used (state_after rt1 evs)) (uuids_used (state_after rt1 evs)) ->
  Forall (numbers_agree_on rt1 rt2) evs ->
  snapshots rt1 evs = snapshots rt2 evs /\ state_after rt1 evs = state_after rt2 evs.
Proof.
  intros Ha Hn. unfold snapshots, state_after, run in *.
  pose proof (run_from_counters rt1 evs (initial_state rt1)) as Hc.
  rewrite <- (initial_state_agree rt1 rt2 _ _ Ha) by lia.
  rewrite <- (run_from_agree rt1 rt2 _ _ Ha evs (initial_state rt1)
                (Nat.le_refl _) (Nat.le_refl _) Hn).
  split; reflexivity.
Qed.

(** * The pickup loop *)

Lemma truthy_Some (i : string) : nonempty i -> JS.truthy (Some i) = true.
Proof.
  intros H. unfold JS.truthy. destruct (String.eqb i "") eqn:E; [|reflexivity].
  apply String.eqb_eq in E. contradiction.
Qed.

Lemma truthy_true (o : option string) :
  JS.truthy o = true -> exists i, o = Some i /\ nonempty i.
Proof.
  destruct o as [i|]; simpl; [|discriminate].
  destruct (String.eqb i "") eqn:E; [discriminate|]. intros _.
  exists i. split; [reflexivity|]. apply String.eqb_neq. exact E.
Qed.

Lemma pickup_scan_first (p : Player.t) (pre post : list Ball.t) (b : Ball.t) :
  Forall (fun c => eligible p c = false) pre ->
  eligible p b = true ->
  pickup_scan p (pre ++ b :: post) =
  (Some (Ball.id b), pre ++ Ball.set_carriedBy b (Some (Player.id p)) :: post).
Proof.
  intros Hpre Hb. induction Hpre as [|c pre Hc _ IH]; simpl.
  - unfold eligible, in_range in Hb. apply andb_prop in Hb. destruct Hb as [H1 H2].
    apply negb_true_iff in H1. rewrite H1, H2. reflexivity.
  - rewrite IH. unfold eligible, in_range in Hc.
    destruct (JS.truthy (Ball.carriedBy c)); [reflexivity|].
    simpl in Hc. rewrite Hc. reflexivity.
Qed.

Lemma pickup_scan_none (p : Player.t) (bs : list Ball.t) :
  Forall (fun c => eligible p c = false) bs -> pickup_scan p bs = (None, bs).
Proof.
  induction 1 as [|c bs Hc _ IH]; simpl; [reflexivity|].
  rewrite IH. unfold eligible, in_range in Hc.
  destruct (JS.truthy (Ball.carriedBy c)); [reflexivity|].
  simpl in Hc. rewrite Hc. reflexivity.
Qed.

(** The scan either finds nothing eligible, or stops at the first eligible ball. *)
Lemma pickup_scan_cases (p : Player.t) (bs : list Ball.t) :
  Forall (fun c => eligible p c = false) bs \/
  exists pre b post,
    bs = pre ++ b :: post /\
    Forall (fun c => eligible p c = false) pre /\
    eligible p b = true.
Proof.
  induction bs as [|c bs IH]; [left; constructor|].
  destruct (eligible p c) eqn:Ec.
  - right. exists [], c, bs. repeat split; [constructor | exact Ec].
  - destruct IH as [IH|(pre & b & post & -> & Hpre & Hb)].
    + left. constructor; assumption.
    + right. exists (c :: pre), b, post. repeat split; [constructor; assumption | exact Hb].
Qed.

Lemma pickup_player_cases (p : Player.t) (bs : list Ball.t) :
  pickup_player p bs = (p, bs) \/
  (JS.truthy (Player.carryingBallId p) = false /\
   exists pre b post,
     bs = pre ++ b :: post /\
     Forall (fun c => eligible p c = false) pre /\
     eligible p b = true /\
     pickup_player p bs =
     (Player.set_carrying p (Some (Ball.id b)),
      pre ++ Ball.set_carriedBy b (Some (Player.id p)) :: post)).
Proof.
  unfold pickup_player. destruct (JS.truthy (Player.carryingBallId p)) eqn:Ec; [left; reflexivity|].
  destruct (pickup_scan_cases p bs) as [Hn|(pre & b & post & -> & Hpre & Hb)].
  - left. rewrite (pickup_scan_none p bs Hn). reflexivity.
  - right. split; [reflexivity|]. exists pre, b, post.
    rewrite (pickup_scan_first p pre post b Hpre Hb). auto.
Qed.

Lemma nth_error_middle (A : Type) (pre post : list A) (a a' : A) (k : nat) :
  k <> List.length pre ->
  nth_error (pre ++ a' :: post) k = nth_error (pre ++ a :: post) k.
Proof.
  revert k. induction pre as [|c pre IH]; intros [|k] Hk; simpl in *; try reflexivity.
  - contradiction.
  - apply IH. lia.
Qed.

Lemma nth_error_at (A : Type) (pre post : list A) (a : A) :
  nth_error (pre ++ a :: post) (List.length pre) = Some a.
Proof. induction pre; simpl; auto. Qed.

(** A ball that is carried is left alone by the scan of any player. *)
Lemma pickup_player_keeps_carried (p : Player.t) (bs : list Ball.t) (k : nat) (b : Ball.t) :
  nth_error bs k = Some b -> JS.truthy (Ball.carriedBy b) = true ->
  nth_error (snd (pickup_player p bs)) k = Some b.
Proof.
  intros Hk Hb. destruct (pickup_player_cases p bs) as [E|(_ & pre & c & post & -> & _ & Hc & E)];
    rewrite E; simpl; [exact Hk|].
  destruct (Nat.eq_dec k (List.length pre)) as [->|Hne].
  - rewrite nth_error_at in Hk. injection Hk as ->.
    unfold eligible in Hc. rewrite Hb in Hc. discriminate.
  - rewrite (nth_error_middle _ pre post c _ k Hne). exact Hk.
Qed.

(** A ball out of range of [p] is left alone by the scan of [p]. *)
Lemma pickup_player_keeps_far (p : Player.t) (bs : list Ball.t) (k : nat) (b : Ball.t) :
  nth_error bs k = Some b -> in_range p b = false ->
  nth_error (snd (pickup_player p bs)) k = Some b.
Proof.
  intros Hk Hb. destruct (pickup_player_cases p bs) as [E|(_ & pre & c & post & -> & _ & Hc & E)];
    rewrite E; simpl; [exact Hk|].
  destruct (Nat.eq_dec k (List.length pre)) as [->|Hne].
  - rewrite nth_error_at in Hk. injection Hk as ->.
    unfold eligible in Hc. rewrite Hb, andb_false_r in Hc. discriminate.
  - rewrite (nth_error_middle _ pre post c _ k Hne). exact Hk.
Qed.

(** A ball that is still free after the scan of [p] was there, unchanged, before. *)
Lemma pickup_player_free_after (p : Player.t) (bs : list Ball.t) (k : nat) (b : Ball.t) :
  nonempty (Player.id p) ->
  nth_error (snd (pickup_player p bs)) k = Some b ->
  JS.truthy (Ball.carriedBy b) = false ->
  nth_error bs k = Some b.
Proof.
  intros Hid Hk Hb. destruct (pickup_player_cases p bs) as [E|(_ & pre & c & post & -> & _ & Hc & E)];
    rewrite E in Hk; simpl in Hk; [exact Hk|].
  destruct (Nat.eq_dec k (List.length pre)) as [->|Hne].
  - rewrite nth_error_at in Hk. injection Hk as <-.
    simpl in Hb. pose proof (truthy_Some _ Hid) as Ht. simpl in Ht. rewrite Ht in Hb. discriminate.
  - rewrite (nth_error_middle _ pre post c _ k Hne) in Hk. exact Hk.
Qed.

Lemma pickup_players_keeps_carried (ps : list Player.t) (bs : list Ball.t) (k : nat) (b : Ball.t) :
  nth_error bs k = Some b -> JS.truthy (Ball.carriedBy b) = true ->
  nth_error (snd (pickup_players ps bs)) k = Some b.
Proof.
  revert bs. induction ps as [|p ps IH]; intros bs Hk Hb; simpl; [exact Hk|].
  pose proof (pickup_player_keeps_carried p bs k b Hk Hb) as H1.
  destruct (pickup_player p bs) as [p' bs1]. simpl in H1.
  pose proof (IH bs1 H1 Hb) as H2.
  destruct (pickup_players ps bs1) as [ps' bs2]. exact H2.
Qed.

(** What the loop did for the player at index [i], if it now carries a ball
    it did not carry before. *)
Lemma pickup_players_acquired (ps : list Player.t) (bs : list Ball.t)
  (i : nat) (p p' : Player.t) (bid : string) :
  Forall (fun q => nonempty (Player.id q)) ps ->
  nth_error ps i = Some p ->
  nth_error (fst (pickup_players ps bs)) i = Some p' ->
  Player.carryingBallId p = None ->
  Player.carryingBallId p' = Some bid ->
  exists k b,
    nth_error bs k = Some b /\ Ball.id b = bid /\
    JS.truthy (Ball.carriedBy b) = false /\ in_range p b = true /\
    nth_error (snd (pickup_players ps bs)) k
    = Some (Ball.set_carriedBy b (Some (Player.id p))).
Proof.
  intros Hids. revert bs i. induction Hids as [|q ps Hq Hps IH]; intros bs i Hi Hi' Hc Hc'.
  { destruct i; discriminate. }
  simpl in Hi'. simpl.
  pose proof (pickup_player_cases q bs) as Hcases.
  pose proof (fun k b => pickup_player_free_after q bs k b Hq) as Hfree.
  destruct (pickup_player q bs) as [q' bs1]. simpl in Hfree.
  pose proof (fun k b => pickup_players_keeps_carried ps bs1 k b) as Hkeep.
  specialize (IH bs1).
  destruct (pickup_players ps bs1) as [ps' bs2]. simpl in *.
  destruct i as [|i]; simpl in Hi, Hi'.
  - injection Hi as ->. injection Hi' as ->.
    destruct Hcases as [E|(_ & pre & b & post & -> & _ & Hb & E)].
    + injection E as -> ->. congruence.
    + injection E as -> ->. simpl in Hc'. injection Hc' as <-.
      exists (List.length pre), b. rewrite nth_error_at.
      unfold eligible in Hb. apply andb_prop in Hb. destruct Hb as [Hb1 Hb2].
      apply negb_true_iff in Hb1. repeat split; auto.
      apply Hkeep; [apply nth_error_at|]. simpl. apply (truthy_Some _ Hq).
  - destruct (IH i Hi Hi' Hc Hc') as (k & b & Hk & Hb1 & Hb2 & Hb3 & Hk').
    exists k, b. repeat split; auto.
Qed.

Lemma NoDup_map_nth_error (A B : Type) (f : A -> B) (l : list A) (i j : nat) (a b : A) :
  NoDup (map f l) ->
  nth_error l i = Some a -> nth_error l j = Some b -> f a = f b -> i = j.
Proof.
  intros Hnd Hi Hj E.
  apply (proj1 (NoDup_nth_error (map f l)) Hnd).
  - rewrite length_map. apply nth_error_Some. congruence.
  - rewrite !nth_error_map, Hi, Hj. simpl. congruence.
Qed.

Lemma pickup_players_app (l1 l2 : list Player.t) (bs : list Ball.t) :
  pickup_players (l1 ++ l2) bs =
  (fst (pickup_players l1 bs) ++ fst (pickup_players l2 (snd (pickup_players l1 bs))),
   snd (pickup_players l2 (snd (pickup_players l1 bs)))).
Proof.
  revert bs. induction l1 as [|p l1 IH]; intros bs; simpl.
  - destruct (pickup_players l2 bs); reflexivity.
  - destruct (pickup_player p bs) as [p' bs1]. rewrite IH.
    destruct (pickup_players l1 bs1) as [l1' bs2]. simpl.
    destruct (pickup_players l2 bs2) as [l2' bs3]. reflexivity.
Qed.

Lemma pickup_players_length (ps : list Player.t) (bs : list Ball.t) :
  List.length (fst (pickup_players ps bs)) = List.length ps.
Proof.
  revert bs. induction ps as [|p ps IH]; intros bs; simpl; [reflexivity|].
  destruct (pickup_player p bs) as [p' bs1]. specialize (IH bs1).
  destruct (pickup_players ps bs1) as [ps' bs2]. simpl in *. congruence.
Qed.

Lemma took_cons (q q' : Player.t) (ps ps' : list Player.t) (j : nat) (bid : string) :
  took (q :: ps) (q' :: ps') (S j) bid <-> took ps ps' j bid.
Proof. unfold took. simpl. tauto. Qed.

Lemma took_head (q q' : Player.t) (ps ps' : list Player.t) (bid : string) :
  took (q :: ps) (q' :: ps') 0 bid <->
  Player.carryingBallId q <> Some bid /\ Player.carryingBallId q' = Some bid.
Proof.
  unfold took. simpl. split.
  - intros (a & a' & [= <-] & [= <-] & H). exact H.
  - intros H. exists q, q'. auto.
Qed.

Lemma took_prefix (l1 l1' l2 l2' : list Player.t) (j : nat) (bid : string) :
  List.length l1' = List.length l1 -> j < List.length l1 ->
  took (l1 ++ l2) (l1' ++ l2') j bid <-> took l1 l1' j bid.
Proof.
  intros Hlen Hj. unfold took.
  rewrite !nth_error_app1 by lia. tauto.
Qed.

Lemma took_within (ps ps' : list Player.t) (j : nat) (bid : string) :
  took ps ps' j bid -> j < List.length ps.
Proof. intros (q & _ & H & _). apply nth_error_Some. congruence. Qed.

Lemma eligible_carried (p : Player.t) (b : Ball.t) (pid : string) :
  nonempty pid -> eligible p (Ball.set_carriedBy b (Some pid)) = false.
Proof.
  intros H. unfold eligible. cbn [Ball.set_carriedBy Ball.carriedBy].
  rewrite (truthy_Some pid H). reflexivity.
Qed.

Lemma falsy_not_carrying (o : option string) (bid : string) :
  JS.truthy o = false -> nonempty bid -> o <> Some bid.
Proof. intros Ht Hne ->. rewrite (truthy_Some bid Hne) in Ht. discriminate. Qed.

(** What the pickup loop makes of each ball: it leaves the ball as it is,
    and then no player took it; or exactly one player took it, one the ball
    was free for and in range of, and the ball names that player. *)
Lemma pickup_players_balls (ps : list Player.t) :
  forall bs : list Ball.t,
    Forall (fun q => nonempty (Player.id q)) ps ->
    NoDup (map Ball.id bs) ->
    Forall nonempty (map Ball.id bs) ->
    forall k b,
      nth_error bs k = Some b ->
      (nth_error (snd (pickup_players ps bs)) k = Some b /\
       forall j, ~ took ps (fst (pickup_players ps bs)) j (Ball.id b)) \/
      (exists j q,
         nth_error ps j = Some q /\
         took ps (fst (pickup_players ps bs)) j (Ball.id b) /\
         (forall j', took ps (fst (pickup_players ps bs)) j' (Ball.id b) -> j' = j) /\
         eligible q b = true /\
         nth_error (snd (pickup_players ps bs)) k
         = Some (Ball.set_carriedBy b (Some (Player.id q)))).
Proof.
  induction ps as [|q ps IH]; intros bs Hids Hnd Hne k b Hk.
  { left. split; [exact Hk|]. intros j (a & _ & Ha & _). destruct j; discriminate. }
  inversion Hids as [|? ? Hq Hids']; subst.
  assert (Hbne : nonempty (Ball.id b)).
  { rewrite Forall_forall in Hne. apply Hne. apply in_map. exact (nth_error_In _ _ Hk). }
  cbn [pickup_players].
  pose proof (pickup_player_cases q bs) as Hcases.
  pose proof (pickup_player_ids q bs) as Hids1.
  destruct (pickup_player q bs) as [q1 bs1]. cbn [snd] in Hids1.
  rewrite <- Hids1 in Hnd, Hne.
  pose proof (IH bs1 Hids' Hnd Hne) as IH1.
  pose proof (fun k c => pickup_players_keeps_carried ps bs1 k c) as Hkeep.
  destruct (pickup_players ps bs1) as [ps' bs2]. cbn [fst snd] in *.
  destruct Hcases as [E|(Hc & pre & c & post & -> & Hpre & Hcel & E)].
  - injection E as -> ->.
    destruct (IH1 k b Hk) as [[H1 H2]|(j & a & Ha & Ht & Hu & He & H1)].
    + left. split; [exact H1|]. intros [|j].
      * rewrite took_head. intros [Hn Hy]. contradiction.
      * rewrite took_cons. apply H2.
    + right. exists (S j), a. split; [exact Ha|]. split; [rewrite took_cons; exact Ht|].
      split; [|split; assumption].
      intros [|j'].
      * rewrite took_head. intros [Hn Hy]. contradiction.
      * rewrite took_cons. intros H. f_equal. apply Hu. exact H.
  - injection E as -> ->.
    destruct (Nat.eq_dec k (List.length pre)) as [->|Hkne].
    + rewrite nth_error_at in Hk. injection Hk as <-.
      assert (Hc' : nth_error bs2 (List.length pre)
                    = Some (Ball.set_carriedBy c (Some (Player.id q)))).
      { apply Hkeep; [apply nth_error_at|]. apply (truthy_Some _ Hq). }
      right. exists 0, q. split; [reflexivity|].
      assert (Ht0 : took (q :: ps) (Player.set_carrying q (Some (Ball.id c)) :: ps') 0
                         (Ball.id c)).
      { rewrite took_head. split; [|reflexivity].
        apply falsy_not_carrying; assumption. }
      split; [exact Ht0|]. split; [|split; assumption].
      intros [|j']; [reflexivity|]. rewrite took_cons. intros Ht. exfalso.
      destruct (IH1 (List.length pre) (Ball.set_carriedBy c (Some (Player.id q)))
                  (nth_error_at _ pre post _))
        as [[_ H2]|(j & a & _ & _ & _ & He & _)].
      * exact (H2 j' Ht).
      * rewrite (eligible_carried a c (Player.id q) Hq) in He. discriminate.
    + assert (Hk1 : nth_error (pre ++ Ball.set_carriedBy c (Some (Player.id q)) :: post) k
                    = Some b).
      { rewrite (nth_error_middle _ pre post c _ k Hkne). exact Hk. }
      assert (Hcb : Ball.id c <> Ball.id b).
      { intros Eid. apply Hkne. symmetry.
        rewrite Hids1 in Hnd.
        apply (NoDup_map_nth_error _ _ Ball.id (pre ++ c :: post) _ _ c b Hnd);
          [apply nth_error_at | exact Hk | exact Eid]. }
      assert (Hn0 : ~ took (q :: ps) (Player.set_carrying q (Some (Ball.id c)) :: ps') 0
                           (Ball.id b)).
      { rewrite took_head. intros [_ Hy]. simpl in Hy. congruence. }
      destruct (IH1 k b Hk1) as [[H1 H2]|(j & a & Ha & Ht & Hu & He & H1)].
      * left. split; [exact H1|]. intros [|j]; [exact Hn0|].
        rewrite took_cons. apply H2.
      * right. exists (S j), a. split; [exact Ha|]. split; [rewrite took_cons; exact Ht|].
        split; [|split; assumption].
        intros [|j']; [intros H; contradiction|].
        rewrite took_cons. intros H. f_equal. apply Hu. exact H.
Qed.

Lemma Forall_of_nth_error (A : Type) (P : A -> Prop) (l : list A) :
  (forall k a, nth_error l k = Some a -> P a) -> Forall P l.
Proof.
  intros H. apply Forall_forall. intros a Hin.
  destruct (In_nth_error _ _ Hin) as [k Hk]. exact (H k a Hk).
Qed.

(** What the scan of the player at the head of [p :: l2] finds, when the
    players [l1] went before it. *)
Lemma pickup_players_turn (l1 l2 : list Player.t) (p : Player.t) (bs : list Ball.t) :
  let bs1 := snd (pickup_players l1 bs) in
  nth_error (fst (pickup_players (l1 ++ p :: l2) bs)) (List.length l1)
  = Some (fst (pickup_player p bs1)) /\
  snd (pickup_players (l1 ++ p :: l2) bs)
  = snd (pickup_players l2 (snd (pickup_player p bs1))) /\
  exists l2', fst (pickup_players (l1 ++ p :: l2) bs)
              = fst (pickup_players l1 bs) ++ fst (pickup_player p bs1) :: l2'.
Proof.
  intros bs1. rewrite pickup_players_app. cbn [fst snd]. fold bs1.
  pose proof (pickup_players_length l1 bs) as Hlen.
  cbn [pickup_players]. destruct (pickup_player p bs1) as [p' bs2]. cbn [fst snd].
  destruct (pickup_players l2 bs2) as [l2' bs3]. cbn [fst snd].
  split; [rewrite <- Hlen; apply nth_error_at|]. split; [reflexivity|].
  exists l2'. reflexivity.
Qed.

(** C6. The pickup step, over the whole loop (player ids and ball ids are
    non-empty, ball ids distinct, as uuids are). A player that carries a
    ball keeps it and takes nothing. A player that carries nothing takes the
    first ball, in the order of the pool, that is not carried, whose squared
    distance is strictly below [pickupRange], the square of (player radius
    + ball radius), and that no player before it took in this loop; the
    carry is set on both sides, on the player and on the ball. If there is
    no such ball, the player stays as it is. Every ball is left as it was,
    and then no player took it, or it was taken by exactly one player, for
    which it was free and in range, and names that player as its carrier:
    no ball is taken by two players, no player takes two balls, and a ball
    out of range is never taken. *)
Theorem pickup_takes_first_free_ball_in_range (ps : list Player.t) (bs : list Ball.t) :
  Forall (fun q => nonempty (Player.id q)) ps ->
  NoDup (map Ball.id bs) ->
  Forall nonempty (map Ball.id bs) ->
  let ps' := fst (pickup_players ps bs) in
  let bs' := snd (pickup_players ps bs) in
  (forall i p,
     nth_error ps i = Some p -> JS.truthy (Player.carryingBallId p) = true ->
     nth_error ps' i = Some p) /\
  (forall i p k b,
     nth_error ps i = Some p -> JS.truthy (Player.carryingBallId p) = false ->
     nth_error bs k = Some b -> eligible p b = true ->
     ~ taken_before ps ps' i (Ball.id b) ->
     (forall k0 b0, k0 < k -> nth_error bs k0 = Some b0 -> eligible p b0 = true ->
                    taken_before ps ps' i (Ball.id b0)) ->
     nth_error ps' i = Some (Player.set_carrying p (Some (Ball.id b))) /\
     nth_error bs' k = Some (Ball.set_carriedBy b (Some (Player.id p)))) /\
  (forall i p,
     nth_error ps i = Some p -> JS.truthy (Player.carryingBallId p) = false ->
     (forall k b, nth_error bs k = Some b -> eligible p b = true ->
                  taken_before ps ps' i (Ball.id b)) ->
     nth_error ps' i = Some p) /\
  (forall k b,
     nth_error bs k = Some b ->
     (nth_error bs' k = Some b /\ forall j, ~ took ps ps' j (Ball.id b)) \/
     (exists j q,
        nth_error ps j = Some q /\ took ps ps' j (Ball.id b) /\
        (forall j', took ps ps' j' (Ball.id b) -> j' = j) /\
        eligible q b = true /\
        nth_error bs' k = Some (Ball.set_carriedBy b (Some (Player.id q))))) /\
  (forall i j bid, took ps ps' i bid -> took ps ps' j bid -> i = j) /\
  List.length ps' = List.length ps /\ List.length bs' = List.length bs.
Proof.
  intros Hids Hnd Hne ps' bs'.
  (* the balls as the player at index [i] finds them *)
  assert (Turn : forall i p,
             nth_error ps i = Some p ->
             exists l1 l2 bs1,
               ps = l1 ++ p :: l2 /\ List.length l1 = i /\
               bs1 = snd (pickup_players l1 bs) /\
               nth_error ps' i = Some (fst (pickup_player p bs1)) /\
               bs' = snd (pickup_players l2 (snd (pickup_player p bs1))) /\
               map Ball.id bs1 = map Ball.id bs /\
               (forall k b,
                  nth_error bs k = Some b ->
                  (nth_error bs1 k = Some b /\ ~ taken_before ps ps' i (Ball.id b)) \/
                  (exists pid, nonempty pid /\ taken_before ps ps' i (Ball.id b) /\
                               nth_error bs1 k = Some (Ball.set_carriedBy b (Some pid))))).
  { intros i p Hi. destruct (nth_error_split _ _ Hi) as (l1 & l2 & Hps & Hl1).
    exists l1, l2, (snd (pickup_players l1 bs)).
    destruct (pickup_players_turn l1 l2 p bs) as (T1 & T2 & l2' & T3).
    unfold ps', bs'. rewrite Hps. rewrite <- Hl1.
    split; [reflexivity|]. split; [reflexivity|]. split; [reflexivity|].
    split; [exact T1|]. split; [exact T2|]. split; [apply pickup_players_ids|].
    intros k b Hk.
    assert (Hids1 : Forall (fun q => nonempty (Player.id q)) l1).
    { rewrite Hps in Hids. apply Forall_app in Hids. tauto. }
    pose proof (pickup_players_length l1 bs) as Hlen.
    destruct (pickup_players_balls l1 bs Hids1 Hnd Hne k b Hk)
      as [[H1 H2]|(j & a & Ha & Ht & _ & _ & H1)].
    - left. split; [exact H1|]. intros (j & Hj & Ht).
      rewrite T3 in Ht. rewrite took_prefix in Ht by assumption. exact (H2 j Ht).
    - right. exists (Player.id a). split.
      + rewrite Forall_forall in Hids1. apply Hids1. exact (nth_error_In _ _ Ha).
      + split; [|exact H1]. exists j. pose proof (took_within _ _ _ _ Ht) as Hj.
        split; [exact Hj|]. rewrite T3. rewrite took_prefix by assumption. exact Ht. }
  pose proof (pickup_players_balls ps bs Hids Hnd Hne) as Balls. fold ps' bs' in Balls.
  split; [|split; [|split; [|split; [|split; [|split]]]]].
  - intros i p Hi Hc.
    destruct (Turn i p Hi) as (l1 & l2 & bs1 & _ & _ & _ & T1 & _).
    rewrite T1. unfold pickup_player. rewrite Hc. reflexivity.
  - intros i p k b Hi Hc Hk Hel Hfree Hfirst.
    destruct (Turn i p Hi) as (l1 & l2 & bs1 & Hps & Hl1 & _ & T1 & T2 & _ & Hbs1).
    assert (Hk1 : nth_error bs1 k = Some b).
    { destruct (Hbs1 k b Hk) as [[H _]|(pid & _ & Ht & _)]; [exact H | contradiction]. }
    assert (Hpre : Forall (fun c => eligible p c = false) (firstn k bs1)).
    { apply Forall_of_nth_error. intros k0 c Hc0.
      rewrite nth_error_firstn in Hc0.
      destruct (Nat.ltb k0 k) eqn:Elt; [|discriminate]. apply Nat.ltb_lt in Elt.
      destruct (nth_error bs k0) as [b0|] eqn:Hb0.
      - destruct (Hbs1 k0 b0 Hb0) as [[H Hn]|(pid & Hpid & _ & H)];
          rewrite H in Hc0; injection Hc0 as <-.
        + destruct (eligible p b0) eqn:E0; [|reflexivity].
          exfalso. apply Hn. apply (Hfirst k0 b0 Elt Hb0 E0).
        + apply eligible_carried. exact Hpid.
      - exfalso. apply nth_error_None in Hb0.
        assert (k < List.length bs) by (apply nth_error_Some; congruence). lia. }
    assert (Esplit : bs1 = firstn k bs1 ++ b :: skipn (S k) bs1)
      by (symmetry; apply firstn_skipn_middle; exact Hk1).
    assert (Epick : pickup_player p bs1
                    = (Player.set_carrying p (Some (Ball.id b)),
                       firstn k bs1 ++ Ball.set_carriedBy b (Some (Player.id p))
                         :: skipn (S k) bs1)).
    { unfold pickup_player. rewrite Hc. rewrite Esplit at 1.
      rewrite (pickup_scan_first p _ _ b Hpre Hel). reflexivity. }
    rewrite T1, T2, Epick. cbn [fst snd]. split; [reflexivity|].
    apply pickup_players_keeps_carried.
    + assert (Hlen : List.length (firstn k bs1) = k).
      { apply firstn_length_le. apply Nat.lt_le_incl. apply nth_error_Some. congruence. }
      pose proof (nth_error_at _ (firstn k bs1) (skipn (S k) bs1)
                    (Ball.set_carriedBy b (Some (Player.id p)))) as Hat.
      rewrite Hlen in Hat. exact Hat.
    + cbn [Ball.set_carriedBy Ball.carriedBy]. apply truthy_Some.
      rewrite Forall_forall in Hids. apply Hids. exact (nth_error_In _ _ Hi).
  - intros i p Hi Hc Hall.
    destruct (Turn i p Hi) as (l1 & l2 & bs1 & Hps & Hl1 & _ & T1 & T2 & Eids & Hbs1).
    assert (Hnone : Forall (fun c => eligible p c = false) bs1).
    { apply Forall_of_nth_error. intros k c Hc0.
      destruct (nth_error bs k) as [b0|] eqn:Hb0.
      - destruct (Hbs1 k b0 Hb0) as [[H Hn]|(pid & Hpid & _ & H)];
          rewrite H in Hc0; injection Hc0 as <-.
        + destruct (eligible p b0) eqn:E0; [|reflexivity].
          exfalso. apply Hn. apply (Hall k b0 Hb0 E0).
        + apply eligible_carried. exact Hpid.
      - exfalso. apply nth_error_None in Hb0.
        assert (k < List.length bs1) by (apply nth_error_Some; congruence).
        apply (f_equal (@List.length string)) in Eids. rewrite !length_map in Eids. lia. }
    rewrite T1. unfold pickup_player. rewrite Hc, (pickup_scan_none p bs1 Hnone). reflexivity.
  - exact Balls.
  - intros i j bid Hi Hj.
    destruct Hi as (p & p' & Hp & Hp' & Hn & Hy).
    destruct (Turn i p Hp) as (l1 & l2 & bs1 & _ & _ & _ & T1 & _ & Eids & _).
    rewrite Hp' in T1. injection T1 as T1.
    assert (Hin : In bid (map Ball.id bs)).
    { rewrite <- Eids.
      destruct (pickup_player_cases p bs1) as [E|(_ & pre & c & post & -> & _ & _ & E)];
        rewrite E in T1; cbn [fst] in T1; subst p'.
      - contradiction.
      - cbn [Player.set_carrying Player.carryingBallId] in Hy. injection Hy as <-.
        rewrite map_app. apply in_or_app. right. left. reflexivity. }
    apply in_map_iff in Hin. destruct Hin as (b & <- & Hin).
    destruct (In_nth_error _ _ Hin) as [k Hk].
    assert (Hti : took ps ps' i (Ball.id b)) by (exists p, p'; auto).
    destruct (Balls k b Hk) as [[_ H2]|(j0 & a & _ & _ & Hu & _)].
    + exfalso. exact (H2 i Hti).
    + rewrite (Hu i Hti), (Hu j Hj). reflexivity.
  - apply pickup_players_length.
  - unfold bs'. rewrite <- (length_map Ball.id), pickup_players_ids, length_map. reflexivity.
Qed.

(** * Binary64 rounding: what the range of a fresh ball's position needs *)

Module Binary64.
Local Open Scope Z_scope.

Lemma digits2_size (m : positive) : digits2_pos m = Pos.size m.
Proof. induction m; simpl; congruence. Qed.

Lemma digits2_bounds (m : positive) :
  2 ^ (Z.pos (digits2_pos m) - 1) <= Z.pos m < 2 ^ Z.pos (digits2_pos m).
Proof.
  rewrite digits2_size. split.
  - pose proof (Pos.size_le m) as H.
    assert (2 ^ Z.pos (Pos.size m) <= 2 * Z.pos m).
    { change (2 * Z.pos m) with (Z.pos m~0). rewrite <- Pos2Z.inj_pow. apply Pos2Z.pos_le_pos. exact H. }
    replace (Z.pos (Pos.size m)) with (Z.succ (Z.pos (Pos.size m) - 1)) in H0 by lia.
    rewrite Z.pow_succ_r in H0 by lia. lia.
  - pose proof (Pos.size_gt m) as H. rewrite <- Pos2Z.inj_pow. apply Pos2Z.pos_lt_pos. exact H.
Qed.

Lemma shr_1_m (mrs : shr_record) : 0 <= shr_m mrs -> shr_m (shr_1 mrs) = shr_m mrs / 2.
Proof.
  destruct mrs as [m r s]. simpl. intros Hm.
  destruct m as [|p|p]; [reflexivity| |lia].
  destruct p as [p|p|]; simpl.
  - rewrite Pos2Z.inj_xI. apply Z.div_unique with 1; lia.
  - rewrite Pos2Z.inj_xO. apply Z.div_unique with 0; lia.
  - reflexivity.
Qed.

Lemma shr_1_exact (mrs : shr_record) :
  0 <= shr_m mrs -> shr_r mrs || shr_s mrs = false -> (2 | shr_m mrs) ->
  shr_r (shr_1 mrs) || shr_s (shr_1 mrs) = false.
Proof.
  destruct mrs as [m r s]. simpl. intros Hm Hf [c Hc].
  destruct m as [|p|p]; [simpl; rewrite Hf; reflexivity| |lia].
  destruct p as [p|p|]; simpl; try (rewrite Hf; reflexivity); lia.
Qed.

Lemma iter_pos_nat (A : Type) (f : A -> A) (n : positive) (x : A) :
  iter_pos f n x = Nat.iter (Pos.to_nat n) f x.
Proof.
  revert x. induction n as [n IH|n IH|]; intros x; simpl iter_pos.
  - rewrite !IH, Pos2Nat.inj_xI.
    replace (S (2 * Pos.to_nat n)) with (Pos.to_nat n + (Pos.to_nat n + 1))%nat by lia.
    rewrite !Nat.iter_add. reflexivity.
  - rewrite !IH, Pos2Nat.inj_xO.
    replace (2 * Pos.to_nat n)%nat with (Pos.to_nat n + Pos.to_nat n)%nat by lia.
    rewrite Nat.iter_add. reflexivity.
  - reflexivity.
Qed.

Lemma iter_shr_nat (n : nat) (mrs : shr_record) :
  0 <= shr_m mrs ->
  shr_m (Nat.iter n shr_1 mrs) = shr_m mrs / 2 ^ Z.of_nat n /\
  (shr_r mrs || shr_s mrs = false -> (2 ^ Z.of_nat n | shr_m mrs) ->
   shr_r (Nat.iter n shr_1 mrs) || shr_s (Nat.iter n shr_1 mrs) = false).
Proof.
  intros Hm. induction n as [|n [IH1 IH2]].
  - simpl. rewrite Z.div_1_r. auto.
  - assert (Hp : 0 < 2 ^ Z.of_nat n) by (apply Z.pow_pos_nonneg; lia).
    assert (E : 2 ^ Z.of_nat (S n) = 2 ^ Z.of_nat n * 2).
    { rewrite Nat2Z.inj_succ, Z.pow_succ_r by lia. lia. }
    simpl Nat.iter. split.
    + rewrite shr_1_m; rewrite IH1; [|apply Z.div_pos; lia].
      rewrite Z.div_div by lia. rewrite E. reflexivity.
    + intros Hf Hd. rewrite E in Hd. destruct Hd as [c Hc].
      apply shr_1_exact.
      * rewrite IH1. apply Z.div_pos; lia.
      * apply IH2; [exact Hf|]. exists (c * 2). lia.
      * rewrite IH1. exists c. rewrite Hc.
        replace (c * (2 ^ Z.of_nat n * 2)) with ((c * 2) * 2 ^ Z.of_nat n) by lia.
        rewrite Z.div_mul by lia. lia.
Qed.

Lemma iter_shr (n : positive) (mrs : shr_record) :
  0 <= shr_m mrs ->
  shr_m (iter_pos shr_1 n mrs) = shr_m mrs / 2 ^ Z.pos n /\
  (shr_r mrs || shr_s mrs = false -> (2 ^ Z.pos n | shr_m mrs) ->
   shr_r (iter_pos shr_1 n mrs) || shr_s (iter_pos shr_1 n mrs) = false).
Proof.
  intros Hm. rewrite iter_pos_nat. rewrite <- (positive_nat_Z n).
  apply iter_shr_nat. exact Hm.
Qed.


Lemma pw_pos (e : Z) : -2200 <= e -> 0 < pw e.
Proof. intros. unfold pw. apply Z.pow_pos_nonneg; lia. Qed.

Lemma pw_add (e n : Z) : -2200 <= e -> 0 <= n -> pw (e + n) = pw e * 2 ^ n.
Proof.
  intros. unfold pw. replace (e + n + 2200) with ((e + 2200) + n) by lia.
  apply Z.pow_add_r; lia.
Qed.

Lemma pw_le (a b : Z) : -2200 <= a -> a <= b -> pw a <= pw b.
Proof. intros. unfold pw. apply Z.pow_le_mono_r; lia. Qed.

Lemma shr_spec (m e n : Z) :
  0 <= m -> 0 <= n ->
  snd (shr (Build_shr_record m false false) e n) = e + n /\
  shr_m (fst (shr (Build_shr_record m false false) e n)) = m / 2 ^ n /\
  ((2 ^ n | m) -> loc_of_shr_record (fst (shr (Build_shr_record m false false) e n)) = loc_Exact).
Proof.
  intros Hm Hn. destruct n as [|k|k]; [| |lia]; simpl.
  - rewrite Z.div_1_r. repeat split; lia.
  - destruct (iter_shr k (Build_shr_record m false false) Hm) as [E F]. simpl in E, F.
    repeat split; [exact E|].
    intros Hd. specialize (F eq_refl Hd).
    destruct (iter_pos shr_1 k _) as [m' r s]. simpl in *.
    apply orb_false_elim in F. destruct F as [-> ->]. reflexivity.
Qed.

Lemma round_cases (q : Z) (l : location) :
  round_nearest_even q l = q \/ (round_nearest_even q l = q + 1 /\ l <> loc_Exact).
Proof.
  destruct l as [|[| |]]; simpl; auto.
  - destruct (Z.even q); [auto | right; split; [reflexivity | discriminate]].
  - right. split; [reflexivity | discriminate].
Qed.


Lemma fexp64_eq (e : Z) : fexp64 e = Z.max (e - 53) (-1074).
Proof. reflexivity. Qed.

Lemma bounded_facts (m : positive) (e : Z) :
  bounded prec emax m e = true ->
  e = fexp64 (Z.pos (digits2_pos m) + e) /\ e <= 971 /\ -1074 <= e /\ Z.pos m < 2 ^ 53 /\
  (-1074 < e -> 2 ^ 52 <= Z.pos m).
Proof.
  unfold bounded, canonical_mantissa. intros H. apply andb_prop in H. destruct H as [H1 H2].
  apply Z.eqb_eq in H1. apply Z.leb_le in H2. change (emax - prec) with 971 in H2.
  fold (fexp64 (Z.pos (digits2_pos m) + e)) in H1. rewrite fexp64_eq in H1.
  pose proof (digits2_bounds m) as [Hlo Hhi].
  assert (Hd : Z.pos (digits2_pos m) <= 53) by lia.
  repeat split; try lia.
  - rewrite fexp64_eq. lia.
  - eapply Z.lt_le_trans; [exact Hhi|]. apply Z.pow_le_mono_r; lia.
  - intros He. assert (Z.pos (digits2_pos m) = 53) by lia.
    rewrite H in Hlo. exact Hlo.
Qed.

(** the quotient by a power of two of a number with [d >= 53] digits *)
Lemma div_pow_digits (M : positive) :
  53 <= Z.pos (digits2_pos M) ->
  2 ^ 52 <= Z.pos M / 2 ^ (Z.pos (digits2_pos M) - 53).
Proof.
  intros Hd. pose proof (digits2_bounds M) as [Hlo _].
  apply Z.div_le_lower_bound; [apply Z.pow_pos_nonneg; lia|].
  rewrite <- Z.pow_add_r by lia.
  replace (Z.pos (digits2_pos M) - 53 + 52) with (Z.pos (digits2_pos M) - 1) by lia.
  exact Hlo.
Qed.

Lemma no_overflow (m e : Z) (mB : positive) (eB : Z) :
  -2200 <= e -> 2 ^ 52 <= m ->
  bounded prec emax mB eB = true ->
  m * pw e <= Z.pos mB * pw eB ->
  e <= eB.
Proof.
  intros He Hm Hb Hv. destruct (bounded_facts mB eB Hb) as (_ & _ & HeB & HmB & _).
  destruct (Z_le_gt_dec e eB) as [|Hgt]; [assumption|exfalso].
  assert (H1 : pw (eB + 1) <= pw e) by (apply pw_le; lia).
  rewrite pw_add in H1 by lia. change (2 ^ 1) with 2 in H1.
  pose proof (pw_pos eB ltac:(lia)) as Hp.
  assert (2 ^ 52 * (pw eB * 2) <= m * pw e) by (apply Z.mul_le_mono_nonneg; lia).
  assert (Z.pos mB * pw eB < 2 ^ 53 * pw eB) by (apply Z.mul_lt_mono_pos_r; lia).
  change (2 ^ 53) with (2 ^ 52 * 2) in H0. lia.
Qed.

Lemma second_stage (s : bool) (m2 e' : Z) (mB : positive) (eB : Z) :
  0 <= m2 -> -1074 <= e' ->
  (-1074 < e' -> 2 ^ 52 <= m2) ->
  bounded prec emax mB eB = true ->
  m2 * pw e' <= Z.pos mB * pw eB ->
  let r :=
    let '(mrs'', e'') := shr_fexp prec emax m2 e' loc_Exact in
    match shr_m mrs'' with
    | Z0 => S754_zero s
    | Zpos m => if Z.leb e'' (Z.sub emax prec) then S754_finite s m e'' else S754_infinity s
    | _ => S754_nan
    end in
  r = S754_zero s \/
  exists m e, r = S754_finite s m e /\ Z.pos m * pw e <= Z.pos mB * pw eB.
Proof.
  intros Hm2 He' Hnorm Hb Hv. cbv zeta.
  destruct (bounded_facts mB eB Hb) as (_ & HeB1 & HeB2 & HmB & _).
  unfold shr_fexp. cbn [shr_record_of_loc].
  destruct m2 as [|p2|p2]; [| |lia].
  - left. cbn [Zdigits2]. destruct (fexp prec emax (0 + e') - e') as [|k|k]; cbn [shr]; try reflexivity.
    destruct (iter_shr k (Build_shr_record 0 false false) (Z.le_refl 0)) as [E _].
    cbn [shr_m] in E. rewrite E. rewrite Z.div_0_l; [reflexivity|].
    apply Z.pow_nonzero; lia.
  - right. cbn [Zdigits2]. fold (fexp64 (Z.pos (digits2_pos p2) + e')).
    rewrite fexp64_eq.
    set (d2 := Z.pos (digits2_pos p2)).
    destruct (Z_le_gt_dec (Z.max (d2 + e' - 53) (-1074) - e') 0) as [Hn|Hn].
    + assert (Hshr : shr (Build_shr_record (Z.pos p2) false false) e'
                       (Z.max (d2 + e' - 53) (-1074) - e')
                     = (Build_shr_record (Z.pos p2) false false, e')).
      { destruct (Z.max (d2 + e' - 53) (-1074) - e') as [|k|k]; try reflexivity. lia. }
      rewrite Hshr. cbn [shr_m].
      assert (Hle : e' <= 971).
      { destruct (Z_le_gt_dec e' (-1074)); [lia|].
        pose proof (no_overflow (Z.pos p2) e' mB eB ltac:(lia) ltac:(apply Hnorm; lia) Hb Hv). lia. }
      change (emax - prec) with 971. apply Z.leb_le in Hle. rewrite Hle.
      exists p2, e'. split; [reflexivity | exact Hv].
    + assert (Hn2 : Z.max (d2 + e' - 53) (-1074) - e' = d2 - 53) by lia.
      rewrite Hn2.
      destruct (shr_spec (Z.pos p2) e' (d2 - 53) ltac:(lia) ltac:(lia)) as (E1 & E2 & _).
      destruct (shr (Build_shr_record (Z.pos p2) false false) e' (d2 - 53)) as [mrs'' e''].
      cbn [fst snd] in E1, E2. subst e''.
      pose proof (div_pow_digits p2 ltac:(fold d2; lia)) as H52. fold d2 in H52.
      rewrite <- E2 in H52.
      assert (Hval : shr_m mrs'' * pw (e' + (d2 - 53)) <= Z.pos mB * pw eB).
      { rewrite pw_add by lia. rewrite E2.
        pose proof (Z.mul_div_le (Z.pos p2) (2 ^ (d2 - 53)) ltac:(apply Z.pow_pos_nonneg; lia)).
        pose proof (pw_pos e' ltac:(lia)).
        eapply Z.le_trans; [|exact Hv].
        replace (Z.pos p2 / 2 ^ (d2 - 53) * (pw e' * 2 ^ (d2 - 53)))
          with ((2 ^ (d2 - 53) * (Z.pos p2 / 2 ^ (d2 - 53))) * pw e') by lia.
        apply Z.mul_le_mono_nonneg_r; lia. }
      pose proof (no_overflow (shr_m mrs'') (e' + (d2 - 53)) mB eB ltac:(lia) H52 Hb Hval) as Hle.
      destruct (shr_m mrs'') as [|p3|p3]; [lia| |lia].
      change (emax - prec) with 971.
      assert (Hle' : (e' + (d2 - 53) <=? 971) = true) by (apply Z.leb_le; lia).
      rewrite Hle'. exists p3, (e' + (d2 - 53)). split; [reflexivity | exact Hval].
Qed.

Lemma digits_sum_le (M : positive) (E : Z) (mB : positive) (eB : Z) :
  -2200 <= E -> -2200 <= eB ->
  Z.pos M * pw E <= Z.pos mB * pw eB ->
  Z.pos (digits2_pos M) + E <= Z.pos (digits2_pos mB) + eB.
Proof.
  intros HE HeB Hv.
  pose proof (digits2_bounds M) as [Hlo _]. pose proof (digits2_bounds mB) as [_ Hhi].
  pose proof (pw_pos E HE). pose proof (pw_pos eB HeB).
  assert (H1 : 2 ^ (Z.pos (digits2_pos M) - 1) * pw E < 2 ^ Z.pos (digits2_pos mB) * pw eB).
  { eapply Z.le_lt_trans; [apply Z.mul_le_mono_nonneg_r; [lia | exact Hlo]|].
    eapply Z.le_lt_trans; [exact Hv|]. apply Z.mul_lt_mono_pos_r; lia. }
  unfold pw in H1. rewrite <- !Z.pow_add_r in H1 by lia.
  apply Z.pow_lt_mono_r_iff in H1; lia.
Qed.

(** Rounding to nearest never carries an exactly representable bound: if the
    exact value [M * 2^E] is at most that of the binary64 number [(mB, eB)],
    so is the rounded one, and there is no overflow. *)
Lemma round_aux_bound (s : bool) (M : positive) (E : Z) (mB : positive) (eB : Z) :
  -2200 <= E ->
  E <= fexp64 (Z.pos (digits2_pos M) + E) ->
  bounded prec emax mB eB = true ->
  Z.pos M * pw E <= Z.pos mB * pw eB ->
  binary_round_aux prec emax s (Z.pos M) E loc_Exact = S754_zero s \/
  exists m e, binary_round_aux prec emax s (Z.pos M) E loc_Exact = S754_finite s m e /\
              Z.pos m * pw e <= Z.pos mB * pw eB.
Proof.
  intros HE Hal Hb Hv.
  destruct (bounded_facts mB eB Hb) as (HcB & HeB1 & HeB2 & HmB & _).
  unfold binary_round_aux.
  assert (Hshr : shr_fexp prec emax (Z.pos M) E loc_Exact
                 = shr (Build_shr_record (Z.pos M) false false) E
                       (fexp64 (Z.pos (digits2_pos M) + E) - E)) by reflexivity.
  rewrite Hshr. clear Hshr.
  set (d := Z.pos (digits2_pos M)) in *.
  set (e1 := fexp64 (d + E)) in *.
  assert (He1 : e1 = Z.max (d + E - 53) (-1074)) by (unfold e1; apply fexp64_eq).
  set (n := e1 - E).
  assert (Hn : 0 <= n) by (unfold n; lia).
  destruct (shr_spec (Z.pos M) E n ltac:(lia) Hn) as (E1 & E2 & E3).
  destruct (shr (Build_shr_record (Z.pos M) false false) E n) as [mrs' e'].
  cbn [fst snd] in E1, E2, E3.
  assert (He' : e' = e1) by (unfold n in E1; lia).
  set (q := shr_m mrs') in *.
  assert (Hpn : 0 < 2 ^ n) by (apply Z.pow_pos_nonneg; lia).
  assert (Hq0 : 0 <= q) by (rewrite E2; apply Z.div_pos; lia).
  assert (Hqn : q * 2 ^ n <= Z.pos M).
  { rewrite E2, Z.mul_comm. apply Z.mul_div_le. exact Hpn. }
  pose proof (pw_pos E HE) as HpE.
  assert (Hpw' : pw e' = pw E * 2 ^ n).
  { rewrite E1. apply pw_add; lia. }
  assert (Hnorm : -1074 < e' -> 2 ^ 52 <= q).
  { intros Hgt. assert (Hnd : n = d - 53) by (unfold n; lia).
    rewrite E2, Hnd. apply div_pow_digits. fold d. lia. }
  assert (HA : round_nearest_even q (loc_of_shr_record mrs') * pw e' <= Z.pos mB * pw eB).
  { destruct (round_cases q (loc_of_shr_record mrs')) as [->|[-> Hne]].
    - eapply Z.le_trans; [|exact Hv]. rewrite Hpw'.
      replace (q * (pw E * 2 ^ n)) with ((q * 2 ^ n) * pw E) by lia.
      apply Z.mul_le_mono_nonneg_r; lia.
    - assert (Hlt : q * 2 ^ n < Z.pos M).
      { destruct (Z.eq_dec (q * 2 ^ n) (Z.pos M)) as [Heq|]; [|lia].
        exfalso. apply Hne, E3. exists q. lia. }
      assert (Hee : e' <= eB).
      { pose proof (digits_sum_le M E mB eB HE ltac:(lia) Hv) as Hds. fold d in Hds.
        rewrite He', He1, HcB, fexp64_eq. lia. }
      assert (HpB : pw eB = pw e' * 2 ^ (eB - e')).
      { rewrite <- pw_add by lia. f_equal. lia. }
      set (G := Z.pos mB * 2 ^ (eB - e')).
      assert (HG : Z.pos mB * pw eB = G * 2 ^ n * pw E).
      { rewrite HpB, Hpw'. unfold G. ring. }
      rewrite HG in Hv |- *.
      assert (HMG : Z.pos M <= G * 2 ^ n).
      { apply Z.mul_le_mono_pos_r with (p := pw E); assumption. }
      assert (HqG : q < G).
      { apply Z.mul_lt_mono_pos_r with (p := 2 ^ n); lia. }
      rewrite Hpw'. replace ((q + 1) * (pw E * 2 ^ n)) with ((q + 1) * 2 ^ n * pw E) by ring.
      apply Z.mul_le_mono_nonneg_r; [lia|].
      apply Z.mul_le_mono_nonneg_r; lia. }
  apply second_stage.
  - destruct (round_cases q (loc_of_shr_record mrs')) as [->|[-> _]]; lia.
  - lia.
  - intros Hgt. specialize (Hnorm Hgt).
    destruct (round_cases q (loc_of_shr_record mrs')) as [->|[-> _]]; lia.
  - exact Hb.
  - exact HA.
Qed.

Lemma iter_xO_value (m : positive) (d : positive) :
  Z.pos (Pos.iter xO m d) = Z.pos m * 2 ^ Z.pos d.
Proof.
  induction d as [|d IH] using Pos.peano_ind.
  - simpl. lia.
  - rewrite Pos.iter_succ, Pos2Z.inj_xO, IH, Pos2Z.inj_succ, Z.pow_succ_r by lia. ring.
Qed.

Lemma iter_xO_digits (m : positive) (d : positive) :
  Z.pos (digits2_pos (Pos.iter xO m d)) = Z.pos (digits2_pos m) + Z.pos d.
Proof.
  induction d as [|d IH] using Pos.peano_ind.
  - simpl. lia.
  - rewrite Pos.iter_succ. cbn [digits2_pos]. rewrite Pos2Z.inj_succ, IH, Pos2Z.inj_succ. lia.
Qed.

(** [shl_align] keeps the value, never raises the exponent, and reaches the
    exponent asked for when that one is lower. *)
Lemma shl_align_spec (mx : positive) (ex ex' : Z) :
  -2200 <= ex -> -2200 <= ex' ->
  let '(m', e') := shl_align mx ex ex' in
  Z.pos m' * pw e' = Z.pos mx * pw ex /\
  e' = Z.min ex ex' /\
  Z.pos (digits2_pos m') + e' = Z.pos (digits2_pos mx) + ex.
Proof.
  intros Hex Hex'. unfold shl_align.
  destruct (ex' - ex) as [|d|d] eqn:Ed.
  - repeat split; lia.
  - repeat split; lia.
  - assert (Hex2 : ex = ex' + Z.pos d) by lia.
    rewrite iter_xO_value, iter_xO_digits. repeat split; [|lia|lia].
    rewrite Hex2, pw_add by lia. ring.
Qed.

Lemma round_bound (s : bool) (mx : positive) (ex : Z) (mB : positive) (eB : Z) :
  -2200 <= ex ->
  bounded prec emax mB eB = true ->
  Z.pos mx * pw ex <= Z.pos mB * pw eB ->
  binary_round prec emax s mx ex = S754_zero s \/
  exists m e, binary_round prec emax s mx ex = S754_finite s m e /\
              Z.pos m * pw e <= Z.pos mB * pw eB.
Proof.
  intros Hex Hb Hv. unfold binary_round.
  fold (fexp64 (Z.pos (digits2_pos mx) + ex)).
  assert (Hf : -2200 <= fexp64 (Z.pos (digits2_pos mx) + ex)) by (rewrite fexp64_eq; lia).
  pose proof (shl_align_spec mx ex (fexp64 (Z.pos (digits2_pos mx) + ex)) Hex Hf) as Hs.
  destruct (shl_align mx ex (fexp64 (Z.pos (digits2_pos mx) + ex))) as [mz ez].
  destruct Hs as (Hval & Hez & Hdig).
  apply round_aux_bound.
  - lia.
  - rewrite Hdig, Hez. lia.
  - exact Hb.
  - rewrite Hval. exact Hv.
Qed.

(** The magnitude of [x] is at most that of the binary64 number [(mB, eB)]. *)

Lemma mag_le_leb (x : spec_float) (mB : positive) (eB : Z) :
  valid_binary x = true ->
  bounded prec emax mB eB = true ->
  mag_le x mB eB ->
  SFleb x (S754_finite false mB eB) = true /\
  SFleb (S754_finite true mB eB) x = true.
Proof.
  intros Hx Hb Hm.
  destruct x as [s|s| |s m e]; cbn [mag_le] in Hm; try contradiction.
  - destruct s; split; reflexivity.
  - simpl in Hx. destruct (bounded_facts m e Hx) as (_ & _ & He & _ & Hn).
    destruct (bounded_facts mB eB Hb) as (_ & _ & HeB & _ & _).
    assert (Hee : e <= eB).
    { destruct (Z_le_gt_dec e eB); [assumption|].
      apply (no_overflow (Z.pos m) e mB eB); try assumption; lia. }
    assert (Hmm : e = eB -> (m <= mB)%positive).
    { intros ->. pose proof (pw_pos eB ltac:(lia)).
      change (Z.pos m <= Z.pos mB). apply Z.mul_le_mono_pos_r with (p := pw eB); assumption. }
    unfold SFleb, SFcompare.
    destruct s; split; try reflexivity.
    + destruct (Z.compare_spec eB e) as [Heq|Hlt|Hgt]; [|lia|reflexivity].
      rewrite Pos.compare_cont_spec. simpl.
      specialize (Hmm (eq_sym Heq)). rewrite Pos.compare_antisym.
      apply Pos.compare_le_iff in Hmm.
      destruct (m ?= mB)%positive; simpl; try reflexivity. congruence.
    + destruct (Z.compare_spec e eB) as [Heq|Hlt|Hgt]; [|reflexivity|lia].
      rewrite Pos.compare_cont_spec. simpl.
      specialize (Hmm Heq). apply Pos.compare_le_iff in Hmm.
      destruct (m ?= mB)%positive; simpl; try reflexivity. congruence.
Qed.

(** ** binary64 facts about [r * W - h] for a draw [r] of [Math.random] *)

Lemma unit_draw_spec (r : float) :
  (0 <=? r)%float = true -> (r <? 1)%float = true ->
  (exists s, Prim2SF r = S754_zero s) \/
  (exists m e, Prim2SF r = S754_finite false m e /\ -1074 <= e <= -53 /\ Z.pos m < 2 ^ 53).
Proof.
  rewrite leb_spec, ltb_spec.
  replace (Prim2SF 0) with (S754_zero false) by (symmetry; vm_compute; reflexivity).
  replace (Prim2SF 1) with (S754_finite false 4503599627370496 (-52))
    by (symmetry; vm_compute; reflexivity).
  pose proof (Prim2SF_valid r) as Hv.
  destruct (Prim2SF r) as [s|s| |s m e]; intros H0 H1.
  - left. exists s. reflexivity.
  - destruct s; discriminate.
  - discriminate.
  - right. destruct s; [discriminate|]. exists m, e. split; [reflexivity|].
    simpl in Hv. destruct (bounded_facts m e Hv) as (_ & _ & He & Hm & Hn).
    unfold SFltb, SFcompare in H1.
    destruct (Z.compare_spec e (-52)) as [Heq|Hlt|Hgt]; [|lia|discriminate].
    exfalso. rewrite Pos.compare_cont_spec in H1. simpl in H1.
    destruct (Pos.compare_spec m 4503599627370496) as [?|Hlt|?]; try discriminate.
    apply Pos2Z.pos_lt_pos in Hlt. change (Z.pos 4503599627370496) with (2 ^ 52) in Hlt. lia.
Qed.

Lemma mul_draw_bound (r W : float) (mW : positive) (eW : Z) :
  Prim2SF W = S754_finite false mW eW ->
  2 ^ 52 <= Z.pos mW ->
  (0 <=? r)%float = true -> (r <? 1)%float = true ->
  (exists s, Prim2SF (r * W) = S754_zero s) \/
  (exists m e, Prim2SF (r * W) = S754_finite false m e /\
               Z.pos m * pw e <= Z.pos mW * pw eW).
Proof.
  intros HW HmW H0 H1. rewrite mul_spec, HW.
  pose proof (Prim2SF_valid W) as HvW. rewrite HW in HvW. simpl in HvW.
  destruct (bounded_facts mW eW HvW) as (_ & _ & HeW & _ & _).
  destruct (unit_draw_spec r H0 H1) as [[s ->]|(m & e & -> & He & Hm)].
  - left. exists (xorb s false). reflexivity.
  - unfold SF64mul, SFmul. cbn [xorb].
    replace (Z.pos (m * mW)) with (Z.pos (m * mW)%positive) by reflexivity.
    pose proof (pw_pos (e + eW) ltac:(lia)) as Hp.
    destruct (round_aux_bound false (m * mW) (e + eW) mW eW) as [E|(m' & e' & E & Hle)].
    + lia.
    + rewrite fexp64_eq.
      pose proof (digits2_bounds (m * mW)) as [_ Hhi]. rewrite Pos2Z.inj_mul in Hhi.
      assert (2 ^ 52 < 2 ^ Z.pos (digits2_pos (m * mW))) by nia.
      apply Z.pow_lt_mono_r_iff in H; lia.
    + exact HvW.
    + rewrite Pos2Z.inj_mul.
      replace (eW) with ((e + eW) + (- e)) at 2 by lia.
      rewrite (pw_add (e + eW) (- e)) by lia.
      assert (Z.pos m <= 2 ^ (- e)).
      { apply Z.lt_le_incl. eapply Z.lt_le_trans; [exact Hm|]. apply Z.pow_le_mono_r; lia. }
      replace (Z.pos m * Z.pos mW * pw (e + eW)) with (Z.pos mW * pw (e + eW) * Z.pos m) by ring.
      replace (Z.pos mW * (pw (e + eW) * 2 ^ (- e))) with (Z.pos mW * pw (e + eW) * 2 ^ (- e)) by ring.
      apply Z.mul_le_mono_nonneg_l; lia.
    + left. exists false. exact E.
    + right. exists m', e'. split; assumption.
Qed.

Lemma sub_half_bound (t h : float) (mh : positive) (eh : Z) (vW : Z) :
  Prim2SF h = S754_finite false mh eh ->
  vW = 2 * (Z.pos mh * pw eh) ->
  ((exists s, Prim2SF t = S754_zero s) \/
   (exists m e, Prim2SF t = S754_finite false m e /\ Z.pos m * pw e <= vW)) ->
  mag_le (Prim2SF (t - h)) mh eh.
Proof.
  intros Hh HvW Ht. rewrite sub_spec, Hh.
  pose proof (Prim2SF_valid h) as Hvh. rewrite Hh in Hvh. simpl in Hvh.
  destruct (bounded_facts mh eh Hvh) as (_ & _ & Heh & _ & _).
  pose proof (Prim2SF_valid t) as Hvt.
  destruct Ht as [[s ->]|(m & e & Et & Hle)].
  - simpl. lia.
  - rewrite Et in Hvt |- *. simpl in Hvt.
    destruct (bounded_facts m e Hvt) as (_ & _ & He & _ & _).
    unfold SF64sub, SFsub. cbn [cond_Zopp].
    set (ez := Z.min e eh).
    pose proof (shl_align_spec m e ez ltac:(lia) ltac:(unfold ez; lia)) as S1.
    pose proof (shl_align_spec mh eh ez ltac:(lia) ltac:(unfold ez; lia)) as S2.
    destruct (shl_align m e ez) as [m1 e1]. destruct (shl_align mh eh ez) as [m2 e2].
    cbn [fst]. destruct S1 as (V1 & E1 & _). destruct S2 as (V2 & E2 & _).
    assert (e1 = ez) as -> by (unfold ez in *; lia).
    assert (e2 = ez) as -> by (unfold ez in *; lia).
    clear E1 E2.
    pose proof (pw_pos ez ltac:(unfold ez; lia)) as Hp.
    assert (HD : - (Z.pos mh * pw eh) <= (Z.pos m1 - Z.pos m2) * pw ez <= Z.pos mh * pw eh) by nia.
    unfold binary_normalize.
    destruct (Z.pos m1 - Z.pos m2) as [|p|p] eqn:ED.
    + exact I.
    + destruct (round_bound false p ez mh eh ltac:(unfold ez; lia) Hvh ltac:(lia))
        as [->|(m' & e' & -> & Hle')]; [exact I | exact Hle'].
    + destruct (round_bound true p ez mh eh ltac:(unfold ez; lia) Hvh ltac:(lia))
        as [->|(m' & e' & -> & Hle')]; [exact I | exact Hle'].
Qed.

(** For a draw [r] in [0, 1), [r * W - h] lies in [-h, h] when [W = 2h]. *)
Lemma affine_draw_in_range (r W h : float) (mW mh : positive) (eW eh : Z) :
  Prim2SF W = S754_finite false mW eW ->
  Prim2SF h = S754_finite false mh eh ->
  2 ^ 52 <= Z.pos mW ->
  Z.pos mW * pw eW = 2 * (Z.pos mh * pw eh) ->
  (0 <=? r)%float = true -> (r <? 1)%float = true ->
  (- h <=? r * W - h)%float = true /\ (r * W - h <=? h)%float = true.
Proof.
  intros HW Hh HmW HWh H0 H1.
  pose proof (Prim2SF_valid h) as Hvh. rewrite Hh in Hvh. simpl in Hvh.
  assert (Hm : mag_le (Prim2SF (r * W - h)) mh eh).
  { apply (sub_half_bound (r * W) h mh eh (Z.pos mW * pw eW) Hh HWh).
    destruct (mul_draw_bound r W mW eW HW HmW H0 H1) as [Hz|Hf]; [left | right]; assumption. }
  destruct (mag_le_leb _ mh eh (Prim2SF_valid (r * W - h)) Hvh Hm) as [L1 L2].
  rewrite !leb_spec, opp_spec, Hh. simpl SFopp. split; assumption.
Qed.

End Binary64.

(** * A fresh ball lies in the field *)

Lemma randInField_in_field (r1 r2 : float) :
  unit_draw r1 = true -> unit_draw r2 = true ->
  in_field (fst (randInField r1 r2)) (snd (randInField r1 r2)) = true.
Proof.
  unfold unit_draw, in_field, randInField. cbn [fst snd].
  intros H1 H2. apply andb_prop in H1, H2. destruct H1 as [H1a H1b]. destruct H2 as [H2a H2b].
  change (- WORLD_WIDTH / 2)%float with (- (400))%float.
  change (WORLD_WIDTH / 2)%float with 400%float.
  change (- WORLD_HEIGHT / 2)%float with (- (300))%float.
  change (WORLD_HEIGHT / 2)%float with 300%float.
  destruct (Binary64.affine_draw_in_range r1 WORLD_WIDTH 400
              7036874417766400 7036874417766400 (-43) (-44)) as [A1 A2];
    try assumption; try (vm_compute; reflexivity); try (vm_compute; discriminate).
  destruct (Binary64.affine_draw_in_range r2 WORLD_HEIGHT 300
              5277655813324800 5277655813324800 (-43) (-44)) as [B1 B2];
    try assumption; try (vm_compute; reflexivity); try (vm_compute; discriminate).
  rewrite A1, A2, B1, B2. reflexivity.
Qed.

(** * Scoring *)

Lemma step_players_app (rt : Runtime) (l1 l2 : list Player.t) (w : Pool) :
  step_players rt (l1 ++ l2) w =
  (fst (step_players rt l1 w) ++ fst (step_players rt l2 (snd (step_players rt l1 w))),
   snd (step_players rt l2 (snd (step_players rt l1 w)))).
Proof.
  revert w. induction l1 as [|p l1 IH]; intros w; simpl.
  - destruct (step_players rt l2 w); reflexivity.
  - destruct (step_player rt p w) as [p' w1]. rewrite IH.
    destruct (step_players rt l1 w1) as [l1' w2]. simpl.
    destruct (step_players rt l2 w2) as [l2' w3]. reflexivity.
Qed.

Lemma step_players_length (rt : Runtime) (l : list Player.t) (w : Pool) :
  List.length (fst (step_players rt l w)) = List.length l.
Proof.
  revert w. induction l as [|p l IH]; intros w; simpl; [reflexivity|].
  destruct (step_player rt p w) as [p' w1]. specialize (IH w1).
  destruct (step_players rt l w1) as [l' w2]. simpl in *. congruence.
Qed.

(** The player a scoring step leaves behind. *)
Lemma scoring_player (rt : Runtime) (p : Player.t) (w : Pool) (bid : string) :
  Player.carryingBallId p = Some bid -> nonempty bid ->
  isInGoal (Player.team p) (Player.x p) (Player.y p) = true ->
  fst (scoring rt p w)
  = Player.set_carrying (Player.set_score p (JS.incr (Player.score p))) None.
Proof.
  intros Hc Hne Hg. unfold scoring. rewrite Hc, (truthy_Some bid Hne), Hg. simpl.
  rewrite Hc. destruct (map_get Ball.id bid (pool_balls w)); reflexivity.
Qed.

Lemma incr_exact (z : Z) : (z < 2 ^ 53)%Z -> JS.incr z = (z + 1)%Z.
Proof. intros H. unfold JS.incr. apply Z.ltb_lt in H. rewrite H. reflexivity. Qed.

Lemma map_get_follow (p : Player.t) (bs : list Ball.t) (k : string) (b : Ball.t) :
  map_get Ball.id k bs = Some b -> exists b', map_get Ball.id k (follow p bs) = Some b'.
Proof.
  intros H. unfold follow. destruct (Player.carryingBallId p) as [bid|]; [|eauto].
  destruct (JS.truthy (Some bid)); [|eauto].
  rewrite map_get_update by reflexivity. rewrite H.
  destruct (String.eqb bid k); simpl; eauto.
Qed.

(** The step of a scoring player in the first loop of [update]. A player
    that carries a ball and, once moved, stands in its own team's goal
    ([isInGoal]) goes through the scoring branch: its score grows by exactly
    one (scores stay below 2^53, where [+ 1] is exact), it carries nothing
    any more, the scored ball leaves the pool, and exactly one ball is
    appended in its place: its id is the uuid just drawn, which no ball of
    the pool had, it has no carrier, and its position, computed from two
    draws of [Math.random] in [0, 1), lies in the field rectangle. The pool
    keeps its size, and at the end of the whole tick the player's score is
    one more than before the tick. *)
Lemma scoring_step (rt : Runtime) (p : Player.t) (w : Pool) (bid : string) (old : Ball.t) :
  Player.carryingBallId p = Some bid -> nonempty bid ->
  isInGoal (Player.team p) (Player.x (move p)) (Player.y (move p)) = true ->
  (Player.score p < 2 ^ 53)%Z ->
  map_get Ball.id bid (pool_balls w) = Some old ->
  NoDup (map Ball.id (pool_balls w)) ->
  ~ In (uuidv4 rt (pool_uuids w)) (map Ball.id (pool_balls w)) ->
  unit_draw (random rt (pool_randoms w)) = true ->
  unit_draw (random rt (S (pool_randoms w))) = true ->
  let p' := fst (step_player rt p w) in
  let w' := snd (step_player rt p w) in
  Player.score p' = (Player.score p + 1)%Z /\
  Player.carryingBallId p' = None /\
  ~ In bid (map Ball.id (pool_balls w')) /\
  (exists newBall,
     pool_balls w' = map_delete Ball.id bid (follow (move p) (pool_balls w)) ++ [newBall] /\
     Ball.id newBall = uuidv4 rt (pool_uuids w) /\
     ~ In (Ball.id newBall) (map Ball.id (pool_balls w)) /\
     Ball.carriedBy newBall = None /\
     in_field (Ball.x newBall) (Ball.y newBall) = true) /\
  List.length (pool_balls w') = List.length (pool_balls w) /\
  (forall s pre post,
     players s = pre ++ p :: post ->
     exists p'',
       nth_error (players (update_state rt s)) (List.length pre) = Some p'' /\
       Player.id p'' = Player.id p /\
       Player.score p'' = (Player.score p + 1)%Z).
Proof.
  intros Hc Hne Hg Hs Hget Hnd Hfresh Hr1 Hr2 p' w'.
  assert (Hc1 : Player.carryingBallId (move p) = Some bid) by (rewrite move_carrying; exact Hc).
  pose proof (move_ident p) as Hid. unfold ident in Hid. injection Hid as Hid1 Hid2 Hid3.
  rewrite <- Hid2 in Hg.
  assert (Hp' : forall w0, fst (step_player rt p w0)
                = Player.set_carrying
                    (Player.set_score (move p) (JS.incr (Player.score (move p)))) None).
  { intros w0. unfold step_player. apply (scoring_player rt (move p) _ bid Hc1 Hne Hg). }
  assert (Hsc : forall w0, Player.score (fst (step_player rt p w0)) = (Player.score p + 1)%Z).
  { intros w0. rewrite Hp'. simpl. rewrite Hid3. apply incr_exact. exact Hs. }
  destruct (map_get_follow (move p) _ _ _ Hget) as [old' Hget'].
  assert (Hids : map Ball.id (follow (move p) (pool_balls w)) = map Ball.id (pool_balls w))
    by apply follow_ids.
  assert (Hfresh' : ~ In (Ball.id (createBall rt (pool_randoms w) (pool_uuids w)))
                      (map Ball.id (map_delete Ball.id bid (follow (move p) (pool_balls w))))).
  { simpl. intros Hin. apply Hfresh. rewrite <- Hids.
    eapply map_delete_keys_incl. exact Hin. }
  assert (Hw' : pool_balls w'
                = map_delete Ball.id bid (follow (move p) (pool_balls w))
                  ++ [createBall rt (pool_randoms w) (pool_uuids w)]).
  { unfold w', step_player, scoring. rewrite Hc1, (truthy_Some bid Hne), Hg. simpl.
    rewrite Hc1, Hget'. simpl. apply map_set_fresh. exact Hfresh'. }
  split; [apply Hsc|]. split; [unfold p'; rewrite Hp'; reflexivity|].
  split; [|split; [|split]].
  - rewrite Hw', map_app. intros Hin. apply in_app_or in Hin. destruct Hin as [Hin|[Hin|[]]].
    + revert Hin. apply map_delete_not_In. rewrite Hids. exact Hnd.
    + simpl in Hin. apply Hfresh. rewrite Hin.
      apply map_get_In in Hget. destruct Hget as [Hin' <-]. apply in_map. exact Hin'.
  - exists (createBall rt (pool_randoms w) (pool_uuids w)).
    split; [exact Hw'|]. split; [reflexivity|]. split; [exact Hfresh|]. split; [reflexivity|].
    apply randInField_in_field; assumption.
  - rewrite Hw', length_app. simpl.
    pose proof (map_delete_length _ _ _ _ _ Hget') as Hl.
    rewrite <- (length_map Ball.id (pool_balls w)), <- Hids, length_map. lia.
  - intros s pre post Hps.
    unfold update_state. rewrite Hps, step_players_app.
    set (w0 := {| pool_balls := balls s; pool_randoms := randoms_used s;
                  pool_uuids := uuids_used s |}).
    pose proof (step_players_length rt pre w0) as Hlen.
    destruct (step_players rt pre w0) as [pre' w1]. cbn [fst snd] in *.
    simpl step_players. pose proof (Hsc w1) as Hsc1. pose proof (Hp' w1) as Hp1.
    destruct (step_player rt p w1) as [q w2]. cbn [fst] in Hsc1, Hp1.
    destruct (step_players rt post w2) as [post' w3]. cbn [fst snd].
    pose proof (pickup_players_ident (pre' ++ q :: post') (pool_balls w3)) as H2.
    destruct (pickup_players (pre' ++ q :: post') (pool_balls w3)) as [ps2 bs2]. simpl in H2.
    pose proof (collisions_ident (ps2, bs2)) as H3.
    destruct (collisions (ps2, bs2)) as [ps3 bs3]. simpl in H3. cbn [players].
    assert (Hn : nth_error (map ident ps3) (List.length pre) = Some (ident q)).
    { rewrite H3, H2, map_app, <- Hlen, <- (length_map ident pre'). apply nth_error_at. }
    rewrite nth_error_map in Hn.
    destruct (nth_error ps3 (List.length pre)) as [p''|]; [|discriminate].
    exists p''. split; [reflexivity|]. simpl in Hn. injection Hn as E1 _ E3.
    split; [rewrite E1, Hp1; simpl; exact Hid1 | rewrite E3; exact Hsc1].
Qed.

(** * A ball whose carrier is gone stays carried *)

Section Orphan.
Variable rt : Runtime.
Hypothesis uuid_inj : uuid_injective rt.
Variables bid dead : string.
Hypothesis dead_nonempty : nonempty dead.

Lemma scoring_orphaned (n : nat) (p : Player.t) (w : Pool) :
  pool_ok rt n (pool_balls w) (pool_uuids w) ->
  Player.carryingBallId p <> Some bid ->
  (exists b, map_get Ball.id bid (pool_balls w) = Some b /\ Ball.carriedBy b = Some dead) ->
  (exists b, map_get Ball.id bid (pool_balls (snd (scoring rt p w))) = Some b /\
             Ball.carriedBy b = Some dead) /\
  Player.carryingBallId (fst (scoring rt p w)) <> Some bid.
Proof.
  intros (Hlen & Hnd & Hdr) Hc (b & Hb & Hcb). unfold scoring.
  destruct (JS.truthy (Player.carryingBallId p) && isInGoal _ _ _); [|simpl; eauto].
  simpl. destruct (Player.carryingBallId p) as [k|] eqn:Ek; [|simpl; split; [eauto | discriminate]].
  destruct (map_get Ball.id k (pool_balls w)) as [old|] eqn:Hget;
    [|simpl; split; [eauto | discriminate]].
  simpl. split; [|discriminate].
  assert (Hfresh : ~ In (Ball.id (createBall rt (pool_randoms w) (pool_uuids w)))
                     (map Ball.id (map_delete Ball.id k (pool_balls w)))).
  { simpl. intros Hin. apply (ids_drawn_fresh rt uuid_inj _ _ Hdr).
    eapply map_delete_keys_incl. exact Hin. }
  rewrite (map_set_fresh _ _ _ _ Hfresh).
  exists b. split; [|exact Hcb]. apply map_get_app_l.
  rewrite map_get_delete by exact Hnd.
  destruct (String.eqb k bid) eqn:E; [|exact Hb].
  apply String.eqb_eq in E. congruence.
Qed.

Lemma follow_orphaned (p : Player.t) (bs : list Ball.t) :
  (exists b, map_get Ball.id bid bs = Some b /\ Ball.carriedBy b = Some dead) ->
  exists b, map_get Ball.id bid (follow p bs) = Some b /\ Ball.carriedBy b = Some dead.
Proof.
  intros (b & Hb & Hcb). unfold follow.
  destruct (Player.carryingBallId p) as [k|]; [|eauto].
  destruct (JS.truthy (Some k)); [|eauto].
  rewrite map_get_update by reflexivity. rewrite Hb.
  destruct (String.eqb k bid); simpl; eauto.
Qed.

Lemma step_players_orphaned (n : nat) (ps : list Player.t) (w : Pool) :
  pool_ok rt n (pool_balls w) (pool_uuids w) ->
  orphaned bid dead ps (pool_balls w) ->
  orphaned bid dead (fst (step_players rt ps w)) (pool_balls (snd (step_players rt ps w))).
Proof.
  revert w. induction ps as [|p ps IH]; intros w Hok [Hb Hps]; simpl.
  { split; [exact Hb | constructor]. }
  inversion Hps as [|? ? Hp Hps']; subst.
  pose proof (step_player_pool_ok rt uuid_inj n p w Hok) as [Hok1 _].
  assert (H1 : (exists b, map_get Ball.id bid (pool_balls (snd (step_player rt p w))) = Some b /\
                          Ball.carriedBy b = Some dead) /\
               Player.carryingBallId (fst (step_player rt p w)) <> Some bid).
  { unfold step_player. apply (scoring_orphaned n).
    - simpl. eapply pool_ok_same_ids; [apply follow_ids | exact Hok].
    - rewrite move_carrying. exact Hp.
    - simpl. apply follow_orphaned. exact Hb. }
  destruct (step_player rt p w) as [p' w1]. simpl in Hok1, H1. destruct H1 as [Hb1 Hp1].
  specialize (IH w1 Hok1 (conj Hb1 Hps')).
  destruct (step_players rt ps w1) as [ps' w2]. simpl in *.
  destruct IH as [Hb2 Hps2]. split; [exact Hb2 | constructor; assumption].
Qed.

Lemma map_get_of_In (A : Type) (key : A -> string) (m : list A) (a : A) :
  NoDup (map key m) -> In a m -> map_get key (key a) m = Some a.
Proof.
  induction m as [|c m IH]; simpl; [tauto|].
  intros Hnd [->|Hin].
  - rewrite String.eqb_refl. reflexivity.
  - inversion Hnd as [|? ? Hn Hd]; subst.
    destruct (String.eqb (key c) (key a)) eqn:E; [|auto].
    apply String.eqb_eq in E. exfalso. apply Hn. rewrite E. apply in_map. exact Hin.
Qed.

Lemma pickup_scan_picked (p : Player.t) (bs : list Ball.t) (k : string) :
  fst (pickup_scan p bs) = Some k ->
  exists c, In c bs /\ Ball.id c = k /\ JS.truthy (Ball.carriedBy c) = false.
Proof.
  induction bs as [|c bs IH]; simpl; [discriminate|].
  destruct (JS.truthy (Ball.carriedBy c)) eqn:Et.
  - destruct (pickup_scan p bs) as [r rest']. simpl in *. intros H.
    destruct (IH H) as (c' & Hin & Hc'). exists c'. auto.
  - destruct (PrimFloat.ltb _ _).
    + simpl. intros [= <-]. exists c. auto.
    + destruct (pickup_scan p bs) as [r rest']. simpl in *. intros H.
      destruct (IH H) as (c' & Hin & Hc'). exists c'. auto.
Qed.

Lemma pickup_scan_orphaned (p : Player.t) (bs : list Ball.t) (b : Ball.t) :
  NoDup (map Ball.id bs) ->
  map_get Ball.id bid bs = Some b -> Ball.carriedBy b = Some dead ->
  map_get Ball.id bid (snd (pickup_scan p bs)) = Some b /\
  fst (pickup_scan p bs) <> Some bid.
Proof.
  intros Hnd Hb Hcb. split.
  - clear Hnd. induction bs as [|c bs IH]; simpl in *; [discriminate|].
    destruct (String.eqb (Ball.id c) bid) eqn:E.
    + injection Hb as ->. rewrite Hcb, (truthy_Some dead dead_nonempty).
      destruct (pickup_scan p bs) as [r rest']. simpl. rewrite E. reflexivity.
    + destruct (JS.truthy (Ball.carriedBy c)).
      * specialize (IH Hb). destruct (pickup_scan p bs) as [r rest']. simpl in *.
        rewrite E. exact IH.
      * destruct (PrimFloat.ltb _ _).
        -- simpl. rewrite E. exact Hb.
        -- specialize (IH Hb). destruct (pickup_scan p bs) as [r rest']. simpl in *.
           rewrite E. exact IH.
  - intros H. destruct (pickup_scan_picked p bs bid H) as (c & Hin & Hid & Ht).
    pose proof (map_get_of_In _ Ball.id bs c Hnd Hin) as Hc. rewrite Hid, Hb in Hc.
    injection Hc as ->. rewrite Hcb, (truthy_Some dead dead_nonempty) in Ht. discriminate.
Qed.

Lemma pickup_players_orphaned (ps : list Player.t) (bs : list Ball.t) :
  NoDup (map Ball.id bs) ->
  orphaned bid dead ps bs ->
  orphaned bid dead (fst (pickup_players ps bs)) (snd (pickup_players ps bs)).
Proof.
  revert bs. induction ps as [|p ps IH]; intros bs Hnd [Hb Hps]; simpl.
  { split; [exact Hb | constructor]. }
  inversion Hps as [|? ? Hp Hps']; subst.
  destruct Hb as (b & Hb & Hcb).
  assert (H1 : map_get Ball.id bid (snd (pickup_player p bs)) = Some b /\
               Player.carryingBallId (fst (pickup_player p bs)) <> Some bid).
  { unfold pickup_player. destruct (JS.truthy (Player.carryingBallId p)); [auto|].
    destruct (pickup_scan_orphaned p bs b Hnd Hb Hcb) as [H1 H2].
    destruct (pickup_scan p bs) as [[k|] bs']; simpl in *; [|auto].
    split; [exact H1 | congruence]. }
  pose proof (pickup_player_ids p bs) as Hids.
  destruct (pickup_player p bs) as [p' bs1]. simpl in H1, Hids. destruct H1 as [Hb1 Hp1].
  assert (Hnd1 : NoDup (map Ball.id bs1)) by (rewrite Hids; exact Hnd).
  specialize (IH bs1 Hnd1 (conj (ex_intro _ b (conj Hb1 Hcb)) Hps')).
  destruct (pickup_players ps bs1) as [ps' bs2]. simpl in *.
  destruct IH as [Hb2 Hps2]. split; [exact Hb2 | constructor; assumption].
Qed.

Lemma Forall_set_nth (A : Type) (P : A -> Prop) (i : nat) (q : A) (l : list A) :
  P q -> Forall P l -> Forall P (set_nth i (fun _ => q) l).
Proof.
  intros Hq Hl. revert i. induction Hl as [|a l Ha Hl IH]; intros [|i]; simpl;
    constructor; auto.
Qed.

Lemma drop_orphaned (p : Player.t) (bs : list Ball.t) :
  Player.carryingBallId p <> Some bid ->
  (exists b, map_get Ball.id bid bs = Some b /\ Ball.carriedBy b = Some dead) ->
  (exists b, map_get Ball.id bid (snd (drop p bs)) = Some b /\ Ball.carriedBy b = Some dead) /\
  Player.carryingBallId (fst (drop p bs)) <> Some bid.
Proof.
  intros Hc (b & Hb & Hcb). unfold drop.
  destruct (Player.carryingBallId p) as [k|] eqn:Ek; [|simpl; split; [eauto | congruence]].
  destruct (JS.truthy (Some k)); [|simpl; split; [eauto | congruence]].
  simpl. split; [|discriminate].
  rewrite map_get_update by reflexivity. rewrite Hb.
  destruct (String.eqb k bid) eqn:E; [|eauto].
  apply String.eqb_eq in E. congruence.
Qed.

Lemma collide_orphaned (i j : nat) (w : list Player.t * list Ball.t) :
  orphaned bid dead (fst w) (snd w) ->
  orphaned bid dead (fst (collide i j w)) (snd (collide i j w)).
Proof.
  destruct w as [ps bs]. simpl. intros [Hb Hps]. unfold collide.
  destruct (nth_error ps i) as [p1|] eqn:E1; [|split; assumption].
  destruct (nth_error ps j) as [p2|] eqn:E2; [|split; assumption].
  destruct (PrimFloat.ltb _ _); [|split; assumption].
  rewrite Forall_forall in Hps.
  pose proof (Hps p1 (nth_error_In _ _ E1)) as Hp1.
  pose proof (Hps p2 (nth_error_In _ _ E2)) as Hp2.
  match goal with |- context [drop ?a bs] =>
    destruct (drop_orphaned a bs Hp1 Hb) as [Hb1 Hc1]; destruct (drop a bs) as [p1b bs1] end.
  simpl in Hb1, Hc1.
  match goal with |- context [drop ?a bs1] =>
    destruct (drop_orphaned a bs1 Hp2 Hb1) as [Hb2 Hc2]; destruct (drop a bs1) as [p2b bs2] end.
  simpl in *. split; [exact Hb2|].
  apply Forall_set_nth; [exact Hc2|]. apply Forall_set_nth; [exact Hc1|].
  apply Forall_forall. exact Hps.
Qed.

Lemma collisions_orphaned (w : list Player.t * list Ball.t) :
  orphaned bid dead (fst w) (snd w) ->
  orphaned bid dead (fst (collisions w)) (snd (collisions w)).
Proof.
  intros H. unfold collisions.
  apply (fold_left_invariant _ _ (fun a => orphaned bid dead (fst a) (snd a))); [|exact H].
  intros a i Ha. unfold collide_from.
  apply (fold_left_invariant _ _ (fun a => orphaned bid dead (fst a) (snd a))); [|exact Ha].
  intros a' j Ha'. apply collide_orphaned. exact Ha'.
Qed.

Lemma update_state_orphaned (n : nat) (s : State) :
  pool_ok rt n (balls s) (uuids_used s) ->
  orphaned bid dead (players s) (balls s) ->
  orphaned bid dead (players (update_state rt s)) (balls (update_state rt s)).
Proof.
  intros Hok Ho. unfold update_state.
  set (w0 := {| pool_balls := balls s; pool_randoms := randoms_used s;
                pool_uuids := uuids_used s |}).
  pose proof (step_players_pool_ok rt uuid_inj n (players s) w0 Hok) as [Hok1 _].
  pose proof (step_players_orphaned n (players s) w0 Hok Ho) as H1.
  destruct (step_players rt (players s) w0) as [ps1 w1]. simpl in Hok1, H1.
  destruct Hok1 as (_ & Hnd1 & _).
  pose proof (pickup_players_orphaned ps1 (pool_balls w1) Hnd1 H1) as H2.
  destruct (pickup_players ps1 (pool_balls w1)) as [ps2 bs2]. simpl in H2.
  pose proof (collisions_orphaned (ps2, bs2) H2) as H3.
  destruct (collisions (ps2, bs2)) as [ps3 bs3]. exact H3.
Qed.

Lemma handle_orphaned (n : nat) (e : Event) (s : State) :
  pool_ok rt n (balls s) (uuids_used s) ->
  orphaned bid dead (players s) (balls s) ->
  orphaned bid dead (players (fst (handle rt e s))) (balls (fst (handle rt e s))).
Proof.
  intros Hok [Hb Hps]. destruct e as [|id data|id|]; cbn [handle].
  - simpl. split; [exact Hb|].
    clear - Hps. induction Hps as [|q qs Hq Hqs IH]; simpl; [repeat constructor; discriminate|].
    destruct (String.eqb (Player.id q) _); constructor; auto. simpl. discriminate.
  - destruct (onMessage_shape rt id data s) as [E|(x & y & p & _ & E)]; rewrite E.
    + split; assumption.
    + simpl. split; [exact Hb|]. apply Forall_map_update; [|exact Hps]. intros a Ha. exact Ha.
  - simpl. split; [exact Hb|]. apply Forall_map_delete. exact Hps.
  - unfold update. cbn [fst]. apply (update_state_orphaned n); [exact Hok | split; assumption].
Qed.

(** Once a ball names a carrier that no player is (its carrier disconnected)
    and no player carries it, no event ever changes that: the ball is never
    freed. *)
Lemma orphaned_forever (n : nat) (evs : list Event) (s : State) :
  pool_ok rt n (balls s) (uuids_used s) ->
  orphaned bid dead (players s) (balls s) ->
  orphaned bid dead (players (fst (run_from rt s evs))) (balls (fst (run_from rt s evs))).
Proof.
  revert s. induction evs as [|e evs IH]; intros s Hok Ho; simpl; [exact Ho|].
  pose proof (handle_pool_ok rt uuid_inj n e s Hok) as Hok1.
  pose proof (handle_orphaned n e s Hok Ho) as Ho1.
  destruct (handle rt e s) as [s1 o1]. simpl in Hok1, Ho1.
  specialize (IH s1 Hok1 Ho1).
  destruct (run_from rt s1 evs) as [s2 o2]. exact IH.
Qed.

End Orphan.

(** * The order of binary64 numbers, and the clamps *)

Module Order64.

Lemma SFcompare_antisym (x y : spec_float) :
  SFcompare y x = option_map CompOpp (SFcompare x y).
Proof.
  destruct x as [sx|sx| |sx mx ex], y as [sy|sy| |sy my ey]; simpl; try reflexivity;
    try (destruct sx; reflexivity); try (destruct sy; reflexivity);
    try (destruct sx, sy; reflexivity).
  rewrite (Z.compare_antisym ex ey), !Pos.compare_cont_spec, (Pos.compare_antisym mx my).
  destruct sx, sy; simpl; try reflexivity;
    destruct (ex ?= ey)%Z; simpl; try reflexivity;
    destruct (mx ?= my)%positive; reflexivity.
Qed.

Lemma SFcompare_refl (x : spec_float) : x <> S754_nan -> SFcompare x x = Some Eq.
Proof.
  destruct x as [s|s| |s m e]; simpl; intros H; try reflexivity; try congruence.
  - destruct s; reflexivity.
  - rewrite Z.compare_refl, Pos.compare_cont_spec, Pos.compare_refl. destruct s; reflexivity.
Qed.

Lemma SFcompare_some (x y : spec_float) :
  x <> S754_nan -> y <> S754_nan -> exists c, SFcompare x y = Some c.
Proof.
  destruct x as [sx|sx| |sx mx ex], y as [sy|sy| |sy my ey]; simpl; intros Hx Hy;
    try congruence; eauto.
Qed.

Lemma not_nan (a : float) : is_nan a = false -> Prim2SF a <> S754_nan.
Proof.
  unfold is_nan. rewrite eqb_spec. intros H E. rewrite E in H. discriminate.
Qed.

Lemma is_nan_nan (a : float) : Prim2SF a = S754_nan -> is_nan a = true.
Proof. unfold is_nan. rewrite eqb_spec. intros ->. reflexivity. Qed.

Lemma leb_refl (a : float) : is_nan a = false -> PrimFloat.leb a a = true.
Proof.
  intros H. rewrite leb_spec. unfold SFleb. rewrite (SFcompare_refl _ (not_nan a H)). reflexivity.
Qed.

Lemma ltb_leb (a b : float) : PrimFloat.ltb a b = true -> PrimFloat.leb a b = true.
Proof.
  rewrite ltb_spec, leb_spec. unfold SFltb, SFleb.
  destruct (SFcompare (Prim2SF a) (Prim2SF b)) as [[| |]|]; congruence.
Qed.

Lemma not_ltb_leb (a b : float) :
  is_nan a = false -> is_nan b = false ->
  PrimFloat.ltb a b = false -> PrimFloat.leb b a = true.
Proof.
  intros Ha Hb. rewrite ltb_spec, leb_spec. unfold SFltb, SFleb.
  rewrite (SFcompare_antisym (Prim2SF a) (Prim2SF b)).
  destruct (SFcompare_some _ _ (not_nan a Ha) (not_nan b Hb)) as [c ->].
  destruct c; simpl; congruence.
Qed.

(** [Math.max(lo, Math.min(hi, v))] lies in [lo, hi], unless it is NaN. *)
Lemma clamp_in_range (lo hi v : float) :
  is_nan lo = false -> is_nan hi = false -> PrimFloat.leb lo hi = true ->
  is_nan (JS.Math_max lo (JS.Math_min hi v)) = false ->
  PrimFloat.leb lo (JS.Math_max lo (JS.Math_min hi v)) = true /\
  PrimFloat.leb (JS.Math_max lo (JS.Math_min hi v)) hi = true.
Proof.
  intros Hlo Hhi Hle.
  assert (Hm : is_nan v = false ->
               is_nan (JS.Math_min hi v) = false /\
               PrimFloat.leb (JS.Math_min hi v) hi = true).
  { intros Hv. unfold JS.Math_min. rewrite Hhi, Hv. simpl.
    destruct (PrimFloat.ltb hi v) eqn:E1; [split; [exact Hhi | apply leb_refl; exact Hhi]|].
    destruct (PrimFloat.ltb v hi) eqn:E2; [split; [exact Hv | apply ltb_leb; exact E2]|].
    destruct (JS.is_neg_zero hi); [split; [exact Hhi | apply leb_refl; exact Hhi]|].
    split; [exact Hv | apply not_ltb_leb; assumption]. }
  destruct (is_nan v) eqn:Hv.
  { unfold JS.Math_min. rewrite Hv, orb_true_r. unfold JS.Math_max.
    replace (is_nan nan) with true by reflexivity. rewrite orb_true_r.
    intros H. vm_compute in H. discriminate. }
  intros _. destruct (Hm eq_refl) as [Hmn Hmh].
  set (m := JS.Math_min hi v) in *. unfold JS.Math_max. rewrite Hlo, Hmn. simpl.
  destruct (PrimFloat.ltb lo m) eqn:E1; [split; [apply ltb_leb; exact E1 | exact Hmh]|].
  destruct (PrimFloat.ltb m lo) eqn:E2; [split; [apply leb_refl; exact Hlo | exact Hle]|].
  destruct (JS.is_neg_zero lo); [split; [apply not_ltb_leb; assumption | exact Hmh]|].
  split; [apply leb_refl; exact Hlo | exact Hle].
Qed.

Lemma clamp_not_nan (lo hi v : float) :
  is_nan lo = false -> is_nan hi = false -> is_nan v = false ->
  is_nan (JS.Math_max lo (JS.Math_min hi v)) = false.
Proof.
  intros Hlo Hhi Hv.
  assert (Hm : is_nan (JS.Math_min hi v) = false).
  { unfold JS.Math_min. rewrite Hhi, Hv. simpl.
    destruct (PrimFloat.ltb hi v); [exact Hhi|].
    destruct (PrimFloat.ltb v hi); [exact Hv|].
    destruct (JS.is_neg_zero hi); assumption. }
  unfold JS.Math_max. rewrite Hlo, Hm. simpl.
  destruct (PrimFloat.ltb lo (JS.Math_min hi v)); [exact Hm|].
  destruct (PrimFloat.ltb (JS.Math_min hi v) lo); [exact Hlo|].
  destruct (JS.is_neg_zero lo); assumption.
Qed.

End Order64.

(** The movement step leaves a moving player inside the inset field, unless
    a coordinate is NaN. *)
Lemma move_clamps (p : Player.t) :
  JS.strict_neq (Player.dirX p) 0 || JS.strict_neq (Player.dirY p) 0 = true ->
  is_nan (Player.x (move p)) = false -> is_nan (Player.y (move p)) = false ->
  in_bounds (move p) = true.
Proof.
  intros Hm. unfold move, in_bounds. rewrite Hm. cbn [Player.set_pos Player.x Player.y].
  unfold clampX, clampY. intros Hx Hy.
  destruct (Order64.clamp_in_range (- WORLD_WIDTH / 2 + PLAYER_RADIUS)
              (WORLD_WIDTH / 2 - PLAYER_RADIUS) _ eq_refl eq_refl eq_refl Hx) as [X1 X2].
  destruct (Order64.clamp_in_range (- WORLD_HEIGHT / 2 + PLAYER_RADIUS)
              (WORLD_HEIGHT / 2 - PLAYER_RADIUS) _ eq_refl eq_refl eq_refl Hy) as [Y1 Y2].
  rewrite X1, X2, Y1, Y2. reflexivity.
Qed.

(** An input message whose [x] and [y] are numbers is stored clamped to
    [-1, 1], component by component, and nothing is logged. *)
Lemma numeric_input_is_clamped (rt : Runtime) (id : string) (msg : JS.value)
  (fx fy : float) (s : State) (p : Player.t) :
  msg <> JS.Null -> msg <> JS.Undefined ->
  JS.get msg "type" = JS.Str "input" ->
  JS.get msg "x" = JS.Number fx -> JS.get msg "y" = JS.Number fy ->
  is_nan fx = false -> is_nan fy = false ->
  map_get Player.id id (players s) = Some p ->
  let dx := JS.Math_max (-1) (JS.Math_min 1 fx) in
  let dy := JS.Math_max (-1) (JS.Math_min 1 fy) in
  onMessage rt id (Some msg) s
  = (with_players s (map_update Player.id id (fun q => Player.set_dir q dx dy) (players s)), [])
  /\ PrimFloat.leb (-1) dx = true /\ PrimFloat.leb dx 1 = true
  /\ PrimFloat.leb (-1) dy = true /\ PrimFloat.leb dy 1 = true.
Proof.
  intros Hn Hu Ht Hx Hy Hfx Hfy Hp dx dy. split.
  - unfold onMessage. rewrite Ht, Hp, Hx, Hy. simpl.
    destruct msg; try reflexivity; congruence.
  - pose proof (fun f => Order64.clamp_not_nan (-1) 1 f eq_refl eq_refl) as Hc.
    destruct (Order64.clamp_in_range (-1) 1 fx eq_refl eq_refl eq_refl (Hc fx Hfx)) as [X1 X2].
    destruct (Order64.clamp_in_range (-1) 1 fy eq_refl eq_refl eq_refl (Hc fy Hfy)) as [Y1 Y2].
    auto.
Qed.

(** * The carry relation through a tick *)

Section Consistent.
Variables f g : string -> option (option string).
Hypothesis fg : consistent f g.

Lemma consistent_release (a0 b0 : string) :
  f a0 = Some (Some b0) ->
  consistent (upd f a0 (Some None)) (upd g b0 (Some None)).
Proof.
  intros H0 a b. pose proof (fg a b) as Hab. pose proof (fg a0 b) as H0b.
  pose proof (fg a b0) as Hab0. pose proof (fg a0 b0) as H00.
  table_cases.
Qed.

Lemma consistent_release_delete (a0 b0 : string) :
  f a0 = Some (Some b0) ->
  consistent (upd f a0 (Some None)) (upd g b0 None).
Proof.
  intros H0 a b. pose proof (fg a b) as Hab. pose proof (fg a0 b) as H0b.
  pose proof (fg a b0) as Hab0. pose proof (fg a0 b0) as H00.
  table_cases.
Qed.

Lemma consistent_add_ball (b1 : string) :
  g b1 = None -> consistent f (upd g b1 (Some None)).
Proof.
  intros H1 a b. pose proof (fg a b) as Hab. unfold upd.
  eqb_cases; split; intros H; try congruence; try tauto.
  apply Hab in H. congruence.
Qed.

Lemma consistent_add_player (a1 : string) :
  f a1 = None -> consistent (upd f a1 (Some None)) g.
Proof.
  intros H1 a b. pose proof (fg a b) as Hab. unfold upd.
  eqb_cases; split; intros H; try congruence; try tauto.
  apply Hab in H. congruence.
Qed.

Lemma consistent_remove_player (a0 : string) :
  f a0 = Some None \/ f a0 = None -> consistent (upd f a0 None) g.
Proof.
  intros H0 a b. pose proof (fg a b) as Hab. unfold upd.
  eqb_cases; split; intros H; try congruence; try tauto.
  apply Hab in H. destruct H0; congruence.
Qed.

Lemma consistent_acquire (a0 b0 : string) :
  f a0 = Some None -> g b0 = Some None ->
  consistent (upd f a0 (Some (Some b0))) (upd g b0 (Some (Some a0))).
Proof.
  intros Ha Hb a b. pose proof (fg a b) as Hab. unfold upd.
  eqb_cases; split; intros H; try congruence; try tauto.
  - apply Hab in H. congruence.
  - apply Hab in H. congruence.
Qed.

Lemma consistent_ext (f' g' : string -> option (option string)) :
  (forall a, f' a = f a) -> (forall b, g' b = g b) -> consistent f' g'.
Proof. intros Hf Hg a b. rewrite Hf, Hg. apply fg. Qed.

End Consistent.

(** ** Lookups after a list is changed in one place *)

Lemma map_get_replace (A : Type) (key : A -> string) (k : string) (l1 l2 : list A) (a a' : A) :
  NoDup (map key (l1 ++ a :: l2)) -> key a' = key a ->
  map_get key k (l1 ++ a' :: l2)
  = if String.eqb (key a) k then Some a' else map_get key k (l1 ++ a :: l2).
Proof.
  intros Hnd Hk. induction l1 as [|c l1 IH]; simpl in *.
  - rewrite Hk. destruct (String.eqb (key a) k); reflexivity.
  - inversion Hnd as [|? ? Hn Hd]; subst. rewrite (IH Hd).
    destruct (String.eqb (key c) k) eqn:E1; [|reflexivity].
    destruct (String.eqb (key a) k) eqn:E2; [|reflexivity].
    apply String.eqb_eq in E1, E2. exfalso. apply Hn. rewrite map_app. apply in_or_app.
    right. left. congruence.
Qed.

Lemma map_get_snoc (A : Type) (key : A -> string) (k : string) (m : list A) (v : A) :
  map_get key k (m ++ [v])
  = match map_get key k m with
    | Some a => Some a
    | None => if String.eqb (key v) k then Some v else None
    end.
Proof.
  induction m as [|c m IH]; simpl; [reflexivity|].
  destruct (String.eqb (key c) k); [reflexivity | exact IH].
Qed.

Lemma set_nth_split (A : Type) (l1 l2 : list A) (a a' : A) :
  set_nth (List.length l1) (fun _ => a') (l1 ++ a :: l2) = l1 ++ a' :: l2.
Proof. induction l1 as [|c l1 IH]; simpl; congruence. Qed.

Lemma nth_error_set_nth_other (A : Type) (i j : nat) (f : A -> A) (l : list A) :
  i <> j -> nth_error (set_nth i f l) j = nth_error l j.
Proof.
  revert i j. induction l as [|a l IH]; intros [|i] [|j] H; simpl; try reflexivity.
  - contradiction.
  - apply IH. congruence.
Qed.

Lemma fold_left_invariant_in (A B : Type) (P : A -> Prop) (f : A -> B -> A) (l : list B) (a : A) :
  (forall a b, In b l -> P a -> P (f a b)) -> P a -> P (fold_left f l a).
Proof.
  revert a. induction l as [|b l IH]; intros a Hf Ha; simpl; [exact Ha|].
  apply IH; [intros a' b' Hin; apply Hf; right; exact Hin | apply Hf; [left; reflexivity | exact Ha]].
Qed.

Lemma step_players_loop (rt : Runtime) (Q : list Player.t -> Pool -> Prop) :
  (forall l1 p l2 w,
     Q (l1 ++ p :: l2) w ->
     Q (l1 ++ fst (step_player rt p w) :: l2) (snd (step_player rt p w))) ->
  forall ps done w,
    Q (done ++ ps) w ->
    Q (done ++ fst (step_players rt ps w)) (snd (step_players rt ps w)).
Proof.
  intros Hstep. induction ps as [|p ps IH]; intros done w HQ; simpl; [exact HQ|].
  specialize (Hstep done p ps w HQ).
  destruct (step_player rt p w) as [p' w1]. simpl in Hstep.
  specialize (IH (done ++ [p']) w1). rewrite <- app_assoc in IH. simpl in IH.
  specialize (IH Hstep).
  destruct (step_players rt ps w1) as [ps' w2]. simpl in *.
  rewrite <- app_assoc in IH. exact IH.
Qed.

Lemma pickup_players_loop (Q : list Player.t -> list Ball.t -> Prop) :
  (forall l1 p l2 bs,
     Q (l1 ++ p :: l2) bs ->
     Q (l1 ++ fst (pickup_player p bs) :: l2) (snd (pickup_player p bs))) ->
  forall ps done bs,
    Q (done ++ ps) bs ->
    Q (done ++ fst (pickup_players ps bs)) (snd (pickup_players ps bs)).
Proof.
  intros Hstep. induction ps as [|p ps IH]; intros done bs HQ; simpl; [exact HQ|].
  specialize (Hstep done p ps bs HQ).
  destruct (pickup_player p bs) as [p' bs1]. simpl in Hstep.
  specialize (IH (done ++ [p']) bs1). rewrite <- app_assoc in IH. simpl in IH.
  specialize (IH Hstep).
  destruct (pickup_players ps bs1) as [ps' bs2]. simpl in *.
  rewrite <- app_assoc in IH. exact IH.
Qed.

(** ** The two tables after each elementary change *)

Lemma carrying_of_replace (l1 l2 : list Player.t) (p p' : Player.t) (pid : string) :
  NoDup (map Player.id (l1 ++ p :: l2)) -> Player.id p' = Player.id p ->
  carrying_of (l1 ++ p' :: l2) pid
  = upd (carrying_of (l1 ++ p :: l2)) (Player.id p) (Some (Player.carryingBallId p')) pid.
Proof.
  intros Hnd Hid. unfold carrying_of, upd. rewrite (map_get_replace _ _ _ _ _ p p' Hnd Hid).
  rewrite (String.eqb_sym pid). destruct (String.eqb (Player.id p) pid); reflexivity.
Qed.

Lemma carrier_of_replace (l1 l2 : list Ball.t) (b b' : Ball.t) (bid : string) :
  NoDup (map Ball.id (l1 ++ b :: l2)) -> Ball.id b' = Ball.id b ->
  carrier_of (l1 ++ b' :: l2) bid
  = upd (carrier_of (l1 ++ b :: l2)) (Ball.id b) (Some (Ball.carriedBy b')) bid.
Proof.
  intros Hnd Hid. unfold carrier_of, upd. rewrite (map_get_replace _ _ _ _ _ b b' Hnd Hid).
  rewrite (String.eqb_sym bid). destruct (String.eqb (Ball.id b) bid); reflexivity.
Qed.

Lemma carrying_of_here (l1 l2 : list Player.t) (p : Player.t) :
  NoDup (map Player.id (l1 ++ p :: l2)) ->
  carrying_of (l1 ++ p :: l2) (Player.id p) = Some (Player.carryingBallId p).
Proof.
  intros Hnd. unfold carrying_of.
  rewrite (map_get_of_In _ Player.id _ p Hnd); [reflexivity|].
  apply in_or_app. right. left. reflexivity.
Qed.

Lemma carrier_of_here (l1 l2 : list Ball.t) (b : Ball.t) :
  NoDup (map Ball.id (l1 ++ b :: l2)) ->
  carrier_of (l1 ++ b :: l2) (Ball.id b) = Some (Ball.carriedBy b).
Proof.
  intros Hnd. unfold carrier_of.
  rewrite (map_get_of_In _ Ball.id _ b Hnd); [reflexivity|].
  apply in_or_app. right. left. reflexivity.
Qed.

Lemma carrier_of_update (bs : list Ball.t) (bid k : string) (c : option string) :
  carrier_of bs bid <> None ->
  carrier_of (map_update Ball.id bid (fun ball => Ball.set_carriedBy ball c) bs) k
  = upd (carrier_of bs) bid (Some c) k.
Proof.
  intros Hb. unfold carrier_of, upd in *. rewrite map_get_update by reflexivity.
  rewrite (String.eqb_sym k). destruct (String.eqb bid k) eqn:E; [|reflexivity].
  apply String.eqb_eq in E. subst k.
  destruct (map_get Ball.id bid bs); [reflexivity | contradiction].
Qed.

Lemma carrier_of_follow (p : Player.t) (bs : list Ball.t) (k : string) :
  carrier_of (follow p bs) k = carrier_of bs k.
Proof.
  unfold follow. destruct (Player.carryingBallId p) as [bid|]; [|reflexivity].
  destruct (JS.truthy (Some bid)); [|reflexivity].
  unfold carrier_of. rewrite map_get_update by reflexivity.
  destruct (String.eqb bid k); [|reflexivity].
  destruct (map_get Ball.id k bs); reflexivity.
Qed.

Lemma carrier_of_delete (bs : list Ball.t) (bid k : string) :
  NoDup (map Ball.id bs) ->
  carrier_of (map_delete Ball.id bid bs) k = upd (carrier_of bs) bid None k.
Proof.
  intros Hnd. unfold carrier_of, upd. rewrite map_get_delete by exact Hnd.
  rewrite (String.eqb_sym k). destruct (String.eqb bid k); reflexivity.
Qed.

Lemma carrying_of_delete (ps : list Player.t) (pid k : string) :
  NoDup (map Player.id ps) ->
  carrying_of (map_delete Player.id pid ps) k = upd (carrying_of ps) pid None k.
Proof.
  intros Hnd. unfold carrying_of, upd. rewrite map_get_delete by exact Hnd.
  rewrite (String.eqb_sym k). destruct (String.eqb pid k); reflexivity.
Qed.

Lemma carrier_of_snoc (bs : list Ball.t) (nb : Ball.t) (k : string) :
  ~ In (Ball.id nb) (map Ball.id bs) ->
  carrier_of (bs ++ [nb]) k = upd (carrier_of bs) (Ball.id nb) (Some (Ball.carriedBy nb)) k.
Proof.
  intros Hf. unfold carrier_of, upd. rewrite map_get_snoc.
  rewrite (String.eqb_sym k).
  destruct (String.eqb (Ball.id nb) k) eqn:E.
  - apply String.eqb_eq in E. subst k.
    apply map_get_None in Hf. rewrite Hf. reflexivity.
  - destruct (map_get Ball.id k bs); reflexivity.
Qed.

Lemma carrying_of_snoc (ps : list Player.t) (np : Player.t) (k : string) :
  ~ In (Player.id np) (map Player.id ps) ->
  carrying_of (ps ++ [np]) k
  = upd (carrying_of ps) (Player.id np) (Some (Player.carryingBallId np)) k.
Proof.
  intros Hf. unfold carrying_of, upd. rewrite map_get_snoc.
  rewrite (String.eqb_sym k).
  destruct (String.eqb (Player.id np) k) eqn:E.
  - apply String.eqb_eq in E. subst k.
    apply map_get_None in Hf. rewrite Hf. reflexivity.
  - destruct (map_get Player.id k ps); reflexivity.
Qed.

(** ** What the invariant says about one player or one ball *)

Lemma carrying_of_Some (ps : list Player.t) (pid : string) (c : option string) :
  carrying_of ps pid = Some c ->
  exists p, In p ps /\ Player.id p = pid /\ Player.carryingBallId p = c.
Proof.
  unfold carrying_of. destruct (map_get Player.id pid ps) as [p|] eqn:E; [|discriminate].
  intros [= <-]. apply map_get_In in E. destruct E. eauto.
Qed.

Lemma carrier_of_Some (bs : list Ball.t) (bid : string) (c : option string) :
  carrier_of bs bid = Some c ->
  exists b, In b bs /\ Ball.id b = bid /\ Ball.carriedBy b = c.
Proof.
  unfold carrier_of. destruct (map_get Ball.id bid bs) as [b|] eqn:E; [|discriminate].
  intros [= <-]. apply map_get_In in E. destruct E. eauto.
Qed.

Lemma carried_ball_exists (ps : list Player.t) (bs : list Ball.t) (pid bid : string) :
  carry_inv ps bs -> carrying_of ps pid = Some (Some bid) ->
  nonempty bid /\ carrier_of bs bid = Some (Some pid).
Proof.
  intros [(_ & _ & _ & Hb) Hc] H. apply Hc in H. split; [|exact H].
  destruct (carrier_of_Some _ _ _ H) as (b & Hin & <- & _).
  rewrite Forall_forall in Hb. apply Hb. exact Hin.
Qed.

Lemma carrier_exists (ps : list Player.t) (bs : list Ball.t) (pid bid : string) :
  carry_inv ps bs -> carrier_of bs bid = Some (Some pid) ->
  nonempty pid /\ carrying_of ps pid = Some (Some bid).
Proof.
  intros [(_ & _ & Hp & _) Hc] H. apply Hc in H. split; [|exact H].
  destruct (carrying_of_Some _ _ _ H) as (p & Hin & <- & _).
  rewrite Forall_forall in Hp. apply Hp. exact Hin.
Qed.

Lemma falsy_is_None (o : option string) :
  JS.truthy o = false -> (forall k, o = Some k -> nonempty k) -> o = None.
Proof.
  destruct o as [k|]; [|reflexivity]. intros Ht Hk.
  rewrite (truthy_Some k (Hk k eq_refl)) in Ht. discriminate.
Qed.

Lemma ids_ok_replace_player (l1 l2 : list Player.t) (p p' : Player.t) (bs : list Ball.t) :
  Player.id p' = Player.id p ->
  ids_ok (l1 ++ p :: l2) bs -> ids_ok (l1 ++ p' :: l2) bs.
Proof.
  intros Hid (H1 & H2 & H3 & H4). unfold ids_ok.
  rewrite map_app in *. simpl in *. rewrite Hid. repeat split; try assumption.
  apply Forall_app in H3. destruct H3 as [Ha Hb]. inversion Hb; subst.
  apply Forall_app. split; [assumption|]. constructor; [congruence | assumption].
Qed.

Lemma ids_ok_same_balls (ps : list Player.t) (bs bs' : list Ball.t) :
  map Ball.id bs' = map Ball.id bs -> ids_ok ps bs -> ids_ok ps bs'.
Proof.
  intros E (H1 & H2 & H3 & H4). unfold ids_ok. rewrite E. repeat split; try assumption.
  rewrite Forall_forall in *. intros b Hb.
  assert (Hin : In (Ball.id b) (map Ball.id bs)) by (rewrite <- E; apply in_map; exact Hb).
  apply in_map_iff in Hin. destruct Hin as (b0 & <- & Hb0). apply H4. exact Hb0.
Qed.

(** A change of one player that keeps its id and what it carries, and a
    change of the balls that keeps their ids and carriers, keep the invariant. *)
Lemma carry_inv_same_tables (l1 l2 : list Player.t) (p p' : Player.t) (bs bs' : list Ball.t) :
  Player.id p' = Player.id p ->
  Player.carryingBallId p' = Player.carryingBallId p ->
  map Ball.id bs' = map Ball.id bs ->
  (forall k, carrier_of bs' k = carrier_of bs k) ->
  carry_inv (l1 ++ p :: l2) bs -> carry_inv (l1 ++ p' :: l2) bs'.
Proof.
  intros Hid Hc Hids Hcb [Hok Hcons]. split.
  - apply (ids_ok_replace_player l1 l2 p p' bs' Hid).
    apply (ids_ok_same_balls _ bs bs' Hids Hok).
  - destruct Hok as (Hnd & _).
    apply (consistent_ext _ _ Hcons); [|exact Hcb].
    intros a. rewrite (carrying_of_replace l1 l2 p p' a Hnd Hid). unfold upd.
    destruct (String.eqb_spec a (Player.id p)) as [->|]; [|reflexivity].
    rewrite Hc. symmetry. apply carrying_of_here. exact Hnd.
Qed.

(** A player lets go of its ball, which stays in the pool. *)
Lemma carry_inv_release (l1 l2 : list Player.t) (p p' : Player.t) (bs : list Ball.t) (bid : string) :
  Player.id p' = Player.id p ->
  Player.carryingBallId p = Some bid ->
  Player.carryingBallId p' = None ->
  carry_inv (l1 ++ p :: l2) bs ->
  carry_inv (l1 ++ p' :: l2)
            (map_update Ball.id bid (fun ball => Ball.set_carriedBy ball None) bs).
Proof.
  intros Hid Hc Hc' Hinv. pose proof Hinv as [Hok Hcons].
  pose proof Hok as (Hnd & _).
  assert (Hp : carrying_of (l1 ++ p :: l2) (Player.id p) = Some (Some bid))
    by (rewrite carrying_of_here by exact Hnd; congruence).
  destruct (carried_ball_exists _ _ _ _ Hinv Hp) as [_ Hb].
  split.
  - apply (ids_ok_replace_player l1 l2 p p' _ Hid).
    apply (ids_ok_same_balls _ bs); [apply map_update_keys; reflexivity | exact Hok].
  - apply (consistent_ext _ _ (consistent_release _ _ Hcons (Player.id p) bid Hp)).
    + intros a. rewrite (carrying_of_replace l1 l2 p p' a Hnd Hid), Hc'. reflexivity.
    + intros k. apply carrier_of_update. congruence.
Qed.

(** A player scores: its ball leaves the pool and a new ball enters it. *)
Lemma carry_inv_scored (l1 l2 : list Player.t) (p p' : Player.t) (bs : list Ball.t)
  (bid : string) (nb : Ball.t) :
  Player.id p' = Player.id p ->
  Player.carryingBallId p = Some bid ->
  Player.carryingBallId p' = None ->
  Ball.carriedBy nb = None -> nonempty (Ball.id nb) ->
  ~ In (Ball.id nb) (map Ball.id bs) ->
  carry_inv (l1 ++ p :: l2) bs ->
  carry_inv (l1 ++ p' :: l2) (map_delete Ball.id bid bs ++ [nb]).
Proof.
  intros Hid Hc Hc' Hnb Hne Hfresh Hinv. pose proof Hinv as [Hok Hcons].
  pose proof Hok as (Hnd & Hndb & Hnp & Hnbs).
  assert (Hp : carrying_of (l1 ++ p :: l2) (Player.id p) = Some (Some bid))
    by (rewrite carrying_of_here by exact Hnd; congruence).
  assert (Hfresh' : ~ In (Ball.id nb) (map Ball.id (map_delete Ball.id bid bs))).
  { intros Hin. apply Hfresh. eapply map_delete_keys_incl. exact Hin. }
  split.
  - apply (ids_ok_replace_player l1 l2 p p' _ Hid). repeat split; try assumption.
    + rewrite map_app. simpl.
      apply NoDup_app; [apply map_delete_NoDup; exact Hndb | repeat constructor; simpl; tauto |].
      intros i Hi [<-|[]]. exact (Hfresh' Hi).
    + apply Forall_app. split; [apply Forall_map_delete; exact Hnbs|].
      repeat constructor. exact Hne.
  - pose proof (consistent_release_delete _ _ Hcons (Player.id p) bid Hp) as H1.
    assert (Hnone : upd (carrier_of bs) bid None (Ball.id nb) = None).
    { unfold upd. destruct (String.eqb (Ball.id nb) bid); [reflexivity|].
      unfold carrier_of. apply map_get_None in Hfresh. rewrite Hfresh. reflexivity. }
    apply (consistent_ext _ _ (consistent_add_ball _ _ H1 (Ball.id nb) Hnone)).
    + intros a. rewrite (carrying_of_replace l1 l2 p p' a Hnd Hid), Hc'. reflexivity.
    + intros k. rewrite (carrier_of_snoc _ nb k Hfresh'), Hnb.
      unfold upd. destruct (String.eqb k (Ball.id nb)); [reflexivity|].
      rewrite (carrier_of_delete bs bid k Hndb). reflexivity.
Qed.

(** A free player takes a free ball. *)
Lemma carry_inv_acquire (l1 l2 : list Player.t) (p : Player.t) (m1 m2 : list Ball.t) (b : Ball.t) :
  Player.carryingBallId p = None ->
  Ball.carriedBy b = None ->
  carry_inv (l1 ++ p :: l2) (m1 ++ b :: m2) ->
  carry_inv (l1 ++ Player.set_carrying p (Some (Ball.id b)) :: l2)
            (m1 ++ Ball.set_carriedBy b (Some (Player.id p)) :: m2).
Proof.
  intros Hc Hb Hinv. pose proof Hinv as [Hok Hcons].
  pose proof Hok as (Hnd & Hndb & Hnp & Hnbs).
  split.
  - apply (ids_ok_replace_player l1 l2 p (Player.set_carrying p (Some (Ball.id b))) _ eq_refl).
    apply (ids_ok_same_balls _ (m1 ++ b :: m2)); [|exact Hok].
    rewrite !map_app. reflexivity.
  - assert (Hp : carrying_of (l1 ++ p :: l2) (Player.id p) = Some None)
      by (rewrite carrying_of_here by exact Hnd; congruence).
    assert (Hq : carrier_of (m1 ++ b :: m2) (Ball.id b) = Some None)
      by (rewrite carrier_of_here by exact Hndb; congruence).
    apply (consistent_ext _ _ (consistent_acquire _ _ Hcons (Player.id p) (Ball.id b) Hp Hq)).
    + intros a.
      apply (carrying_of_replace l1 l2 p (Player.set_carrying p (Some (Ball.id b))) a Hnd eq_refl).
    + intros k.
      apply (carrier_of_replace m1 m2 b (Ball.set_carriedBy b (Some (Player.id p))) k Hndb eq_refl).
Qed.

Section CarryTick.
Variable rt : Runtime.
Hypothesis uuid_inj : uuid_injective rt.
Hypothesis uuid_nonempty : forall k, nonempty (uuidv4 rt k).

Lemma step_player_carry_inv (l1 l2 : list Player.t) (p : Player.t) (w : Pool) :
  carry_inv (l1 ++ p :: l2) (pool_balls w) /\
  ids_drawn rt (pool_uuids w) (map Ball.id (pool_balls w)) ->
  carry_inv (l1 ++ fst (step_player rt p w) :: l2) (pool_balls (snd (step_player rt p w))) /\
  ids_drawn rt (pool_uuids (snd (step_player rt p w)))
            (map Ball.id (pool_balls (snd (step_player rt p w)))).
Proof.
  intros [Hinv Hdr].
  pose proof (move_ident p) as Hid. unfold ident in Hid. injection Hid as Hid _ _.
  pose proof (move_carrying p) as Hmc.
  assert (Hinv1 : carry_inv (l1 ++ move p :: l2) (follow (move p) (pool_balls w))).
  { apply (carry_inv_same_tables l1 l2 p (move p) (pool_balls w) _ Hid Hmc);
      [apply follow_ids | apply carrier_of_follow | exact Hinv]. }
  assert (Hdr1 : ids_drawn rt (pool_uuids w) (map Ball.id (follow (move p) (pool_balls w))))
    by (rewrite follow_ids; exact Hdr).
  unfold step_player, scoring. cbn [pool_balls pool_randoms pool_uuids].
  set (p1 := move p) in *. set (bs1 := follow p1 (pool_balls w)) in *.
  destruct (JS.truthy (Player.carryingBallId p1) && isInGoal _ _ _); [|split; assumption].
  cbn [Player.carryingBallId Player.set_score].
  destruct (Player.carryingBallId p1) as [bid|] eqn:Ec.
  2:{ cbn [fst snd pool_balls pool_uuids]. split; [|exact Hdr1].
      apply (carry_inv_same_tables l1 l2 p1 _ bs1 bs1); try reflexivity; try assumption.
      simpl. symmetry. exact Ec. }
  pose proof Hinv1 as [(Hnd & Hndb & _) _].
  assert (Hp : carrying_of (l1 ++ p1 :: l2) (Player.id p1) = Some (Some bid))
    by (rewrite carrying_of_here by exact Hnd; congruence).
  destruct (carried_ball_exists _ _ _ _ Hinv1 Hp) as [_ Hb].
  unfold carrier_of in Hb.
  destruct (map_get Ball.id bid bs1) as [old|] eqn:Hget; [|discriminate].
  cbn [fst snd pool_balls pool_uuids].
  assert (Hfresh : ~ In (uuidv4 rt (pool_uuids w)) (map Ball.id bs1))
    by (apply ids_drawn_fresh; assumption).
  assert (Hfresh' : ~ In (Ball.id (createBall rt (pool_randoms w) (pool_uuids w)))
                      (map Ball.id (map_delete Ball.id bid bs1))).
  { simpl. intros Hin. apply Hfresh. eapply map_delete_keys_incl. exact Hin. }
  rewrite (map_set_fresh _ _ _ _ Hfresh'). split.
  - apply (carry_inv_scored l1 l2 p1 _ bs1 bid); try reflexivity; try assumption.
    simpl. apply uuid_nonempty.
  - rewrite map_app. simpl. apply ids_drawn_snoc.
    intros i Hi. apply Hdr1. eapply map_delete_keys_incl. exact Hi.
Qed.

Lemma pickup_player_carry_inv (l1 l2 : list Player.t) (p : Player.t) (bs : list Ball.t) :
  carry_inv (l1 ++ p :: l2) bs ->
  carry_inv (l1 ++ fst (pickup_player p bs) :: l2) (snd (pickup_player p bs)).
Proof.
  intros Hinv.
  destruct (pickup_player_cases p bs) as [E|(Hc & pre & b & post & -> & _ & Hb & E)];
    rewrite E; cbn [fst snd]; [exact Hinv|].
  pose proof Hinv as [(Hnd & Hndb & _) _].
  apply carry_inv_acquire; [| |exact Hinv].
  - apply (falsy_is_None _ Hc). intros k Hk.
    assert (Hp : carrying_of (l1 ++ p :: l2) (Player.id p) = Some (Some k))
      by (rewrite carrying_of_here by exact Hnd; congruence).
    apply (carried_ball_exists _ _ _ _ Hinv Hp).
  - unfold eligible in Hb. apply andb_prop in Hb. destruct Hb as [Hb _].
    apply negb_true_iff in Hb. apply (falsy_is_None _ Hb). intros k Hk.
    assert (Hq : carrier_of (pre ++ b :: post) (Ball.id b) = Some (Some k))
      by (rewrite carrier_of_here by exact Hndb; congruence).
    apply (carrier_exists _ _ _ _ Hinv Hq).
Qed.

Lemma drop_carry_inv (l1 l2 : list Player.t) (p q : Player.t) (bs : list Ball.t) :
  Player.id q = Player.id p ->
  Player.carryingBallId q = Player.carryingBallId p ->
  carry_inv (l1 ++ p :: l2) bs ->
  carry_inv (l1 ++ fst (drop q bs) :: l2) (snd (drop q bs)).
Proof.
  intros Hid Hc Hinv. unfold drop.
  destruct (Player.carryingBallId q) as [bid|] eqn:Eq.
  2:{ cbn [fst snd]. apply (carry_inv_same_tables l1 l2 p q bs bs); auto; congruence. }
  destruct (JS.truthy (Some bid)).
  2:{ cbn [fst snd]. apply (carry_inv_same_tables l1 l2 p q bs bs); auto; congruence. }
  cbn [fst snd]. apply (carry_inv_release l1 l2 p _ bs bid); auto; congruence.
Qed.

Lemma collide_carry_inv (i j : nat) (w : list Player.t * list Ball.t) :
  i <> j ->
  carry_inv (fst w) (snd w) ->
  carry_inv (fst (collide i j w)) (snd (collide i j w)).
Proof.
  intros Hij. destruct w as [ps bs]. cbn [fst snd]. intros Hinv. unfold collide.
  destruct (nth_error ps i) as [p1|] eqn:E1; [|exact Hinv].
  destruct (nth_error ps j) as [p2|] eqn:E2; [|exact Hinv].
  destruct (PrimFloat.ltb _ _); [|exact Hinv].
  destruct (nth_error_split ps i E1) as (l1 & l2 & Hps & Hl1).
  match goal with |- context [drop ?a bs] => set (p1a := a) end.
  assert (H1 : carry_inv (l1 ++ fst (drop p1a bs) :: l2) (snd (drop p1a bs))).
  { apply (drop_carry_inv l1 l2 p1 p1a bs); [reflexivity | reflexivity |].
    rewrite <- Hps. exact Hinv. }
  assert (S1 : set_nth i (fun _ => fst (drop p1a bs)) ps = l1 ++ fst (drop p1a bs) :: l2).
  { rewrite Hps, <- Hl1. apply set_nth_split. }
  destruct (drop p1a bs) as [p1b bs1]. cbn [fst snd] in H1, S1.
  rewrite S1.
  assert (E2' : nth_error (l1 ++ p1b :: l2) j = Some p2).
  { rewrite <- S1, nth_error_set_nth_other by exact Hij. exact E2. }
  destruct (nth_error_split _ j E2') as (k1 & k2 & Hps' & Hk1).
  match goal with |- context [drop ?a bs1] => set (p2a := a) end.
  assert (H2 : carry_inv (k1 ++ fst (drop p2a bs1) :: k2) (snd (drop p2a bs1))).
  { apply (drop_carry_inv k1 k2 p2 p2a bs1); [reflexivity | reflexivity |].
    rewrite <- Hps'. exact H1. }
  destruct (drop p2a bs1) as [p2b bs2]. cbn [fst snd] in H2 |- *.
  rewrite Hps', <- Hk1, set_nth_split. exact H2.
Qed.

Lemma collisions_carry_inv (w : list Player.t * list Ball.t) :
  carry_inv (fst w) (snd w) ->
  carry_inv (fst (collisions w)) (snd (collisions w)).
Proof.
  intros H. unfold collisions.
  apply (fold_left_invariant _ _ (fun a => carry_inv (fst a) (snd a))); [|exact H].
  intros a i Ha. unfold collide_from.
  apply (fold_left_invariant_in _ _ (fun a => carry_inv (fst a) (snd a))); [|exact Ha].
  intros a' j Hj Ha'. apply collide_carry_inv; [|exact Ha'].
  apply in_seq in Hj. lia.
Qed.

Lemma update_state_run_inv (s : State) : run_inv rt s -> run_inv rt (update_state rt s).
Proof.
  intros (Hinv & Hdb & Hdp). unfold run_inv, update_state.
  set (w0 := {| pool_balls := balls s; pool_randoms := randoms_used s;
                pool_uuids := uuids_used s |}).
  pose proof (step_players_loop rt
                (fun ps w => carry_inv ps (pool_balls w) /\
                             ids_drawn rt (pool_uuids w) (map Ball.id (pool_balls w)))
                (fun l1 p l2 w => step_player_carry_inv l1 l2 p w)
                (players s) [] w0 (conj Hinv Hdb)) as H1.
  pose proof (step_players_advances rt (players s) w0) as Hadv.
  pose proof (fun n Hok => step_players_pool_ok rt uuid_inj n (players s) w0 Hok) as Hmono.
  destruct (step_players rt (players s) w0) as [ps1 w1]. cbn [fst snd app] in H1, Hadv, Hmono.
  destruct H1 as [H1 Hdb1].
  pose proof (pickup_players_loop carry_inv
                (fun l1 p l2 bs => pickup_player_carry_inv l1 l2 p bs)
                ps1 [] (pool_balls w1) H1) as H2.
  pose proof (pickup_players_ident ps1 (pool_balls w1)) as I2.
  pose proof (pickup_players_ids ps1 (pool_balls w1)) as B2.
  destruct (pickup_players ps1 (pool_balls w1)) as [ps2 bs2]. cbn [fst snd app] in H2, I2, B2.
  pose proof (collisions_carry_inv (ps2, bs2) H2) as H3.
  pose proof (collisions_ident (ps2, bs2)) as I3.
  pose proof (collisions_ids (ps2, bs2)) as B3.
  destruct (collisions (ps2, bs2)) as [ps3 bs3]. cbn [fst snd] in H3, I3, B3.
  cbn [players balls uuids_used]. split; [exact H3|].
  assert (Hle : uuids_used s <= pool_uuids w1).
  { destruct Hinv as [(_ & Hndb & _) _].
    destruct (Hmono (List.length (balls s))) as [_ Hle]; [|exact Hle].
    repeat split; assumption. }
  assert (Hids : map Player.id ps3 = map Player.id (players s)).
  { rewrite <- (Forall2_advances_ids _ _ Hadv).
    assert (Hm : forall l : list Player.t,
               map Player.id l = map (fun t => fst (fst t)) (map ident l)).
    { intros l. rewrite map_map. reflexivity. }
    rewrite (Hm ps3), (Hm ps1), I3, I2. reflexivity. }
  split.
  - rewrite B3, B2. exact Hdb1.
  - rewrite Hids. eapply ids_drawn_mono; eassumption.
Qed.

Lemma handle_run_inv (e : Event) (s : State) :
  match e with
  | Close id => carrying_of (players s) id = Some None \/ carrying_of (players s) id = None
  | _ => True
  end ->
  run_inv rt s -> run_inv rt (fst (handle rt e s)).
Proof.
  intros He (Hinv & Hdb & Hdp). pose proof Hinv as [(Hnd & Hndb & Hnp & Hnb) Hcons].
  destruct e as [|id data|id|]; cbn [handle].
  - unfold onConnection. cbn [fst].
    set (np := createPlayer (uuidv4 rt (uuids_used s)) _).
    assert (Hfresh : ~ In (Player.id np) (map Player.id (players s)))
      by (simpl; apply ids_drawn_fresh; assumption).
    unfold run_inv. cbn [players balls uuids_used]. rewrite (map_set_fresh _ _ _ _ Hfresh).
    split; [split|split].
    + repeat split; try assumption.
      * rewrite map_app. simpl.
        apply NoDup_app; [assumption | repeat constructor; simpl; tauto |].
        intros i Hi [<-|[]]. exact (Hfresh Hi).
      * apply Forall_app. split; [exact Hnp|]. repeat constructor. apply uuid_nonempty.
    + assert (Hnone : carrying_of (players s) (Player.id np) = None).
      { unfold carrying_of. apply map_get_None in Hfresh. rewrite Hfresh. reflexivity. }
      apply (consistent_ext _ _ (consistent_add_player _ _ Hcons (Player.id np) Hnone));
        [|reflexivity].
      intros a. apply (carrying_of_snoc _ np a Hfresh).
    + eapply ids_drawn_mono; [|exact Hdb]. lia.
    + rewrite map_app. simpl. apply ids_drawn_snoc. exact Hdp.
  - destruct (onMessage_shape rt id data s) as [E|(x & y & p & Hp & E)]; rewrite E.
    + exact (conj Hinv (conj Hdb Hdp)).
    + unfold run_inv. cbn [with_players players balls uuids_used].
      assert (Hk : map Player.id (map_update Player.id id (fun q => Player.set_dir q x y) (players s))
                   = map Player.id (players s)) by (apply map_update_keys; reflexivity).
      split; [split|split].
      * unfold ids_ok. rewrite Hk. repeat split; try assumption.
        apply Forall_map_update; [|exact Hnp]. intros a Ha. exact Ha.
      * apply (consistent_ext _ _ Hcons); [|reflexivity].
        intros a. unfold carrying_of. rewrite map_get_update by reflexivity.
        destruct (String.eqb id a); [|reflexivity].
        destruct (map_get Player.id a (players s)); reflexivity.
      * exact Hdb.
      * rewrite Hk. exact Hdp.
  - unfold onClose. cbn [fst]. unfold run_inv. cbn [with_players players balls uuids_used].
    split; [split|split].
    + repeat split; try assumption.
      * apply map_delete_NoDup. exact Hnd.
      * apply Forall_map_delete. exact Hnp.
    + apply (consistent_ext _ _ (consistent_remove_player _ _ Hcons id He)); [|reflexivity].
      intros a. apply carrying_of_delete. exact Hnd.
    + exact Hdb.
    + intros i Hi. apply Hdp. eapply map_delete_keys_incl. exact Hi.
  - unfold update. cbn [fst]. apply update_state_run_inv. exact (conj Hinv (conj Hdb Hdp)).
Qed.

Lemma initial_state_run_inv : run_inv rt (initial_state rt).
Proof.
  pose proof (initial_state_pool_ok rt uuid_inj) as (_ & Hnd & Hdr).
  split; [split|split].
  - repeat split; try assumption; try constructor.
    apply Forall_forall. intros b Hb.
    destruct (Hdr (Ball.id b) (in_map Ball.id _ _ Hb)) as (k & _ & <-). apply uuid_nonempty.
  - intros a b. unfold carrying_of. cbn [players initial_state map_get]. simpl.
    split; [discriminate|]. intros H.
    destruct (carrier_of_Some _ _ _ H) as (c & Hin & _ & Hc). exfalso.
    revert c Hin Hc. clear.
    unfold initial_state. cbn [balls].
    assert (Hall : forall n w, Forall (fun c => Ball.carriedBy c = None) (pool_balls w) ->
                   Forall (fun c => Ball.carriedBy c = None) (pool_balls (init_balls rt n w))).
    { induction n as [|n IH]; intros w Hw; simpl; [exact Hw|]. apply IH. simpl.
      clear IH. induction Hw as [|c l Hc Hl IHl]; simpl; [repeat constructor|].
      destruct (String.eqb _ _); constructor; auto. }
    intros c Hin Hc.
    specialize (Hall BALL_COUNT {| pool_balls := []; pool_randoms := 0; pool_uuids := 0 |}
                     (Forall_nil _)).
    rewrite Forall_forall in Hall. rewrite (Hall c Hin) in Hc. discriminate.
  - exact Hdr.
  - intros i [].
Qed.

Lemma run_from_run_inv (evs : list Event) (s : State) :
  no_carrier_leaves rt s evs -> run_inv rt s -> run_inv rt (fst (run_from rt s evs)).
Proof.
  revert s. induction evs as [|e evs IH]; intros s Hno Hinv; simpl; [exact Hinv|].
  destruct Hno as [He Hrest].
  pose proof (handle_run_inv e s He Hinv) as H1.
  destruct (handle rt e s) as [s1 o1]. cbn [fst] in H1, Hrest.
  specialize (IH s1 Hrest H1).
  destruct (run_from rt s1 evs) as [s2 o2]. exact IH.
Qed.

End CarryTick.

Lemma carry_inv_bijection (s : State) :
  carry_inv (players s) (balls s) -> carry_bijection s.
Proof.
  intros [(Hnd & Hndb & _) Hcons]. split; [|split].
  - intros p bid Hin Hc.
    assert (Hp : carrying_of (players s) (Player.id p) = Some (Some bid)).
    { unfold carrying_of. rewrite (map_get_of_In _ Player.id _ p Hnd Hin). simpl. congruence. }
    apply Hcons in Hp. destruct (carrier_of_Some _ _ _ Hp) as (b & Hb & Hid & Hcb). eauto.
  - intros b pid Hin Hc.
    assert (Hb : carrier_of (balls s) (Ball.id b) = Some (Some pid)).
    { unfold carrier_of. rewrite (map_get_of_In _ Ball.id _ b Hndb Hin). simpl. congruence. }
    apply Hcons in Hb. destruct (carrying_of_Some _ _ _ Hb) as (p & Hp & Hid & Hcp). eauto.
  - intros i j p q bid Hi Hj Hp Hq.
    assert (Hp' : carrying_of (players s) (Player.id p) = Some (Some bid)).
    { unfold carrying_of.
      rewrite (map_get_of_In _ Player.id _ p Hnd (nth_error_In _ _ Hi)). simpl. congruence. }
    assert (Hq' : carrying_of (players s) (Player.id q) = Some (Some bid)).
    { unfold carrying_of.
      rewrite (map_get_of_In _ Player.id _ q Hnd (nth_error_In _ _ Hj)). simpl. congruence. }
    apply Hcons in Hp', Hq'.
    apply (NoDup_map_nth_error _ _ Player.id (players s) i j p q Hnd Hi Hj). congruence.
Qed.

(** With [uuidv4] handing out distinct non-empty ids, the carry relation is a
    bijection after every event of every run in which no player disconnects
    while it carries a ball: connections, messages, ticks (scoring, pickup and
    collision drop included) and disconnections of players that carry nothing
    all keep it. *)
Lemma carry_bijection_unless_carrier_leaves (rt : Runtime) (evs : list Event) :
  uuid_injective rt -> (forall k, nonempty (uuidv4 rt k)) ->
  no_carrier_leaves rt (initial_state rt) evs ->
  carry_bijection (state_after rt evs).
Proof.
  intros Hinj Hne Hno. apply carry_inv_bijection.
  apply (run_from_run_inv rt Hinj Hne evs (initial_state rt) Hno
           (initial_state_run_inv rt Hinj Hne)).
Qed.

(** * A disconnected carrier's ball is never freed *)

Lemma In_map_delete (A : Type) (key : A -> string) (k : string) (m : list A) (a : A) :
  NoDup (map key m) -> In a (map_delete key k m) -> In a m /\ key a <> k.
Proof.
  induction m as [|c m IH]; simpl; [tauto|].
  intros Hnd Hin. inversion Hnd as [|? ? Hn Hd]; subst.
  destruct (String.eqb_spec (key c) k) as [E|E].
  - split; [right; exact Hin|]. intros Ea. apply Hn. rewrite E, <- Ea. apply in_map. exact Hin.
  - destruct Hin as [<-|Hin]; [split; [left; reflexivity | exact E]|].
    destruct (IH Hd Hin). split; [right|]; assumption.
Qed.

(** From any state in which the carry relation holds and the player [pid]
    carries the ball [bid]: once [pid] disconnects, whatever happens next, the
    ball stays in the pool with [pid] as its carrier. *)
Lemma disconnected_carrier_never_freed (rt : Runtime) (n : nat) (s : State)
  (pid bid : string) (evs : list Event) :
  uuid_injective rt ->
  pool_ok rt n (balls s) (uuids_used s) ->
  carry_inv (players s) (balls s) ->
  carrying_of (players s) pid = Some (Some bid) ->
  carrier_of (balls (fst (run_from rt s (Close pid :: evs)))) bid = Some (Some pid).
Proof.
  intros Hinj Hok Hinv Hp.
  destruct (carried_ball_exists _ _ _ _ Hinv Hp) as [_ Hb].
  destruct (carrier_exists _ _ _ _ Hinv Hb) as [Hne _].
  pose proof Hinv as [(Hnd & _) Hcons].
  simpl run_from.
  assert (Ho : orphaned bid pid (map_delete Player.id pid (players s)) (balls s)).
  { split.
    - unfold carrier_of in Hb. destruct (map_get Ball.id bid (balls s)) as [b|]; [|discriminate].
      exists b. split; [reflexivity|]. simpl in Hb. congruence.
    - apply Forall_forall. intros q Hq Hc.
      destruct (In_map_delete _ Player.id pid _ q Hnd Hq) as [Hin Hid].
      assert (Hq' : carrying_of (players s) (Player.id q) = Some (Some bid)).
      { unfold carrying_of. rewrite (map_get_of_In _ Player.id _ q Hnd Hin). simpl. congruence. }
      apply Hcons in Hq'. congruence. }
  pose proof (orphaned_forever rt Hinj bid pid Hne n evs
                (with_players s (map_delete Player.id pid (players s))) Hok Ho) as [Hb' _].
  destruct (run_from rt _ evs) as [s2 o2]. cbn [fst].
  cbn [fst] in Hb'. destruct Hb' as (b & Hg & Hc). unfold carrier_of. rewrite Hg. simpl. congruence.
Qed.

(** * The collision of two players *)

Lemma nth_error_set_nth_same (A : Type) (i : nat) (f : A -> A) (l : list A) (a : A) :
  nth_error l i = Some a -> nth_error (set_nth i f l) i = Some (f a).
Proof.
  revert i. induction l as [|c l IH]; intros [|i]; simpl; try discriminate.
  - intros [= ->]. reflexivity.
  - apply IH.
Qed.

Lemma drop_player (q : Player.t) (bs : list Ball.t) :
  ident (fst (drop q bs)) = ident q /\
  Player.x (fst (drop q bs)) = Player.x q /\
  Player.y (fst (drop q bs)) = Player.y q /\
  JS.truthy (Player.carryingBallId (fst (drop q bs))) = false.
Proof.
  unfold drop. destruct (Player.carryingBallId q) as [k|] eqn:E.
  - destruct (JS.truthy (Some k)) eqn:Et; simpl; rewrite ?E, ?Et; auto.
  - simpl. rewrite E. auto.
Qed.

Lemma drop_balls (q : Player.t) (bs : list Ball.t) (bid : string) :
  map_get Ball.id bid (snd (drop q bs))
  = option_map (fun b => if holds q bid then Ball.set_carriedBy b None else b)
               (map_get Ball.id bid bs).
Proof.
  unfold drop, holds. destruct (Player.carryingBallId q) as [k|].
  - destruct (JS.truthy (Some k)); cbn [snd andb].
    + rewrite map_get_update by reflexivity.
      destruct (String.eqb k bid); [reflexivity|].
      destruct (map_get Ball.id bid bs); reflexivity.
    + destruct (map_get Ball.id bid bs); reflexivity.
  - cbn [snd]. destruct (map_get Ball.id bid bs); reflexivity.
Qed.

(** The body of the collision loop. When the loop finds two players at a
    squared distance below [collisionDist2], the square of twice the player
    radius, it moves them along the line through their centres by the same
    vector in opposite directions: the direction from the second to the first
    player (divided by 0.0001 instead of the distance when they coincide)
    times [overlap = sqrt(collisionDist2 - d2) / 2]. Both players end up
    carrying nothing, and every ball one of them carried has its carrier
    cleared; no other player and no other ball changes. *)
Lemma collision_pushes_apart_and_drops
  (ps : list Player.t) (bs : list Ball.t) (i j : nat) (p1 p2 : Player.t) :
  i <> j ->
  nth_error ps i = Some p1 ->
  nth_error ps j = Some p2 ->
  PrimFloat.ltb (dist2 (Player.x p1) (Player.y p1) (Player.x p2) (Player.y p2))
                collisionDist2 = true ->
  let d2 := dist2 (Player.x p1) (Player.y p1) (Player.x p2) (Player.y p2) in
  let dx := (Player.x p1 - Player.x p2)%float in
  let dy := (Player.y p1 - Player.y p2)%float in
  let mag := JS.or_num (JS.Math_sqrt (dx * dx + dy * dy)%float) tiny in
  let overlap := (JS.Math_sqrt (collisionDist2 - d2) / 2)%float in
  let vx := (dx / mag * overlap)%float in
  let vy := (dy / mag * overlap)%float in
  let ps' := fst (collide i j (ps, bs)) in
  let bs' := snd (collide i j (ps, bs)) in
  exists p1' p2',
    nth_error ps' i = Some p1' /\ nth_error ps' j = Some p2' /\
    Player.x p1' = (Player.x p1 + vx)%float /\ Player.y p1' = (Player.y p1 + vy)%float /\
    Player.x p2' = (Player.x p2 - vx)%float /\ Player.y p2' = (Player.y p2 - vy)%float /\
    ident p1' = ident p1 /\ ident p2' = ident p2 /\
    JS.truthy (Player.carryingBallId p1') = false /\
    JS.truthy (Player.carryingBallId p2') = false /\
    (forall k, k <> i -> k <> j -> nth_error ps' k = nth_error ps k) /\
    (forall bid,
       map_get Ball.id bid bs'
       = option_map (fun b => if holds p1 bid || holds p2 bid
                              then Ball.set_carriedBy b None else b)
                    (map_get Ball.id bid bs)).
Proof.
  intros Hij E1 E2 Hd. cbv zeta. unfold collide. rewrite E1, E2, Hd.
  match goal with |- context [drop ?a bs] => set (p1a := a) end.
  pose proof (drop_player p1a bs) as (I1 & X1 & Y1 & T1).
  pose proof (drop_balls p1a bs) as B1.
  destruct (drop p1a bs) as [p1b bs1]. cbn [fst snd] in *.
  match goal with |- context [drop ?a bs1] => set (p2a := a) end.
  pose proof (drop_player p2a bs1) as (I2 & X2 & Y2 & T2).
  pose proof (drop_balls p2a bs1) as B2.
  destruct (drop p2a bs1) as [p2b bs2]. cbn [fst snd] in *.
  exists p1b, p2b. repeat split; try assumption.
  - rewrite nth_error_set_nth_other by congruence.
    apply (nth_error_set_nth_same _ i (fun _ => p1b) ps p1 E1).
  - apply (nth_error_set_nth_same _ j (fun _ => p2b) _ p2).
    rewrite nth_error_set_nth_other by exact Hij. exact E2.
  - intros k Hki Hkj. rewrite !nth_error_set_nth_other by congruence. reflexivity.
  - intros bid. rewrite B2, B1. unfold holds. cbn [p1a p2a Player.set_pos Player.carryingBallId].
    destruct (map_get Ball.id bid bs) as [b|]; [|reflexivity]. cbn [option_map].
    destruct (match Player.carryingBallId p1 with
              | Some k => JS.truthy (Some k) && String.eqb k bid
              | None => false
              end);
      destruct (match Player.carryingBallId p2 with
                | Some k => JS.truthy (Some k) && String.eqb k bid
                | None => false
                end); reflexivity.
Qed.

(** * Concrete runs *)

Lemma uuid_of_length (k : nat) : String.length (uuid_of k) = S k.
Proof. induction k as [|k IH]; simpl; congruence. Qed.

Lemma uuid_of_injective : uuid_injective rt_demo.
Proof.
  intros i j E. simpl in E. apply (f_equal String.length) in E.
  rewrite !uuid_of_length in E. congruence.
Qed.

Example squared_ranges : pickupRange = 64%float /\ collisionDist2 = 100%float.
Proof. split; reflexivity. Qed.

(** C1. The relation holds after a connection and a tick in which the new
    player picks a ball up, and it is broken as soon as that player
    disconnects: [onClose] deletes the player and leaves the ball with a
    carrier that no longer exists. *)
Theorem disconnect_breaks_carry_bijection :
  carry_bijection (state_after rt_demo [Connection; Tick]) /\
  ~ carry_bijection (state_after rt_demo [Connection; Tick; Close first_id]).
Proof.
  unfold carry_bijection. compute_states. cbn [players balls]. split; [split; [|split]|].
  - intros p bid [<-|[]] H. injection H as <-.
    eexists. split; [left; reflexivity | split; reflexivity].
  - intros b pid Hin H.
    destruct Hin as [<-|Hin].
    { injection H as <-. eexists. split; [left; reflexivity | split; reflexivity]. }
    repeat (destruct Hin as [<-|Hin]; [discriminate|]). destruct Hin.
  - intros [|[|i]] [|[|j]] p q bid Hi Hj; simpl in Hi, Hj; try discriminate. reflexivity.
  - intros (_ & H & _).
    edestruct H as (p & [] & _); [left; reflexivity | reflexivity].
Qed.

(** C2. After the disconnection the player is in no snapshot any more, but
    the ball it carried keeps naming it as its carrier, tick after tick; the
    pickup scan skips that ball, so a player that later stands on it takes
    the next ball instead. *)
Theorem disconnect_leaves_ball_carried :
  map (fun b => (Ball.id b, Ball.carriedBy b))
      (balls (state_after rt_demo [Connection; Tick; Close first_id; Tick; Tick]))
  = [("u", Some first_id); ("uu", None); ("uuu", None); ("uuuu", None); ("uuuuu", None)]%string /\
  snapshots rt_demo [Connection; Close first_id; Tick]
  = [{| payload_players := [];
        payload_balls := map view_ball (balls (initial_state rt_demo)) |}] /\
  map (fun p => (Player.id p, Player.carryingBallId p))
      (players (state_after rt_demo
                  [Connection; Tick; Close first_id; Connection; Connection; Tick]))
  = [("uuuuuuu", None); ("uuuuuuuu", Some "uu")]%string /\
  map (fun b => (Ball.id b, Ball.carriedBy b))
      (balls (state_after rt_demo
                [Connection; Tick; Close first_id; Connection; Connection; Tick]))
  = [("u", Some first_id); ("uu", Some "uuuuuuuu"); ("uuu", None); ("uuuu", None);
     ("uuuuu", None)]%string.
Proof. repeat split; vm_compute; reflexivity. Qed.

(** After three connections the first and the third player, team mates,
    stand on the same spot, and a tick leaves the state as it is. *)
Lemma team_mates_tick : update_state rt_demo team_mates = team_mates.
Proof. vm_compute. reflexivity. Qed.

Lemma team_mates_ticks (n : nat) :
  state_after rt_demo ([Connection; Connection; Connection] ++ repeat Tick n) = team_mates.
Proof.
  induction n as [|n IH]; [reflexivity|].
  change (repeat Tick (S n)) with (Tick :: repeat Tick n).
  rewrite repeat_cons, app_assoc, state_after_snoc, IH.
  cbn [handle update fst]. apply team_mates_tick.
Qed.

(** C3. Two players on the same spot are never separated: the direction of
    the push is (0, 0) / 0.0001, so the collision step moves neither of
    them, against its own comment (they bounce slightly apart). Runs reach
    this at once: players of a team spawn on the same spot, and as long as
    neither moves every tick finds them colliding, makes them drop the ball
    each has just picked up, and leaves them where they are, at distance 0
    and not at twice the radius. For players that do not coincide the push
    is not half the overlap either: two players 6 apart are pushed 4 each,
    to a distance of 14 and not 10, [overlap] being sqrt(100 - 36) / 2 and
    not (10 - 6) / 2; a run reaches this when two players walk into each
    other. *)
Theorem coincident_players_are_never_separated :
  (forall n : nat,
     map (fun p => (Player.team p, Player.x p, Player.y p, Player.carryingBallId p))
         (players (state_after rt_demo
                     ([Connection; Connection; Connection] ++ repeat Tick n)))
     = [(TeamLeft, -360, 0, None); (TeamRight, 360, 0, None);
        (TeamLeft, -360, 0, None)]%float) /\
  PrimFloat.ltb (dist2 (-360) 0 (-360) 0) collisionDist2 = true /\
  map Player.carryingBallId
      (fst (pickup_players (players team_mates) (balls team_mates)))
  = [Some "u"; None; Some "uu"]%string /\
  map (fun p => (Player.x p, Player.y p)) (players (update_state rt_demo coincident))
  = [(7, 7); (7, 7)]%float /\
  map (fun p => (Player.x p, Player.y p, Player.carryingBallId p))
      (players (update_state rt_demo overlapping))
  = [(-7, 0, None); (7, 0, None)]%float /\
  first_two_apart (update_state rt_demo overlapping) = Some false /\
  map Ball.carriedBy (balls (update_state rt_demo overlapping)) = [None; None] /\
  map (fun p => (Player.x p, Player.y p)) (players (state_after rt_demo head_on_run))
  = [(-7, 0); (7, 0)]%float /\
  first_two_apart (state_after rt_demo head_on_run) = Some false.
Proof.
  split; [intros n; rewrite team_mates_ticks; vm_compute; reflexivity|].
  repeat split; vm_compute; reflexivity.
Qed.

(** C4. A player standing on the left bound of the inset field, hit by a
    player 6 to its right, ends the tick 4 outside of the inset rectangle:
    the collision loop moves players after the clamp of the movement step.
    A run reaches such a state when a player catches up with a team mate
    that stands at the bound. *)
Theorem collision_pushes_player_out_of_bounds :
  forallb in_bounds (players at_left_edge) = true /\
  map (fun p => (Player.x p, Player.y p)) (players (update_state rt_demo at_left_edge))
  = [(-399, 0); (-385, 0)]%float /\
  forallb in_bounds (players (update_state rt_demo at_left_edge)) = false /\
  map in_bounds (players (state_after rt_demo crowded_edge_run)) = [false; true; true].
Proof. repeat split; vm_compute; reflexivity. Qed.

(** C8. An input message without [x] and [y] parses, so nothing is logged
    and nothing is dropped: [Math.min(1, undefined)] is NaN and NaN is stored
    as the direction; the next tick turns the position into NaN. An
    unparsable frame, in contrast, is logged and dropped. *)
Theorem input_without_numbers_is_stored_as_nan :
  snd (onMessage rt_demo first_id (Some input_without_numbers)
         (state_after rt_demo [Connection])) = [] /\
  map (fun p => (Player.dirX p, Player.dirY p))
      (players (state_after rt_demo
                  [Connection; Message first_id (Some input_without_numbers)]))
  = [(nan, nan)] /\
  map (fun p => (Player.x p, Player.y p))
      (players (state_after rt_demo
                  [Connection; Message first_id (Some input_without_numbers); Tick]))
  = [(nan, nan)] /\
  onMessage rt_demo first_id None (state_after rt_demo [Connection])
  = (state_after rt_demo [Connection], [ConsoleError]).
Proof. repeat split; vm_compute; reflexivity. Qed.

(** C5, as stated, fails. In the run [run_to_goal] under [rt_near] the
    first player carries the ball [u], and the move of the next tick takes
    it into its own goal. One tick later it has scored, and the ball created
    in place of the scored one is not without a carrier: it lies within
    pickup range of the scorer, which took it in the pickup loop of that
    same tick. Nor does the scorer end the tick without a ball: it carries
    the replacement. *)
Lemma replacement_ball_is_carried_at_once :
  let s := state_after rt_near run_to_goal in
  let s' := state_after rt_near (run_to_goal ++ [Tick]) in
  map (fun p => (Player.id p, Player.score p, Player.carryingBallId p)) (players s)
  = [(first_id, 0%Z, Some "u"%string)] /\
  option_map (fun p => isInGoal (Player.team p) (Player.x (move p)) (Player.y (move p)))
             (nth_error (players s) 0)
  = Some true /\
  map (fun p => (Player.id p, Player.score p, Player.carryingBallId p)) (players s')
  = [(first_id, 1%Z, Some "uuuuuuu"%string)] /\
  map (fun b => (Ball.id b, Ball.carriedBy b)) (balls s')
  = [("uu", None); ("uuu", None); ("uuuu", None); ("uuuuu", None);
     ("uuuuuuu", Some first_id)]%string /\
  map (fun b => (Ball.x b, Ball.y b)) (balls s')
  = [(-362.5, 0); (-362.5, 0); (-362.5, 0); (-362.5, 0); (-387.5, 0)]%float /\
  map (fun p => (Player.x p, Player.y p)) (players s') = [(-381, 0)]%float /\
  ~ In "uuuuuuu"%string (map Ball.id (balls s)).
Proof.
  repeat split; try (vm_compute; reflexivity).
  vm_compute. intuition discriminate.
Qed.

(** C9, as stated, fails, in two ways. Two runs on the same events, here a
    single tick, whose draws of [Math.random] differ broadcast different
    snapshots. And two runs with the same draws, the same input messages
    and the same number of ticks broadcast different snapshots when the
    message arrives before the tick in one run and after it in the other. *)
Lemma independent_runs_differ :
  snapshots rt_demo [Tick] <> snapshots rt_other [Tick] /\
  snapshots rt_demo [Connection; Message first_id (Some go_right); Tick]
  <> snapshots rt_demo [Connection; Tick; Message first_id (Some go_right)].
Proof.
  split; intros H.
  - apply (f_equal (fun l => match l with
                             | p :: _ => match payload_balls p with
                                         | b :: _ => PrimFloat.eqb (bv_x b) 0
                                         | [] => true
                                         end
                             | [] => true
                             end)) in H.
    vm_compute in H. discriminate.
  - apply (f_equal (fun l => match l with
                             | p :: _ => match payload_players p with
                                         | v :: _ => PrimFloat.eqb (pv_x v) (-360)
                                         | [] => true
                                         end
                             | [] => true
                             end)) in H.
    vm_compute in H. discriminate.
Qed.

(** * The theorems at concrete inputs *)

(** [scoring_step] on [scorer], which stands in the left goal with the only
    ball of [scorer_pool]. *)
Example scoring_step_of_scorer :
  isInGoal (Player.team scorer) (Player.x (move scorer)) (Player.y (move scorer)) = true /\
  Player.score (fst (step_player rt_demo scorer scorer_pool)) = 1%Z /\
  Player.carryingBallId (fst (step_player rt_demo scorer scorer_pool)) = None /\
  List.length (pool_balls (snd (step_player rt_demo scorer scorer_pool))) = 1.
Proof.
  split; [vm_compute; reflexivity|].
  destruct (scoring_step rt_demo scorer scorer_pool "u"
              (ball_at "u" (-390) 0 (Some "a"%string)))
    as (H1 & H2 & _ & _ & H5 & _).
  - reflexivity.
  - discriminate.
  - vm_compute. reflexivity.
  - vm_compute. reflexivity.
  - reflexivity.
  - repeat constructor. simpl. tauto.
  - simpl. intros [H|[]]. discriminate.
  - vm_compute. reflexivity.
  - vm_compute. reflexivity.
  - repeat split; assumption.
Defined.

(** [pickup_takes_first_free_ball_in_range] on two players at the left spawn
    point and two free balls 2.5 away from both: the first player takes the
    first ball, and the second player, for which the first ball is taken,
    takes the second. *)
Lemma pickup_takes_first_free_ball_in_range_witness :
  let a := still_player "a" TeamLeft (-360) 0 None in
  let b := still_player "b" TeamRight (-360) 0 None in
  let k := ball_at "k" (-362.5) 0 None in
  let l := ball_at "l" (-362.5) 0 None in
  eligible b k = true /\
  (nth_error (fst (pickup_players [a; b] [k; l])) 0
   = Some (Player.set_carrying a (Some "k"%string)) /\
   nth_error (snd (pickup_players [a; b] [k; l])) 0
   = Some (Ball.set_carriedBy k (Some "a"%string))) /\
  (nth_error (fst (pickup_players [a; b] [k; l])) 1
   = Some (Player.set_carrying b (Some "l"%string)) /\
   nth_error (snd (pickup_players [a; b] [k; l])) 1
   = Some (Ball.set_carriedBy l (Some "b"%string))).
Proof.
  intros a b k l. split; [vm_compute; reflexivity|].
  destruct (pickup_takes_first_free_ball_in_range [a; b] [k; l]) as (_ & H & _).
  - repeat constructor; discriminate.
  - repeat constructor; simpl; intuition discriminate.
  - repeat constructor; simpl; intuition discriminate.
  - split.
    + apply (H 0 a 0 k);
        [reflexivity | reflexivity | reflexivity | vm_compute; reflexivity | | ].
      * intros (j & Hj & _). lia.
      * intros k0 b0 Hk0. lia.
    + apply (H 1 b 1 l);
        [reflexivity | reflexivity | reflexivity | vm_compute; reflexivity | | ].
      * intros (j & Hj & q & q' & Hq & Hq' & Hn & Hy).
        destruct j as [|j]; [|lia].
        vm_compute in Hq'. injection Hq' as <-. discriminate Hy.
      * intros k0 b0 Hk0 Hb0 _. destruct k0 as [|k0]; [|lia].
        injection Hb0 as <-. exists 0. split; [lia|].
        exists a, (Player.set_carrying a (Some "k"%string)).
        split; [reflexivity|]. split; [vm_compute; reflexivity|].
        split; [discriminate | reflexivity].
Defined.

(** [ball_pool_size_constant] on a run in which a goal is scored. *)
Lemma ball_pool_size_constant_witness :
  uuid_injective rt_demo /\
  score_of first_id (state_after rt_demo (run_to_goal ++ [Tick])) = Some 1%Z /\
  List.length (balls (state_after rt_demo (run_to_goal ++ [Tick]))) = BALL_COUNT.
Proof.
  split; [exact uuid_of_injective|]. split; [vm_compute; reflexivity|].
  apply (ball_pool_size_constant rt_demo (run_to_goal ++ [Tick])).
  exact uuid_of_injective.
Defined.

(** [same_used_draws_same_snapshots] on a run that makes 10 calls of
    [Math.random] and 6 of [uuidv4], and on a second runtime that differs
    from the first in every later call. *)
Lemma same_used_draws_same_snapshots_witness :
  let evs := [Connection; Message first_id (Some go_left); Tick; Tick] in
  randoms_used (state_after rt_demo evs) = 10 /\
  uuids_used (state_after rt_demo evs) = 6 /\
  random rt_demo 10 <> random rt_late 10 /\
  uuidv4 rt_demo 6 <> uuidv4 rt_late 6 /\
  snapshots rt_demo evs = snapshots rt_late evs.
Proof.
  intros evs.
  split; [vm_compute; reflexivity|]. split; [vm_compute; reflexivity|].
  split; [intros H; apply (f_equal (fun x => PrimFloat.eqb x 0.75)) in H; vm_compute in H;
          discriminate|].
  split; [vm_compute; discriminate|].
  apply (same_used_draws_same_snapshots rt_demo rt_late evs).
  - change (randoms_used (state_after rt_demo evs)) with 10.
    change (uuids_used (state_after rt_demo evs)) with 6.
    split; intros k Hk; apply Nat.ltb_lt in Hk; cbn [rt_late random uuidv4]; rewrite Hk;
      reflexivity.
  - repeat constructor.
Defined.

(** [score_starts_at_zero_and_never_decreases] on the tick in which the first
    player scores: 0 before, 1 after. *)
Lemma score_starts_at_zero_and_never_decreases_witness :
  score_of first_id (state_after rt_demo run_to_goal) = Some 0%Z /\
  score_of first_id (state_after rt_demo (run_to_goal ++ [Tick])) = Some 1%Z /\
  (0 <= 1)%Z /\ (1 = 0 \/ (Tick = Tick /\ 1 = 0 + 1))%Z.
Proof.
  assert (H0 : score_of first_id (state_after rt_demo run_to_goal) = Some 0%Z)
    by (vm_compute; reflexivity).
  assert (H1 : score_of first_id (state_after rt_demo (run_to_goal ++ [Tick])) = Some 1%Z)
    by (vm_compute; reflexivity).
  split; [exact H0|]. split; [exact H1|].
  destruct (score_starts_at_zero_and_never_decreases rt_demo run_to_goal Tick first_id 0
              uuid_of_injective H0) as (_ & _ & H).
  exact (H 1%Z H1).
Defined.

(** [collision_pushes_apart_and_drops] on the two players of [overlapping]. *)
Example collision_of_overlapping_players :
  PrimFloat.ltb (dist2 (Player.x player_a) (Player.y player_a)
                       (Player.x player_b) (Player.y player_b)) collisionDist2 = true /\
  exists p1' p2',
    nth_error (fst (collide 0 1 (players overlapping, balls overlapping))) 0 = Some p1' /\
    nth_error (fst (collide 0 1 (players overlapping, balls overlapping))) 1 = Some p2' /\
    Player.x p1' = (-7)%float /\ Player.x p2' = 7%float /\
    JS.truthy (Player.carryingBallId p1') = false /\
    JS.truthy (Player.carryingBallId p2') = false.
Proof.
  split; [vm_compute; reflexivity|].
  destruct (collision_pushes_apart_and_drops (players overlapping) (balls overlapping)
              0 1 player_a player_b)
    as (p1' & p2' & H1 & H2 & X1 & _ & X2 & _ & _ & _ & T1 & T2 & _).
  - discriminate.
  - reflexivity.
  - reflexivity.
  - vm_compute. reflexivity.
  - exists p1', p2'. repeat split; assumption.
Defined.

(** * The general facts on the concrete runtime *)

Lemma uuid_of_nonempty (k : nat) : nonempty (uuidv4 rt_demo k).
Proof. destruct k; discriminate. Qed.

Example carry_bijection_after_scoring :
  carry_bijection (state_after rt_demo (run_to_goal ++ [Tick])).
Proof.
  apply (carry_bijection_unless_carrier_leaves rt_demo _ uuid_of_injective uuid_of_nonempty).
  simpl. tauto.
Qed.

Example first_ball_never_freed :
  carrier_of
    (balls (state_after rt_demo
              ([Connection; Tick; Close first_id] ++ [Connection; Tick; Connection; Tick])))
    "u" = Some (Some first_id).
Proof.
  unfold state_after, run. rewrite run_from_app. cbn [fst snd].
  change ([Connection; Tick; Close first_id]) with ([Connection; Tick] ++ [Close first_id]).
  rewrite run_from_app. cbn [fst snd].
  set (s := fst (run_from rt_demo (initial_state rt_demo) [Connection; Tick])).
  assert (Hs : run_inv rt_demo s).
  { apply (run_from_run_inv rt_demo uuid_of_injective uuid_of_nonempty).
    - simpl. tauto.
    - apply (initial_state_run_inv rt_demo uuid_of_injective uuid_of_nonempty). }
  destruct Hs as (Hinv & _).
  pose proof (run_from_pool_ok rt_demo uuid_of_injective BALL_COUNT [Connection; Tick]
                (initial_state rt_demo) (initial_state_pool_ok rt_demo uuid_of_injective)) as Hok.
  fold s in Hok.
  pose proof (disconnected_carrier_never_freed rt_demo BALL_COUNT s first_id "u"
                [Connection; Tick; Connection; Tick] uuid_of_injective Hok Hinv) as H.
  assert (Hc : carrying_of (players s) first_id = Some (Some "u"%string))
    by (vm_compute; reflexivity).
  specialize (H Hc). simpl run_from in H |- *.
  exact H.
Qed.

(** * Broadcasts along a run *)

Lemma snapshots_of_app (o1 o2 : list Output) :
  snapshots_of (o1 ++ o2) = snapshots_of o1 ++ snapshots_of o2.
Proof.
  induction o1 as [|o o1 IH]; simpl; [reflexivity|].
  destruct o; simpl; rewrite IH; reflexivity.
Qed.

Lemma snapshots_snoc (rt : Runtime) (evs : list Event) (e : Event) :
  snapshots rt (evs ++ [e]) =
  snapshots rt evs ++ snapshots_of (snd (handle rt e (state_after rt evs))).
Proof.
  unfold snapshots, state_after, run. rewrite run_from_app. cbn [snd fst].
  rewrite snapshots_of_app. f_equal. simpl.
  destruct (handle rt e _) as [s1 o1]. simpl. rewrite app_nil_r. reflexivity.
Qed.

Lemma onMessage_output (rt : Runtime) (id : string) (data : option JS.value) (s : State) :
  snd (onMessage rt id data s) = [] \/ snd (onMessage rt id data s) = [ConsoleError].
Proof.
  unfold onMessage. destruct data as [msg|]; [|right; reflexivity].
  destruct (is_input (JS.get msg "type")); [destruct (map_get Player.id id (players s))|];
    [destruct (ToNumber rt (JS.get msg "x")); [destruct (ToNumber rt (JS.get msg "y"))|]| |];
    destruct msg; auto.
Qed.

Lemma handle_snapshots (rt : Runtime) (e : Event) (s : State) :
  snapshots_of (snd (handle rt e s)) =
  if is_tick e then [broadcastState (fst (handle rt e s))] else [].
Proof.
  destruct e as [|id data|id|]; simpl; try reflexivity.
  destruct (onMessage_output rt id data s) as [E|E]; rewrite E; reflexivity.
Qed.

(** X15. The server broadcasts once per tick and at no other time: a tick adds
    the snapshot of the state it ends in to the snapshots of the run, any
    other event adds none, so a run has as many snapshots as ticks. *)
Theorem one_snapshot_per_tick (rt : Runtime) (evs : list Event) (e : Event) :
  snapshots rt (evs ++ [e]) =
  snapshots rt evs ++
  (if is_tick e then [broadcastState (state_after rt (evs ++ [e]))] else []) /\
  List.length (snapshots rt evs) = ticks evs.
Proof.
  split.
  - rewrite snapshots_snoc, state_after_snoc, handle_snapshots. reflexivity.
  - induction evs as [|e' evs IH] using rev_ind; [reflexivity|].
    rewrite snapshots_snoc, handle_snapshots, length_app, IH. unfold ticks.
    rewrite filter_app, length_app. f_equal. destruct e'; reflexivity.
Qed.

(** * Teams on join *)

Lemma map_get_set_same (A : Type) (key : A -> string) (v : A) (m : list A) :
  map_get key (key v) (map_set key v m) = Some v.
Proof.
  induction m as [|a m IH]; simpl.
  - rewrite String.eqb_refl. reflexivity.
  - destruct (String.eqb (key a) (key v)) eqn:E; simpl.
    + rewrite String.eqb_refl. reflexivity.
    + rewrite E. exact IH.
Qed.

Lemma handle_nextTeamIndex (rt : Runtime) (e : Event) (s : State) :
  nextTeamIndex (fst (handle rt e s)) =
  if is_connection e then JS.incr (nextTeamIndex s) else nextTeamIndex s.
Proof.
  destruct e as [|id data|id|]; simpl; try reflexivity.
  - destruct (onMessage_shape rt id data s) as [E|(x & y & p & _ & E)]; rewrite E; reflexivity.
  - unfold update_state.
    destruct (step_players rt (players s) _) as [ps1 w1].
    destruct (pickup_players ps1 (pool_balls w1)) as [ps2 bs2].
    destruct (collisions (ps2, bs2)) as [ps3 bs3]. reflexivity.
Qed.

Lemma nextTeamIndex_counts (rt : Runtime) (evs : list Event) :
  (Z.of_nat (connections evs) <= 2 ^ 53)%Z ->
  nextTeamIndex (state_after rt evs) = Z.of_nat (connections evs).
Proof.
  induction evs as [|e evs IH] using rev_ind; [reflexivity|].
  unfold connections in *. rewrite filter_app, length_app in *.
  rewrite state_after_snoc, handle_nextTeamIndex. intros Hle.
  rewrite IH by lia. destruct e; simpl in *; try (f_equal; lia).
  unfold JS.incr.
  destruct (Z.ltb_spec (Z.of_nat (List.length (filter is_connection evs))) (2 ^ 53)); lia.
Qed.

(** X8. Teams are handed out by the number of connections the server has
    seen, whoever left in between: the connection that follows a run with n
    connections gets a player on the left team when n is even and on the
    right team when n is odd; the player is stored under the id and team the
    init message announces, at its spawn point, idle, with score 0 and no
    ball. *)
Theorem teams_alternate_by_connection_count (rt : Runtime) (evs : list Event) :
  (Z.of_nat (connections evs) < 2 ^ 53)%Z ->
  let id := uuidv4 rt (uuids_used (state_after rt evs)) in
  let team := team_of_join (connections evs) in
  snd (handle rt Connection (state_after rt evs)) = [SendInit id team] /\
  map_get Player.id id (players (state_after rt (evs ++ [Connection])))
  = Some (createPlayer id team).
Proof.
  intros Hlt id team.
  assert (Ht : nth (Z.to_nat (nextTeamIndex (state_after rt evs) mod Z.of_nat (List.length TEAMS)))
                   TEAMS TeamLeft = team).
  { rewrite nextTeamIndex_counts by lia. unfold team, team_of_join.
    change (Z.of_nat (List.length TEAMS)) with 2%Z.
    rewrite <- (Nat2Z.inj_mod _ 2), Nat2Z.id.
    destruct (Nat.even (connections evs)) eqn:E.
    - apply Nat.even_spec in E. destruct E as [k ->].
      rewrite Nat.mul_comm, Nat.Div0.mod_mul. reflexivity.
    - assert (Ho : Nat.odd (connections evs) = true)
        by (rewrite <- Nat.negb_even, E; reflexivity).
      apply Nat.odd_spec in Ho. destruct Ho as [k ->].
      rewrite Nat.add_comm, Nat.mul_comm, Nat.Div0.mod_add. reflexivity. }
  split.
  - unfold handle, onConnection. cbn [snd]. fold id. rewrite Ht. reflexivity.
  - rewrite state_after_snoc. unfold handle, onConnection. cbn [fst players]. fold id.
    rewrite Ht. apply (map_get_set_same _ Player.id (createPlayer id team)).
Qed.

(** * The players through the three loops of a tick, one by one *)

Lemma step_players_each (rt : Runtime) (ps : list Player.t) (w : Pool) :
  Forall2 (fun p p' => exists w', p' = fst (step_player rt p w'))
          ps (fst (step_players rt ps w)).
Proof.
  revert w. induction ps as [|p ps IH]; intros w; simpl; [constructor|].
  destruct (step_player rt p w) as [p' w1] eqn:E.
  specialize (IH w1). destruct (step_players rt ps w1) as [ps' w2]. simpl in *.
  constructor; [|exact IH]. exists w. rewrite E. reflexivity.
Qed.

Lemma pickup_players_each (ps : list Player.t) (bs : list Ball.t) :
  Forall2 (fun p p' => exists bs', p' = fst (pickup_player p bs'))
          ps (fst (pickup_players ps bs)).
Proof.
  revert bs. induction ps as [|p ps IH]; intros bs; simpl; [constructor|].
  destruct (pickup_player p bs) as [p' bs1] eqn:E.
  specialize (IH bs1). destruct (pickup_players ps bs1) as [ps' bs2]. simpl in *.
  constructor; [|exact IH]. exists bs. rewrite E. reflexivity.
Qed.

Lemma Forall2_refl (A : Type) (R : A -> A -> Prop) (l : list A) :
  (forall a, R a a) -> Forall2 R l l.
Proof. intros H. induction l; constructor; auto. Qed.

Lemma Forall2_trans (A : Type) (R : A -> A -> Prop) (l1 l2 l3 : list A) :
  (forall a b c, R a b -> R b c -> R a c) ->
  Forall2 R l1 l2 -> Forall2 R l2 l3 -> Forall2 R l1 l3.
Proof.
  intros Ht H. revert l3. induction H as [|a b l1 l2 Hab _ IH]; intros l3 H3;
    inversion H3; subst; constructor; eauto.
Qed.

Lemma Forall2_set_nth (A : Type) (R : A -> A -> Prop) (i : nat) (p q : A) (l : list A) :
  (forall a, R a a) -> nth_error l i = Some p -> R p q ->
  Forall2 R l (set_nth i (fun _ => q) l).
Proof.
  intros Hr. revert i. induction l as [|a l IH]; intros [|i]; simpl; try discriminate.
  - intros [= ->] H. constructor; [exact H | apply Forall2_refl; exact Hr].
  - intros E H. constructor; [apply Hr | apply IH; assumption].
Qed.

Lemma Forall2_nth_error (A B : Type) (R : A -> B -> Prop) (l : list A) (l' : list B)
  (i : nat) (a : A) :
  Forall2 R l l' -> nth_error l i = Some a ->
  exists b, nth_error l' i = Some b /\ R a b.
Proof.
  intros H. revert i. induction H as [|x y l l' Hxy _ IH]; intros [|i]; simpl; try discriminate.
  - intros [= ->]. eauto.
  - apply IH.
Qed.

Lemma drop_cases (p : Player.t) (bs : list Ball.t) :
  fst (drop p bs) = p \/
  (fst (drop p bs) = Player.set_carrying p None).
Proof.
  unfold drop. destruct (Player.carryingBallId p) as [bid|]; [|left; reflexivity].
  destruct (JS.truthy (Some bid)); [right | left]; reflexivity.
Qed.

Lemma drop_falsy (p : Player.t) (bs : list Ball.t) :
  JS.truthy (Player.carryingBallId (fst (drop p bs))) = false.
Proof.
  unfold drop. destruct (Player.carryingBallId p) as [bid|] eqn:E; [|simpl; rewrite E; reflexivity].
  destruct (JS.truthy (Some bid)) eqn:Et; simpl; [reflexivity|]. rewrite E. exact Et.
Qed.

Lemma drop_pushed (p : Player.t) (x y : float) (bs : list Ball.t) :
  pushed p (fst (drop (Player.set_pos p x y) bs)).
Proof.
  split; [|split]; [| |apply drop_falsy];
    destruct (drop_cases (Player.set_pos p x y) bs) as [E|E]; rewrite E; reflexivity.
Qed.

Lemma pushed_trans (a b c : Player.t) :
  (b = a \/ pushed a b) -> (c = b \/ pushed b c) -> c = a \/ pushed a c.
Proof.
  intros [->|(H1 & H2 & H3)] [->|(H4 & H5 & H6)]; auto; right;
    repeat split; congruence.
Qed.

Lemma collide_each (i j : nat) (w : list Player.t * list Ball.t) :
  i <> j ->
  Forall2 (fun p p' => p' = p \/ pushed p p') (fst w) (fst (collide i j w)).
Proof.
  intros Hij. unfold collide. destruct w as [ps bs].
  assert (Hrefl : forall a : Player.t, a = a \/ pushed a a) by (left; reflexivity).
  destruct (nth_error ps i) as [p1|] eqn:E1; [|apply Forall2_refl; exact Hrefl].
  destruct (nth_error ps j) as [p2|] eqn:E2; [|apply Forall2_refl; exact Hrefl].
  destruct (PrimFloat.ltb _ _); [|apply Forall2_refl; exact Hrefl].
  match goal with |- context [drop (Player.set_pos p1 ?x ?y) bs] =>
    pose proof (drop_pushed p1 x y bs) as H1;
    destruct (drop (Player.set_pos p1 x y) bs) as [p1b bs1] end.
  match goal with |- context [drop (Player.set_pos p2 ?x ?y) bs1] =>
    pose proof (drop_pushed p2 x y bs1) as H2;
    destruct (drop (Player.set_pos p2 x y) bs1) as [p2b bs2] end.
  cbn [fst] in *.
  apply (Forall2_trans _ _ _ (set_nth i (fun _ => p1b) ps)).
  - intros a b c. apply pushed_trans.
  - apply (Forall2_set_nth _ _ i p1); auto.
  - apply (Forall2_set_nth _ _ j p2); auto.
    rewrite nth_error_set_nth_other; auto.
Qed.

Lemma collisions_each (w : list Player.t * list Ball.t) :
  Forall2 (fun p p' => p' = p \/ pushed p p') (fst w) (fst (collisions w)).
Proof.
  unfold collisions.
  set (R := fun p p' : Player.t => p' = p \/ pushed p p').
  apply (fold_left_invariant_in _ _ (fun a => Forall2 R (fst w) (fst a)));
    [|apply Forall2_refl; left; reflexivity].
  intros a i _ Ha. unfold collide_from.
  apply (fold_left_invariant_in _ _ (fun a => Forall2 R (fst w) (fst a))); [|exact Ha].
  intros a' j Hj Ha'. apply in_seq in Hj.
  apply (Forall2_trans _ _ _ (fst a')); [intros x y z; apply pushed_trans | exact Ha' |].
  apply collide_each. lia.
Qed.

(** The players of a tick, one by one: the first loop, then the pickup
    loop, then pushes of the collision loop. *)
Lemma update_state_each (rt : Runtime) (s : State) :
  Forall2 (fun p p' => exists w bs q,
             q = fst (pickup_player (fst (step_player rt p w)) bs) /\
             (p' = q \/ pushed q p'))
          (players s) (players (update_state rt s)).
Proof.
  unfold update_state.
  pose proof (step_players_each rt (players s)
                {| pool_balls := balls s; pool_randoms := randoms_used s;
                   pool_uuids := uuids_used s |}) as H1.
  destruct (step_players rt (players s) _) as [ps1 w1]. cbn [fst] in H1.
  pose proof (pickup_players_each ps1 (pool_balls w1)) as H2.
  destruct (pickup_players ps1 (pool_balls w1)) as [ps2 bs2]. cbn [fst] in H2.
  pose proof (collisions_each (ps2, bs2)) as H3.
  destruct (collisions (ps2, bs2)) as [ps3 bs3]. cbn [fst players] in *.
  revert ps2 ps3 H2 H3. induction H1 as [|p p1 ps ps1 (w & Hw) _ IH]; intros ps2 ps3 H2 H3.
  - inversion H2; subst. inversion H3; subst. constructor.
  - inversion H2 as [|? p2 ? ps2' (bs & Hb) H2']; subst.
    inversion H3 as [|? p3 ? ps3' Hp H3']; subst.
    constructor; [|apply IH with (ps2 := ps2'); assumption].
    exists w, bs, (fst (pickup_player (fst (step_player rt p w)) bs)). auto.
Qed.

Lemma move_roster (p : Player.t) : roster (move p) = roster p.
Proof. unfold move. destruct (_ || _); reflexivity. Qed.

Lemma scoring_roster (rt : Runtime) (p : Player.t) (w : Pool) :
  roster (fst (scoring rt p w)) = roster p.
Proof.
  unfold scoring. destruct (JS.truthy _ && isInGoal _ _ _); [|reflexivity].
  cbn [Player.set_score Player.set_carrying Player.carryingBallId].
  destruct (Player.carryingBallId p) as [bid|]; [|reflexivity].
  destruct (map_get Ball.id bid (pool_balls w)); reflexivity.
Qed.

Lemma step_player_roster (rt : Runtime) (p : Player.t) (w : Pool) :
  roster (fst (step_player rt p w)) = roster p.
Proof. unfold step_player. rewrite scoring_roster. apply move_roster. Qed.

Lemma step_player_score (rt : Runtime) (p : Player.t) (w : Pool) :
  Player.score (fst (step_player rt p w)) = score_after_tick p.
Proof.
  unfold step_player, scoring, score_after_tick.
  rewrite move_carrying.
  assert (Et : Player.team (move p) = Player.team p)
    by (pose proof (move_ident p) as E; unfold ident in E; congruence).
  assert (Es : Player.score (move p) = Player.score p)
    by (pose proof (move_ident p) as E; unfold ident in E; congruence).
  rewrite Et.
  destruct (JS.truthy _ && isInGoal _ _ _); [|exact Es].
  cbn [Player.set_score Player.set_carrying Player.carryingBallId].
  rewrite move_carrying.
  destruct (Player.carryingBallId p) as [bid|]; [|simpl; congruence].
  match goal with |- context [map_get Ball.id bid ?bs] => destruct (map_get Ball.id bid bs) end;
    simpl; congruence.
Qed.

Lemma pickup_player_roster (p : Player.t) (bs : list Ball.t) :
  roster (fst (pickup_player p bs)) = roster p /\
  Player.score (fst (pickup_player p bs)) = Player.score p.
Proof.
  unfold pickup_player. destruct (JS.truthy (Player.carryingBallId p)); [split; reflexivity|].
  destruct (pickup_scan p bs) as [[bid|] bs']; split; reflexivity.
Qed.

(** X7. A tick never adds, removes or reorders players and never writes a
    player's id, team or input direction: a direction stays in force until
    the next input message of that player. *)
Theorem tick_keeps_roster_and_inputs (rt : Runtime) (s : State) :
  map roster (players (update_state rt s)) = map roster (players s).
Proof.
  pose proof (update_state_each rt s) as H.
  induction H as [|p p' ps ps' (w & bs & q & -> & Hq) _ IH]; [reflexivity|].
  simpl. rewrite IH. f_equal.
  destruct (pickup_player_roster (fst (step_player rt p w)) bs) as [E _].
  rewrite step_player_roster in E.
  destruct Hq as [->|(Hr & _)]; congruence.
Qed.

(** X6. What a tick does to a score is decided by the player alone, as the
    tick finds it: the player that carries a ball and stands in the goal of
    its own team once it has moved gets one point, every other player keeps
    its score (a ball picked up in this tick counts in the next one, and
    the goal of the other team never counts). *)
Theorem score_rises_exactly_on_a_goal (rt : Runtime) (s : State) (i : nat) (p : Player.t) :
  nth_error (players s) i = Some p ->
  exists p', nth_error (players (update_state rt s)) i = Some p' /\
             Player.id p' = Player.id p /\
             Player.score p' = score_after_tick p.
Proof.
  intros Hi.
  destruct (Forall2_nth_error _ _ _ _ _ i p (update_state_each rt s) Hi)
    as (p' & Hp' & w & bs & q & -> & Hq).
  exists p'. split; [exact Hp'|].
  destruct (pickup_player_roster (fst (step_player rt p w)) bs) as [Er Es].
  rewrite step_player_roster in Er. rewrite step_player_score in Es.
  assert (Ei : forall a b, roster a = roster b -> Player.id a = Player.id b)
    by (unfold roster; intros a b E; congruence).
  destruct Hq as [->|(Hr & Hs & _)]; split; try congruence; apply Ei; congruence.
Qed.

(** * Input messages *)

Lemma map_update_nth_other (A : Type) (key : A -> string) (k : string) (f : A -> A)
  (m : list A) (i : nat) (a : A) :
  nth_error m i = Some a -> key a <> k -> nth_error (map_update key k f m) i = Some a.
Proof.
  revert i. induction m as [|c m IH]; intros [|i]; simpl; try discriminate.
  - intros [= ->] Hk. destruct (String.eqb_spec (key a) k); [contradiction | reflexivity].
  - intros Hi Hk. destruct (String.eqb (key c) k); [exact Hi | apply IH; assumption].
Qed.

Lemma map_update_map (A B : Type) (key : A -> string) (g : A -> B) (k : string) (f : A -> A)
  (m : list A) :
  (forall a, g (f a) = g a) -> map g (map_update key k f m) = map g m.
Proof.
  intros H. induction m as [|c m IH]; simpl; [reflexivity|].
  destruct (String.eqb (key c) k); simpl; congruence.
Qed.

Lemma map_update_absent (A : Type) (key : A -> string) (k : string) (f : A -> A) (m : list A) :
  map_get key k m = None -> map_update key k f m = m.
Proof.
  induction m as [|c m IH]; simpl; [reflexivity|].
  destruct (String.eqb (key c) k); [discriminate | intros H; rewrite IH; auto].
Qed.

(** X9. Whatever a client sends, a message only ever sets the input direction
    of the player of its own connection: balls, counters and the id, team,
    position, score and ball of every player stay as they are, all other
    players are untouched, nothing is broadcast in reply, and a message that
    arrives for a player that is no longer stored changes nothing at all. *)
Theorem message_only_sets_own_direction
  (rt : Runtime) (id : string) (data : option JS.value) (s : State) :
  let s' := fst (onMessage rt id data s) in
  s' = with_players s (players s') /\
  map body (players s') = map body (players s) /\
  (forall i q, nth_error (players s) i = Some q -> Player.id q <> id ->
               nth_error (players s') i = Some q) /\
  (map_get Player.id id (players s) = None -> s' = s) /\
  (snd (onMessage rt id data s) = [] \/ snd (onMessage rt id data s) = [ConsoleError]).
Proof.
  intros s'. subst s'.
  assert (Heta : s = with_players s (players s)) by (destruct s; reflexivity).
  destruct (onMessage_shape rt id data s) as [E|(x & y & p & Hp & E)]; rewrite E.
  - repeat split; auto using onMessage_output.
  - cbn [players with_players]. split; [reflexivity|]. split; [|split; [|split]].
    + apply map_update_map. reflexivity.
    + intros i q Hi Hq. apply map_update_nth_other; assumption.
    + congruence.
    + apply onMessage_output.
Qed.

(** * Disconnected players *)

Lemma scoring_uuids_le (rt : Runtime) (p : Player.t) (w : Pool) :
  pool_uuids w <= pool_uuids (snd (scoring rt p w)).
Proof.
  unfold scoring. destruct (JS.truthy _ && isInGoal _ _ _); [|simpl; lia].
  cbn [Player.set_score Player.set_carrying Player.carryingBallId].
  destruct (Player.carryingBallId p) as [bid|]; [|simpl; lia].
  destruct (map_get Ball.id bid (pool_balls w)); simpl; lia.
Qed.

Lemma step_players_uuids_le (rt : Runtime) (ps : list Player.t) (w : Pool) :
  pool_uuids w <= pool_uuids (snd (step_players rt ps w)).
Proof.
  revert w. induction ps as [|p ps IH]; intros w; simpl; [lia|].
  pose proof (scoring_uuids_le rt (move p)
                {| pool_balls := follow (move p) (pool_balls w);
                   pool_randoms := pool_randoms w; pool_uuids := pool_uuids w |}) as H1.
  fold (step_player rt p w) in H1.
  destruct (step_player rt p w) as [p' w1]. cbn [snd pool_uuids] in H1.
  specialize (IH w1). destruct (step_players rt ps w1) as [ps' w2]. simpl in *. lia.
Qed.

Lemma update_state_uuids_le (rt : Runtime) (s : State) :
  uuids_used s <= uuids_used (update_state rt s).
Proof.
  unfold update_state.
  pose proof (step_players_uuids_le rt (players s)
                {| pool_balls := balls s; pool_randoms := randoms_used s;
                   pool_uuids := uuids_used s |}) as H.
  destruct (step_players rt (players s) _) as [ps1 w1].
  destruct (pickup_players ps1 (pool_balls w1)) as [ps2 bs2].
  destruct (collisions (ps2, bs2)) as [ps3 bs3]. exact H.
Qed.

Lemma map_set_keys_In (A : Type) (key : A -> string) (v : A) (m : list A) (k : string) :
  In k (map key (map_set key v m)) -> k = key v \/ In k (map key m).
Proof.
  induction m as [|c m IH]; simpl.
  - intros [<-|[]]. left; reflexivity.
  - destruct (String.eqb_spec (key c) (key v)) as [E|E]; simpl.
    + intros [<-|H]; auto.
    + intros [<-|H]; auto. destruct (IH H); auto.
Qed.

Lemma handle_gone (rt : Runtime) (id : string) (e : Event) (s : State) :
  uuid_injective rt -> gone rt id s -> gone rt id (fst (handle rt e s)).
Proof.
  intros Hinj (Hn & k & Hk & Hid). destruct e as [|id' data|id'|].
  - split; [|exists k; split; [simpl; lia | exact Hid]].
    simpl. intros Hin. apply map_set_keys_In in Hin. destruct Hin as [Hin|Hin]; [|tauto].
    simpl in Hin. rewrite <- Hid in Hin. apply Hinj in Hin. lia.
  - cbn [handle].
    destruct (onMessage_shape rt id' data s) as [E|(x & y & p & _ & E)]; rewrite E.
    + split; [exact Hn | eauto].
    + split; [|exists k; split; [exact Hk | exact Hid]].
      cbn [with_players players]. rewrite map_update_keys; [exact Hn | reflexivity].
  - split; [|exists k; split; [exact Hk | exact Hid]].
    simpl. intros Hin. apply Hn. eapply map_delete_keys_incl. exact Hin.
  - split.
    + cbn [handle update fst].
      rewrite (Forall2_advances_ids _ _ (update_state_advances rt s)). exact Hn.
    + exists k. split; [|exact Hid]. cbn [handle update fst].
      pose proof (update_state_uuids_le rt s). lia.
Qed.

Lemma run_from_gone (rt : Runtime) (id : string) (evs : list Event) (s : State) :
  uuid_injective rt -> gone rt id s ->
  gone rt id (fst (run_from rt s evs)) /\
  forall payload, In payload (snapshots_of (snd (run_from rt s evs))) ->
                  ~ In id (map pv_id (payload_players payload)).
Proof.
  intros Hinj. revert s. induction evs as [|e evs IH]; intros s Hg; simpl; [tauto|].
  pose proof (handle_gone rt id e s Hinj Hg) as H1.
  pose proof (handle_snapshots rt e s) as Hs.
  destruct (handle rt e s) as [s1 o1]. cbn [fst snd] in *.
  destruct (IH s1 H1) as [H2 H3].
  destruct (run_from rt s1 evs) as [s2 o2]. cbn [fst snd] in *.
  split; [exact H2|]. intros payload. rewrite snapshots_of_app, Hs. intros Hin.
  apply in_app_or in Hin. destruct Hin as [Hin|Hin]; [|auto].
  destruct (is_tick e); [|contradiction]. destruct Hin as [<-|[]].
  unfold broadcastState. cbn [payload_players]. rewrite map_map.
  destruct H1 as [H1 _]. exact H1.
Qed.

(** X5. A player that disconnects is gone for good: with [uuidv4] never
    repeating an id, once the connection of a stored player closes, no later
    state stores a player under its id and no later snapshot lists it,
    whatever events follow. *)
Theorem disconnected_player_never_returns
  (rt : Runtime) (evs evs' : list Event) (id : string) :
  uuid_injective rt ->
  In id (map Player.id (players (state_after rt evs))) ->
  ~ In id (map Player.id (players (state_after rt (evs ++ Close id :: evs')))) /\
  forall payload,
    In payload (snapshots_of (snd (run_from rt (state_after rt (evs ++ [Close id])) evs'))) ->
    ~ In id (map pv_id (payload_players payload)).
Proof.
  intros Hinj Hin.
  destruct (state_after_players_ok rt Hinj evs) as (Hnd & Hdr & _).
  assert (Hg : gone rt id (state_after rt (evs ++ [Close id]))).
  { rewrite state_after_snoc. split.
    - simpl. apply map_delete_not_In. exact Hnd.
    - destruct (Hdr id Hin) as (k & Hk & E). exists k. split; [exact Hk | exact E]. }
  destruct (run_from_gone rt id evs' _ Hinj Hg) as [(H1 & _) H2].
  split; [|exact H2].
  replace (evs ++ Close id :: evs') with ((evs ++ [Close id]) ++ evs')
    by (rewrite <- app_assoc; reflexivity).
  unfold state_after at 1, run. rewrite run_from_app. cbn [fst]. exact H1.
Qed.

(** * A ball moves only while it is carried *)

Lemma map_get_place (bid : string) (bs bs' : list Ball.t) :
  map place bs' = map place bs ->
  forall x y, ball_at_place bid x y bs -> ball_at_place bid x y bs'.
Proof.
  revert bs'. induction bs as [|c bs IH]; intros [|c' bs'] E x y (b & Hb & Hx & Hy);
    simpl in *; try discriminate.
  injection E as E1 E2 E3 E. unfold ball_at_place. simpl. rewrite E1.
  destruct (String.eqb (Ball.id c) bid).
  - injection Hb as ->. exists c'. repeat split; congruence.
  - apply (IH bs' E x y). exists b. auto.
Qed.

Lemma pickup_scan_place (p : Player.t) (bs : list Ball.t) :
  map place (snd (pickup_scan p bs)) = map place bs.
Proof.
  induction bs as [|c bs IH]; simpl; [reflexivity|].
  destruct (JS.truthy (Ball.carriedBy c)).
  - destruct (pickup_scan p bs) as [r rest']. simpl in *. congruence.
  - destruct (PrimFloat.ltb _ _); [reflexivity|].
    destruct (pickup_scan p bs) as [r rest']. simpl in *. congruence.
Qed.

Lemma pickup_players_place (ps : list Player.t) (bs : list Ball.t) :
  map place (snd (pickup_players ps bs)) = map place bs.
Proof.
  revert bs. induction ps as [|p ps IH]; intros bs; simpl; [reflexivity|].
  assert (H1 : map place (snd (pickup_player p bs)) = map place bs).
  { unfold pickup_player. destruct (JS.truthy (Player.carryingBallId p)); [reflexivity|].
    pose proof (pickup_scan_place p bs) as H.
    destruct (pickup_scan p bs) as [[k|] bs']; exact H. }
  destruct (pickup_player p bs) as [p' bs1]. simpl in H1.
  specialize (IH bs1). destruct (pickup_players ps bs1) as [ps' bs2]. simpl in *. congruence.
Qed.

Lemma drop_place (p : Player.t) (bs : list Ball.t) :
  map place (snd (drop p bs)) = map place bs.
Proof.
  unfold drop. destruct (Player.carryingBallId p) as [k|]; [|reflexivity].
  destruct (JS.truthy (Some k)); [|reflexivity].
  simpl. apply map_update_map. reflexivity.
Qed.

Lemma collide_place (i j : nat) (w : list Player.t * list Ball.t) :
  map place (snd (collide i j w)) = map place (snd w).
Proof.
  unfold collide. destruct w as [ps bs].
  destruct (nth_error ps i) as [p1|]; [|reflexivity].
  destruct (nth_error ps j) as [p2|]; [|reflexivity].
  destruct (PrimFloat.ltb _ _); [|reflexivity].
  match goal with |- context [drop ?a bs] =>
    pose proof (drop_place a bs) as H1; destruct (drop a bs) as [p1b bs1] end.
  match goal with |- context [drop ?a bs1] =>
    pose proof (drop_place a bs1) as H2; destruct (drop a bs1) as [p2b bs2] end.
  simpl in *. congruence.
Qed.

Lemma collisions_place (w : list Player.t * list Ball.t) :
  map place (snd (collisions w)) = map place (snd w).
Proof.
  unfold collisions.
  apply (fold_left_invariant _ _ (fun a => map place (snd a) = map place (snd w))); [|reflexivity].
  intros a i Ha. unfold collide_from.
  apply (fold_left_invariant _ _ (fun a => map place (snd a) = map place (snd w))); [|exact Ha].
  intros a' j Ha'. rewrite collide_place. exact Ha'.
Qed.

Section AtRest.
Variable rt : Runtime.
Hypothesis uuid_inj : uuid_injective rt.
Variable bid : string.
Variables x0 y0 : float.

Lemma scoring_at_rest (n : nat) (p : Player.t) (w : Pool) :
  pool_ok rt n (pool_balls w) (pool_uuids w) ->
  Player.carryingBallId p <> Some bid ->
  ball_at_place bid x0 y0 (pool_balls w) ->
  ball_at_place bid x0 y0 (pool_balls (snd (scoring rt p w))) /\
  Player.carryingBallId (fst (scoring rt p w)) <> Some bid.
Proof.
  intros (Hlen & Hnd & Hdr) Hc (b & Hb & Hxy). unfold scoring, ball_at_place.
  destruct (JS.truthy (Player.carryingBallId p) && isInGoal _ _ _); [|simpl; eauto].
  simpl. destruct (Player.carryingBallId p) as [k|] eqn:Ek; [|simpl; split; [eauto | discriminate]].
  destruct (map_get Ball.id k (pool_balls w)) as [old|] eqn:Hget;
    [|simpl; split; [eauto | discriminate]].
  simpl. split; [|discriminate].
  assert (Hfresh : ~ In (Ball.id (createBall rt (pool_randoms w) (pool_uuids w)))
                     (map Ball.id (map_delete Ball.id k (pool_balls w)))).
  { simpl. intros Hin. apply (ids_drawn_fresh rt uuid_inj _ _ Hdr).
    eapply map_delete_keys_incl. exact Hin. }
  rewrite (map_set_fresh _ _ _ _ Hfresh).
  exists b. split; [|exact Hxy]. apply map_get_app_l.
  rewrite map_get_delete by exact Hnd.
  destruct (String.eqb k bid) eqn:E; [|exact Hb].
  apply String.eqb_eq in E. congruence.
Qed.

Lemma follow_at_rest (p : Player.t) (bs : list Ball.t) :
  Player.carryingBallId p <> Some bid ->
  ball_at_place bid x0 y0 bs -> ball_at_place bid x0 y0 (follow p bs).
Proof.
  intros Hc (b & Hb & Hxy). unfold follow, ball_at_place.
  destruct (Player.carryingBallId p) as [k|]; [|eauto].
  destruct (JS.truthy (Some k)); [|eauto].
  rewrite map_get_update by reflexivity. rewrite Hb.
  destruct (String.eqb k bid) eqn:E; [|eauto].
  apply String.eqb_eq in E. congruence.
Qed.

Lemma step_players_at_rest (n : nat) (ps : list Player.t) (w : Pool) :
  pool_ok rt n (pool_balls w) (pool_uuids w) ->
  Forall (fun p => Player.carryingBallId p <> Some bid) ps ->
  ball_at_place bid x0 y0 (pool_balls w) ->
  ball_at_place bid x0 y0 (pool_balls (snd (step_players rt ps w))).
Proof.
  revert w. induction ps as [|p ps IH]; intros w Hok Hps Hb; simpl; [exact Hb|].
  inversion Hps as [|? ? Hp Hps']; subst.
  pose proof (step_player_pool_ok rt uuid_inj n p w Hok) as [Hok1 _].
  assert (H1 : ball_at_place bid x0 y0 (pool_balls (snd (step_player rt p w)))).
  { unfold step_player. apply (scoring_at_rest n).
    - simpl. eapply pool_ok_same_ids; [apply follow_ids | exact Hok].
    - rewrite move_carrying. exact Hp.
    - simpl. apply follow_at_rest; [rewrite move_carrying; exact Hp | exact Hb]. }
  destruct (step_player rt p w) as [p' w1]. simpl in Hok1, H1.
  specialize (IH w1 Hok1 Hps' H1).
  destruct (step_players rt ps w1) as [ps' w2]. exact IH.
Qed.

Lemma update_state_at_rest (n : nat) (s : State) :
  pool_ok rt n (balls s) (uuids_used s) ->
  Forall (fun p => Player.carryingBallId p <> Some bid) (players s) ->
  ball_at_place bid x0 y0 (balls s) ->
  ball_at_place bid x0 y0 (balls (update_state rt s)).
Proof.
  intros Hok Hps Hb. unfold update_state.
  set (w0 := {| pool_balls := balls s; pool_randoms := randoms_used s;
                pool_uuids := uuids_used s |}).
  pose proof (step_players_at_rest n (players s) w0 Hok Hps Hb) as H1.
  destruct (step_players rt (players s) w0) as [ps1 w1]. cbn [snd] in H1.
  pose proof (pickup_players_place ps1 (pool_balls w1)) as H2.
  destruct (pickup_players ps1 (pool_balls w1)) as [ps2 bs2]. cbn [snd] in H2.
  pose proof (collisions_place (ps2, bs2)) as H3.
  destruct (collisions (ps2, bs2)) as [ps3 bs3]. cbn [snd balls] in *.
  apply (map_get_place bid (pool_balls w1)); [congruence | exact H1].
Qed.

End AtRest.

Lemma handle_balls (rt : Runtime) (e : Event) (s : State) :
  is_tick e = false -> balls (fst (handle rt e s)) = balls s.
Proof.
  destruct e as [|id data|id|]; simpl; try reflexivity; [|discriminate].
  intros _. destruct (onMessage_shape rt id data s) as [E|(x & y & p & _ & E)]; rewrite E;
    reflexivity.
Qed.

(** X4. A ball moves only while a player carries it. Connections, messages
    and disconnections leave every ball as it is; and, with [uuidv4] never
    repeating an id, a tick leaves a ball that no player carries in the
    pool, at the place where it was (it may be picked up in that tick, and
    moves from the next one on). *)
Theorem ball_moves_only_when_carried
  (rt : Runtime) (evs : list Event) (e : Event) (bid : string) (b : Ball.t) :
  uuid_injective rt ->
  map_get Ball.id bid (balls (state_after rt evs)) = Some b ->
  Forall (fun p => Player.carryingBallId p <> Some bid) (players (state_after rt evs)) ->
  exists b', map_get Ball.id bid (balls (state_after rt (evs ++ [e]))) = Some b' /\
             Ball.x b' = Ball.x b /\ Ball.y b' = Ball.y b.
Proof.
  intros Hinj Hb Hps. rewrite state_after_snoc.
  destruct (is_tick e) eqn:Et.
  - destruct e; try discriminate. cbn [handle update fst].
    apply (update_state_at_rest rt Hinj bid (Ball.x b) (Ball.y b) BALL_COUNT).
    + unfold state_after, run.
      apply (run_from_pool_ok rt Hinj). apply initial_state_pool_ok. exact Hinj.
    + exact Hps.
    + exists b. auto.
  - rewrite (handle_balls rt e _ Et). exists b. auto.
Qed.

(** * The carry relation when players leave *)

Lemma carrying_of_perm (ps ps' : list Player.t) (k : string) :
  NoDup (map Player.id ps) -> Permutation ps ps' ->
  carrying_of ps' k = carrying_of ps k.
Proof.
  intros Hnd Hp.
  assert (Hnd' : NoDup (map Player.id ps'))
    by (eapply Permutation_NoDup; [apply Permutation_map; exact Hp | exact Hnd]).
  unfold carrying_of.
  destruct (map_get Player.id k ps) as [p|] eqn:E.
  - apply map_get_In in E. destruct E as [Hin <-].
    rewrite (map_get_of_In _ Player.id ps' p Hnd'); [reflexivity|].
    eapply Permutation_in; eassumption.
  - destruct (map_get Player.id k ps') as [p'|] eqn:E'; [|reflexivity].
    apply map_get_In in E'. destruct E' as [Hin <-].
    rewrite (map_get_of_In _ Player.id ps p' Hnd) in E; [discriminate|].
    eapply Permutation_in; [apply Permutation_sym|]; eassumption.
Qed.

Lemma carry_inv_perm (ps ps' : list Player.t) (bs : list Ball.t) :
  Permutation ps ps' -> carry_inv ps bs -> carry_inv ps' bs.
Proof.
  intros Hp [(Hnd & Hndb & Hnp & Hnb) Hcons]. split.
  - repeat split; try assumption.
    + eapply Permutation_NoDup; [apply Permutation_map; exact Hp | exact Hnd].
    + eapply Permutation_Forall; eassumption.
  - apply (consistent_ext _ _ Hcons); [|reflexivity].
    intros a. apply carrying_of_perm; assumption.
Qed.

Lemma run_inv_perm (rt : Runtime) (s s' : State) :
  Permutation (players s) (players s') ->
  balls s' = balls s -> uuids_used s' = uuids_used s ->
  run_inv rt s -> run_inv rt s'.
Proof.
  intros Hp Eb Eu (H1 & H2 & H3). unfold run_inv. rewrite Eb, Eu. split; [|split].
  - eapply carry_inv_perm; eassumption.
  - exact H2.
  - intros i Hi. apply H3. eapply Permutation_in; [|exact Hi].
    apply Permutation_sym, Permutation_map. exact Hp.
Qed.

(** What the carry relation reads of a player. *)
Lemma carry_inv_same_pairs (ps ps' : list Player.t) (bs : list Ball.t) :
  map (fun p => (Player.id p, Player.carryingBallId p)) ps'
  = map (fun p => (Player.id p, Player.carryingBallId p)) ps ->
  carry_inv ps bs -> carry_inv ps' bs.
Proof.
  intros E [(Hnd & Hndb & Hnp & Hnb) Hcons].
  assert (Eid : map Player.id ps' = map Player.id ps).
  { apply (f_equal (map fst)) in E. rewrite !map_map in E. exact E. }
  split.
  - repeat split; try assumption; [rewrite Eid; exact Hnd|].
    clear - E Hnp. revert ps' E. induction Hnp as [|p ps Hp _ IH]; intros [|p' ps'] E;
      simpl in *; try discriminate; constructor.
    + injection E as E1 _ _. unfold nonempty in *. congruence.
    + apply IH. injection E as _ _ E. exact E.
  - apply (consistent_ext _ _ Hcons); [|reflexivity].
    intros a. unfold carrying_of. clear - E. revert ps' E.
    induction ps as [|p ps IH]; intros [|p' ps'] E; simpl in *; try discriminate; [reflexivity|].
    injection E as E1 E2 E. rewrite E1. destruct (String.eqb (Player.id p) a).
    + simpl. congruence.
    + apply IH. exact E.
Qed.

Lemma set_nth_app (A : Type) (i : nat) (f : A -> A) (l1 l2 : list A) :
  i < List.length l1 -> set_nth i f (l1 ++ l2) = set_nth i f l1 ++ l2.
Proof.
  revert i. induction l1 as [|a l1 IH]; intros [|i] H; simpl in *; try lia; [reflexivity|].
  rewrite IH by lia. reflexivity.
Qed.

Lemma set_nth_length (A : Type) (i : nat) (f : A -> A) (l : list A) :
  List.length (set_nth i f l) = List.length l.
Proof. revert i. induction l as [|a l IH]; intros [|i]; simpl; auto. Qed.

Lemma collide_length (i j : nat) (w : list Player.t * list Ball.t) :
  List.length (fst (collide i j w)) = List.length (fst w).
Proof.
  unfold collide. destruct w as [ps bs].
  destruct (nth_error ps i); [|reflexivity]. destruct (nth_error ps j); [|reflexivity].
  destruct (PrimFloat.ltb _ _); [|reflexivity].
  destruct (drop _ bs) as [p1b bs1]. destruct (drop _ bs1) as [p2b bs2].
  cbn [fst]. rewrite !set_nth_length. reflexivity.
Qed.

(** The collision of two players does not look at the players behind them. *)
Lemma collide_app (i j : nat) (ps gs : list Player.t) (bs : list Ball.t) :
  i < List.length ps -> j < List.length ps ->
  collide i j (ps ++ gs, bs)
  = (fst (collide i j (ps, bs)) ++ gs, snd (collide i j (ps, bs))).
Proof.
  intros Hi Hj. unfold collide.
  rewrite (nth_error_app1 ps gs Hi), (nth_error_app1 ps gs Hj).
  destruct (nth_error ps i) as [p1|]; [|reflexivity].
  destruct (nth_error ps j) as [p2|]; [|reflexivity].
  destruct (PrimFloat.ltb _ _); [|reflexivity].
  destruct (drop _ bs) as [p1b bs1]. destruct (drop _ bs1) as [p2b bs2].
  cbn [fst snd]. rewrite (set_nth_app _ i _ ps gs Hi).
  rewrite set_nth_app by (rewrite set_nth_length; exact Hj). reflexivity.
Qed.

Lemma map_delete_split (A : Type) (key : A -> string) (k : string) (m : list A) (a : A) :
  map_get key k m = Some a ->
  exists l1 l2, m = l1 ++ a :: l2 /\ map_delete key k m = l1 ++ l2.
Proof.
  induction m as [|c m IH]; simpl; [discriminate|].
  destruct (String.eqb (key c) k).
  - intros [= ->]. exists [], m. auto.
  - intros H. destruct (IH H) as (l1 & l2 & -> & E). exists (c :: l1), l2. simpl. rewrite E. auto.
Qed.

Lemma map_delete_absent (A : Type) (key : A -> string) (k : string) (m : list A) :
  map_get key k m = None -> map_delete key k m = m.
Proof.
  induction m as [|c m IH]; simpl; [reflexivity|].
  destruct (String.eqb (key c) k); [discriminate | intros H; rewrite IH; auto].
Qed.

Section Ghosts.
Variable rt : Runtime.
Hypothesis uuid_inj : uuid_injective rt.
Hypothesis uuid_nonempty : forall k, nonempty (uuidv4 rt k).

Lemma collisions_ghosted (gs : list Player.t) (w : list Player.t * list Ball.t) :
  carry_inv (fst w ++ gs) (snd w) ->
  carry_inv (fst (collisions w) ++ gs) (snd (collisions w)).
Proof.
  intros H. unfold collisions.
  set (n := List.length (fst w)).
  set (P := fun a : list Player.t * list Ball.t =>
              carry_inv (fst a ++ gs) (snd a) /\ List.length (fst a) = n).
  assert (HP : P (fold_left (fun acc i => collide_from n i acc) (seq 0 n) w)).
  { apply (fold_left_invariant_in _ _ P); [|split; [exact H | reflexivity]].
    intros a i Hi Ha. unfold collide_from.
    apply (fold_left_invariant_in _ _ P); [|exact Ha].
    intros [ps bs] j Hj [Hinv Hlen]. apply in_seq in Hi, Hj. cbn [fst snd] in Hinv, Hlen.
    split; [|rewrite collide_length; exact Hlen].
    pose proof (collide_carry_inv i j (ps ++ gs, bs) ltac:(lia) Hinv) as Hc.
    rewrite collide_app in Hc by lia. exact Hc. }
  exact (proj1 HP).
Qed.

Lemma update_state_ghosted (s : State) : ghosted rt s -> ghosted rt (update_state rt s).
Proof.
  intros (gs & Hinv & Hdb & Hdp). exists gs.
  cbn [with_players players balls uuids_used] in Hinv, Hdb, Hdp.
  unfold run_inv, update_state.
  set (w0 := {| pool_balls := balls s; pool_randoms := randoms_used s;
                pool_uuids := uuids_used s |}).
  pose proof (step_players_loop rt
                (fun ps w => carry_inv (ps ++ gs) (pool_balls w) /\
                             ids_drawn rt (pool_uuids w) (map Ball.id (pool_balls w)))) as L1.
  specialize (L1 (fun l1 p l2 w H =>
                    eq_ind _ (fun l => carry_inv l _ /\ _)
                      (step_player_carry_inv rt uuid_inj uuid_nonempty l1 (l2 ++ gs) p w
                         (eq_ind _ (fun l => carry_inv l _ /\ _) H _
                            (eq_sym (app_assoc l1 (p :: l2) gs))))
                      _ (app_assoc l1 (fst (step_player rt p w) :: l2) gs))).
  specialize (L1 (players s) [] w0 (conj Hinv Hdb)).
  pose proof (step_players_uuids_le rt (players s) w0) as Hle.
  pose proof (step_players_advances rt (players s) w0) as Hadv.
  destruct (step_players rt (players s) w0) as [ps1 w1]. cbn [fst snd app] in L1, Hle, Hadv.
  destruct L1 as [H1 Hdb1].
  pose proof (pickup_players_loop (fun ps bs => carry_inv (ps ++ gs) bs)) as L2.
  specialize (L2 (fun l1 p l2 bs H =>
                    eq_ind _ (fun l => carry_inv l _)
                      (pickup_player_carry_inv l1 (l2 ++ gs) p bs
                         (eq_ind _ (fun l => carry_inv l _) H _
                            (eq_sym (app_assoc l1 (p :: l2) gs))))
                      _ (app_assoc l1 (fst (pickup_player p bs) :: l2) gs))).
  specialize (L2 ps1 [] (pool_balls w1) H1).
  pose proof (pickup_players_ident ps1 (pool_balls w1)) as I2.
  pose proof (pickup_players_ids ps1 (pool_balls w1)) as B2.
  destruct (pickup_players ps1 (pool_balls w1)) as [ps2 bs2]. cbn [fst snd app] in L2, I2, B2.
  pose proof (collisions_ghosted gs (ps2, bs2) L2) as H3.
  pose proof (collisions_ident (ps2, bs2)) as I3.
  pose proof (collisions_ids (ps2, bs2)) as B3.
  destruct (collisions (ps2, bs2)) as [ps3 bs3]. cbn [fst snd] in H3, I3, B3.
  cbn [with_players players balls uuids_used]. split; [exact H3|].
  assert (Hids : map Player.id ps3 = map Player.id (players s)).
  { rewrite <- (Forall2_advances_ids _ _ Hadv).
    assert (Hm : forall l : list Player.t,
               map Player.id l = map (fun t => fst (fst t)) (map ident l)).
    { intros l. rewrite map_map. reflexivity. }
    rewrite (Hm ps3), (Hm ps1), I3, I2. reflexivity. }
  split.
  - rewrite B3, B2. exact Hdb1.
  - rewrite map_app, Hids, <- map_app. eapply ids_drawn_mono; eassumption.
Qed.

Lemma handle_ghosted (e : Event) (s : State) : ghosted rt s -> ghosted rt (fst (handle rt e s)).
Proof.
  intros Hg. destruct e as [|id data|id|]; cbn [handle].
  - destruct Hg as (gs & Hinv). exists gs.
    pose proof (handle_run_inv rt uuid_inj uuid_nonempty Connection _ I Hinv) as H.
    pose proof Hinv as ((Hok & _) & _ & Hdp).
    cbn [with_players players balls uuids_used] in Hok, Hdp.
    cbn [handle onConnection fst with_players players balls uuids_used nextTeamIndex randoms_used]
      in H |- *.
    set (np := createPlayer (uuidv4 rt (uuids_used s)) _) in *.
    assert (Hfresh : ~ In (Player.id np) (map Player.id (players s ++ gs)))
      by (simpl; apply ids_drawn_fresh; assumption).
    assert (Hfresh' : ~ In (Player.id np) (map Player.id (players s))).
    { intros Hin. apply Hfresh. rewrite map_app. apply in_or_app. left. exact Hin. }
    rewrite (map_set_fresh _ _ _ _ Hfresh) in H. rewrite (map_set_fresh _ _ _ _ Hfresh').
    revert H. apply run_inv_perm; [|reflexivity|reflexivity].
    cbn [players]. rewrite <- !app_assoc. apply Permutation_app_head. apply Permutation_app_comm.
  - destruct (onMessage_shape rt id data s) as [E|(x & y & p & Hp & E)]; rewrite E; [exact Hg|].
    destruct Hg as (gs & Hinv & Hdb & Hdp). exists gs.
    unfold run_inv. cbn [with_players players balls uuids_used] in *.
    assert (Hk : map Player.id (map_update Player.id id (fun q => Player.set_dir q x y) (players s))
                 = map Player.id (players s)) by (apply map_update_keys; reflexivity).
    split; [|split].
    + revert Hinv. apply carry_inv_same_pairs. rewrite !map_app. f_equal.
      apply map_update_map. reflexivity.
    + exact Hdb.
    + rewrite map_app, Hk, <- map_app. exact Hdp.
  - destruct Hg as (gs & Hinv). unfold onClose. cbn [fst].
    destruct (map_get Player.id id (players s)) as [p|] eqn:Hget.
    + destruct (map_delete_split _ Player.id id _ p Hget) as (l1 & l2 & Hps & Hdel).
      exists (p :: gs). rewrite Hdel.
      cbn [with_players players balls uuids_used nextTeamIndex randoms_used].
      revert Hinv. apply run_inv_perm; [|reflexivity|reflexivity].
      cbn [with_players players]. rewrite Hps.
      rewrite <- !app_assoc. apply Permutation_app_head. simpl.
      apply Permutation_middle.
    + exists gs. rewrite (map_delete_absent _ Player.id id _ Hget).
      destruct s; exact Hinv.
  - unfold update. cbn [fst]. apply update_state_ghosted. exact Hg.
Qed.

Lemma state_after_ghosted (evs : list Event) : ghosted rt (state_after rt evs).
Proof.
  induction evs as [|e evs IH] using rev_ind.
  - exists []. unfold state_after, run. cbn [run_from fst].
    pose proof (initial_state_run_inv rt uuid_inj uuid_nonempty) as H.
    rewrite app_nil_r. destruct (initial_state rt); exact H.
  - rewrite state_after_snoc. apply handle_ghosted. exact IH.
Qed.

End Ghosts.

Lemma ghosted_carry_sound (rt : Runtime) (s : State) : ghosted rt s -> carry_sound s.
Proof.
  intros (gs & Hinv & _). cbn [with_players players balls] in Hinv.
  pose proof Hinv as [(Hnd & Hndb & _) Hcons].
  assert (Hnd' : NoDup (map Player.id (players s)))
    by (rewrite map_app in Hnd; apply NoDup_app_remove_r in Hnd; exact Hnd).
  assert (Hcar : forall p, In p (players s) ->
            carrying_of (players s ++ gs) (Player.id p) = Some (Player.carryingBallId p)).
  { intros p Hin. unfold carrying_of.
    rewrite (map_get_of_In _ Player.id _ p Hnd); [reflexivity|].
    apply in_or_app. left. exact Hin. }
  split; [|split].
  - intros p bid Hin Hc. pose proof (Hcar p Hin) as Hp. rewrite Hc in Hp.
    apply Hcons in Hp. destruct (carrier_of_Some _ _ _ Hp) as (b & Hb & Hid & Hcb). eauto.
  - intros i j p q bid Hi Hj Hp Hq.
    pose proof (Hcar p (nth_error_In _ _ Hi)) as Hp'. rewrite Hp in Hp'.
    pose proof (Hcar q (nth_error_In _ _ Hj)) as Hq'. rewrite Hq in Hq'.
    apply Hcons in Hp', Hq'.
    apply (NoDup_map_nth_error _ _ Player.id (players s) i j p q Hnd' Hi Hj). congruence.
  - intros b pid Hin Hc.
    assert (Hb : carrier_of (balls s) (Ball.id b) = Some (Some pid)).
    { unfold carrier_of. rewrite (map_get_of_In _ Ball.id _ b Hndb Hin). simpl. congruence. }
    apply Hcons in Hb. destruct (carrying_of_Some _ _ _ Hb) as (p & Hp & Hid & Hcp).
    apply in_app_or in Hp. destruct Hp as [Hp|Hp]; [left; eauto|].
    right. intros Hin'. destruct (in_split _ _ Hp) as (g1 & g2 & ->).
    rewrite !map_app in Hnd. simpl in Hnd. rewrite app_assoc in Hnd.
    apply NoDup_remove_2 in Hnd. apply Hnd. rewrite Hid.
    apply in_or_app. left. apply in_or_app. left. exact Hin'.
Qed.

(** X1. The carry relation in every state of every run, disconnections
    included (with [uuidv4] handing out distinct non-empty ids): a player
    that carries a ball carries one that is in the pool and names that
    player as its carrier; no two players carry the same ball; and a ball
    that names a carrier names either a stored player that carries it or an
    id that no stored player has (its carrier left). *)
Theorem carry_relation_in_every_state (rt : Runtime) (evs : list Event) :
  uuid_injective rt -> (forall k, nonempty (uuidv4 rt k)) ->
  carry_sound (state_after rt evs).
Proof.
  intros Hinj Hne. apply (ghosted_carry_sound rt). apply state_after_ghosted; assumption.
Qed.

(** * A carried ball follows its carrier *)

Section Follows.
Variable rt : Runtime.
Hypothesis uuid_inj : uuid_injective rt.
Hypothesis uuid_nonempty : forall k, nonempty (uuidv4 rt k).
Variable bid : string.

(** The step of the carrier itself. *)
Lemma step_player_tracked (l1 l2 : list Player.t) (p : Player.t) (w : Pool) :
  carry_inv (l1 ++ p :: l2) (pool_balls w) ->
  ids_drawn rt (pool_uuids w) (map Ball.id (pool_balls w)) ->
  Player.carryingBallId p = Some bid ->
  tracked rt bid (fst (step_player rt p w)) (snd (step_player rt p w)) /\
  Player.x (fst (step_player rt p w)) = Player.x (move p) /\
  Player.y (fst (step_player rt p w)) = Player.y (move p).
Proof.
  intros Hinv Hdr Hc. pose proof Hinv as [(Hnd & Hndb & _) _].
  assert (Hp : carrying_of (l1 ++ p :: l2) (Player.id p) = Some (Some bid))
    by (rewrite carrying_of_here by exact Hnd; congruence).
  destruct (carried_ball_exists _ _ _ _ Hinv Hp) as [Hne Hb].
  unfold carrier_of in Hb.
  destruct (map_get Ball.id bid (pool_balls w)) as [b0|] eqn:Hget; [|discriminate].
  assert (Hfol : map_get Ball.id bid (follow (move p) (pool_balls w))
                 = Some (Ball.set_pos b0 (Player.x (move p)) (Player.y (move p)))).
  { unfold follow. rewrite move_carrying, Hc, (truthy_Some bid Hne).
    rewrite map_get_update by reflexivity. rewrite String.eqb_refl, Hget. reflexivity. }
  unfold step_player, scoring. cbn [pool_balls pool_randoms pool_uuids].
  rewrite move_carrying, Hc.
  destruct (JS.truthy (Some bid) && isInGoal _ _ _).
  - cbn [Player.set_score Player.set_carrying Player.carryingBallId].
    rewrite move_carrying, Hc, Hfol. cbn [fst snd Player.x Player.y].
    split; [|split; reflexivity]. right. cbn [Player.carryingBallId pool_balls pool_uuids].
    split; [discriminate|].
    assert (Hin : In bid (map Ball.id (pool_balls w))).
    { apply map_get_In in Hget. destruct Hget as [Hin <-]. apply in_map. exact Hin. }
    destruct (Hdr bid Hin) as (k & Hk & Ek).
    split; [|exists k; split; [lia | exact Ek]].
    intros Hin'. apply map_set_keys_In in Hin'. destruct Hin' as [E|Hin'].
    + simpl in E. rewrite <- Ek in E. apply uuid_inj in E. lia.
    + revert Hin'. apply map_delete_not_In. rewrite follow_ids. exact Hndb.
  - cbn [fst snd]. split; [|split; reflexivity]. left. cbn [pool_balls].
    rewrite move_carrying. split; [exact Hc|].
    eexists. split; [exact Hfol|]. split; reflexivity.
Qed.

(** The step of any other player. *)
Lemma step_player_keeps_tracked (t : Player.t) (l1 l2 : list Player.t) (q : Player.t) (w : Pool) :
  In t (l1 ++ l2) ->
  carry_inv (l1 ++ q :: l2) (pool_balls w) ->
  ids_drawn rt (pool_uuids w) (map Ball.id (pool_balls w)) ->
  tracked rt bid t w -> tracked rt bid t (snd (step_player rt q w)).
Proof.
  intros Hin Hinv Hdr Ht. pose proof Hinv as [(Hnd & Hndb & _) Hcons].
  destruct Ht as [(Hc & Hb)|(Hc & Hnin & k & Hk & Ek)].
  - left. split; [exact Hc|].
    assert (Hq : Player.carryingBallId q <> Some bid).
    { intros Hq.
      assert (Hint : In t (l1 ++ q :: l2))
        by (apply in_or_app; apply in_app_or in Hin; simpl; tauto).
      assert (H1 : carrying_of (l1 ++ q :: l2) (Player.id t) = Some (Some bid)).
      { unfold carrying_of. rewrite (map_get_of_In _ Player.id _ t Hnd Hint). simpl. congruence. }
      assert (H2 : carrying_of (l1 ++ q :: l2) (Player.id q) = Some (Some bid))
        by (rewrite carrying_of_here by exact Hnd; congruence).
      apply Hcons in H1, H2. rewrite H1 in H2. injection H2 as E.
      rewrite map_app in Hnd. simpl in Hnd. apply NoDup_remove_2 in Hnd. apply Hnd.
      rewrite <- E, <- map_app. apply in_map. exact Hin. }
    unfold step_player.
    apply (scoring_at_rest rt uuid_inj bid _ _ (List.length (pool_balls w))).
    + cbn [pool_balls pool_uuids]. split; [|split].
      * rewrite <- (length_map Ball.id), follow_ids, length_map. reflexivity.
      * rewrite follow_ids. exact Hndb.
      * rewrite follow_ids. exact Hdr.
    + rewrite move_carrying. exact Hq.
    + cbn [pool_balls]. apply follow_at_rest; [rewrite move_carrying; exact Hq | exact Hb].
  - right. split; [exact Hc|].
    pose proof (scoring_uuids_le rt (move q)
                  {| pool_balls := follow (move q) (pool_balls w);
                     pool_randoms := pool_randoms w; pool_uuids := pool_uuids w |}) as Hle.
    fold (step_player rt q w) in Hle. cbn [pool_uuids] in Hle.
    split; [|exists k; split; [lia | exact Ek]].
    unfold step_player, scoring. cbn [pool_balls pool_randoms pool_uuids].
    destruct (JS.truthy _ && isInGoal _ _ _); [|cbn [snd pool_balls]; rewrite follow_ids; exact Hnin].
    cbn [Player.set_score Player.set_carrying Player.carryingBallId].
    destruct (Player.carryingBallId (move q)) as [kq|];
      [|cbn [snd pool_balls]; rewrite follow_ids; exact Hnin].
    destruct (map_get Ball.id kq _);
      [|cbn [snd pool_balls]; rewrite follow_ids; exact Hnin].
    cbn [snd pool_balls]. intros Hin'. apply map_set_keys_In in Hin'.
    destruct Hin' as [E|Hin'].
    + simpl in E. rewrite <- Ek in E. apply uuid_inj in E. lia.
    + apply Hnin. rewrite <- (follow_ids (move q)). eapply map_delete_keys_incl. exact Hin'.
Qed.

Lemma update_state_follows (s : State) (i : nat) (p p' : Player.t) :
  ghosted rt s ->
  nth_error (players s) i = Some p ->
  Player.carryingBallId p = Some bid ->
  nth_error (players (update_state rt s)) i = Some p' ->
  Player.carryingBallId p' = Some bid ->
  ball_at_place bid (Player.x p') (Player.y p') (balls (update_state rt s)) /\
  Player.x p' = Player.x (move p) /\ Player.y p' = Player.y (move p).
Proof.
  intros Hg Hi Hc Hi' Hc'.
  destruct (update_state_ghosted rt uuid_inj uuid_nonempty s Hg) as (gs' & Hend & _).
  destruct Hg as (gs & Hinv & Hdb & _).
  cbn [with_players players balls uuids_used] in Hinv, Hdb, Hend.
  destruct (nth_error_split _ _ Hi) as (l1 & l2 & Hps & Hl1).
  (* the carried ball exists and has a non-empty id *)
  assert (Hne : nonempty bid).
  { pose proof Hinv as [(Hnd & _) _].
    assert (Hp : carrying_of (players s ++ gs) (Player.id p) = Some (Some bid)).
    { unfold carrying_of. rewrite (map_get_of_In _ Player.id _ p Hnd); [simpl; congruence|].
      apply in_or_app. left. exact (nth_error_In _ _ Hi). }
    apply (carried_ball_exists _ _ _ _ Hinv Hp). }
  remember (update_state rt s) as s' eqn:Es. unfold update_state in Es.
  set (w0 := {| pool_balls := balls s; pool_randoms := randoms_used s;
                pool_uuids := uuids_used s |}) in Es.
  rewrite Hps, step_players_app in Es. rewrite Hps in Hinv.
  (* the players before the carrier *)
  pose proof (step_players_loop rt
                (fun ps w => carry_inv (ps ++ (p :: l2) ++ gs) (pool_balls w) /\
                             ids_drawn rt (pool_uuids w) (map Ball.id (pool_balls w)))) as LA.
  assert (SA : forall m1 q m2 w,
             carry_inv ((m1 ++ q :: m2) ++ (p :: l2) ++ gs) (pool_balls w) /\
             ids_drawn rt (pool_uuids w) (map Ball.id (pool_balls w)) ->
             carry_inv ((m1 ++ fst (step_player rt q w) :: m2) ++ (p :: l2) ++ gs)
                       (pool_balls (snd (step_player rt q w))) /\
             ids_drawn rt (pool_uuids (snd (step_player rt q w)))
                       (map Ball.id (pool_balls (snd (step_player rt q w))))).
  { intros m1 q m2 w H. rewrite <- app_assoc in H |- *.
    exact (step_player_carry_inv rt uuid_inj uuid_nonempty m1 (m2 ++ (p :: l2) ++ gs) q w H). }
  specialize (LA SA l1 [] w0). cbn [app] in LA.
  rewrite <- app_assoc in Hinv. specialize (LA (conj Hinv Hdb)).
  pose proof (step_players_length rt l1 w0) as LenA.
  destruct (step_players rt l1 w0) as [l1' wA]. cbn [fst snd] in LA, LenA, Es.
  destruct LA as [HinvA HdbA].
  (* the carrier *)
  cbn [step_players] in Es.
  pose proof (step_player_tracked l1' (l2 ++ gs) p wA HinvA HdbA Hc) as (HtB & HxB & HyB).
  pose proof (step_player_carry_inv rt uuid_inj uuid_nonempty l1' (l2 ++ gs) p wA
                (conj HinvA HdbA)) as [HinvB HdbB].
  destruct (step_player rt p wA) as [p1 wB]. cbn [fst snd] in HtB, HxB, HyB, HinvB, HdbB.
  (* the players after the carrier *)
  pose proof (step_players_loop rt
                (fun ps w => carry_inv ((l1' ++ [p1]) ++ ps ++ gs) (pool_balls w) /\
                             ids_drawn rt (pool_uuids w) (map Ball.id (pool_balls w)) /\
                             tracked rt bid p1 w)) as LC.
  assert (SC : forall m1 q m2 w,
             carry_inv ((l1' ++ [p1]) ++ (m1 ++ q :: m2) ++ gs) (pool_balls w) /\
             ids_drawn rt (pool_uuids w) (map Ball.id (pool_balls w)) /\
             tracked rt bid p1 w ->
             carry_inv ((l1' ++ [p1]) ++ (m1 ++ fst (step_player rt q w) :: m2) ++ gs)
                       (pool_balls (snd (step_player rt q w))) /\
             ids_drawn rt (pool_uuids (snd (step_player rt q w)))
                       (map Ball.id (pool_balls (snd (step_player rt q w)))) /\
             tracked rt bid p1 (snd (step_player rt q w))).
  { intros m1 q m2 w (H1 & H2 & H3).
    assert (E : forall a, (l1' ++ [p1]) ++ (m1 ++ a :: m2) ++ gs
                          = ((l1' ++ [p1]) ++ m1) ++ a :: (m2 ++ gs))
      by (intros a; repeat rewrite <- app_assoc; reflexivity).
    rewrite E in H1 |- *.
    destruct (step_player_carry_inv rt uuid_inj uuid_nonempty _ _ q w (conj H1 H2)) as [H4 H5].
    split; [exact H4|]. split; [exact H5|].
    apply (step_player_keeps_tracked p1 ((l1' ++ [p1]) ++ m1) (m2 ++ gs) q w); try assumption.
    apply in_or_app. left. apply in_or_app. left. apply in_or_app. right. left. reflexivity. }
  specialize (LC SC l2 [] wB). cbn [app] in LC.
  assert (HB' : carry_inv ((l1' ++ [p1]) ++ l2 ++ gs) (pool_balls wB))
    by (rewrite <- app_assoc; exact HinvB).
  specialize (LC (conj HB' (conj HdbB HtB))).
  destruct (step_players rt l2 wB) as [l2' wC]. cbn [fst snd] in LC, Es.
  destruct LC as (_ & _ & HtC).
  (* pickup and collisions *)
  pose proof (pickup_players_each (l1' ++ p1 :: l2') (pool_balls wC)) as E2.
  pose proof (pickup_players_place (l1' ++ p1 :: l2') (pool_balls wC)) as P2.
  destruct (pickup_players (l1' ++ p1 :: l2') (pool_balls wC)) as [ps2 bs2].
  cbn [fst snd] in E2, P2.
  pose proof (collisions_each (ps2, bs2)) as E3.
  pose proof (collisions_place (ps2, bs2)) as P3.
  destruct (collisions (ps2, bs2)) as [ps3 bs3]. cbn [fst snd] in E3, P3.
  subst s'. cbn [players balls] in Hi', Hend |- *.
  assert (H1 : nth_error (l1' ++ p1 :: l2') i = Some p1)
    by (rewrite <- Hl1, <- LenA, nth_error_app2, Nat.sub_diag by lia; reflexivity).
  destruct (Forall2_nth_error _ _ _ _ _ i p1 E2 H1) as (p2 & H2 & bs' & Hp2).
  destruct (Forall2_nth_error _ _ _ _ _ i p2 E3 H2) as (p3 & H3 & Hp3).
  rewrite Hi' in H3. injection H3 as <-.
  assert (Hplace : map place bs3 = map place (pool_balls wC)) by congruence.
  destruct HtC as [(Hc1 & Hb1)|(Hc1 & Hnin & _)].
  - assert (E : p2 = p1).
    { rewrite Hp2. unfold pickup_player. rewrite Hc1, (truthy_Some bid Hne). reflexivity. }
    assert (E' : p' = p1).
    { destruct Hp3 as [->|(_ & _ & Hf)]; [exact E|].
      rewrite Hc', (truthy_Some bid Hne) in Hf. discriminate. }
    subst p'. split; [|split; assumption].
    apply (map_get_place bid (pool_balls wC)); assumption.
  - exfalso. apply Hnin.
    assert (Eids : map Ball.id bs3 = map Ball.id (pool_balls wC)).
    { apply (f_equal (map (fun t => fst (fst t)))) in Hplace. rewrite !map_map in Hplace.
      exact Hplace. }
    rewrite <- Eids.
    pose proof Hend as [(Hnd & _) _].
    assert (Hin : In p' (ps3 ++ gs')) by (apply in_or_app; left; exact (nth_error_In _ _ Hi')).
    assert (Hp : carrying_of (ps3 ++ gs') (Player.id p') = Some (Some bid)).
    { unfold carrying_of. rewrite (map_get_of_In _ Player.id _ p' Hnd Hin). simpl. congruence. }
    destruct (carried_ball_exists _ _ _ _ Hend Hp) as [_ Hb].
    destruct (carrier_of_Some _ _ _ Hb) as (b & Hinb & <- & _). apply in_map. exact Hinb.
Qed.

End Follows.

(** X3. A carried ball follows its carrier. In every run (with [uuidv4]
    handing out distinct non-empty ids), if a player carries a ball before a
    tick and still carries it after the tick, then after the tick the ball
    is in the pool at the very position of the player, which is where the
    movement step of that tick put the player: a player that keeps its ball
    was not pushed by a collision. *)
Theorem carried_ball_follows_its_carrier
  (rt : Runtime) (evs : list Event) (i : nat) (p p' : Player.t) (bid : string) :
  uuid_injective rt -> (forall k, nonempty (uuidv4 rt k)) ->
  nth_error (players (state_after rt evs)) i = Some p ->
  Player.carryingBallId p = Some bid ->
  nth_error (players (state_after rt (evs ++ [Tick]))) i = Some p' ->
  Player.carryingBallId p' = Some bid ->
  ball_at_place bid (Player.x p') (Player.y p') (balls (state_after rt (evs ++ [Tick]))) /\
  Player.x p' = Player.x (move p) /\ Player.y p' = Player.y (move p).
Proof.
  intros Hinj Hne Hi Hc. rewrite state_after_snoc. cbn [handle update fst].
  apply (update_state_follows rt Hinj Hne bid); try assumption.
  apply state_after_ghosted; assumption.
Qed.

(** * Players that do not overlap *)

Lemma collide_clear (i j : nat) (ps : list Player.t) (bs : list Ball.t) :
  i < j -> clear_of_each_other ps -> collide i j (ps, bs) = (ps, bs).
Proof.
  intros Hij Hclear. unfold collide.
  destruct (nth_error ps i) as [p1|] eqn:E1; [|reflexivity].
  destruct (nth_error ps j) as [p2|] eqn:E2; [|reflexivity].
  rewrite (Hclear i j p1 p2 Hij E1 E2). reflexivity.
Qed.

(** X18. Players that do not overlap are left alone by the collision loop: when
    every pair of players is at least twice the player radius apart (by the
    squared-distance test of the loop), no player is moved and no ball is
    dropped. *)
Theorem no_overlap_no_collision (ps : list Player.t) (bs : list Ball.t) :
  clear_of_each_other ps -> collisions (ps, bs) = (ps, bs).
Proof.
  intros Hclear. unfold collisions. cbn [fst].
  apply (fold_left_invariant_in _ _ (fun a => a = (ps, bs))); [|reflexivity].
  intros a i _ ->. unfold collide_from.
  apply (fold_left_invariant_in _ _ (fun a => a = (ps, bs))); [|reflexivity].
  intros a j Hj ->. apply in_seq in Hj. apply collide_clear; [lia | exact Hclear].
Qed.

(** * What a snapshot lists *)

Lemma snapshots_from_states (rt : Runtime) (evs : list Event) (payload : Payload) :
  In payload (snapshots rt evs) ->
  exists pre, payload = broadcastState (state_after rt pre).
Proof.
  induction evs as [|e evs IH] using rev_ind; [intros []|].
  rewrite snapshots_snoc, handle_snapshots. intros Hin.
  apply in_app_or in Hin. destruct Hin as [Hin|Hin]; [exact (IH Hin)|].
  destruct (is_tick e); [|contradiction]. destruct Hin as [<-|[]].
  exists (evs ++ [e]). rewrite state_after_snoc. reflexivity.
Qed.

(** X16. Every snapshot the server broadcasts (with [uuidv4] never repeating
    an id) lists exactly [BALL_COUNT] balls, no ball twice and no player
    twice, and every score in it is a non-negative integer. *)
Theorem snapshot_lists_each_entity_once
  (rt : Runtime) (evs : list Event) (payload : Payload) :
  uuid_injective rt ->
  In payload (snapshots rt evs) ->
  List.length (payload_balls payload) = BALL_COUNT /\
  NoDup (map bv_id (payload_balls payload)) /\
  NoDup (map pv_id (payload_players payload)) /\
  Forall (fun v => (0 <= pv_score v)%Z) (payload_players payload).
Proof.
  intros Hinj Hin. destruct (snapshots_from_states rt evs payload Hin) as (pre & ->).
  destruct (state_after_players_ok rt Hinj pre) as (Hnd & _ & Hsc).
  assert (Hpool : pool_ok rt BALL_COUNT (balls (state_after rt pre))
                          (uuids_used (state_after rt pre))).
  { unfold state_after, run. apply (run_from_pool_ok rt Hinj).
    apply initial_state_pool_ok. exact Hinj. }
  destruct Hpool as (Hlen & Hndb & _).
  unfold broadcastState. cbn [payload_balls payload_players].
  rewrite length_map, !map_map. cbn [bv_id view_ball pv_id view_player].
  repeat split; try assumption.
  apply Forall_map. exact Hsc.
Qed.

(** * Start-up *)

Lemma Forall_map_set (A : Type) (key : A -> string) (P : A -> Prop) (v : A) (m : list A) :
  P v -> Forall P m -> Forall P (map_set key v m).
Proof.
  intros Hv Hm. induction Hm as [|c l Hc Hl IH]; simpl; [repeat constructor; exact Hv|].
  destruct (String.eqb _ _); constructor; auto.
Qed.

Lemma init_balls_fresh (rt : Runtime) (n : nat) (w : Pool) :
  (forall k, unit_draw (random rt k) = true) ->
  Forall fresh_ball (pool_balls w) ->
  Forall fresh_ball (pool_balls (init_balls rt n w)).
Proof.
  intros Hu. revert w. induction n as [|n IH]; intros w Hw; simpl; [exact Hw|].
  apply IH. cbn [pool_balls]. apply Forall_map_set; [|exact Hw].
  split; [reflexivity|]. apply randInField_in_field; apply Hu.
Qed.

(** X17. Start-up. Before the first event the server has no player, has
    assigned no team, and (with [Math.random] in [0, 1) and [uuidv4] never
    repeating an id) holds [BALL_COUNT] balls with distinct ids, none of
    them carried and all of them inside the field rectangle. *)
Theorem startup_pool_is_fresh (rt : Runtime) :
  uuid_injective rt -> (forall k, unit_draw (random rt k) = true) ->
  players (initial_state rt) = [] /\
  nextTeamIndex (initial_state rt) = 0%Z /\
  List.length (balls (initial_state rt)) = BALL_COUNT /\
  NoDup (map Ball.id (balls (initial_state rt))) /\
  Forall fresh_ball (balls (initial_state rt)).
Proof.
  intros Hinj Hu. destruct (initial_state_pool_ok rt Hinj) as (Hlen & Hnd & _).
  repeat split; try assumption; try reflexivity.
  unfold initial_state. cbn [balls]. apply init_balls_fresh; [exact Hu | constructor].
Qed.

(** * From the keys to the direction the server stores *)

Lemma direction_unit_steps (ks : KeyState.t) :
  Client.direction ks
  = (unit_step (KeyState.ArrowLeft ks || KeyState.a ks) (KeyState.ArrowRight ks || KeyState.d ks),
     unit_step (KeyState.ArrowUp ks || KeyState.w ks) (KeyState.ArrowDown ks || KeyState.s ks)).
Proof.
  unfold Client.direction.
  destruct (KeyState.ArrowLeft ks || KeyState.a ks), (KeyState.ArrowRight ks || KeyState.d ks),
           (KeyState.ArrowUp ks || KeyState.w ks), (KeyState.ArrowDown ks || KeyState.s ks);
    vm_compute; reflexivity.
Qed.

Lemma wire_unit_step (neg pos : bool) :
  Client.wire (unit_step neg pos) = JS.Number (unit_step neg pos).
Proof. destruct neg, pos; vm_compute; reflexivity. Qed.

Lemma clamp_unit_step (neg pos : bool) :
  JS.Math_max (-1) (JS.Math_min 1 (unit_step neg pos)) = unit_step neg pos.
Proof. destruct neg, pos; vm_compute; reflexivity. Qed.

(** The server stores the direction of a frame with unit components as it
    is. *)
Lemma deliver_unit_frame (rt : Runtime) (id : string) (s : State) (p : Player.t)
  (nx px ny py : bool) :
  map_get Player.id id (players s) = Some p ->
  fst (onMessage rt id (Some (Client.input_frame (unit_step nx px) (unit_step ny py))) s)
  = with_players s
      (map_update Player.id id
         (fun q => Player.set_dir q (unit_step nx px) (unit_step ny py)) (players s)).
Proof.
  intros Hp. unfold Client.input_frame. rewrite !wire_unit_step.
  unfold onMessage. cbn [JS.get JS.get_field String.eqb Ascii.eqb Bool.eqb is_input].
  simpl is_input. rewrite Hp. cbn [ToNumber fst]. rewrite !clamp_unit_step. reflexivity.
Qed.

Lemma direction_of_set (s : State) (id : string) (p : Player.t) (x y : float) :
  map_get Player.id id (players s) = Some p ->
  direction_of id (with_players s
                     (map_update Player.id id (fun q => Player.set_dir q x y) (players s)))
  = Some (x, y).
Proof.
  intros Hp. unfold direction_of. cbn [with_players players].
  rewrite map_get_update by reflexivity. rewrite String.eqb_refl, Hp. reflexivity.
Qed.

Lemma handleKey_cases (key : string) (down : bool) (c : Client.Input) :
  Client.socket_open c = true ->
  Client.handleKey key down c = (c, []) \/
  exists ks,
    Client.handleKey key down c
    = ({| Client.keyState := ks; Client.currentDirection := Client.direction ks;
          Client.socket_open := true |},
       [Client.input_frame (fst (Client.direction ks)) (snd (Client.direction ks))]).
Proof.
  intros Ho. unfold Client.handleKey. destruct (Client.hasOwnProperty key); [|left; reflexivity].
  right. exists (Client.set_key (Client.keyState c) key down).
  unfold Client.computeDirection. cbn [Client.keyState Client.socket_open].
  destruct (Client.direction _) as [dx dy]. unfold Client.sendDirection.
  cbn [Client.socket_open]. rewrite Ho. reflexivity.
Qed.

Lemma deliver_app (rt : Runtime) (id : string) (f1 f2 : list JS.value) (s : State) :
  deliver rt id (f1 ++ f2) s = deliver rt id f2 (deliver rt id f1 s).
Proof. unfold deliver. apply fold_left_app. Qed.

Lemma keys_then_server (rt : Runtime) (id : string) (evs : list Client.InputEvent) :
  forall (c : Client.Input) (s : State) (p : Player.t),
    Client.socket_open c = true ->
    forallb is_key_event evs = true ->
    map_get Player.id id (players s) = Some p ->
    (Client.inputs evs c = (c, [])) \/
    (snd (Client.inputs evs c) <> [] /\
     direction_of id (deliver rt id (snd (Client.inputs evs c)) s)
     = Some (Client.direction (Client.keyState (fst (Client.inputs evs c)))) /\
     Client.currentDirection (fst (Client.inputs evs c))
     = Client.direction (Client.keyState (fst (Client.inputs evs c)))).
Proof.
  induction evs as [|e evs IH]; intros c s p Ho Hk Hp; [left; reflexivity|].
  cbn [forallb] in Hk. apply andb_prop in Hk. destruct Hk as [He Hk].
  cbn [Client.inputs].
  assert (Hcases : Client.onInput e c = (c, []) \/
            exists ks, Client.onInput e c
              = ({| Client.keyState := ks; Client.currentDirection := Client.direction ks;
                    Client.socket_open := true |},
                 [Client.input_frame (fst (Client.direction ks)) (snd (Client.direction ks))])).
  { destruct e as [key|key|b|b]; try discriminate; apply handleKey_cases; exact Ho. }
  destruct Hcases as [E|(ks & E)]; rewrite E.
  - destruct (IH c s p Ho Hk Hp) as [E2|(H1 & H2 & H3)].
    + left. rewrite E2. reflexivity.
    + right. destruct (Client.inputs evs c) as [c2 out2]. cbn [fst snd app] in *. auto.
  - set (c1 := {| Client.keyState := ks; Client.currentDirection := Client.direction ks;
                  Client.socket_open := true |}).
    set (f := Client.input_frame _ _).
    assert (Hs1 : fst (onMessage rt id (Some f) s)
                  = with_players s
                      (map_update Player.id id
                         (fun q => Player.set_dir q (fst (Client.direction ks))
                                                  (snd (Client.direction ks))) (players s))).
    { unfold f. rewrite direction_unit_steps. cbn [fst snd]. apply (deliver_unit_frame rt id s p). exact Hp. }
    assert (Hp1 : exists p1, map_get Player.id id (players (fst (onMessage rt id (Some f) s)))
                             = Some p1).
    { rewrite Hs1. cbn [with_players players]. rewrite map_get_update by reflexivity.
      rewrite String.eqb_refl, Hp. simpl. eauto. }
    destruct Hp1 as [p1 Hp1].
    right. destruct (IH c1 (fst (onMessage rt id (Some f) s)) p1 eq_refl Hk Hp1)
      as [E2|(H1 & H2 & H3)].
    + rewrite E2. cbn [fst snd app]. split; [discriminate|]. split; [|reflexivity].
      cbn [deliver fold_left]. rewrite Hs1.
      rewrite (direction_of_set s id p _ _ Hp). cbn [Client.keyState c1].
      destruct (Client.direction ks); reflexivity.
    + destruct (Client.inputs evs c1) as [c2 out2]. cbn [fst snd] in *.
      split; [discriminate|]. split; [|exact H3].
      change ([f] ++ out2) with (f :: out2). cbn [deliver fold_left].
      exact H2.
Qed.

Lemma other_key_ignored (key : string) (down : bool) (c : Client.Input) :
  ~ In key ["ArrowUp"; "ArrowDown"; "ArrowLeft"; "ArrowRight"; "w"; "a"; "s"; "d"]%string ->
  Client.handleKey key down c = (c, []).
Proof.
  intros Hn. unfold Client.handleKey.
  assert (E : Client.hasOwnProperty key = false).
  { unfold Client.hasOwnProperty. cbn [existsb].
    repeat match goal with
           | |- context [String.eqb key ?k] =>
               destruct (String.eqb_spec key k) as [->|_];
               [exfalso; apply Hn; cbn [In]; tauto|]
           end.
    reflexivity. }
  rewrite E. reflexivity.
Qed.

(** X13. From the keyboard to the server. Whatever keys go down and up while
    the socket is open, once a recognised key event has sent a frame, the
    direction the server stores for the player of that connection is the
    one its held keys spell: per axis [-1], [0] or [1], opposite keys
    cancelling and each arrow counting the same as its letter; it is also
    the client's own [currentDirection]. A key event for any key but the
    four arrows and w, a, s, d sends nothing and changes nothing, whether
    the key goes down or up. *)
Theorem server_direction_mirrors_the_keys
  (rt : Runtime) (id : string) (evs : list Client.InputEvent)
  (c : Client.Input) (s : State) (p : Player.t) :
  Client.socket_open c = true ->
  forallb is_key_event evs = true ->
  map_get Player.id id (players s) = Some p ->
  snd (Client.inputs evs c) <> [] ->
  let ks := Client.keyState (fst (Client.inputs evs c)) in
  (direction_of id (deliver rt id (snd (Client.inputs evs c)) s)
   = Some (unit_step (KeyState.ArrowLeft ks || KeyState.a ks)
                     (KeyState.ArrowRight ks || KeyState.d ks),
           unit_step (KeyState.ArrowUp ks || KeyState.w ks)
                     (KeyState.ArrowDown ks || KeyState.s ks)) /\
   Client.currentDirection (fst (Client.inputs evs c)) = Client.direction ks) /\
  (forall (key : string) (c0 : Client.Input),
     ~ In key ["ArrowUp"; "ArrowDown"; "ArrowLeft"; "ArrowRight"; "w"; "a"; "s"; "d"]%string ->
     Client.onInput (Client.keydown key) c0 = (c0, []) /\
     Client.onInput (Client.keyup key) c0 = (c0, []) /\
     forall (before after : list Client.InputEvent),
       Client.inputs (before ++ Client.keydown key :: after) c0
       = Client.inputs (before ++ after) c0 /\
       Client.inputs (before ++ Client.keyup key :: after) c0
       = Client.inputs (before ++ after) c0).
Proof.
  intros Ho Hk Hp Hne ks. split.
  - rewrite <- direction_unit_steps.
    destruct (keys_then_server rt id evs c s p Ho Hk Hp) as [E|(_ & H2 & H3)].
    + rewrite E in Hne. contradiction.
    + split; assumption.
  - intros key c0 Hn. cbn [Client.onInput].
    split; [apply other_key_ignored, Hn|]. split; [apply other_key_ignored, Hn|].
    intros before after. revert c0.
    induction before as [|e before IH]; intros c0.
    + cbn [app Client.inputs Client.onInput]. rewrite !other_key_ignored by exact Hn.
      destruct (Client.inputs after c0) as [c2 out2]. split; reflexivity.
    + cbn [app Client.inputs]. destruct (Client.onInput e c0) as [c1 out1].
      destruct (IH c1) as [E1 E2]. rewrite E1, E2. split; reflexivity.
Qed.

(** * Sums and differences of binary64 numbers *)

Module Sum64.
Local Open Scope Z_scope.

Lemma shr_nonneg (mrs : shr_record) (e n : Z) :
  0 <= shr_m mrs -> 0 <= shr_m (fst (shr mrs e n)).
Proof.
  intros Hm. destruct n as [|k|k]; simpl; try exact Hm.
  destruct (Binary64.iter_shr k mrs Hm) as [E _]. rewrite E.
  apply Z.div_pos; [exact Hm | apply Z.pow_pos_nonneg; lia].
Qed.

(** Rounding a positive integer mantissa never yields NaN. *)
Lemma round_aux_not_nan (s : bool) (M : positive) (E : Z) :
  binary_round_aux prec emax s (Z.pos M) E loc_Exact <> S754_nan.
Proof.
  unfold binary_round_aux, shr_fexp.
  pose proof (shr_nonneg (shr_record_of_loc (Z.pos M) loc_Exact) E
                (fexp prec emax (Zdigits2 (Z.pos M) + E) - E) ltac:(simpl; lia)) as H1.
  destruct (shr _ E _) as [mrs' e']. cbn [fst] in H1.
  set (m2 := round_nearest_even (shr_m mrs') (loc_of_shr_record mrs')).
  assert (H2 : 0 <= m2).
  { unfold m2. destruct (Binary64.round_cases (shr_m mrs') (loc_of_shr_record mrs'))
      as [->|[-> _]]; lia. }
  pose proof (shr_nonneg (shr_record_of_loc m2 loc_Exact) e'
                (fexp prec emax (Zdigits2 m2 + e') - e')) as H3.
  assert (H4 : 0 <= shr_m (shr_record_of_loc m2 loc_Exact)) by (simpl; exact H2).
  specialize (H3 H4).
  destruct (shr _ e' _) as [mrs'' e'']. cbn [fst] in H3.
  destruct (shr_m mrs'') as [|m|m]; [discriminate| |lia].
  destruct (e'' <=? emax - prec); discriminate.
Qed.

Lemma normalize_not_nan (m e : Z) (szero : bool) :
  binary_normalize prec emax m e szero <> S754_nan.
Proof.
  unfold binary_normalize, binary_round. destruct m as [|p|p]; [discriminate| |];
    destruct (shl_align _ _ _) as [mz ez]; apply round_aux_not_nan.
Qed.

Lemma is_nan_false (a : float) : Prim2SF a <> S754_nan -> is_nan a = false.
Proof.
  intros H. unfold is_nan. rewrite eqb_spec. unfold SFeqb.
  rewrite (Order64.SFcompare_refl _ H). reflexivity.
Qed.

(** A finite number added to a number that is not NaN does not give NaN. *)
Lemma add_finite_not_nan (x c : float) :
  is_nan x = false -> finite64 c -> is_nan (x + c)%float = false.
Proof.
  intros Hx Hc. apply Order64.not_nan in Hx. apply is_nan_false.
  rewrite add_spec. unfold finite64 in Hc. unfold SF64add.
  destruct (Prim2SF x) as [sx|sx| |sx mx ex], (Prim2SF c) as [sc|sc| |sc mc ec];
    try contradiction; try congruence; cbn [SFadd]; try discriminate.
  - destruct sx, sc; discriminate.
  - apply normalize_not_nan.
Qed.

End Sum64.

(** * Keyboard players stay inside the inset field *)

(** X12. A player steered from the keyboard is kept inside the inset field by
    its own movement: when the stored direction has components [-1], [0] or
    [1] (not both [0]) and the position is not NaN, the movement step of a
    tick ends inside [-395, 395] x [-295, 295], wherever the player stood
    (a collision had pushed it out, say). *)
Theorem keyboard_player_stays_in_bounds (p : Player.t) (nx px ny py : bool) :
  Player.dirX p = unit_step nx px -> Player.dirY p = unit_step ny py ->
  is_nan (Player.x p) = false -> is_nan (Player.y p) = false ->
  JS.strict_neq (Player.dirX p) 0 || JS.strict_neq (Player.dirY p) 0 = true ->
  in_bounds (move p) = true.
Proof.
  intros Hx Hy Nx Ny Hm. apply move_clamps; [exact Hm| |];
    unfold move; rewrite Hm; cbn [Player.set_pos Player.x Player.y];
    unfold clampX, clampY;
    (apply Order64.clamp_not_nan; [reflexivity | reflexivity |]);
    rewrite Hx, Hy in Hm |- *;
    (apply Sum64.add_finite_not_nan; [assumption|]);
    destruct nx, px, ny, py; try (vm_compute in Hm; discriminate Hm);
    vm_compute; exact I.
Qed.

(** * The geometry is symmetric *)

Module Sym64.

Lemma round_aux_opp (s : bool) (m e : Z) (l : location) :
  binary_round_aux prec emax (negb s) m e l = SFopp (binary_round_aux prec emax s m e l).
Proof.
  unfold binary_round_aux. destruct (shr_fexp prec emax m e l) as [mrs' e'].
  destruct (shr_fexp prec emax _ e' loc_Exact) as [mrs'' e''].
  destruct (shr_m mrs''); try reflexivity.
  destruct (e'' <=? emax - prec)%Z; reflexivity.
Qed.

Lemma round_opp (s : bool) (m : positive) (e : Z) :
  binary_round prec emax (negb s) m e = SFopp (binary_round prec emax s m e).
Proof.
  unfold binary_round. destruct (shl_align _ _ _) as [mz ez]. apply round_aux_opp.
Qed.

Lemma normalize_opp (z e : Z) :
  z <> 0%Z ->
  binary_normalize prec emax (- z) e false = SFopp (binary_normalize prec emax z e false).
Proof.
  intros Hz. unfold binary_normalize.
  destruct z as [|p|p]; [congruence| |]; simpl Z.opp.
  - exact (round_opp false p e).
  - exact (round_opp true p e).
Qed.

Lemma sub_swap (x y : spec_float) :
  mirrored (SFsub prec emax x y) (SFsub prec emax y x).
Proof.
  unfold mirrored.
  destruct x as [sx|sx| |sx mx ex], y as [sy|sy| |sy my ey]; cbn [SFsub];
    try (left; reflexivity);
    try (left; simpl; rewrite Bool.negb_involutive; reflexivity);
    try (destruct sx, sy; (left; reflexivity) || (right; eauto); fail).
  cbv zeta. rewrite (Z.min_comm ey ex).
  set (X := cond_Zopp sx (Z.pos (fst (shl_align mx ex (Z.min ex ey))))).
  set (Y := cond_Zopp sy (Z.pos (fst (shl_align my ey (Z.min ex ey))))).
  destruct (Z.eq_dec (X - Y) 0) as [E|E].
  - right. replace (Y - X)%Z with 0%Z by lia. rewrite E. simpl. eauto.
  - left. replace (Y - X)%Z with (- (X - Y))%Z by lia. apply normalize_opp. exact E.
Qed.

Lemma mul_self (a b : spec_float) :
  mirrored a b -> SFmul prec emax a a = SFmul prec emax b b.
Proof.
  intros [->|(s & s' & -> & ->)].
  - destruct a as [s|s| |s m e]; simpl; try reflexivity;
      destruct s; reflexivity.
  - simpl. destruct s, s'; reflexivity.
Qed.

Lemma sqr_diff (x y : float) : ((x - y) * (x - y) = (y - x) * (y - x))%float.
Proof.
  apply Prim2SF_inj. rewrite !mul_spec, !sub_spec. apply mul_self, sub_swap.
Qed.

Lemma SFcompare_opp (a b : spec_float) :
  SFcompare (SFopp b) (SFopp a) = SFcompare a b.
Proof.
  destruct a as [sa|sa| |sa ma ea], b as [sb|sb| |sb mb eb]; simpl; try reflexivity;
    try (destruct sa; reflexivity); try (destruct sb; reflexivity);
    try (destruct sa, sb; reflexivity).
  rewrite (Z.compare_antisym ea eb), !Pos.compare_cont_spec, (Pos.compare_antisym ma mb).
  destruct sa, sb; simpl; try reflexivity;
    destruct (ea ?= eb)%Z; simpl; try reflexivity;
    destruct (ma ?= mb)%positive; reflexivity.
Qed.

Lemma ltb_opp (a b : float) : PrimFloat.ltb (- b) (- a) = PrimFloat.ltb a b.
Proof. rewrite !ltb_spec, !opp_spec. unfold SFltb. rewrite SFcompare_opp. reflexivity. Qed.

Lemma abs_opp (a : float) : abs (- a) = abs a.
Proof.
  apply Prim2SF_inj. rewrite !abs_spec, opp_spec. destruct (Prim2SF a); reflexivity.
Qed.

End Sym64.

(** X19. The squared distance does not depend on the order of the two points,
    bit for bit: the pickup test and the collision test give the same answer
    whichever of the two is taken first. *)
Theorem dist2_is_symmetric (x1 y1 x2 y2 : float) :
  dist2 x1 y1 x2 y2 = dist2 x2 y2 x1 y1.
Proof.
  unfold dist2. cbv zeta. rewrite (Sym64.sqr_diff x1 x2), (Sym64.sqr_diff y1 y2). reflexivity.
Qed.

(** X20. The two goals are mirror images of each other and of themselves: a
    point is in the left goal exactly when its mirror image across the
    vertical midline is in the right goal, a goal contains a point exactly
    when it contains its mirror image across the horizontal midline, and no
    point is in both goals. *)
Theorem goals_mirror_each_other (t : Team) (x y : float) :
  isInGoal TeamRight (- x) y = isInGoal TeamLeft x y /\
  isInGoal t x (- y) = isInGoal t x y /\
  (isInGoal TeamLeft x y = true -> isInGoal TeamRight x y = false).
Proof.
  unfold isInGoal. cbn [Team_eqb]. split; [|split].
  - f_equal. unfold JS.Math_abs.
    change (WORLD_WIDTH / 2 - GOAL_DEPTH)%float with (- (- WORLD_WIDTH / 2 + GOAL_DEPTH))%float.
    apply Sym64.ltb_opp.
  - unfold JS.Math_abs. rewrite Sym64.abs_opp. reflexivity.
  - intros H. apply andb_prop in H. destruct H as [H _].
    apply andb_false_iff. left.
    rewrite ltb_spec in H |- *. unfold SFltb in *.
    change (Prim2SF (- WORLD_WIDTH / 2 + GOAL_DEPTH))
      with (Prim2SF (-380)) in H.
    change (Prim2SF (WORLD_WIDTH / 2 - GOAL_DEPTH)) with (Prim2SF 380).
    replace (Prim2SF (-380)) with (S754_finite true 6685030696878080 (-44)) in H
      by (vm_compute; reflexivity).
    replace (Prim2SF 380) with (S754_finite false 6685030696878080 (-44))
      by (vm_compute; reflexivity).
    unfold SFcompare in *.
    destruct (Prim2SF x) as [s|s| |s m e]; try reflexivity; try discriminate;
      destruct s; try reflexivity; discriminate.
Qed.

(** * Clamps *)

Lemma clamp_nan (lo hi v : float) : is_nan v = true -> is_nan (clamp lo hi v) = true.
Proof.
  intros H. unfold clamp, JS.Math_min. rewrite H, orb_true_r.
  unfold JS.Math_max. replace (is_nan nan) with true by reflexivity.
  rewrite orb_true_r. reflexivity.
Qed.

Lemma clamp_between (lo hi v : float) :
  is_nan lo = false -> is_nan hi = false -> PrimFloat.leb lo hi = true ->
  is_nan (clamp lo hi v) = false -> between lo hi (clamp lo hi v) = true.
Proof.
  intros Hlo Hhi Hle Hn. unfold between.
  destruct (Order64.clamp_in_range lo hi v Hlo Hhi Hle Hn) as [H1 H2].
  unfold clamp. rewrite H1, H2. reflexivity.
Qed.

(** X11. The movement step clamps each axis on its own. A player with a
    non-zero direction ends the movement step with an x inside
    [-W/2 + r, W/2 - r] unless that x is NaN, and with a y inside
    [-H/2 + r, H/2 - r] unless that y is NaN, whatever direction is stored;
    a player whose direction is (0, 0) is not touched. *)
Theorem movement_is_clamped_per_axis (p : Player.t) :
  (JS.strict_neq (Player.dirX p) 0 || JS.strict_neq (Player.dirY p) 0 = false -> move p = p) /\
  (JS.strict_neq (Player.dirX p) 0 || JS.strict_neq (Player.dirY p) 0 = true ->
   (is_nan (Player.x (move p)) = false ->
    between (- WORLD_WIDTH / 2 + PLAYER_RADIUS) (WORLD_WIDTH / 2 - PLAYER_RADIUS)
            (Player.x (move p)) = true) /\
   (is_nan (Player.y (move p)) = false ->
    between (- WORLD_HEIGHT / 2 + PLAYER_RADIUS) (WORLD_HEIGHT / 2 - PLAYER_RADIUS)
            (Player.y (move p)) = true)).
Proof.
  unfold move. split; intros Hm; rewrite Hm; [reflexivity|].
  cbn [Player.set_pos Player.x Player.y]. unfold clampX, clampY.
  split; intros Hn; apply clamp_between; try reflexivity; exact Hn.
Qed.

Lemma ToNumber_throws (rt : Runtime) (v : JS.value) :
  JS.unconvertible v = true <-> ToNumber rt v = None.
Proof.
  destruct v; cbn [ToNumber]; try (split; discriminate);
    match goal with |- context [if ?c then _ else _] => destruct c end;
    split; try reflexivity; discriminate.
Qed.

Lemma clamp_cases (v : float) :
  (if is_nan v then is_nan (clamp (-1) 1 v) else between (-1) 1 (clamp (-1) 1 v)) = true.
Proof.
  destruct (is_nan v) eqn:E; [apply clamp_nan; exact E|].
  apply clamp_between; try reflexivity.
  apply Order64.clamp_not_nan; [reflexivity | reflexivity | exact E].
Qed.

(** X10. What an input message stores. For a message of type 'input' on the
    connection of a stored player: when the conversion of [x] or of [y] to
    a number throws (the field is an object with an own property
    [toString], or an array that holds such an object, directly or in
    nested arrays), the error is logged and nothing is stored. Otherwise
    each of [x] and [y] is converted to a number and clamped on its own: a
    component whose number is not NaN is stored inside [-1, 1]; a component
    whose number is NaN (a missing field, a string that spells no number,
    any other object) is stored as NaN; nothing else in the state changes
    and nothing is logged or sent. *)
Theorem input_is_coerced_and_clamped
  (rt : Runtime) (id : string) (msg : JS.value) (s : State) (p : Player.t) :
  JS.get msg "type" = JS.Str "input" ->
  map_get Player.id id (players s) = Some p ->
  if JS.unconvertible (JS.get msg "x") || JS.unconvertible (JS.get msg "y")
  then onMessage rt id (Some msg) s = (s, [ConsoleError])
  else
    exists nx ny : float,
      ToNumber rt (JS.get msg "x") = Some nx /\
      ToNumber rt (JS.get msg "y") = Some ny /\
      onMessage rt id (Some msg) s
      = (with_players s
           (map_update Player.id id
              (fun q => Player.set_dir q (clamp (-1) 1 nx) (clamp (-1) 1 ny)) (players s)),
         []) /\
      (if is_nan nx then is_nan (clamp (-1) 1 nx) else between (-1) 1 (clamp (-1) 1 nx))
      = true /\
      (if is_nan ny then is_nan (clamp (-1) 1 ny) else between (-1) 1 (clamp (-1) 1 ny))
      = true.
Proof.
  intros Ht Hp.
  assert (Hm : onMessage rt id (Some msg) s
               = match ToNumber rt (JS.get msg "x") with
                 | None => (s, [ConsoleError])
                 | Some nx =>
                     match ToNumber rt (JS.get msg "y") with
                     | None => (s, [ConsoleError])
                     | Some ny =>
                         (with_players s
                            (map_update Player.id id
                               (fun q => Player.set_dir q (clamp (-1) 1 nx) (clamp (-1) 1 ny))
                               (players s)), [])
                     end
                 end).
  { unfold onMessage. rewrite Ht, Hp. simpl is_input. cbv iota.
    destruct msg; try reflexivity; simpl in Ht; discriminate. }
  rewrite Hm.
  pose proof (ToNumber_throws rt (JS.get msg "x")) as Tx.
  pose proof (ToNumber_throws rt (JS.get msg "y")) as Ty.
  destruct (JS.unconvertible (JS.get msg "x")).
  - rewrite (proj1 Tx eq_refl). reflexivity.
  - destruct (ToNumber rt (JS.get msg "x")) as [nx|]; [|destruct Tx as [_ Tx]; discriminate Tx; reflexivity].
    destruct (JS.unconvertible (JS.get msg "y")); cbn [orb].
    + rewrite (proj1 Ty eq_refl). reflexivity.
    + destruct (ToNumber rt (JS.get msg "y")) as [ny|];
        [|destruct Ty as [_ Ty]; discriminate Ty; reflexivity].
      exists nx, ny. repeat split; apply clamp_cases.
Qed.

(** * Touch buttons *)

(** X14. Touch steering. With the socket open, touching a button makes the
    server store that button's direction for the player, and lifting a
    finger off any button makes it store (0, 0), whether or not another
    button is still held; neither changes what the client keeps of the
    keys. *)
Theorem touch_steers_until_any_release
  (rt : Runtime) (id : string) (b : Client.Button)
  (c : Client.Input) (s : State) (p : Player.t) :
  Client.socket_open c = true ->
  map_get Player.id id (players s) = Some p ->
  direction_of id (deliver rt id (snd (Client.onInput (Client.touchstart b) c)) s)
  = Some (Client.button_direction b) /\
  direction_of id (deliver rt id (snd (Client.onInput (Client.touchend b) c)) s)
  = Some (0%float, 0%float) /\
  fst (Client.onInput (Client.touchstart b) c) = c /\
  fst (Client.onInput (Client.touchend b) c) = c.
Proof.
  intros Ho Hp. cbn [Client.onInput fst snd]. unfold Client.sendDirection. rewrite Ho.
  cbn [deliver fold_left].
  assert (H : forall nx px ny py,
             direction_of id
               (fst (onMessage rt id
                       (Some (Client.input_frame (unit_step nx px) (unit_step ny py))) s))
             = Some (unit_step nx px, unit_step ny py)).
  { intros. rewrite (deliver_unit_frame rt id s p _ _ _ _ Hp).
    apply (direction_of_set s id p _ _ Hp). }
  repeat split.
  - destruct b.
    + exact (H false false true false).
    + exact (H false false false true).
    + exact (H true false false false).
    + exact (H false true false false).
  - exact (H false false false false).
Qed.

(** * The ball of a player that leaves *)

(** X2. A ball whose carrier disconnects is lost for good. In every run
    (with [uuidv4] handing out distinct non-empty ids), if a player carries a
    ball when its connection closes, then whatever events follow, the ball
    stays in the pool with the id of that player as its carrier: the close
    handler does not free it, and nothing after it does. *)
Theorem ball_of_a_leaver_is_lost_for_good
  (rt : Runtime) (evs evs' : list Event) (pid bid : string) :
  uuid_injective rt -> (forall k, nonempty (uuidv4 rt k)) ->
  carrying_of (players (state_after rt evs)) pid = Some (Some bid) ->
  carrier_of (balls (state_after rt (evs ++ Close pid :: evs'))) bid = Some (Some pid).
Proof.
  intros Hinj Hne Hc.
  pose proof (ghosted_carry_sound rt _ (state_after_ghosted rt Hinj Hne evs)) as (S1 & S2 & _).
  destruct (state_after_players_ok rt Hinj evs) as (Hnd & Hdr & _).
  assert (Hpool : pool_ok rt BALL_COUNT (balls (state_after rt evs))
                          (uuids_used (state_after rt evs))).
  { unfold state_after, run. apply (run_from_pool_ok rt Hinj).
    apply initial_state_pool_ok. exact Hinj. }
  destruct (carrying_of_Some _ _ _ Hc) as (p & Hp & Hid & Hcp).
  destruct (S1 p bid Hp Hcp) as (b & Hb & Hbid & Hcb).
  assert (Hpid : nonempty pid).
  { destruct (Hdr pid) as (k & _ & <-); [|apply Hne].
    rewrite <- Hid. apply in_map. exact Hp. }
  assert (Ho : orphaned bid pid (map_delete Player.id pid (players (state_after rt evs)))
                        (balls (state_after rt evs))).
  { split.
    - exists b. split; [|congruence].
      destruct Hpool as (_ & Hndb & _). rewrite <- Hbid. apply map_get_of_In; assumption.
    - apply Forall_forall. intros q Hq Hcq.
      destruct (In_map_delete _ Player.id pid _ q Hnd Hq) as [Hin Hqid].
      destruct (In_nth_error _ _ Hp) as [i Hi]. destruct (In_nth_error _ _ Hin) as [j Hj].
      pose proof (S2 i j p q bid Hi Hj Hcp Hcq) as E. subst j.
      rewrite Hi in Hj. injection Hj as <-. contradiction. }
  pose proof (orphaned_forever rt Hinj bid pid Hpid BALL_COUNT evs'
                (with_players (state_after rt evs)
                   (map_delete Player.id pid (players (state_after rt evs)))) Hpool Ho)
    as [(b' & Hb' & Hcb') _].
  unfold state_after at 1, run. rewrite run_from_app. cbn [fst].
  fold (run rt evs). fold (state_after rt evs). cbn [run_from handle onClose].
  destruct (run_from rt _ evs') as [s2 o2]. cbn [fst] in Hb' |- *.
  unfold carrier_of. rewrite Hb'. simpl. congruence.
Qed.



(** * Reading a glTF container *)

Module Bytes.
Local Open Scope N_scope.

Lemma to_N_byte_of (n : N) : n < 256 -> Strings.Byte.to_N (GLB.byte_of n) = n.
Proof.
  intros H. unfold GLB.byte_of. destruct (Strings.Byte.of_N n) as [b|] eqn:E.
  - apply Strings.Byte.to_of_N. exact E.
  - apply Strings.Byte.of_N_None_iff in E. lia.
Qed.

Lemma le32_word (n : N) :
  n < 2 ^ 32 ->
  GLTF.le32 (GLB.byte_of (n mod 256)) (GLB.byte_of (n / 256 mod 256))
            (GLB.byte_of (n / 65536 mod 256)) (GLB.byte_of (n / 16777216 mod 256)) = n.
Proof.
  intros H. unfold GLTF.le32.
  rewrite !to_N_byte_of by (apply N.mod_lt; discriminate).
  change (2 ^ 32) with 4294967296 in H.
  assert (E2 : n / 65536 = n / 256 / 256) by (rewrite N.Div0.div_div; reflexivity).
  assert (E3 : n / 16777216 = n / 65536 / 256) by (rewrite N.Div0.div_div; reflexivity).
  assert (H3 : n / 16777216 < 256) by (apply N.Div0.div_lt_upper_bound; exact H).
  rewrite (N.mod_small _ _ H3).
  pose proof (N.div_mod n 256 ltac:(discriminate)) as D1.
  pose proof (N.div_mod (n / 256) 256 ltac:(discriminate)) as D2.
  pose proof (N.div_mod (n / 65536) 256 ltac:(discriminate)) as D3.
  rewrite <- E2 in D2. rewrite <- E3 in D3.
  rewrite E2 at 1. rewrite <- E2.
  set (a := n mod 256) in *. set (b := n / 256 mod 256) in *.
  set (c := n / 65536 mod 256) in *. set (q1 := n / 256) in *.
  set (q2 := n / 65536) in *. set (q3 := n / 16777216) in *.
  lia.
Qed.

Lemma byteLength_app (a b : list Byte.byte) :
  GLTF.byteLength (a ++ b) = GLTF.byteLength a + GLTF.byteLength b.
Proof. unfold GLTF.byteLength. rewrite length_app. lia. Qed.

Lemma byteLength_word (n : N) : GLTF.byteLength (GLB.word n) = 4.
Proof. reflexivity. Qed.

(** The slice that starts where [pre] ends and is as long as [mid]. *)
Lemma slice_at (pre mid post : list Byte.byte) (off : N) :
  GLTF.byteLength pre = off ->
  GLTF.slice (pre ++ mid ++ post) off (off + GLTF.byteLength mid) = mid.
Proof.
  intros <-. unfold GLTF.slice, GLTF.byteLength.
  replace (N.of_nat (List.length pre) + N.of_nat (List.length mid) - N.of_nat (List.length pre))
    with (N.of_nat (List.length mid)) by lia.
  rewrite !Nat2N.id.
  rewrite skipn_app, skipn_all, Nat.sub_diag. simpl.
  rewrite firstn_app, firstn_all, Nat.sub_diag. simpl. apply app_nil_r.
Qed.

End Bytes.

Section Walk.
Variable D : GLTF.Decoder.
Local Open Scope N_scope.

Lemma words_two (a b : N) :
  a < 2 ^ 32 -> b < 2 ^ 32 ->
  GLTF.words (GLB.word a ++ GLB.word b) = [a; b].
Proof.
  intros Ha Hb. unfold GLB.word. cbn [app GLTF.words].
  rewrite (Bytes.le32_word a Ha), (Bytes.le32_word b Hb). reflexivity.
Qed.

Lemma body_cons (c : N * list Byte.byte) (cs : list (N * list Byte.byte)) :
  GLB.body (c :: cs) = GLB.chunk c ++ GLB.body cs.
Proof. reflexivity. Qed.

Lemma body_app (cs cs' : list (N * list Byte.byte)) :
  GLB.body (cs ++ cs') = GLB.body cs ++ GLB.body cs'.
Proof. unfold GLB.body. rewrite map_app, concat_app. reflexivity. Qed.

Lemma byteLength_chunk (c : N * list Byte.byte) :
  GLTF.byteLength (GLB.chunk c) = 8 + GLTF.byteLength (snd c).
Proof.
  unfold GLB.chunk. rewrite !Bytes.byteLength_app, !Bytes.byteLength_word. lia.
Qed.

Lemma body_length_le (cs : list (N * list Byte.byte)) :
  (List.length cs <= List.length (GLB.body cs))%nat.
Proof.
  induction cs as [|c cs IH]; [simpl; lia|].
  rewrite body_cons, length_app. cbn [List.length].
  assert (1 <= List.length (GLB.chunk c))%nat
    by (unfold GLB.chunk, GLB.word; rewrite length_app; cbn [List.length]; lia).
  lia.
Qed.

(** A chunk header that lies inside the buffer. *)
Lemma header_at (pre post : list Byte.byte) (off len type : N) :
  GLTF.byteLength pre = off -> off mod 4 = 0 ->
  len < 2 ^ 32 -> type < 2 ^ 32 ->
  GLTF.Uint32Array (pre ++ (GLB.word len ++ GLB.word type) ++ post) off 2
  = Some [len; type].
Proof.
  intros Hpre Hmod Hl Ht. unfold GLTF.Uint32Array. rewrite Hmod.
  assert (E : (off + 4 * 2 <=? GLTF.byteLength (pre ++ (GLB.word len ++ GLB.word type) ++ post))
              = true).
  { apply N.leb_le. rewrite !Bytes.byteLength_app, !Bytes.byteLength_word. lia. }
  rewrite E. cbn [N.eqb andb]. f_equal.
  replace (off + 4 * 2) with (off + GLTF.byteLength (GLB.word len ++ GLB.word type))
    by (rewrite Bytes.byteLength_app, !Bytes.byteLength_word; lia).
  rewrite Bytes.slice_at by exact Hpre.
  apply words_two; assumption.
Qed.

(** The chunk loop on the chunks of a container: it reads them in order
    and goes on behind them. *)
Lemma chunks_walk (cs : list (N * list Byte.byte)) :
  forall (pre trailing : list Byte.byte) (k : nat) (length chunkStart : N)
         (json : JS.value) (bin : option (list Byte.byte)),
    GLB.aligned cs ->
    GLTF.byteLength pre = chunkStart ->
    chunkStart mod 4 = 0 ->
    chunkStart + GLTF.byteLength (GLB.body cs) <= length ->
    length < 2 ^ 32 ->
    GLTF.chunks D (List.length cs + k) (pre ++ GLB.body cs ++ trailing)
                length chunkStart json bin
    = GLB.read_then D cs
        (GLTF.chunks D k (pre ++ GLB.body cs ++ trailing) length
                     (chunkStart + GLTF.byteLength (GLB.body cs)))
        json bin.
Proof.
  induction cs as [|[type payload] cs IH];
    intros pre trailing k length chunkStart json bin Hal Hpre Hmod Hlen Hlt.
  - cbn [List.length Nat.add GLB.read_then].
    change (GLB.body []) with (@nil Byte.byte).
    change (GLTF.byteLength []) with 0. rewrite N.add_0_r. reflexivity.
  - inversion Hal as [|? ? [Hty Hpad] Hal']; subst. cbn [fst snd] in Hty, Hpad.
    set (len := GLTF.byteLength payload) in *.
    set (off := GLTF.byteLength pre) in *.
    assert (Hblen : GLTF.byteLength (GLB.body ((type, payload) :: cs))
                    = 8 + len + GLTF.byteLength (GLB.body cs)).
    { rewrite body_cons, Bytes.byteLength_app, byteLength_chunk. reflexivity. }
    rewrite Hblen in Hlen. rewrite Hblen.
    set (data := pre ++ GLB.body ((type, payload) :: cs) ++ trailing).
    assert (Hdata : data = pre ++ (GLB.word len ++ GLB.word type)
                               ++ (payload ++ GLB.body cs ++ trailing)).
    { unfold data. rewrite body_cons. unfold GLB.chunk. cbn [fst snd]. fold len.
      rewrite <- !app_assoc. reflexivity. }
    assert (Hdata2 : data = (pre ++ GLB.word len ++ GLB.word type)
                              ++ payload ++ (GLB.body cs ++ trailing)).
    { rewrite Hdata, <- !app_assoc. reflexivity. }
    assert (Hdata3 : data = (pre ++ GLB.chunk (type, payload)) ++ GLB.body cs ++ trailing).
    { unfold data. rewrite body_cons, <- !app_assoc. reflexivity. }
    assert (Hdl : GLTF.byteLength data
                  = off + 8 + len + GLTF.byteLength (GLB.body cs) + GLTF.byteLength trailing).
    { rewrite Hdata, !Bytes.byteLength_app, !Bytes.byteLength_word. fold off len. lia. }
    cbn [List.length Nat.add GLTF.chunks].
    assert (E : (off <? length) = true) by (apply N.ltb_lt; lia).
    rewrite E. clear E.
    assert (Hhdr : GLTF.Uint32Array data off 2 = Some [len; type]).
    { rewrite Hdata. apply header_at; try reflexivity; try assumption. lia. }
    rewrite Hhdr.
    assert (Hpay : GLTF.slice data (off + 8) (off + 8 + len) = payload).
    { rewrite Hdata2. apply Bytes.slice_at.
      rewrite !Bytes.byteLength_app, !Bytes.byteLength_word. fold off. lia. }
    assert (Hnext : forall j b,
               GLTF.chunks D (List.length cs + k) data length (off + (8 + len)) j b
               = GLB.read_then D cs
                   (GLTF.chunks D k data length
                                (off + (8 + len + GLTF.byteLength (GLB.body cs)))) j b).
    { intros j b.
      replace (off + (8 + len + GLTF.byteLength (GLB.body cs)))
        with (off + (8 + len) + GLTF.byteLength (GLB.body cs)) by lia.
      rewrite Hdata3. apply IH; try assumption.
      - rewrite Bytes.byteLength_app, byteLength_chunk. reflexivity.
      - pose proof (N.div_mod off 4) as Eo. pose proof (N.div_mod len 4) as El.
        rewrite Hmod in Eo. rewrite Hpad in El.
        replace (off + (8 + len)) with ((off / 4 + 2 + len / 4) * 4) by lia.
        apply N.Div0.mod_mul.
      - lia. }
    cbn [GLB.read_then].
    destruct (type =? GLTF.JSON_CHUNK).
    + unfold GLTF.Uint8Array.
      assert (E : (off + 8 + len <=? GLTF.byteLength data) = true) by (apply N.leb_le; lia).
      rewrite E, Hpay.
      destruct (GLTF.JSON_parse D (GLTF.decode D payload)) as [v|]; [apply Hnext | reflexivity].
    + destruct (type =? GLTF.BIN_CHUNK).
      * rewrite Hpay. apply Hnext.
      * apply Hnext.
Qed.

Lemma chunks_at_end (steps : nat) (data : list Byte.byte) (length chunkStart : N)
  (json : JS.value) (bin : option (list Byte.byte)) :
  length <= chunkStart ->
  GLTF.chunks D steps data length chunkStart json bin = GLTF.finish json bin.
Proof.
  intros H. assert (E : (chunkStart <? length) = false) by (apply N.ltb_ge; exact H).
  destruct steps; simpl; rewrite E; reflexivity.
Qed.

Lemma read_then_ext (cs : list (N * list Byte.byte))
  (next next' : JS.value -> option (list Byte.byte) -> GLTF.Result) :
  (forall j b, next j b = next' j b) ->
  forall j b, GLB.read_then D cs next j b = GLB.read_then D cs next' j b.
Proof.
  intros H. induction cs as [|[type payload] cs IH]; intros j b; cbn [GLB.read_then].
  - apply H.
  - destruct (type =? GLTF.JSON_CHUNK).
    + destruct (GLTF.JSON_parse D (GLTF.decode D payload)); [apply IH | reflexivity].
    + destruct (type =? GLTF.BIN_CHUNK); apply IH.
Qed.

Lemma read_then_finish (cs : list (N * list Byte.byte)) :
  forall j b, GLB.read_then D cs GLTF.finish j b = GLB.read D cs j b.
Proof.
  induction cs as [|[type payload] cs IH]; intros j b; cbn [GLB.read_then GLB.read].
  - reflexivity.
  - destruct (type =? GLTF.JSON_CHUNK).
    + destruct (GLTF.JSON_parse D (GLTF.decode D payload)); [apply IH | reflexivity].
    + destruct (type =? GLTF.BIN_CHUNK); apply IH.
Qed.

Lemma read_app (cs cs' : list (N * list Byte.byte)) :
  forall j b, GLB.read D (cs ++ cs') j b = GLB.read_then D cs (GLB.read D cs') j b.
Proof.
  induction cs as [|[type payload] cs IH]; intros j b;
    cbn [app GLB.read_then GLB.read].
  - reflexivity.
  - destruct (type =? GLTF.JSON_CHUNK).
    + destruct (GLTF.JSON_parse D (GLTF.decode D payload)); [apply IH | reflexivity].
    + destruct (type =? GLTF.BIN_CHUNK); apply IH.
Qed.

(** The chunk loop on the chunks of a container that ends with them. *)
Lemma chunks_read (cs : list (N * list Byte.byte))
  (pre trailing : list Byte.byte) (steps : nat) (length chunkStart : N)
  (json : JS.value) (bin : option (list Byte.byte)) :
  GLB.aligned cs ->
  GLTF.byteLength pre = chunkStart ->
  chunkStart mod 4 = 0 ->
  length = chunkStart + GLTF.byteLength (GLB.body cs) ->
  length < 2 ^ 32 ->
  (List.length cs <= steps)%nat ->
  GLTF.chunks D steps (pre ++ GLB.body cs ++ trailing) length chunkStart json bin
  = GLB.read D cs json bin.
Proof.
  intros Hal Hpre Hmod Hlen Hlt Hsteps.
  replace steps with (List.length cs + (steps - List.length cs))%nat by lia.
  rewrite chunks_walk by (try assumption; lia).
  rewrite <- read_then_finish. apply read_then_ext. intros j b.
  apply chunks_at_end. lia.
Qed.

(** The chunk loop ends: a round needs a chunk header of 8 bytes inside
    the buffer and moves on by 8 bytes at least. *)
Lemma chunks_ends (steps : nat) :
  forall (data : list Byte.byte) (length chunkStart : N)
         (json : JS.value) (bin : option (list Byte.byte)),
    GLTF.byteLength data < chunkStart + 8 * N.of_nat (S steps) ->
    GLTF.chunks D (S steps) data length chunkStart json bin <> GLTF.Running.
Proof.
  induction steps as [|steps IH]; intros data length chunkStart json bin H.
  - cbn [GLTF.chunks]. destruct (chunkStart <? length).
    + unfold GLTF.Uint32Array.
      assert (E : (chunkStart + 4 * 2 <=? GLTF.byteLength data) = false)
        by (apply N.leb_gt; lia).
      rewrite E, andb_false_r. discriminate.
    + unfold GLTF.finish. destruct (GLTF.truthy json); discriminate.
  - remember (S steps) as n eqn:En. cbn [GLTF.chunks]. subst n.
    destruct (chunkStart <? length);
      [|unfold GLTF.finish; destruct (GLTF.truthy json); discriminate].
    destruct (GLTF.Uint32Array data chunkStart 2) as [ws|] eqn:Ew; [|discriminate].
    assert (Hin : chunkStart + 8 <= GLTF.byteLength data).
    { unfold GLTF.Uint32Array in Ew.
      destruct (chunkStart + 4 * 2 <=? GLTF.byteLength data) eqn:E;
        [apply N.leb_le in E; lia | rewrite andb_false_r in Ew; discriminate]. }
    destruct ws as [|chunkLength [|chunkType [|]]]; try discriminate.
    assert (Hgo : forall j b, GLTF.chunks D (S steps) data length
                                          (chunkStart + (8 + chunkLength)) j b
                              <> GLTF.Running).
    { intros j b. apply IH. lia. }
    destruct (chunkType =? GLTF.JSON_CHUNK).
    + destruct (GLTF.Uint8Array data (chunkStart + 8) chunkLength); [|discriminate].
      destruct (GLTF.JSON_parse D (GLTF.decode D l)); [apply Hgo | discriminate].
    + destruct (chunkType =? GLTF.BIN_CHUNK); apply Hgo.
Qed.

(** More rounds change nothing once the loop has ended. *)
Lemma chunks_more (steps : nat) :
  forall (steps' : nat) (data : list Byte.byte) (length chunkStart : N)
         (json : JS.value) (bin : option (list Byte.byte)),
    GLTF.chunks D steps data length chunkStart json bin <> GLTF.Running ->
    (steps <= steps')%nat ->
    GLTF.chunks D steps' data length chunkStart json bin
    = GLTF.chunks D steps data length chunkStart json bin.
Proof.
  induction steps as [|steps IH]; intros steps' data length chunkStart json bin H Hle.
  - cbn [GLTF.chunks] in *. destruct (chunkStart <? length) eqn:E; [congruence|].
    destruct steps'; cbn [GLTF.chunks]; rewrite E; reflexivity.
  - destruct steps' as [|steps']; [lia|].
    cbn [GLTF.chunks] in *. destruct (chunkStart <? length); [|reflexivity].
    destruct (GLTF.Uint32Array data chunkStart 2) as [[|chunkLength [|chunkType [|]]]|];
      try reflexivity.
    destruct (chunkType =? GLTF.JSON_CHUNK).
    + destruct (GLTF.Uint8Array data (chunkStart + 8) chunkLength); [|reflexivity].
      destruct (GLTF.JSON_parse D (GLTF.decode D l)); [|reflexivity].
      apply IH; [exact H | lia].
    + destruct (chunkType =? GLTF.BIN_CHUNK); (apply IH; [exact H | lia]).
Qed.

(** A buffer that starts with the magic, a version and a declared length:
    [parse] reaches the chunk loop, or rejects the version. *)
Lemma header_read (version total : N) (rest : list Byte.byte) :
  GLTF.decode D GLB.magic = "glTF"%string ->
  version < 2 ^ 32 -> total < 2 ^ 32 ->
  GLTF.parse D (GLTF.Buffer (GLB.magic ++ GLB.word version ++ GLB.word total ++ rest))
  = if version <? 2 then GLTF.Throw GLTF.OnlyVersion2
    else GLTF.chunks D (List.length (GLB.magic ++ GLB.word version ++ GLB.word total ++ rest))
                     (GLB.magic ++ GLB.word version ++ GLB.word total ++ rest)
                     total 12 JS.Undefined None.
Proof.
  intros Hmagic Hv Ht.
  unfold GLTF.parse, GLTF.parse_within.
  set (data := GLB.magic ++ GLB.word version ++ GLB.word total ++ rest).
  assert (Hdl : GLTF.byteLength data = 12 + GLTF.byteLength rest).
  { unfold data. rewrite !Bytes.byteLength_app, !Bytes.byteLength_word.
    change (GLTF.byteLength GLB.magic) with 4. lia. }
  assert (H4 : GLTF.Uint8Array data 0 4 = Some GLB.magic).
  { unfold GLTF.Uint8Array.
    assert (E : (0 + 4 <=? GLTF.byteLength data) = true) by (apply N.leb_le; lia).
    rewrite E. reflexivity. }
  rewrite H4, Hmagic. simpl (String.eqb _ _).
  assert (H12 : GLTF.Uint32Array data 0 3
                = Some [GLTF.le32 Byte.x67 Byte.x6c Byte.x54 Byte.x46; version; total]).
  { unfold GLTF.Uint32Array.
    assert (E : (0 + 4 * 3 <=? GLTF.byteLength data) = true) by (apply N.leb_le; lia).
    rewrite E. simpl (0 mod 4 =? 0). cbn [andb]. f_equal.
    unfold data, GLTF.slice. simpl (N.to_nat _). unfold GLB.magic, GLB.word.
    cbn [skipn app]. change (Pos.to_nat 12) with 12%nat.
    cbn [firstn GLTF.words].
    rewrite (Bytes.le32_word version Hv), (Bytes.le32_word total Ht). reflexivity. }
  rewrite H12. reflexivity.
Qed.

End Walk.

(** The header of a container: [parse] reaches the chunk loop. *)
Lemma container_header
  (D : GLTF.Decoder) (version : N) (cs : list (N * list Byte.byte))
  (trailing : list Byte.byte) :
  GLTF.decode D GLB.magic = "glTF"%string ->
  (2 <= version < 2 ^ 32)%N ->
  (12 + GLTF.byteLength (GLB.body cs) < 2 ^ 32)%N ->
  GLTF.parse D (GLTF.Buffer (GLB.container version cs ++ trailing))
  = GLTF.chunks D (List.length (GLB.container version cs ++ trailing))
                (GLB.container version cs ++ trailing)
                (12 + GLTF.byteLength (GLB.body cs)) 12 JS.Undefined None.
Proof.
  intros Hmagic [Hv1 Hv2] Hlt.
  assert (Hdata : GLB.container version cs ++ trailing
                  = GLB.magic ++ GLB.word version
                      ++ GLB.word (12 + GLTF.byteLength (GLB.body cs))
                      ++ GLB.body cs ++ trailing).
  { unfold GLB.container. rewrite <- !app_assoc. reflexivity. }
  rewrite Hdata, header_read by assumption.
  assert (E : (version <? 2)%N = false) by (apply N.ltb_ge; lia).
  rewrite E. reflexivity.
Qed.

(** The chunk loop of [parse] on a whole container. *)
Lemma container_chunks
  (D : GLTF.Decoder) (version : N) (cs : list (N * list Byte.byte))
  (trailing : list Byte.byte) (json : JS.value) (bin : option (list Byte.byte)) :
  GLB.aligned cs ->
  (12 + GLTF.byteLength (GLB.body cs) < 2 ^ 32)%N ->
  GLTF.chunks D (List.length (GLB.container version cs ++ trailing))
              (GLB.container version cs ++ trailing)
              (12 + GLTF.byteLength (GLB.body cs)) 12 json bin
  = GLB.read D cs json bin.
Proof.
  intros Hal Hlt.
  assert (Hdata : GLB.container version cs ++ trailing
                  = (GLB.magic ++ GLB.word version
                       ++ GLB.word (12 + GLTF.byteLength (GLB.body cs)))
                      ++ GLB.body cs ++ trailing).
  { unfold GLB.container. rewrite <- !app_assoc. reflexivity. }
  rewrite Hdata.
  apply chunks_read; try assumption; try reflexivity.
  rewrite !length_app. pose proof (body_length_le cs). lia.
Qed.

(** X21. Reading a binary glTF container. For a buffer that starts with a
    container of version 2 or later (the magic bytes decoding to 'glTF', the
    declared length that of the container and below 2^32, every chunk with a
    32-bit type and a payload padded to a multiple of 4 bytes), [parse]
    reads the chunks in order: each JSON chunk replaces the document parsed
    so far, each BIN chunk replaces the binary data with its payload, chunks
    of any other type are skipped, a JSON chunk that does not parse ends the
    load with its syntax error, and a load that ends without a truthy
    document fails. Bytes after the declared length are never looked at. *)
Theorem container_is_read_chunk_by_chunk
  (D : GLTF.Decoder) (version : N) (cs : list (N * list Byte.byte))
  (trailing : list Byte.byte) :
  GLTF.decode D GLB.magic = "glTF"%string ->
  (2 <= version < 2 ^ 32)%N ->
  GLB.aligned cs ->
  (12 + GLTF.byteLength (GLB.body cs) < 2 ^ 32)%N ->
  GLTF.parse D (GLTF.Buffer (GLB.container version cs ++ trailing))
  = GLB.read D cs JS.Undefined None.
Proof.
  intros Hmagic Hv Hal Hlt.
  rewrite container_header by assumption.
  apply container_chunks; assumption.
Qed.

Section Ends.
Variable D : GLTF.Decoder.
Local Open Scope N_scope.

Lemma finish_not_running (json : JS.value) (bin : option (list Byte.byte)) :
  GLTF.finish json bin <> GLTF.Running.
Proof. unfold GLTF.finish. destruct (GLTF.truthy json); discriminate. Qed.

Lemma Uint32Array_in_range (data : list Byte.byte) (off n : N) (ws : list N) :
  GLTF.Uint32Array data off n = Some ws -> off + 4 * n <= GLTF.byteLength data.
Proof.
  unfold GLTF.Uint32Array. intros H.
  destruct (off + 4 * n <=? GLTF.byteLength data) eqn:E;
    [apply N.leb_le in E; exact E | rewrite andb_false_r in H; discriminate].
Qed.

Lemma chunks_same (steps steps' : nat) (data : list Byte.byte) (length chunkStart : N)
  (json : JS.value) (bin : option (list Byte.byte)) :
  GLTF.chunks D steps data length chunkStart json bin <> GLTF.Running ->
  GLTF.chunks D steps' data length chunkStart json bin <> GLTF.Running ->
  GLTF.chunks D steps data length chunkStart json bin
  = GLTF.chunks D steps' data length chunkStart json bin.
Proof.
  intros H H'. destruct (Nat.le_ge_cases steps steps') as [L|L].
  - symmetry. apply chunks_more; assumption.
  - apply chunks_more; assumption.
Qed.

Lemma aligned_app (cs cs' : list (N * list Byte.byte)) :
  GLB.aligned cs -> GLB.aligned cs' -> GLB.aligned (cs ++ cs').
Proof. unfold GLB.aligned. intros. apply Forall_app. split; assumption. Qed.

Lemma aligned_body (cs : list (N * list Byte.byte)) :
  GLB.aligned cs -> GLTF.byteLength (GLB.body cs) mod 4 = 0.
Proof.
  induction 1 as [|c cs [_ Hpad] _ IH]; [reflexivity|].
  rewrite body_cons, Bytes.byteLength_app, byteLength_chunk.
  pose proof (N.div_mod (GLTF.byteLength (snd c)) 4) as E1.
  pose proof (N.div_mod (GLTF.byteLength (GLB.body cs)) 4) as E2.
  rewrite Hpad in E1. rewrite IH in E2.
  replace (8 + GLTF.byteLength (snd c) + GLTF.byteLength (GLB.body cs))
    with ((2 + GLTF.byteLength (snd c) / 4 + GLTF.byteLength (GLB.body cs) / 4) * 4) by lia.
  apply N.Div0.mod_mul.
Qed.

Lemma aligned_filter (f : N * list Byte.byte -> bool) (cs : list (N * list Byte.byte)) :
  GLB.aligned cs -> GLB.aligned (filter f cs).
Proof.
  unfold GLB.aligned. rewrite !Forall_forall. intros H c Hc.
  apply filter_In in Hc. apply H, Hc.
Qed.

Lemma body_filter_le (f : N * list Byte.byte -> bool) (cs : list (N * list Byte.byte)) :
  GLTF.byteLength (GLB.body (filter f cs)) <= GLTF.byteLength (GLB.body cs).
Proof.
  induction cs as [|c cs IH]; [cbn; lia|].
  cbn [filter]. destruct (f c).
  - rewrite !body_cons, !Bytes.byteLength_app. lia.
  - rewrite body_cons, Bytes.byteLength_app. lia.
Qed.

Lemma read_filter_known (cs : list (N * list Byte.byte)) :
  forall j b, GLB.read D (filter GLB.known cs) j b = GLB.read D cs j b.
Proof.
  induction cs as [|[type payload] cs IH]; intros j b; [reflexivity|].
  cbn [filter]. unfold GLB.known, GLB.is_json, GLB.is_bin. cbn [fst].
  destruct (type =? GLTF.JSON_CHUNK) eqn:Ej; cbn [orb].
  - cbn [GLB.read]. rewrite Ej.
    destruct (GLTF.JSON_parse D (GLTF.decode D payload)); [apply IH | reflexivity].
  - destruct (type =? GLTF.BIN_CHUNK) eqn:Eb.
    + cbn [GLB.read]. rewrite Ej, Eb. apply IH.
    + cbn [GLB.read]. rewrite Ej, Eb. apply IH.
Qed.

Lemma read_without_json (cs : list (N * list Byte.byte)) :
  Forall (fun c => GLB.is_json c = false) cs ->
  forall b, GLB.read D cs JS.Undefined b = GLTF.Throw GLTF.FailedToParse.
Proof.
  induction 1 as [|[type payload] cs Hc _ IH]; intros b; [reflexivity|].
  unfold GLB.is_json in Hc. cbn [fst] in Hc. cbn [GLB.read]. rewrite Hc.
  destruct (type =? GLTF.BIN_CHUNK); apply IH.
Qed.

Lemma read_then_const (cs : list (N * list Byte.byte)) (r : GLTF.Result) :
  Forall (fun c => GLB.is_json c = true ->
                   GLTF.JSON_parse D (GLTF.decode D (snd c)) <> None) cs ->
  forall j b, GLB.read_then D cs (fun _ _ => r) j b = r.
Proof.
  induction 1 as [|[type payload] cs Hc _ IH]; intros j b; [reflexivity|].
  unfold GLB.is_json in Hc. cbn [fst snd] in Hc. cbn [GLB.read_then].
  destruct (type =? GLTF.JSON_CHUNK).
  - destruct (GLTF.JSON_parse D (GLTF.decode D payload)); [apply IH|].
    exfalso. apply Hc; reflexivity.
  - destruct (type =? GLTF.BIN_CHUNK); apply IH.
Qed.

(** A slice that would run past the end of the buffer stops there. *)
Lemma slice_to_end (pre mid : list Byte.byte) (off n : N) :
  GLTF.byteLength pre = off -> GLTF.byteLength mid <= n ->
  GLTF.slice (pre ++ mid) off (off + n) = mid.
Proof.
  intros <- Hn. unfold GLTF.slice, GLTF.byteLength in *.
  replace (N.of_nat (List.length pre) + n - N.of_nat (List.length pre)) with n by lia.
  rewrite Nat2N.id, skipn_app, skipn_all, Nat.sub_diag. cbn [skipn app].
  apply firstn_all2. lia.
Qed.

Lemma firstn_app_tail (A B : list Byte.byte) (cut : nat) :
  (cut <= List.length B)%nat ->
  firstn (List.length (A ++ B) - cut) (A ++ B) = A ++ firstn (List.length B - cut) B.
Proof.
  intros H. rewrite length_app, firstn_app. f_equal.
  - apply firstn_all2. lia.
  - f_equal. lia.
Qed.

(** A container whose last chunk has lost its last [cut] bytes: [parse]
    reads the chunks before it and arrives at the header of the last. *)
Lemma cut_container (version type : N) (cs : list (N * list Byte.byte))
  (payload : list Byte.byte) (cut : nat) :
  GLTF.decode D GLB.magic = "glTF"%string ->
  2 <= version < 2 ^ 32 ->
  GLB.aligned cs ->
  12 + GLTF.byteLength (GLB.body (cs ++ [(type, payload)])) < 2 ^ 32 ->
  (cut <= List.length payload)%nat ->
  exists (data pre : list Byte.byte) (k : nat),
    firstn (List.length (GLB.container version (cs ++ [(type, payload)])) - cut)
           (GLB.container version (cs ++ [(type, payload)])) = data /\
    data = pre ++ (GLB.word (GLTF.byteLength payload) ++ GLB.word type)
               ++ firstn (List.length payload - cut) payload /\
    GLTF.byteLength pre = 12 + GLTF.byteLength (GLB.body cs) /\
    GLTF.parse D (GLTF.Buffer data)
    = GLB.read_then D cs
        (GLTF.chunks D (S k) data
                     (12 + GLTF.byteLength (GLB.body cs) + 8 + GLTF.byteLength payload)
                     (12 + GLTF.byteLength (GLB.body cs)))
        JS.Undefined None.
Proof.
  intros Hmagic [Hv1 Hv2] Hal Hlt Hcut.
  set (len := GLTF.byteLength payload) in *.
  set (kept := firstn (List.length payload - cut) payload).
  set (total := 12 + GLTF.byteLength (GLB.body (cs ++ [(type, payload)]))) in *.
  assert (Htotal : total = 12 + GLTF.byteLength (GLB.body cs) + 8 + len).
  { unfold total. rewrite body_app, Bytes.byteLength_app.
    change (GLB.body [(type, payload)]) with (GLB.chunk (type, payload) ++ []).
    rewrite app_nil_r, byteLength_chunk. cbn [snd]. fold len. lia. }
  set (hd := GLB.magic ++ GLB.word version ++ GLB.word total).
  set (tl := (GLB.word len ++ GLB.word type) ++ kept).
  set (data := hd ++ GLB.body cs ++ tl).
  assert (Hwhole : GLB.container version (cs ++ [(type, payload)])
                   = (hd ++ GLB.body cs ++ GLB.word len ++ GLB.word type) ++ payload).
  { unfold GLB.container. fold total. rewrite body_app.
    change (GLB.body [(type, payload)]) with (GLB.chunk (type, payload) ++ []).
    rewrite app_nil_r. unfold GLB.chunk, hd. cbn [fst snd]. fold len.
    rewrite <- !app_assoc. reflexivity. }
  assert (Hfirst : firstn (List.length (GLB.container version (cs ++ [(type, payload)])) - cut)
                          (GLB.container version (cs ++ [(type, payload)])) = data).
  { rewrite Hwhole, firstn_app_tail by exact Hcut. fold kept.
    unfold data, tl. rewrite <- !app_assoc. reflexivity. }
  assert (Hsteps : (List.length cs + 1 <= List.length data)%nat).
  { unfold data, tl. rewrite !length_app. pose proof (body_length_le cs).
    unfold GLB.word at 1. cbn [List.length]. lia. }
  exists data, (hd ++ GLB.body cs), (List.length data - List.length cs - 1)%nat.
  split; [exact Hfirst|]. split; [unfold data, tl; rewrite <- !app_assoc; reflexivity|].
  split.
  { unfold hd. rewrite !Bytes.byteLength_app, !Bytes.byteLength_word.
    change (GLTF.byteLength GLB.magic) with 4. lia. }
  assert (Hparse : GLTF.parse D (GLTF.Buffer data)
                   = GLTF.chunks D (List.length data) data total 12 JS.Undefined None).
  { unfold data, hd. rewrite <- !app_assoc.
    rewrite header_read by assumption.
    assert (E : (version <? 2) = false) by (apply N.ltb_ge; lia).
    rewrite E. reflexivity. }
  rewrite Hparse.
  replace (List.length data)
    with (List.length cs + S (List.length data - List.length cs - 1))%nat at 1 by lia.
  rewrite <- Htotal.
  unfold data at 1 2. apply chunks_walk; try assumption; try reflexivity.
  lia.
Qed.

End Ends.

(** X22. [parse] always comes to an end. The chunk loop of a binary container
    stops after at most as many rounds as the buffer has bytes, whatever
    the bytes are: each round needs a chunk header inside the buffer and
    moves on by at least 8 bytes. So [parse] returns a parser or throws,
    and giving the loop any other number of rounds either leaves it
    unfinished or gives the same result. *)
Theorem parse_always_ends (D : GLTF.Decoder) (data : GLTF.Data) :
  GLTF.parse D data <> GLTF.Running /\
  forall steps : nat,
    GLTF.parse_within D steps data = GLTF.Running \/
    GLTF.parse_within D steps data = GLTF.parse D data.
Proof.
  destruct data as [s|bytes].
  - split; [|intros steps; right; reflexivity].
    unfold GLTF.parse, GLTF.parse_within.
    destruct (GLTF.JSON_parse D s); [apply finish_not_running | discriminate].
  - assert (Hend : GLTF.parse D (GLTF.Buffer bytes) <> GLTF.Running).
    { unfold GLTF.parse, GLTF.parse_within.
      destruct (GLTF.Uint8Array bytes 0 4); [|discriminate].
      destruct (String.eqb (GLTF.decode D l) "glTF").
      - destruct (GLTF.Uint32Array bytes 0 3) as [ws|] eqn:Ew; [|discriminate].
        apply Uint32Array_in_range in Ew.
        destruct ws as [|m [|version [|length [|]]]]; try discriminate.
        destruct (version <? 2)%N; [discriminate|].
        unfold GLTF.byteLength in Ew.
        destruct (List.length bytes) as [|n] eqn:En; [simpl in Ew; lia|].
        apply chunks_ends. unfold GLTF.byteLength. rewrite En. lia.
      - destruct (GLTF.JSON_parse D (GLTF.decode D bytes));
          [apply finish_not_running | discriminate]. }
    split; [exact Hend|]. intros steps.
    destruct (GLTF.parse_within D steps (GLTF.Buffer bytes)) eqn:E; try (left; reflexivity);
      right; rewrite <- E; revert Hend;
      assert (Hs : GLTF.parse_within D steps (GLTF.Buffer bytes) <> GLTF.Running)
        by (rewrite E; discriminate);
      revert Hs; clear E;
      unfold GLTF.parse, GLTF.parse_within;
      destruct (GLTF.Uint8Array bytes 0 4); try reflexivity;
      destruct (String.eqb (GLTF.decode D l) "glTF"); try reflexivity;
      destruct (GLTF.Uint32Array bytes 0 3) as [[|m [|version [|length [|]]]]|];
      try reflexivity;
      destruct (version <? 2)%N; try reflexivity;
      intros Hs Hend; apply chunks_same; assumption.
Qed.

(** X23. Buffers too short for a header. A buffer of fewer than 4 bytes is
    never read as JSON text: the view on its first four bytes fails with a
    RangeError. A buffer that starts with the magic but has fewer than 12
    bytes fails in the same way on the header. *)
Theorem short_buffer_is_a_range_error (D : GLTF.Decoder) (bytes : list Byte.byte) :
  (GLTF.byteLength bytes < 4 \/
   (GLTF.decode D (GLTF.slice bytes 0 4) = "glTF"%string /\ GLTF.byteLength bytes < 12))%N ->
  GLTF.parse D (GLTF.Buffer bytes) = GLTF.Throw GLTF.RangeError.
Proof.
  intros H. unfold GLTF.parse, GLTF.parse_within, GLTF.Uint8Array.
  destruct (0 + 4 <=? GLTF.byteLength bytes)%N eqn:E4.
  - destruct H as [H|[Hm H]]; [apply N.leb_le in E4; lia|].
    change (0 + 4)%N with 4%N. rewrite Hm. simpl (String.eqb _ _).
    unfold GLTF.Uint32Array.
    assert (E : (0 + 4 * 3 <=? GLTF.byteLength bytes)%N = false) by (apply N.leb_gt; lia).
    rewrite E, andb_false_r. reflexivity.
  - reflexivity.
Qed.

(** X24. The version check comes first. A buffer whose header carries the
    magic and a version below 2 is rejected as unsupported, whatever length
    it declares and whatever follows the header. *)
Theorem old_version_is_rejected
  (D : GLTF.Decoder) (version total : N) (rest : list Byte.byte) :
  GLTF.decode D GLB.magic = "glTF"%string ->
  (version < 2)%N -> (total < 2 ^ 32)%N ->
  GLTF.parse D (GLTF.Buffer (GLB.magic ++ GLB.word version ++ GLB.word total ++ rest))
  = GLTF.Throw GLTF.OnlyVersion2.
Proof.
  intros Hmagic Hv Ht.
  assert (Hv' : (version < 2 ^ 32)%N)
    by (change (2 ^ 32)%N with 4294967296%N; lia).
  rewrite header_read by assumption.
  apply N.ltb_lt in Hv. rewrite Hv. reflexivity.
Qed.

(** X25. No JSON chunk, no model. A well-formed container none of whose
    chunks has the JSON type fails to parse, whatever its other chunks
    hold; the container with no chunk at all is one of them. *)
Theorem container_without_json_fails
  (D : GLTF.Decoder) (version : N) (cs : list (N * list Byte.byte))
  (trailing : list Byte.byte) :
  GLTF.decode D GLB.magic = "glTF"%string ->
  (2 <= version < 2 ^ 32)%N ->
  GLB.aligned cs ->
  (12 + GLTF.byteLength (GLB.body cs) < 2 ^ 32)%N ->
  Forall (fun c => GLB.is_json c = false) cs ->
  GLTF.parse D (GLTF.Buffer (GLB.container version cs ++ trailing))
  = GLTF.Throw GLTF.FailedToParse.
Proof.
  intros Hmagic Hv Hal Hlt Hno.
  rewrite container_header by assumption.
  rewrite container_chunks by assumption.
  apply read_without_json. exact Hno.
Qed.

(** X26. Chunks of other types are ignored. Taking the chunks that are
    neither JSON nor BIN out of a well-formed container does not change
    what [parse] makes of it. *)
Theorem unknown_chunks_are_ignored
  (D : GLTF.Decoder) (version : N) (cs : list (N * list Byte.byte))
  (trailing trailing' : list Byte.byte) :
  GLTF.decode D GLB.magic = "glTF"%string ->
  (2 <= version < 2 ^ 32)%N ->
  GLB.aligned cs ->
  (12 + GLTF.byteLength (GLB.body cs) < 2 ^ 32)%N ->
  GLTF.parse D (GLTF.Buffer (GLB.container version (filter GLB.known cs) ++ trailing'))
  = GLTF.parse D (GLTF.Buffer (GLB.container version cs ++ trailing)).
Proof.
  intros Hmagic Hv Hal Hlt.
  pose proof (body_filter_le GLB.known cs) as Hle.
  pose proof (aligned_filter GLB.known cs Hal) as Hal'.
  rewrite !container_header by (try assumption; lia).
  rewrite !container_chunks by (try assumption; lia).
  apply read_filter_known.
Qed.

(** X27. A container cut short inside its last BIN chunk still loads. When
    the buffer ends before the payload of a final BIN chunk does, no error
    is raised: [parse] hands over the part of the payload that is there, as
    if the chunk had been that short. *)
Theorem truncated_binary_chunk_is_accepted
  (D : GLTF.Decoder) (version : N) (cs : list (N * list Byte.byte))
  (payload : list Byte.byte) (cut : nat) :
  GLTF.decode D GLB.magic = "glTF"%string ->
  (2 <= version < 2 ^ 32)%N ->
  GLB.aligned cs ->
  (12 + GLTF.byteLength (GLB.body (cs ++ [(GLTF.BIN_CHUNK, payload)])) < 2 ^ 32)%N ->
  (cut <= List.length payload)%nat ->
  GLTF.parse D
    (GLTF.Buffer
       (firstn (List.length (GLB.container version (cs ++ [(GLTF.BIN_CHUNK, payload)])) - cut)
               (GLB.container version (cs ++ [(GLTF.BIN_CHUNK, payload)]))))
  = GLB.read D (cs ++ [(GLTF.BIN_CHUNK, firstn (List.length payload - cut) payload)])
             JS.Undefined None.
Proof.
  intros Hmagic Hv Hal Hlt Hcut.
  destruct (cut_container D version GLTF.BIN_CHUNK cs payload cut Hmagic Hv Hal Hlt Hcut)
    as (data & pre & k & Hdata & Hshape & Hpre & Hparse).
  rewrite Hdata, Hparse, read_app.
  apply read_then_ext. intros j b.
  set (len := GLTF.byteLength payload) in *.
  set (off := (12 + GLTF.byteLength (GLB.body cs))%N) in *.
  assert (Hb : (GLTF.byteLength (GLB.body (cs ++ [(GLTF.BIN_CHUNK, payload)]))
                = GLTF.byteLength (GLB.body cs) + (8 + len))%N).
  { rewrite body_app, Bytes.byteLength_app.
    change (GLB.body [(GLTF.BIN_CHUNK, payload)])
      with (GLB.chunk (GLTF.BIN_CHUNK, payload) ++ []).
    rewrite app_nil_r, byteLength_chunk. reflexivity. }
  assert (Hmod : (off mod 4 = 0)%N).
  { pose proof (aligned_body cs Hal) as Hm.
    pose proof (N.div_mod (GLTF.byteLength (GLB.body cs)) 4) as E. rewrite Hm in E.
    unfold off. replace (12 + GLTF.byteLength (GLB.body cs))%N
      with ((3 + GLTF.byteLength (GLB.body cs) / 4) * 4)%N by lia.
    apply N.Div0.mod_mul. }
  cbn [GLTF.chunks].
  assert (E : (off <? off + 8 + len)%N = true) by (apply N.ltb_lt; lia).
  rewrite E. clear E.
  assert (Hhdr : GLTF.Uint32Array data off 2 = Some [len; GLTF.BIN_CHUNK]).
  { rewrite Hshape. apply header_at; try assumption; [lia | reflexivity]. }
  rewrite Hhdr.
  change (GLTF.BIN_CHUNK =? GLTF.JSON_CHUNK)%N with false.
  change (GLTF.BIN_CHUNK =? GLTF.BIN_CHUNK)%N with true. cbv iota.
  rewrite chunks_at_end by lia.
  cbn [GLB.read].
  change (GLTF.BIN_CHUNK =? GLTF.JSON_CHUNK)%N with false.
  change (GLTF.BIN_CHUNK =? GLTF.BIN_CHUNK)%N with true. cbv iota.
  f_equal. f_equal.
  rewrite Hshape, app_assoc.
  apply slice_to_end.
  - rewrite !Bytes.byteLength_app, !Bytes.byteLength_word. lia.
  - unfold len, GLTF.byteLength. rewrite length_firstn. lia.
Qed.

(** X28. A container cut short inside its last JSON chunk is a range error.
    When the buffer ends before the payload of a final JSON chunk does, and
    the JSON chunks before it parse, [parse] throws the RangeError of the
    view on the payload; nothing is loaded. *)
Theorem truncated_json_chunk_is_a_range_error
  (D : GLTF.Decoder) (version : N) (cs : list (N * list Byte.byte))
  (payload : list Byte.byte) (cut : nat) :
  GLTF.decode D GLB.magic = "glTF"%string ->
  (2 <= version < 2 ^ 32)%N ->
  GLB.aligned cs ->
  (12 + GLTF.byteLength (GLB.body (cs ++ [(GLTF.JSON_CHUNK, payload)])) < 2 ^ 32)%N ->
  Forall (fun c => GLB.is_json c = true ->
                   GLTF.JSON_parse D (GLTF.decode D (snd c)) <> None) cs ->
  (1 <= cut <= List.length payload)%nat ->
  GLTF.parse D
    (GLTF.Buffer
       (firstn (List.length (GLB.container version (cs ++ [(GLTF.JSON_CHUNK, payload)])) - cut)
               (GLB.container version (cs ++ [(GLTF.JSON_CHUNK, payload)]))))
  = GLTF.Throw GLTF.RangeError.
Proof.
  intros Hmagic Hv Hal Hlt Hok [Hcut1 Hcut].
  destruct (cut_container D version GLTF.JSON_CHUNK cs payload cut Hmagic Hv Hal Hlt Hcut)
    as (data & pre & k & Hdata & Hshape & Hpre & Hparse).
  rewrite Hdata, Hparse.
  rewrite <- (read_then_const D cs (GLTF.Throw GLTF.RangeError) Hok JS.Undefined None).
  apply read_then_ext. intros j b.
  set (len := GLTF.byteLength payload) in *.
  set (off := (12 + GLTF.byteLength (GLB.body cs))%N) in *.
  assert (Hb : (GLTF.byteLength (GLB.body (cs ++ [(GLTF.JSON_CHUNK, payload)]))
                = GLTF.byteLength (GLB.body cs) + (8 + len))%N).
  { rewrite body_app, Bytes.byteLength_app.
    change (GLB.body [(GLTF.JSON_CHUNK, payload)])
      with (GLB.chunk (GLTF.JSON_CHUNK, payload) ++ []).
    rewrite app_nil_r, byteLength_chunk. reflexivity. }
  assert (Hmod : (off mod 4 = 0)%N).
  { pose proof (aligned_body cs Hal) as Hm.
    pose proof (N.div_mod (GLTF.byteLength (GLB.body cs)) 4) as E. rewrite Hm in E.
    unfold off. replace (12 + GLTF.byteLength (GLB.body cs))%N
      with ((3 + GLTF.byteLength (GLB.body cs) / 4) * 4)%N by lia.
    apply N.Div0.mod_mul. }
  cbn [GLTF.chunks].
  assert (E : (off <? off + 8 + len)%N = true) by (apply N.ltb_lt; lia).
  rewrite E. clear E.
  assert (Hhdr : GLTF.Uint32Array data off 2 = Some [len; GLTF.JSON_CHUNK]).
  { rewrite Hshape. apply header_at; try assumption; [lia | reflexivity]. }
  rewrite Hhdr.
  change (GLTF.JSON_CHUNK =? GLTF.JSON_CHUNK)%N with true. cbv iota.
  unfold GLTF.Uint8Array.
  assert (E : (off + 8 + len <=? GLTF.byteLength data)%N = false).
  { apply N.leb_gt. rewrite Hshape, !Bytes.byteLength_app, !Bytes.byteLength_word, Hpre.
    unfold len, GLTF.byteLength. rewrite length_firstn. lia. }
  rewrite E. reflexivity.
Qed.

(** * Products with 1 and -1 *)

Module Unit64.
Local Open Scope Z_scope.

(** Rounding a mantissa that was only shifted gives the number back. *)
Lemma round_exact (s : bool) (my : positive) (ey : Z) :
  bounded prec emax my ey = true ->
  binary_round_aux prec emax s (Z.pos (4503599627370496 * my)) (-52 + ey) loc_Exact
  = S754_finite s my ey.
Proof.
  intros Hb. destruct (Binary64.bounded_facts my ey Hb) as (Hfe & Hhi & Hlo & Hm & Hn).
  change (4503599627370496 * my)%positive with (Pos.iter xO my 52).
  unfold binary_round_aux, shr_fexp.
  change (Zdigits2 (Z.pos (Pos.iter xO my 52)))
    with (Z.pos (digits2_pos (Pos.iter xO my 52))).
  rewrite Binary64.iter_xO_digits, Binary64.iter_xO_value.
  replace (Z.pos (digits2_pos my) + 52 + (-52 + ey)) with (Z.pos (digits2_pos my) + ey) by lia.
  fold (fexp64 (Z.pos (digits2_pos my) + ey)). rewrite <- Hfe.
  replace (ey - (-52 + ey)) with 52 by lia.
  change (shr_record_of_loc (Z.pos my * 2 ^ 52) loc_Exact)
    with (Build_shr_record (Z.pos my * 2 ^ 52) false false).
  destruct (Binary64.shr_spec (Z.pos my * 2 ^ 52) (-52 + ey) 52) as (E1 & E2 & E3);
    [lia | lia |].
  destruct (shr (Build_shr_record (Z.pos my * 2 ^ 52) false false) (-52 + ey) 52)
    as [mrs' e'].
  cbn [fst snd] in E1, E2, E3. subst e'.
  rewrite Z.div_mul in E2 by lia. rewrite E2.
  rewrite E3 by (exists (Z.pos my); reflexivity).
  cbn [round_nearest_even].
  replace (-52 + ey + 52) with ey by lia.
  change (Zdigits2 (Z.pos my)) with (Z.pos (digits2_pos my)).
  fold (fexp64 (Z.pos (digits2_pos my) + ey)). rewrite <- Hfe, Z.sub_diag.
  cbn [shr shr_record_of_loc shr_m].
  assert (E : (ey <=? emax - prec) = true) by (apply Z.leb_le; change (emax - prec) with 971; lia).
  rewrite E. reflexivity.
Qed.

Lemma SFmul_unit (s : bool) (y : spec_float) :
  valid_binary y = true ->
  SFmul prec emax (one_or_minus_one s) y = if s then SFopp y else y.
Proof.
  intros Hv. destruct y as [sy|sy| |sy my ey]; unfold one_or_minus_one; cbn [SFmul SFopp].
  - destruct s; reflexivity.
  - destruct s; reflexivity.
  - destruct s; reflexivity.
  - cbn [valid_binary] in Hv. rewrite round_exact by exact Hv.
    destruct s; reflexivity.
Qed.

Lemma mul_one (x : float) : (1 * x = x)%float.
Proof.
  rewrite <- (SF2Prim_Prim2SF (1 * x)), mul_spec.
  change (Prim2SF 1) with (one_or_minus_one false).
  rewrite SFmul_unit by apply Prim2SF_valid. apply SF2Prim_Prim2SF.
Qed.

Lemma mul_minus_one (x : float) : (-1 * x = - x)%float.
Proof.
  rewrite <- (SF2Prim_Prim2SF (-1 * x)), mul_spec.
  change (Prim2SF (-1)) with (one_or_minus_one true).
  rewrite SFmul_unit by apply Prim2SF_valid.
  rewrite <- opp_spec. apply SF2Prim_Prim2SF.
Qed.

End Unit64.

(** * Order facts for the rotation step *)

Module Turn64.

Lemma sf_inj (a b : float) : Prim2SF a = Prim2SF b -> a = b.
Proof. intros H. rewrite <- (SF2Prim_Prim2SF a), H. apply SF2Prim_Prim2SF. Qed.

Lemma leb_not_nan (a b : float) :
  PrimFloat.leb a b = true -> is_nan a = false /\ is_nan b = false.
Proof.
  rewrite leb_spec. unfold SFleb. intros H.
  split; apply Sum64.is_nan_false; intros E; rewrite E in H;
    destruct (Prim2SF a), (Prim2SF b); discriminate.
Qed.

Lemma ltb_not_nan (a b : float) :
  PrimFloat.ltb a b = true -> is_nan a = false /\ is_nan b = false.
Proof. intros H. apply leb_not_nan, Order64.ltb_leb, H. Qed.

Lemma abs_not_nan (d : float) : is_nan d = false -> is_nan (abs d) = false.
Proof.
  intros H. apply Order64.not_nan in H. apply Sum64.is_nan_false.
  rewrite abs_spec. destruct (Prim2SF d); try discriminate. congruence.
Qed.

Lemma abs_nonneg (d : float) : is_nan d = false -> PrimFloat.leb 0 (abs d) = true.
Proof.
  intros H. apply Order64.not_nan in H. rewrite leb_spec, abs_spec.
  change (Prim2SF 0) with (S754_zero false).
  destruct (Prim2SF d); try reflexivity. congruence.
Qed.

(** [Math.min] of two numbers is one of them and not above either. *)
Lemma min_le (a b : float) :
  is_nan a = false -> is_nan b = false ->
  (JS.Math_min a b = a \/ JS.Math_min a b = b) /\
  PrimFloat.leb (JS.Math_min a b) a = true /\
  PrimFloat.leb (JS.Math_min a b) b = true.
Proof.
  intros Ha Hb. unfold JS.Math_min. rewrite Ha, Hb. cbn [orb].
  destruct (PrimFloat.ltb a b) eqn:E1.
  - split; [left; reflexivity|]. split; [apply Order64.leb_refl, Ha|].
    apply Order64.ltb_leb, E1.
  - destruct (PrimFloat.ltb b a) eqn:E2.
    + split; [right; reflexivity|]. split; [apply Order64.ltb_leb, E2|].
      apply Order64.leb_refl, Hb.
    + pose proof (Order64.not_ltb_leb a b Ha Hb E1) as L1.
      pose proof (Order64.not_ltb_leb b a Hb Ha E2) as L2.
      destruct (JS.is_neg_zero a).
      * split; [left; reflexivity|]. split; [apply Order64.leb_refl, Ha | exact L2].
      * split; [right; reflexivity|]. split; [exact L1 | apply Order64.leb_refl, Hb].
Qed.

(** For a number that is not negative, the absolute value compares as the
    number does. *)
Lemma abs_leb_nonneg (x m : float) :
  PrimFloat.leb 0 x = true -> PrimFloat.leb (abs x) m = PrimFloat.leb x m.
Proof.
  rewrite !leb_spec, abs_spec. change (Prim2SF 0) with (S754_zero false).
  destruct (Prim2SF x) as [s|s| |s mx ex]; cbn [SFabs]; try reflexivity.
  - destruct s; [discriminate | reflexivity].
  - destruct s; [discriminate | reflexivity].
Qed.

(** A number between 0 and a zero is a zero. *)
Lemma squeezed_zero (x z : float) :
  PrimFloat.leb 0 x = true -> PrimFloat.leb x z = true -> is_zero z = true ->
  exists s, Prim2SF x = S754_zero s.
Proof.
  unfold is_zero. rewrite !leb_spec, eqb_spec. change (Prim2SF 0) with (S754_zero false).
  change (Prim2SF zero) with (S754_zero false).
  unfold SFleb, SFeqb.
  destruct (Prim2SF x) as [s|s| |s mx ex], (Prim2SF z) as [t|t| |t mz ez];
    cbn [SFcompare]; try discriminate; try (intros; eexists; reflexivity);
    destruct s; try discriminate; destruct t; discriminate.
Qed.

Lemma is_zero_sf (d : float) : is_zero d = true -> exists s, Prim2SF d = S754_zero s.
Proof.
  unfold is_zero. rewrite eqb_spec. change (Prim2SF zero) with (S754_zero false).
  unfold SFeqb. destruct (Prim2SF d) as [s|s| |s mx ex]; cbn [SFcompare];
    try discriminate; try (intros; eexists; reflexivity);
    destruct s; discriminate.
Qed.

Lemma sub_finite_not_nan (x c : float) :
  is_nan x = false -> finite64 c -> is_nan (x - c)%float = false.
Proof.
  intros Hx Hc. apply Order64.not_nan in Hx. apply Sum64.is_nan_false.
  rewrite sub_spec. unfold finite64 in Hc. unfold SF64sub.
  destruct (Prim2SF x) as [sx|sx| |sx mx ex], (Prim2SF c) as [sc|sc| |sc mc ec];
    try contradiction; try congruence; cbn [SFsub]; try discriminate.
  - destruct sx, sc; discriminate.
  - apply Sum64.normalize_not_nan.
Qed.

Lemma shortest_not_nan (d : float) : is_nan d = false -> is_nan (Rotation.shortest d) = false.
Proof.
  intros H. unfold Rotation.shortest.
  destruct (PrimFloat.ltb Rotation.Math_PI d).
  - apply sub_finite_not_nan; [exact H | vm_compute; exact I].
  - destruct (PrimFloat.ltb d (- Rotation.Math_PI)); [|exact H].
    apply Sum64.add_finite_not_nan; [exact H | vm_compute; exact I].
Qed.

(** The sign of a rounded product. *)
Lemma round_aux_sign (s : bool) (M : positive) (E : Z) :
  SFleb (S754_zero false) (binary_round_aux prec emax false (Z.pos M) E loc_Exact) = true.
Proof.
  pose proof (Sum64.round_aux_not_nan false M E) as Hn. revert Hn.
  unfold binary_round_aux.
  destruct (shr_fexp prec emax (Z.pos M) E loc_Exact) as [mrs' e'].
  destruct (shr_fexp prec emax _ e' loc_Exact) as [mrs'' e''].
  destruct (shr_m mrs''); [reflexivity| |congruence].
  destruct (e'' <=? emax - prec)%Z; reflexivity.
Qed.

(** The frame budget of a frame that did not go back in time. *)
Lemma budget_nonneg (deltaTime : float) :
  PrimFloat.leb 0 deltaTime = true ->
  PrimFloat.leb 0 (Rotation.maxRotationThisFrame deltaTime) = true.
Proof.
  unfold Rotation.maxRotationThisFrame. rewrite !leb_spec, mul_spec.
  change (Prim2SF 0) with (S754_zero false).
  change (Prim2SF Rotation.ROTATION_SPEED) with (S754_finite false 6755399441055744 (-51)).
  unfold SF64mul.
  destruct (Prim2SF deltaTime) as [s|s| |s md ed]; cbn [SFmul xorb]; try discriminate.
  - reflexivity.
  - destruct s; [discriminate | reflexivity].
  - destruct s; [discriminate|]. intros _. apply (round_aux_sign false).
Qed.

End Turn64.

(** X29. The turn of a model is rate limited. When the difference between
    target and current rotation is a number and the frame time is not
    negative, the rotation [interpolateRotation] adds to the current one is
    at most [ROTATION_SPEED * deltaTime] in absolute value, however far
    away the target is. *)
Theorem turn_is_rate_limited (current target deltaTime : float) :
  is_nan (target - current)%float = false ->
  PrimFloat.leb 0 deltaTime = true ->
  Rotation.interpolateRotation current (Some target) deltaTime
  = (current + Rotation.actualRotation current target deltaTime)%float /\
  PrimFloat.leb (abs (Rotation.actualRotation current target deltaTime))
                (Rotation.ROTATION_SPEED * deltaTime)%float = true.
Proof.
  intros Hd Hdt. split; [reflexivity|].
  pose proof (Turn64.budget_nonneg deltaTime Hdt) as Hm.
  fold (Rotation.maxRotationThisFrame deltaTime).
  unfold Rotation.actualRotation.
  set (m := Rotation.maxRotationThisFrame deltaTime) in *.
  set (d := Rotation.shortest (target - current)).
  assert (Hdn : is_nan d = false) by (apply Turn64.shortest_not_nan, Hd).
  destruct (Turn64.leb_not_nan _ _ Hm) as [_ Hmn].
  pose proof (Turn64.abs_not_nan d Hdn) as Han.
  pose proof (Turn64.abs_nonneg d Hdn) as Ha0.
  destruct (Turn64.min_le (abs d) m Han Hmn) as (Hx & Hxa & Hxm).
  unfold JS.Math_abs.
  set (x := JS.Math_min (abs d) m) in *.
  assert (Hx0 : PrimFloat.leb 0 x = true) by (destruct Hx as [-> | ->]; assumption).
  unfold Rotation.Math_sign. rewrite Hdn.
  destruct (is_zero d) eqn:Ez.
  - destruct (Turn64.is_zero_sf d Ez) as [s Es].
    assert (Eaz : is_zero (abs d) = true).
    { unfold is_zero. rewrite eqb_spec, abs_spec, Es. reflexivity. }
    destruct (Turn64.squeezed_zero x (abs d) Hx0 Hxa Eaz) as [t Et].
    rewrite leb_spec, abs_spec, mul_spec, Es, Et. cbn [SF64mul SFmul SFabs].
    rewrite leb_spec in Hm. exact Hm.
  - destruct (PrimFloat.ltb 0 d).
    + rewrite Unit64.mul_one, Turn64.abs_leb_nonneg by exact Hx0. exact Hxm.
    + rewrite Unit64.mul_minus_one, Sym64.abs_opp, Turn64.abs_leb_nonneg by exact Hx0.
      exact Hxm.
Qed.

(** X30. A turn that fits into the frame is made at once. When the
    difference between target and current rotation, taken the shortest way
    round, is a number not above the frame's budget [ROTATION_SPEED *
    deltaTime] in absolute value, and that budget is positive,
    [interpolateRotation] adds exactly that difference to the current
    rotation. *)
Theorem turn_within_budget_is_made_at_once (current target deltaTime : float) :
  PrimFloat.ltb 0 (Rotation.ROTATION_SPEED * deltaTime)%float = true ->
  PrimFloat.leb (abs (Rotation.shortest (target - current)))
                (Rotation.ROTATION_SPEED * deltaTime)%float = true ->
  Rotation.interpolateRotation current (Some target) deltaTime
  = (current + Rotation.shortest (target - current))%float.
Proof.
  intros Hm Hle. unfold Rotation.interpolateRotation. f_equal.
  unfold Rotation.actualRotation, Rotation.maxRotationThisFrame, JS.Math_abs.
  set (m := (Rotation.ROTATION_SPEED * deltaTime)%float) in *.
  set (d := Rotation.shortest (target - current)) in *.
  destruct (Turn64.leb_not_nan _ _ Hle) as [Han Hmn].
  assert (Hdn : is_nan d = false).
  { apply Sum64.is_nan_false. apply Order64.not_nan in Han. rewrite abs_spec in Han.
    intros E. rewrite E in Han. apply Han. reflexivity. }
  assert (Hmin : JS.Math_min (abs d) m = abs d).
  { unfold JS.Math_min. rewrite Han, Hmn. cbn [orb].
    destruct (PrimFloat.ltb (abs d) m) eqn:E1; [reflexivity|].
    destruct (PrimFloat.ltb m (abs d)) eqn:E2.
    - rewrite ltb_spec in E2. rewrite leb_spec in Hle. unfold SFltb in E2. unfold SFleb in Hle.
      rewrite (Order64.SFcompare_antisym (Prim2SF (abs d)) (Prim2SF m)) in E2.
      destruct (SFcompare (Prim2SF (abs d)) (Prim2SF m)) as [[| |]|]; discriminate.
    - destruct (JS.is_neg_zero (abs d)); [reflexivity|].
      symmetry. apply Turn64.sf_inj.
      rewrite ltb_spec in E1, Hm. rewrite leb_spec in Hle. rewrite abs_spec in *.
      change (Prim2SF 0) with (S754_zero false) in Hm.
      unfold SFltb in E1, Hm. unfold SFleb in Hle.
      destruct (Prim2SF d) as [s|s| |s md ed], (Prim2SF m) as [t|t| |t mm em];
        cbn [SFabs SFcompare] in *; try discriminate;
        try (destruct t; discriminate).
      + destruct t; [discriminate | reflexivity].
      + destruct t; [discriminate|].
        destruct (ed ?= em)%Z eqn:Ee; try discriminate.
        apply Z.compare_eq in Ee. subst em.
        destruct (Pos.compare_cont Eq md mm) eqn:Ec; try discriminate.
        apply Pos.compare_eq in Ec. subst mm. reflexivity. }
  rewrite Hmin. unfold Rotation.Math_sign. rewrite Hdn.
  destruct (is_zero d) eqn:Ez.
  - destruct (Turn64.is_zero_sf d Ez) as [s Es].
    apply Turn64.sf_inj. rewrite mul_spec, abs_spec, Es. destruct s; reflexivity.
  - destruct (PrimFloat.ltb 0 d) eqn:Ep.
    + rewrite Unit64.mul_one. apply Turn64.sf_inj. rewrite abs_spec.
      rewrite ltb_spec in Ep. change (Prim2SF 0) with (S754_zero false) in Ep.
      destruct (Prim2SF d) as [s|s| |s md ed]; try discriminate; try reflexivity;
        destruct s; try discriminate; reflexivity.
    + rewrite Unit64.mul_minus_one. apply Turn64.sf_inj. rewrite opp_spec, abs_spec.
      rewrite ltb_spec in Ep. change (Prim2SF 0) with (S754_zero false) in Ep.
      unfold is_zero in Ez. rewrite eqb_spec in Ez.
      change (Prim2SF zero) with (S754_zero false) in Ez.
      apply Order64.not_nan in Hdn.
      destruct (Prim2SF d) as [s|s| |s md ed]; try discriminate; try congruence;
        destruct s; try discriminate; reflexivity.
Qed.

(** * A goal, over the whole tick *)

Section Kept.
Variable rt : Runtime.
Hypothesis uuid_inj : uuid_injective rt.
Variable nid : string.

Lemma follow_keeps_ball (p : Player.t) (bs : list Ball.t) (b : Ball.t) :
  Player.carryingBallId p <> Some nid ->
  map_get Ball.id nid bs = Some b -> map_get Ball.id nid (follow p bs) = Some b.
Proof.
  intros Hc Hb. unfold follow.
  destruct (Player.carryingBallId p) as [k|]; [|exact Hb].
  destruct (JS.truthy (Some k)); [|exact Hb].
  rewrite map_get_update by reflexivity.
  destruct (String.eqb k nid) eqn:E; [|exact Hb].
  apply String.eqb_eq in E. congruence.
Qed.

Lemma scoring_keeps_ball (p : Player.t) (w : Pool) (b : Ball.t) :
  NoDup (map Ball.id (pool_balls w)) ->
  ids_drawn rt (pool_uuids w) (map Ball.id (pool_balls w)) ->
  Player.carryingBallId p <> Some nid ->
  map_get Ball.id nid (pool_balls w) = Some b ->
  map_get Ball.id nid (pool_balls (snd (scoring rt p w))) = Some b.
Proof.
  intros Hnd Hdr Hc Hb. unfold scoring.
  destruct (JS.truthy (Player.carryingBallId p) && isInGoal _ _ _); [|exact Hb].
  simpl. destruct (Player.carryingBallId p) as [k|] eqn:Ek; [|exact Hb].
  destruct (map_get Ball.id k (pool_balls w)) as [old|] eqn:Hget; [|exact Hb].
  simpl.
  assert (Hfresh : ~ In (Ball.id (createBall rt (pool_randoms w) (pool_uuids w)))
                     (map Ball.id (map_delete Ball.id k (pool_balls w)))).
  { simpl. intros Hin. apply (ids_drawn_fresh rt uuid_inj _ _ Hdr).
    eapply map_delete_keys_incl. exact Hin. }
  rewrite (map_set_fresh _ _ _ _ Hfresh).
  apply map_get_app_l. rewrite map_get_delete by exact Hnd.
  destruct (String.eqb k nid) eqn:E; [|exact Hb].
  apply String.eqb_eq in E. congruence.
Qed.

(** A ball without a carrier is not touched by the step of any player. *)
Lemma step_player_keeps_ball (l1 l2 : list Player.t) (q : Player.t) (w : Pool) (b : Ball.t) :
  carry_inv (l1 ++ q :: l2) (pool_balls w) ->
  ids_drawn rt (pool_uuids w) (map Ball.id (pool_balls w)) ->
  map_get Ball.id nid (pool_balls w) = Some b -> Ball.carriedBy b = None ->
  map_get Ball.id nid (pool_balls (snd (step_player rt q w))) = Some b.
Proof.
  intros Hinv Hdr Hb Hfree. pose proof Hinv as [(Hnd & Hndb & _) Hcons].
  assert (Hq : Player.carryingBallId q <> Some nid).
  { intros Hq.
    assert (H : carrying_of (l1 ++ q :: l2) (Player.id q) = Some (Some nid))
      by (rewrite carrying_of_here by exact Hnd; congruence).
    apply Hcons in H. unfold carrier_of in H. rewrite Hb in H. simpl in H. congruence. }
  unfold step_player. apply scoring_keeps_ball.
  - cbn [pool_balls]. rewrite follow_ids. exact Hndb.
  - cbn [pool_balls pool_uuids]. rewrite follow_ids. exact Hdr.
  - rewrite move_carrying. exact Hq.
  - cbn [pool_balls]. apply follow_keeps_ball; [rewrite move_carrying; exact Hq | exact Hb].
Qed.

Lemma released_refl (b : Ball.t) : released b b.
Proof. split; [reflexivity | left; reflexivity]. Qed.

Lemma released_trans (a b c : Ball.t) : released a b -> released b c -> released a c.
Proof.
  intros [P1 C1] [P2 C2]. split; [congruence|].
  destruct C1, C2; [left | right | right | right]; congruence.
Qed.

Lemma drop_keeps (p : Player.t) (bs : list Ball.t) (b : Ball.t) :
  map_get Ball.id nid bs = Some b ->
  exists b', map_get Ball.id nid (snd (drop p bs)) = Some b' /\ released b b'.
Proof.
  intros Hb. unfold drop.
  destruct (Player.carryingBallId p) as [k|];
    [|exists b; split; [exact Hb | apply released_refl]].
  destruct (JS.truthy (Some k)); [|exists b; split; [exact Hb | apply released_refl]].
  cbn [snd]. rewrite map_get_update by reflexivity. rewrite Hb.
  destruct (String.eqb k nid); simpl.
  - eexists. split; [reflexivity|]. split; [reflexivity | right; reflexivity].
  - exists b. split; [reflexivity | apply released_refl].
Qed.

Lemma collide_keeps (i j : nat) (w : list Player.t * list Ball.t) (b : Ball.t) :
  (exists b', map_get Ball.id nid (snd w) = Some b' /\ released b b') ->
  exists b', map_get Ball.id nid (snd (collide i j w)) = Some b' /\ released b b'.
Proof.
  intros (b0 & Hb0 & R0). unfold collide. destruct w as [ps bs]. cbn [snd] in Hb0.
  destruct (nth_error ps i) as [p1|]; [|exists b0; split; assumption].
  destruct (nth_error ps j) as [p2|]; [|exists b0; split; assumption].
  destruct (PrimFloat.ltb _ _); [|exists b0; split; assumption].
  match goal with |- context [drop ?a bs] =>
    destruct (drop_keeps a bs b0 Hb0) as (b1 & Hb1 & R1); destruct (drop a bs) as [p1b bs1] end.
  cbn [snd] in Hb1.
  match goal with |- context [drop ?a bs1] =>
    destruct (drop_keeps a bs1 b1 Hb1) as (b2 & Hb2 & R2); destruct (drop a bs1) as [p2b bs2] end.
  cbn [snd] in *. exists b2. split; [exact Hb2|].
  eapply released_trans; [exact R0|]. eapply released_trans; eassumption.
Qed.

Lemma collisions_keeps (w : list Player.t * list Ball.t) (b : Ball.t) :
  map_get Ball.id nid (snd w) = Some b ->
  exists b', map_get Ball.id nid (snd (collisions w)) = Some b' /\ released b b'.
Proof.
  intros Hb. unfold collisions.
  apply (fold_left_invariant _ _
           (fun a => exists b', map_get Ball.id nid (snd a) = Some b' /\ released b b'));
    [|exists b; split; [exact Hb | apply released_refl]].
  intros a i Ha. unfold collide_from.
  apply (fold_left_invariant _ _
           (fun a => exists b', map_get Ball.id nid (snd a) = Some b' /\ released b b'));
    [|exact Ha].
  intros a' j Ha'. apply collide_keeps. exact Ha'.
Qed.

End Kept.

Section Goal.
Variable rt : Runtime.
Hypothesis uuid_inj : uuid_injective rt.
Hypothesis uuid_nonempty : forall k, nonempty (uuidv4 rt k).
Hypothesis unit_draws : forall k, unit_draw (random rt k) = true.

Lemma update_state_goal (s : State) (i : nat) (p : Player.t) (bid : string) :
  ghosted rt s ->
  nth_error (players s) i = Some p ->
  Player.carryingBallId p = Some bid ->
  isInGoal (Player.team p) (Player.x (move p)) (Player.y (move p)) = true ->
  (Player.score p < 2 ^ 53)%Z ->
  exists (p' : Player.t) (nb : Ball.t),
    (nth_error (players (update_state rt s)) i = Some p' /\
     Player.id p' = Player.id p /\
     Player.score p' = (Player.score p + 1)%Z /\
     Player.carryingBallId p' <> Some bid) /\
    (~ In bid (map Ball.id (balls (update_state rt s))) /\
     Forall (fun q => Player.carryingBallId q <> Some bid) (players (update_state rt s))) /\
    (In nb (balls (update_state rt s)) /\
     ~ In (Ball.id nb) (map Ball.id (balls s)) /\
     (exists k, uuids_used s <= k < uuids_used (update_state rt s) /\
                Ball.id nb = uuidv4 rt k) /\
     in_field (Ball.x nb) (Ball.y nb) = true) /\
    In (Ball.set_carriedBy nb None)
       (pool_balls (snd (step_players rt (players s)
                           {| pool_balls := balls s; pool_randoms := randoms_used s;
                              pool_uuids := uuids_used s |}))) /\
    (Ball.carriedBy nb = None \/
     exists q, In q (players (update_state rt s)) /\
               Ball.carriedBy nb = Some (Player.id q) /\
               Player.carryingBallId q = Some (Ball.id nb)) /\
    List.length (balls (update_state rt s)) = List.length (balls s).
Proof.
  intros Hg Hi Hc Hgoal Hscore.
  pose proof (update_state_ghosted rt uuid_inj uuid_nonempty s Hg) as Hg'.
  pose proof (ghosted_carry_sound rt _ Hg') as (Snd1 & _ & Snd3).
  destruct Hg' as (gs' & _ & HdbEnd & _).
  destruct Hg as (gs & Hinv & Hdb & _).
  cbn [with_players players balls uuids_used] in Hinv, Hdb, HdbEnd.
  destruct (nth_error_split _ _ Hi) as (l1 & l2 & Hps & Hl1).
  pose proof Hinv as [(Hnd & Hndb & _) _].
  assert (Hcar : carrying_of (players s ++ gs) (Player.id p) = Some (Some bid)).
  { unfold carrying_of. rewrite (map_get_of_In _ Player.id _ p Hnd); [simpl; congruence|].
    apply in_or_app. left. exact (nth_error_In _ _ Hi). }
  destruct (carried_ball_exists _ _ _ _ Hinv Hcar) as [Hne Hb0].
  (* who the player is after the tick, and its score *)
  assert (Hplayer : exists p', nth_error (players (update_state rt s)) i = Some p' /\
                               Player.id p' = Player.id p /\
                               Player.score p' = (Player.score p + 1)%Z).
  { unfold carrier_of in Hb0.
    destruct (map_get Ball.id bid (balls s)) as [old|] eqn:Hget; [|discriminate].
    pose proof (scoring_step rt p
                  {| pool_balls := balls s; pool_randoms := randoms_used s;
                     pool_uuids := uuids_used s |} bid old Hc Hne Hgoal Hscore Hget Hndb
                  (ids_drawn_fresh rt uuid_inj _ _ Hdb) (unit_draws _) (unit_draws _)) as H.
    cbn zeta in H. destruct H as (_ & _ & _ & _ & _ & H).
    rewrite <- Hl1. exact (H s l1 l2 Hps). }
  destruct Hplayer as (p' & Hp' & Hid' & Hscore').
  assert (Hlen : List.length (balls (update_state rt s)) = List.length (balls s)).
  { destruct (update_state_pool_ok rt uuid_inj (List.length (balls s)) s) as [(H & _) _];
      [|exact H].
    split; [reflexivity|]. split; assumption. }
  remember (update_state rt s) as s' eqn:Es. unfold update_state in Es.
  set (w0 := {| pool_balls := balls s; pool_randoms := randoms_used s;
                pool_uuids := uuids_used s |}) in *.
  rewrite Hps, step_players_app in Es. rewrite Hps, step_players_app. rewrite Hps in Hinv.
  (* the players before the scorer *)
  pose proof (step_players_loop rt
                (fun ps w => carry_inv (ps ++ (p :: l2) ++ gs) (pool_balls w) /\
                             ids_drawn rt (pool_uuids w) (map Ball.id (pool_balls w)))) as LA.
  assert (SA : forall m1 q m2 w,
             carry_inv ((m1 ++ q :: m2) ++ (p :: l2) ++ gs) (pool_balls w) /\
             ids_drawn rt (pool_uuids w) (map Ball.id (pool_balls w)) ->
             carry_inv ((m1 ++ fst (step_player rt q w) :: m2) ++ (p :: l2) ++ gs)
                       (pool_balls (snd (step_player rt q w))) /\
             ids_drawn rt (pool_uuids (snd (step_player rt q w)))
                       (map Ball.id (pool_balls (snd (step_player rt q w))))).
  { intros m1 q m2 w H. rewrite <- app_assoc in H |- *.
    exact (step_player_carry_inv rt uuid_inj uuid_nonempty m1 (m2 ++ (p :: l2) ++ gs) q w H). }
  specialize (LA SA l1 [] w0). cbn [app] in LA.
  rewrite <- app_assoc in Hinv. specialize (LA (conj Hinv Hdb)).
  pose proof (step_players_uuids_le rt l1 w0) as LeA.
  change (uuids_used s <= pool_uuids (snd (step_players rt l1 w0))) in LeA.
  destruct (step_players rt l1 w0) as [l1' wA]. cbn [fst snd] in LA, LeA, Es |- *.
  destruct LA as [HinvA HdbA].
  (* the scorer *)
  cbn [step_players] in Es |- *.
  pose proof HinvA as [(HndA & HndbA & _) _].
  assert (HcarA : carrying_of (l1' ++ p :: l2 ++ gs) (Player.id p) = Some (Some bid))
    by (rewrite carrying_of_here by exact HndA; congruence).
  destruct (carried_ball_exists _ _ _ _ HinvA HcarA) as [_ HbA]. unfold carrier_of in HbA.
  destruct (map_get Ball.id bid (pool_balls wA)) as [old|] eqn:HgetA; [|discriminate].
  pose proof (scoring_step rt p wA bid old Hc Hne Hgoal Hscore HgetA HndbA
                (ids_drawn_fresh rt uuid_inj _ _ HdbA) (unit_draws _) (unit_draws _)) as HS.
  cbn zeta in HS.
  destruct HS as (_ & Hc1 & _ & (nb0 & HwB & Hid0 & Hfresh0 & Hfree0 & Hfield0) & _ & _).
  pose proof (step_player_tracked rt uuid_inj bid l1' (l2 ++ gs) p wA HinvA HdbA Hc)
    as (HtB & _ & _).
  pose proof (step_player_carry_inv rt uuid_inj uuid_nonempty l1' (l2 ++ gs) p wA
                (conj HinvA HdbA)) as [HinvB HdbB].
  destruct (step_player rt p wA) as [p1 wB]. cbn [fst snd] in Hc1, HwB, HtB, HinvB, HdbB.
  assert (HnbB : map_get Ball.id (Ball.id nb0) (pool_balls wB) = Some nb0).
  { rewrite HwB, map_get_snoc.
    destruct (map_get Ball.id (Ball.id nb0) (map_delete Ball.id bid (follow (move p) (pool_balls wA))))
      as [c|] eqn:E.
    - exfalso. apply Hfresh0. apply map_get_In in E. destruct E as [Hin <-].
      rewrite <- (follow_ids (move p)). eapply map_delete_keys_incl. apply in_map. exact Hin.
    - rewrite String.eqb_refl. reflexivity. }
  (* the players after the scorer *)
  pose proof (step_players_loop rt
                (fun ps w => carry_inv ((l1' ++ [p1]) ++ ps ++ gs) (pool_balls w) /\
                             ids_drawn rt (pool_uuids w) (map Ball.id (pool_balls w)) /\
                             tracked rt bid p1 w /\
                             map_get Ball.id (Ball.id nb0) (pool_balls w) = Some nb0)) as LC.
  assert (SC : forall m1 q m2 w,
             carry_inv ((l1' ++ [p1]) ++ (m1 ++ q :: m2) ++ gs) (pool_balls w) /\
             ids_drawn rt (pool_uuids w) (map Ball.id (pool_balls w)) /\
             tracked rt bid p1 w /\
             map_get Ball.id (Ball.id nb0) (pool_balls w) = Some nb0 ->
             carry_inv ((l1' ++ [p1]) ++ (m1 ++ fst (step_player rt q w) :: m2) ++ gs)
                       (pool_balls (snd (step_player rt q w))) /\
             ids_drawn rt (pool_uuids (snd (step_player rt q w)))
                       (map Ball.id (pool_balls (snd (step_player rt q w)))) /\
             tracked rt bid p1 (snd (step_player rt q w)) /\
             map_get Ball.id (Ball.id nb0) (pool_balls (snd (step_player rt q w))) = Some nb0).
  { intros m1 q m2 w (H1 & H2 & H3 & H4).
    assert (E : forall a, (l1' ++ [p1]) ++ (m1 ++ a :: m2) ++ gs
                          = ((l1' ++ [p1]) ++ m1) ++ a :: (m2 ++ gs))
      by (intros a; repeat rewrite <- app_assoc; reflexivity).
    rewrite E in H1 |- *.
    destruct (step_player_carry_inv rt uuid_inj uuid_nonempty _ _ q w (conj H1 H2)) as [H5 H6].
    split; [exact H5|]. split; [exact H6|]. split.
    - apply (step_player_keeps_tracked rt uuid_inj bid p1 ((l1' ++ [p1]) ++ m1) (m2 ++ gs) q w);
        try assumption.
      apply in_or_app. left. apply in_or_app. left. apply in_or_app. right. left. reflexivity.
    - apply (step_player_keeps_ball rt uuid_inj (Ball.id nb0)
               ((l1' ++ [p1]) ++ m1) (m2 ++ gs) q w nb0); assumption. }
  specialize (LC SC l2 [] wB). cbn [app] in LC.
  assert (HB' : carry_inv ((l1' ++ [p1]) ++ l2 ++ gs) (pool_balls wB))
    by (rewrite <- app_assoc; exact HinvB).
  specialize (LC (conj HB' (conj HdbB (conj HtB HnbB)))).
  destruct (step_players rt l2 wB) as [l2' wC]. cbn [fst snd] in LC, Es |- *.
  destruct LC as (HinvC & HdbC & HtC & HnbC).
  assert (HninC : ~ In bid (map Ball.id (pool_balls wC))).
  { destruct HtC as [(Hx & _)|(_ & H & _)]; [congruence | exact H]. }
  pose proof HinvC as [(HndC & HndbC & HpneC & HbneC) _].
  assert (Hps1ne : Forall (fun q => nonempty (Player.id q)) (l1' ++ p1 :: l2')).
  { rewrite Forall_forall in HpneC |- *. intros q Hq. apply HpneC.
    apply in_app_or in Hq. destruct Hq as [Hq|[Hq|Hq]]; apply in_or_app.
    - left. apply in_or_app. left. exact Hq.
    - left. apply in_or_app. right. left. exact Hq.
    - right. apply in_or_app. left. exact Hq. }
  (* the pickup loop *)
  pose proof HnbC as HinC. apply map_get_In in HinC. destruct HinC as [HinC _].
  destruct (In_nth_error _ _ HinC) as [k Hk].
  pose proof (pickup_players_balls (l1' ++ p1 :: l2') (pool_balls wC) Hps1ne HndbC
                (proj2 (Forall_map _ _ _) HbneC) k nb0 Hk) as Hpick.
  pose proof (pickup_players_ident (l1' ++ p1 :: l2') (pool_balls wC)) as I2.
  pose proof (pickup_players_ids (l1' ++ p1 :: l2') (pool_balls wC)) as B2.
  destruct (pickup_players (l1' ++ p1 :: l2') (pool_balls wC)) as [ps2 bs2].
  cbn [fst snd] in Hpick, I2, B2, Es.
  assert (Hnd2 : NoDup (map Ball.id bs2)) by (rewrite B2; exact HndbC).
  assert (H2 : exists b2,
             map_get Ball.id (Ball.id nb0) bs2 = Some b2 /\ place b2 = place nb0 /\
             (Ball.carriedBy b2 = None \/
              exists q, In q (l1' ++ p1 :: l2') /\ Ball.carriedBy b2 = Some (Player.id q))).
  { destruct Hpick as [[H _]|(j & q & Hq & _ & _ & _ & H)].
    - exists nb0. split; [|split; [reflexivity | left; exact Hfree0]].
      apply (map_get_of_In _ Ball.id bs2 nb0 Hnd2). exact (nth_error_In _ _ H).
    - exists (Ball.set_carriedBy nb0 (Some (Player.id q))).
      split; [|split; [reflexivity | right; exists q; split; [|reflexivity]]].
      + apply (map_get_of_In _ Ball.id bs2 (Ball.set_carriedBy nb0 (Some (Player.id q))) Hnd2).
        exact (nth_error_In _ _ H).
      + exact (nth_error_In _ _ Hq). }
  destruct H2 as (b2 & Hb2 & P2 & C2).
  (* the collision loop *)
  destruct (collisions_keeps (Ball.id nb0) (ps2, bs2) b2 Hb2) as (b3 & Hb3 & P3 & C3).
  pose proof (collisions_ident (ps2, bs2)) as I3.
  pose proof (collisions_ids (ps2, bs2)) as B3.
  destruct (collisions (ps2, bs2)) as [ps3 bs3]. cbn [fst snd] in Hb3, I3, B3, Es.
  subst s'. cbn [players balls uuids_used] in *.
  assert (HninEnd : ~ In bid (map Ball.id bs3)) by (rewrite B3, B2; exact HninC).
  assert (Hfree : forall q, In q ps3 -> Player.carryingBallId q <> Some bid).
  { intros q Hq Hx. destruct (Snd1 q bid Hq Hx) as (b & Hb & Hbid & _).
    apply HninEnd. rewrite <- Hbid. apply in_map. exact Hb. }
  assert (Hplace : place b3 = place nb0) by congruence.
  unfold place in Hplace. injection Hplace as Eid Ex Ey.
  pose proof Hb3 as Hin3. apply map_get_In in Hin3. destruct Hin3 as [Hin3 _].
  assert (Hids : map Player.id ps3 = map Player.id (l1' ++ p1 :: l2')).
  { assert (Hm : forall l : list Player.t,
               map Player.id l = map (fun t => fst (fst t)) (map ident l)).
    { intros l. rewrite map_map. reflexivity. }
    rewrite (Hm ps3), (Hm (l1' ++ p1 :: l2')), I3, I2. reflexivity. }
  exists p', b3.
  split; [|split; [|split; [|split; [|split]]]].
  - split; [exact Hp'|]. split; [exact Hid'|]. split; [exact Hscore'|].
    apply Hfree. exact (nth_error_In _ _ Hp').
  - split; [exact HninEnd|]. apply Forall_forall. exact Hfree.
  - split; [exact Hin3|]. split; [|split].
    + rewrite Eid, Hid0. apply (ids_drawn_fresh rt uuid_inj).
      apply (ids_drawn_mono rt (uuids_used s)); assumption.
    + exists (pool_uuids wA). split; [|rewrite Eid; exact Hid0].
      split; [exact LeA|].
      destruct (HdbEnd (Ball.id b3)) as (k' & Hk' & Ek'); [apply in_map; exact Hin3|].
      rewrite Eid, Hid0 in Ek'. apply uuid_inj in Ek'. lia.
    + rewrite Ex, Ey. exact Hfield0.
  - assert (E : Ball.set_carriedBy b3 None = nb0).
    { destruct b3, nb0. cbn in Eid, Ex, Ey, Hfree0. subst. reflexivity. }
    rewrite E. exact HinC.
  - destruct C3 as [C3|C3]; [|left; exact C3]. rewrite C3.
    destruct C2 as [C2|(q & Hq & C2)]; [left; exact C2|]. right.
    rewrite C2 in C3.
    destruct (Snd3 b3 (Player.id q) Hin3 C3) as [(q' & Hq' & Eq' & Cq')|Hout].
    + exists q'. split; [exact Hq'|]. split; [rewrite Eq'; exact C2 | exact Cq'].
    + exfalso. apply Hout. rewrite Hids. apply in_map. exact Hq.
  - exact Hlen.
Qed.

End Goal.

(** C5, amended. A goal, over one whole tick of a run (with [uuidv4] handing
    out distinct non-empty ids and [Math.random] drawing from [0, 1)). Let a
    stored player carry the ball [bid] before the tick and stand, once the
    movement step of that tick has moved it, inside its own team's goal
    ([isInGoal]), with a score below 2^53. Then after the tick the same
    player is stored at the same index with a score that is exactly one
    higher, and it does not carry [bid]; [bid] is in the pool no more and
    no player carries it; the pool has the size it had; and the pool holds
    a replacement [nb]: its id is a uuid drawn during this tick, which no
    ball had before the tick, and its position lies inside the field
    rectangle. The replacement has no carrier when the scoring loop ends;
    at the end of the tick it has none, or it names a stored player that
    carries it, having picked it up in the pickup loop of the same tick. *)
Theorem goal_is_scored_within_the_tick
  (rt : Runtime) (evs : list Event) (i : nat) (p : Player.t) (bid : string) :
  uuid_injective rt -> (forall k, nonempty (uuidv4 rt k)) ->
  (forall k, unit_draw (random rt k) = true) ->
  nth_error (players (state_after rt evs)) i = Some p ->
  Player.carryingBallId p = Some bid ->
  isInGoal (Player.team p) (Player.x (move p)) (Player.y (move p)) = true ->
  (Player.score p < 2 ^ 53)%Z ->
  let s := state_after rt evs in
  let s' := state_after rt (evs ++ [Tick]) in
  exists (p' : Player.t) (nb : Ball.t),
    (nth_error (players s') i = Some p' /\
     Player.id p' = Player.id p /\
     Player.score p' = (Player.score p + 1)%Z /\
     Player.carryingBallId p' <> Some bid) /\
    (~ In bid (map Ball.id (balls s')) /\
     Forall (fun q => Player.carryingBallId q <> Some bid) (players s')) /\
    (In nb (balls s') /\
     ~ In (Ball.id nb) (map Ball.id (balls s)) /\
     (exists k, uuids_used s <= k < uuids_used s' /\ Ball.id nb = uuidv4 rt k) /\
     in_field (Ball.x nb) (Ball.y nb) = true) /\
    In (Ball.set_carriedBy nb None)
       (pool_balls (snd (step_players rt (players s)
                           {| pool_balls := balls s; pool_randoms := randoms_used s;
                              pool_uuids := uuids_used s |}))) /\
    (Ball.carriedBy nb = None \/
     exists q, In q (players s') /\
               Ball.carriedBy nb = Some (Player.id q) /\
               Player.carryingBallId q = Some (Ball.id nb)) /\
    List.length (balls s') = List.length (balls s).
Proof.
  intros Hinj Hne Hunit Hi Hc Hgoal Hscore s s'. unfold s'.
  rewrite state_after_snoc. cbn [handle update fst].
  apply (update_state_goal rt Hinj Hne Hunit); try assumption.
  apply state_after_ghosted; assumption.
Qed.

(** * The properties at concrete inputs *)

Lemma rt_demo_unit_draws (k : nat) : unit_draw (random rt_demo k) = true.
Proof. unfold rt_demo. cbn [random]. destruct (Nat.even k); vm_compute; reflexivity. Qed.

Lemma far_pair_clear : clear_of_each_other far_pair.
Proof.
  intros i j p q Hij Hi Hj. unfold far_pair in Hi, Hj.
  destruct i as [|[|i]], j as [|[|j]]; cbn [nth_error] in Hi, Hj; try lia;
    try (destruct i; discriminate); try (destruct j; discriminate).
  injection Hi as <-. injection Hj as <-. vm_compute. reflexivity.
Qed.

(** [teams_alternate_by_connection_count] after a run with one connection:
    the next player is on the right team, though nobody is left on the left
    one. *)
Lemma teams_alternate_by_connection_count_witness :
  (Z.of_nat (connections join_and_leave) < 2 ^ 53)%Z /\
  players (state_after rt_demo join_and_leave) = [] /\
  snd (handle rt_demo Connection (state_after rt_demo join_and_leave))
  = [SendInit second_id TeamRight].
Proof.
  assert (H : (Z.of_nat (connections join_and_leave) < 2 ^ 53)%Z) by (vm_compute; reflexivity).
  split; [exact H|]. split; [vm_compute; reflexivity|].
  exact (proj1 (teams_alternate_by_connection_count rt_demo join_and_leave H)).
Defined.

(** [score_rises_exactly_on_a_goal] on [scorer], in its own goal with a
    ball. *)
Lemma score_rises_exactly_on_a_goal_witness :
  nth_error (players (state_of [scorer] (pool_balls scorer_pool))) 0 = Some scorer /\
  score_after_tick scorer = 1%Z /\
  exists p',
    nth_error (players (update_state rt_demo (state_of [scorer] (pool_balls scorer_pool)))) 0
    = Some p' /\
    Player.id p' = Player.id scorer /\ Player.score p' = score_after_tick scorer.
Proof.
  split; [reflexivity|]. split; [vm_compute; reflexivity|].
  apply (score_rises_exactly_on_a_goal rt_demo _ 0 scorer). reflexivity.
Defined.

(** [disconnected_player_never_returns] on the first player, with a new
    player joining after it left. *)
Lemma disconnected_player_never_returns_witness :
  uuid_injective rt_demo /\
  In first_id (map Player.id (players (state_after rt_demo [Connection; Tick]))) /\
  ~ In first_id
      (map Player.id
           (players (state_after rt_demo
                       ([Connection; Tick] ++ Close first_id :: [Connection; Tick])))).
Proof.
  assert (H : In first_id (map Player.id (players (state_after rt_demo [Connection; Tick]))))
    by (vm_compute; left; reflexivity).
  split; [exact uuid_of_injective|]. split; [exact H|].
  exact (proj1 (disconnected_player_never_returns rt_demo [Connection; Tick]
                  [Connection; Tick] first_id uuid_of_injective H)).
Defined.

(** [ball_moves_only_when_carried] on the ball "u", free at (-362.5, 0),
    through the tick in which the first player picks it up. *)
Lemma ball_moves_only_when_carried_witness :
  uuid_injective rt_demo /\
  map_get Ball.id "u" (balls (state_after rt_demo [Connection]))
  = Some (ball_at "u" (-362.5) 0 None) /\
  carrier_of (balls (state_after rt_demo ([Connection] ++ [Tick]))) "u"
  = Some (Some first_id) /\
  exists b', map_get Ball.id "u" (balls (state_after rt_demo ([Connection] ++ [Tick])))
             = Some b' /\
             Ball.x b' = (-362.5)%float /\ Ball.y b' = 0%float.
Proof.
  assert (H : map_get Ball.id "u" (balls (state_after rt_demo [Connection]))
              = Some (ball_at "u" (-362.5) 0 None)) by (vm_compute; reflexivity).
  split; [exact uuid_of_injective|]. split; [exact H|]. split; [vm_compute; reflexivity|].
  apply (ball_moves_only_when_carried rt_demo [Connection] Tick "u" _ uuid_of_injective H).
  vm_compute. repeat constructor. discriminate.
Defined.

(** [carry_relation_in_every_state] after a player left with a ball and
    another one joined. *)
Lemma carry_relation_in_every_state_witness :
  uuid_injective rt_demo /\
  carry_sound (state_after rt_demo (join_and_leave ++ [Connection; Tick])).
Proof.
  split; [exact uuid_of_injective|].
  apply (carry_relation_in_every_state rt_demo _ uuid_of_injective uuid_of_nonempty).
Defined.

(** [carried_ball_follows_its_carrier] on the first player, which walks
    left with the ball "u". *)
Lemma carried_ball_follows_its_carrier_witness :
  let evs := [Connection; Tick; Message first_id (Some go_left)] in
  nth_error (players (state_after rt_demo evs)) 0 = Some carrier_before /\
  nth_error (players (state_after rt_demo (evs ++ [Tick]))) 0 = Some carrier_after /\
  ball_at_place "u" (-363) 0 (balls (state_after rt_demo (evs ++ [Tick]))).
Proof.
  intros evs.
  assert (H1 : nth_error (players (state_after rt_demo evs)) 0 = Some carrier_before)
    by (vm_compute; reflexivity).
  assert (H2 : nth_error (players (state_after rt_demo (evs ++ [Tick]))) 0 = Some carrier_after)
    by (vm_compute; reflexivity).
  split; [exact H1|]. split; [exact H2|].
  exact (proj1 (carried_ball_follows_its_carrier rt_demo evs 0 carrier_before carrier_after "u"
                  uuid_of_injective uuid_of_nonempty H1 eq_refl H2 eq_refl)).
Defined.

(** [no_overlap_no_collision] on two players 33 apart. *)
Lemma no_overlap_no_collision_witness :
  clear_of_each_other far_pair /\ collisions (far_pair, []) = (far_pair, []).
Proof.
  split; [exact far_pair_clear|]. apply no_overlap_no_collision. exact far_pair_clear.
Defined.

(** [snapshot_lists_each_entity_once] on the snapshot of the first tick. *)
Lemma snapshot_lists_each_entity_once_witness :
  let payload := broadcastState (state_after rt_demo [Connection; Tick]) in
  uuid_injective rt_demo /\
  In payload (snapshots rt_demo [Connection; Tick]) /\
  List.length (payload_balls payload) = BALL_COUNT /\
  List.length (payload_players payload) = 1.
Proof.
  intros payload.
  assert (H : In payload (snapshots rt_demo [Connection; Tick]))
    by (vm_compute; left; reflexivity).
  split; [exact uuid_of_injective|]. split; [exact H|].
  split; [|vm_compute; reflexivity].
  exact (proj1 (snapshot_lists_each_entity_once rt_demo [Connection; Tick] payload
                  uuid_of_injective H)).
Defined.

(** [startup_pool_is_fresh] on the concrete runtime. *)
Lemma startup_pool_is_fresh_witness :
  uuid_injective rt_demo /\
  unit_draw (random rt_demo 0) = true /\
  Forall fresh_ball (balls (initial_state rt_demo)).
Proof.
  split; [exact uuid_of_injective|]. split; [vm_compute; reflexivity|].
  apply (startup_pool_is_fresh rt_demo uuid_of_injective rt_demo_unit_draws).
Defined.

(** [server_direction_mirrors_the_keys] on [some_keys]: w is held at the
    end, the server stores "up"; the key x sends nothing. *)
Lemma server_direction_mirrors_the_keys_witness :
  let s := state_after rt_demo [Connection] in
  map_get Player.id first_id (players s) = Some (createPlayer first_id TeamLeft) /\
  direction_of first_id (deliver rt_demo first_id (snd (Client.inputs some_keys idle_client)) s)
  = Some (0%float, (-1)%float) /\
  Client.onInput (Client.keydown "x") idle_client = (idle_client, []).
Proof.
  intros s.
  assert (H : map_get Player.id first_id (players s) = Some (createPlayer first_id TeamLeft))
    by (vm_compute; reflexivity).
  assert (Hne : snd (Client.inputs some_keys idle_client) <> [])
    by (vm_compute; discriminate).
  destruct (server_direction_mirrors_the_keys rt_demo first_id some_keys idle_client s _
              eq_refl eq_refl H Hne) as [[H1 _] H2].
  split; [exact H|]. split; [exact H1|].
  apply (H2 "x"%string idle_client). cbn [In].
  intros [E|[E|[E|[E|[E|[E|[E|[E|[]]]]]]]]]; discriminate E.
Defined.

(** [keyboard_player_stays_in_bounds] on a player that stands outside the
    inset field. *)
Lemma keyboard_player_stays_in_bounds_witness :
  in_bounds pushed_out = false /\ in_bounds (move pushed_out) = true.
Proof.
  split; [vm_compute; reflexivity|].
  apply (keyboard_player_stays_in_bounds pushed_out false true false false); reflexivity.
Defined.

(** [input_is_coerced_and_clamped] on [input_half]: 5 is stored as 1, the
    missing [y] as NaN; and on [input_unconvertible]: logged, nothing
    stored. *)
Lemma input_is_coerced_and_clamped_witness :
  let s := state_after rt_demo [Connection] in
  JS.get input_half "type" = JS.Str "input" /\
  direction_of first_id (fst (onMessage rt_demo first_id (Some input_half) s))
  = Some (1%float, nan) /\
  onMessage rt_demo first_id (Some input_unconvertible) s = (s, [ConsoleError]).
Proof.
  intros s.
  assert (Hp : map_get Player.id first_id (players s)
               = Some (createPlayer first_id TeamLeft)) by (vm_compute; reflexivity).
  split; [reflexivity|]. split.
  - destruct (input_is_coerced_and_clamped rt_demo first_id input_half s _ eq_refl Hp)
      as (nx & ny & Hx & Hy & Hm & _).
    rewrite Hm. injection Hx as <-. injection Hy as <-. vm_compute. reflexivity.
  - exact (input_is_coerced_and_clamped rt_demo first_id input_unconvertible s _ eq_refl Hp).
Defined.

(** [touch_steers_until_any_release] on the left button. *)
Lemma touch_steers_until_any_release_witness :
  let s := state_after rt_demo [Connection] in
  Client.socket_open idle_client = true /\
  direction_of first_id
    (deliver rt_demo first_id (snd (Client.onInput (Client.touchstart Client.leftBtn) idle_client)) s)
  = Some ((-1)%float, 0%float).
Proof.
  intros s. split; [reflexivity|].
  refine (proj1 (touch_steers_until_any_release rt_demo first_id Client.leftBtn idle_client s
                   (createPlayer first_id TeamLeft) eq_refl _)).
  vm_compute. reflexivity.
Defined.

(** [ball_of_a_leaver_is_lost_for_good] on the first player, which leaves
    with the ball "u"; a second player then joins on the spot. *)
Lemma ball_of_a_leaver_is_lost_for_good_witness :
  carrying_of (players (state_after rt_demo [Connection; Tick])) first_id = Some (Some "u"%string) /\
  carrier_of (balls (state_after rt_demo
                       ([Connection; Tick] ++ Close first_id :: [Connection; Tick; Tick])))
             "u" = Some (Some first_id).
Proof.
  assert (H : carrying_of (players (state_after rt_demo [Connection; Tick])) first_id
              = Some (Some "u"%string)) by (vm_compute; reflexivity).
  split; [exact H|].
  apply (ball_of_a_leaver_is_lost_for_good rt_demo _ _ first_id "u"
           uuid_of_injective uuid_of_nonempty H).
Defined.

(** [goal_is_scored_within_the_tick] on the run [run_to_goal]: the first
    player carries the ball "u" to the edge of its goal and scores in the
    next tick. *)
Lemma goal_is_scored_within_the_tick_witness :
  let p := Player.set_pos carrier_before (-378)%float 0%float in
  let s' := state_after rt_demo (run_to_goal ++ [Tick]) in
  (nth_error (players (state_after rt_demo run_to_goal)) 0 = Some p /\
   isInGoal (Player.team p) (Player.x (move p)) (Player.y (move p)) = true) /\
  exists p' nb,
    nth_error (players s') 0 = Some p' /\
    Player.score p' = 1%Z /\
    Player.carryingBallId p' <> Some "u"%string /\
    ~ In "u"%string (map Ball.id (balls s')) /\
    In nb (balls s') /\
    in_field (Ball.x nb) (Ball.y nb) = true.
Proof.
  intros p s'.
  assert (Hi : nth_error (players (state_after rt_demo run_to_goal)) 0 = Some p)
    by (vm_compute; reflexivity).
  assert (Hg : isInGoal (Player.team p) (Player.x (move p)) (Player.y (move p)) = true)
    by (vm_compute; reflexivity).
  split; [split; assumption|].
  destruct (goal_is_scored_within_the_tick rt_demo run_to_goal 0 p "u"
              uuid_of_injective uuid_of_nonempty rt_demo_unit_draws Hi eq_refl Hg)
    as (p' & nb & (A1 & _ & A3 & A4) & (B1 & _) & (C1 & _ & _ & C4) & _).
  - vm_compute. reflexivity.
  - exists p', nb.
    split; [exact A1|]. split; [exact A3|]. split; [exact A4|]. split; [exact B1|].
    split; [exact C1 | exact C4].
Defined.

Lemma ascii_magic : GLTF.decode ascii_decoder GLB.magic = "glTF"%string.
Proof. reflexivity. Qed.

Lemma version_2 : (2 <= 2 < 2 ^ 32)%N.
Proof. split; [apply N.le_refl | reflexivity]. Qed.

(** [container_is_read_chunk_by_chunk] on [small_glb] followed by a stray
    byte. *)
Lemma container_is_read_chunk_by_chunk_witness :
  GLB.aligned [json_chunk; bin_chunk] /\
  GLB.read ascii_decoder [json_chunk; bin_chunk] JS.Undefined None
  = GLTF.Parser (JS.Object []) (Some [Byte.x01; Byte.x02; Byte.x03; Byte.x04]) /\
  GLTF.parse ascii_decoder
             (GLTF.Buffer (GLB.container 2 [json_chunk; bin_chunk] ++ [Byte.xff]))
  = GLB.read ascii_decoder [json_chunk; bin_chunk] JS.Undefined None.
Proof.
  assert (Hal : GLB.aligned [json_chunk; bin_chunk])
    by (repeat constructor).
  split; [exact Hal|]. split; [reflexivity|].
  apply (container_is_read_chunk_by_chunk ascii_decoder 2 [json_chunk; bin_chunk] [Byte.xff]
           ascii_magic version_2 Hal).
  reflexivity.
Defined.

(** [short_buffer_is_a_range_error] on the three bytes of a JSON text. *)
Lemma short_buffer_is_a_range_error_witness :
  (GLTF.byteLength [Byte.x7b; Byte.x7d; Byte.x20] < 4)%N /\
  GLTF.parse ascii_decoder (GLTF.Buffer [Byte.x7b; Byte.x7d; Byte.x20])
  = GLTF.Throw GLTF.RangeError.
Proof.
  assert (H : (GLTF.byteLength [Byte.x7b; Byte.x7d; Byte.x20] < 4)%N) by reflexivity.
  split; [exact H|].
  apply (short_buffer_is_a_range_error ascii_decoder [Byte.x7b; Byte.x7d; Byte.x20]).
  left. exact H.
Defined.

(** [old_version_is_rejected] on version 1 of [small_glb]. *)
Lemma old_version_is_rejected_witness :
  GLTF.parse ascii_decoder
             (GLTF.Buffer (GLB.magic ++ GLB.word 1 ++ GLB.word 36
                             ++ GLB.body [json_chunk; bin_chunk]))
  = GLTF.Throw GLTF.OnlyVersion2.
Proof.
  apply (old_version_is_rejected ascii_decoder 1 36 (GLB.body [json_chunk; bin_chunk])
           ascii_magic); reflexivity.
Defined.

(** [container_without_json_fails] on a container with a BIN chunk only. *)
Lemma container_without_json_fails_witness :
  Forall (fun c => GLB.is_json c = false) [bin_chunk] /\
  GLTF.parse ascii_decoder (GLTF.Buffer (GLB.container 2 [bin_chunk] ++ []))
  = GLTF.Throw GLTF.FailedToParse.
Proof.
  assert (Hno : Forall (fun c => GLB.is_json c = false) [bin_chunk])
    by (repeat constructor).
  split; [exact Hno|].
  apply (container_without_json_fails ascii_decoder 2 [bin_chunk] [] ascii_magic version_2);
    [repeat constructor | reflexivity | exact Hno].
Defined.

(** [unknown_chunks_are_ignored] on [small_glb] with a chunk of another
    type between its two chunks. *)
Lemma unknown_chunks_are_ignored_witness :
  filter GLB.known [json_chunk; other_chunk; bin_chunk] = [json_chunk; bin_chunk] /\
  GLTF.parse ascii_decoder
             (GLTF.Buffer (GLB.container 2 (filter GLB.known [json_chunk; other_chunk; bin_chunk])
                             ++ []))
  = GLTF.parse ascii_decoder
               (GLTF.Buffer (GLB.container 2 [json_chunk; other_chunk; bin_chunk] ++ [])).
Proof.
  split; [reflexivity|].
  apply (unknown_chunks_are_ignored ascii_decoder 2 [json_chunk; other_chunk; bin_chunk] [] []
           ascii_magic version_2);
    [repeat constructor | reflexivity].
Defined.

(** [truncated_binary_chunk_is_accepted] on [small_glb] without its last
    two bytes. *)
Lemma truncated_binary_chunk_is_accepted_witness :
  GLB.read ascii_decoder
           ([json_chunk] ++ [(GLTF.BIN_CHUNK, firstn (List.length (snd bin_chunk) - 2)
                                                     (snd bin_chunk))])
           JS.Undefined None
  = GLTF.Parser (JS.Object []) (Some [Byte.x01; Byte.x02]) /\
  GLTF.parse ascii_decoder
    (GLTF.Buffer
       (firstn (List.length (GLB.container 2 ([json_chunk] ++ [(GLTF.BIN_CHUNK, snd bin_chunk)]))
                - 2)
               (GLB.container 2 ([json_chunk] ++ [(GLTF.BIN_CHUNK, snd bin_chunk)]))))
  = GLB.read ascii_decoder
             ([json_chunk] ++ [(GLTF.BIN_CHUNK, firstn (List.length (snd bin_chunk) - 2)
                                                       (snd bin_chunk))])
             JS.Undefined None.
Proof.
  split; [reflexivity|].
  apply (truncated_binary_chunk_is_accepted ascii_decoder 2 [json_chunk] (snd bin_chunk) 2
           ascii_magic version_2);
    [repeat constructor | reflexivity | simpl; lia].
Defined.

(** [truncated_json_chunk_is_a_range_error] on a container with one JSON
    chunk, without its last byte. *)
Lemma truncated_json_chunk_is_a_range_error_witness :
  GLTF.parse ascii_decoder
    (GLTF.Buffer
       (firstn (List.length (GLB.container 2 ([] ++ [(GLTF.JSON_CHUNK, snd json_chunk)])) - 1)
               (GLB.container 2 ([] ++ [(GLTF.JSON_CHUNK, snd json_chunk)]))))
  = GLTF.Throw GLTF.RangeError.
Proof.
  apply (truncated_json_chunk_is_a_range_error ascii_decoder 2 [] (snd json_chunk) 1
           ascii_magic version_2);
    [constructor | reflexivity | constructor | simpl; lia].
Defined.

(** [turn_is_rate_limited] on a turn from 0 towards 3 in half a second:
    the model turns by 1.5. *)
Lemma turn_is_rate_limited_witness :
  Rotation.interpolateRotation 0 (Some 3%float) 0.5 = 1.5%float /\
  Rotation.interpolateRotation 0 (Some 3%float) 0.5
  = (0 + Rotation.actualRotation 0 3 0.5)%float /\
  PrimFloat.leb (abs (Rotation.actualRotation 0 3 0.5)) (Rotation.ROTATION_SPEED * 0.5)%float
  = true.
Proof.
  split; [vm_compute; reflexivity|].
  apply (turn_is_rate_limited 0 3 0.5); vm_compute; reflexivity.
Defined.

(** [turn_within_budget_is_made_at_once] on a turn from 3 to -3, which is
    short the other way round, in a quarter of a second. *)
Lemma turn_within_budget_is_made_at_once_witness :
  PrimFloat.ltb 3 (Rotation.interpolateRotation 3 (Some (-3)%float) 0.25) = true /\
  Rotation.interpolateRotation 3 (Some (-3)%float) 0.25
  = (3 + Rotation.shortest (-3 - 3))%float.
Proof.
  split; [vm_compute; reflexivity|].
  apply (turn_within_budget_is_made_at_once 3 (-3) 0.25); vm_compute; reflexivity.
Defined.
